(** * onchain-git: pack parser, object storage and reference commands

    A shallow embedding of
      - [x/gitService/msgs.go]                          (module [GitService]),
      - [go-git.v4/storage/filesystem/object.go]        (module [Filesystem]),
      - [go-git.v4/plumbing/format/packfile/parser.go]  (module [Packfile]),
    together with the properties of these three files that the
    specification states.

    Go values are modelled as follows.  A [plumbing.Hash] ([[20]byte]) is
    the 160-bit number its bytes spell, a byte slice is a [list byte], an
    [int64] is a [Z], a [uint32] is an [N].  A Go function returning
    [(T, error)] returns a [result T]; a nil-pointer dereference or a write
    to a nil map is the outcome [Panic].  Pointers to [objectInfo] are
    indices into an arena, so that the aliasing between [p.oi],
    [p.oiByHash], [p.oiByOffset], [Parent] and [Children] is kept. *)

From Stdlib Require Import ZArith NArith List String Bool Lia.
From Stdlib.Strings Require Import Byte.
From stdpp Require Import base option list gmap strings.

Local Open Scope Z_scope.

(* ===================================================================== *)
(** * plumbing: hashes, object types, errors                              *)
(* ===================================================================== *)

Module Plumbing.

(** [plumbing.Hash]: 20 bytes, read as one big-endian number. *)
Definition Hash := N.

(** [plumbing.ZeroHash]: twenty zero bytes. *)
Definition ZeroHash : Hash := 0%N.

Definition bytes := list Byte.byte.

(** [plumbing.ObjectType]. [InvalidObject] is the zero value of the Go
    type; [OFSDeltaObject] and [REFDeltaObject] are the disk-only types;
    [AnyObject] is the query wildcard. *)
Inductive ObjectType :=
| InvalidObject
| CommitObject
| TreeObject
| BlobObject
| TagObject
| OFSDeltaObject
| REFDeltaObject
| AnyObject.

#[global] Instance ObjectType_eq_dec : EqDecision ObjectType.
Proof. solve_decision. Defined.

(** [func (t ObjectType) IsDelta() bool] *)
Definition IsDelta (t : ObjectType) : bool :=
  match t with
  | OFSDeltaObject | REFDeltaObject => true
  | _ => false
  end.

(** The error values that the embedded code creates or compares with
    [==], and [ErrOther] for every other error value (an I/O failure, an
    error made up by an observer, ...). *)
Inductive error :=
| ErrObjectNotFound          (* plumbing.ErrObjectNotFound *)
| ErrInvalidType             (* plumbing.ErrInvalidType *)
| ErrReferenceDeltaNotFound  (* packfile.ErrReferenceDeltaNotFound *)
| ErrNotSeekableSource       (* packfile.ErrNotSeekableSource *)
| ErrDeltaNotCached          (* packfile.ErrDeltaNotCached *)
| ErrNotExist                (* an error for which os.IsNotExist holds *)
| EOF                        (* io.EOF *)
| ErrOther (msg : string).

#[global] Instance error_eq_dec : EqDecision error.
Proof. solve_decision. Defined.

(** [os.IsNotExist(err)] *)
Definition IsNotExist (e : error) : bool :=
  match e with ErrNotExist => true | _ => false end.

(** Outcome of a Go call returning [(T, error)].  [Panic] is a run-time
    panic. *)
Inductive result (A : Type) :=
| Ok (a : A)
| Err (e : error)
| Panic (why : string).
Arguments Ok {A} a.
Arguments Err {A} e.
Arguments Panic {A} why.

(** [plumbing.MemoryObject]: type, cached hash, content and size.
    Modelled from the spec: the in-memory writable object that
    [NewEncodedObject] returns ([memory.go] is not part of the sources
    at hand).  [mo_h] is the hash that [Hash()] has computed, the zero
    hash as long as it has computed none. *)
Record MemoryObject := {
  mo_t : ObjectType;
  mo_h : Hash;
  mo_cont : bytes;
  mo_sz : Z
}.

(** [obj.SetSize(sz); obj.SetType(t); obj.Write(data)] on a fresh
    object: [Write] appends [data] and resets the size to the length of
    the content, also when [data] is empty. *)
Definition newMemoryObject (sz : Z) (t : ObjectType) (data : bytes) : MemoryObject :=
  {| mo_t := t; mo_h := ZeroHash; mo_cont := data; mo_sz := Z.of_nat (length data) |}.

(** [obj.SetType(t); obj.SetSize(sz); w, _ := obj.Writer(); io.Copy(w, r)]
    on a fresh object, for a reader [r] that delivers [data]:
    [io.Copy] calls [Write] only with the bytes it has read, so over
    an empty payload [Write] is not called and the size stays the one
    that [SetSize] gave. *)
Definition copiedMemoryObject (sz : Z) (t : ObjectType) (data : bytes) : MemoryObject :=
  {| mo_t := t; mo_h := ZeroHash; mo_cont := data;
     mo_sz := match data with [] => sz | _ => Z.of_nat (length data) end |}.

End Plumbing.

(* ===================================================================== *)
(** * x/gitService/msgs.go                                                *)
(* ===================================================================== *)

Module GitService.
Import Plumbing.
Local Open Scope string_scope.

(** [type UpdateReferenceCommand struct] *)
Record UpdateReferenceCommand := {
  Name : string;
  Old : Hash;
  New : Hash
}.

(** [type UpdateReferenceAction string] and its four constants. *)
Definition UpdateReferenceAction := string.
Definition CreateAction : UpdateReferenceAction := "create".
Definition UpdateAction : UpdateReferenceAction := "update".
Definition DeleteAction : UpdateReferenceAction := "delete".
Definition InvalidAction : UpdateReferenceAction := "invalid".

(** [func (c *UpdateReferenceCommand) Action() UpdateReferenceAction] *)
Definition Action (c : UpdateReferenceCommand) : UpdateReferenceAction :=
  if (Old c =? ZeroHash)%N && (New c =? ZeroHash)%N then InvalidAction
  else if (Old c =? ZeroHash)%N then CreateAction
  else if (New c =? ZeroHash)%N then DeleteAction
  else UpdateAction.

(** [func (c *UpdateReferenceCommand) validate() error] *)
Definition validate (c : UpdateReferenceCommand) : option error :=
  if String.eqb (Action c) InvalidAction
  then Some (ErrOther "Malformed command")
  else None.

(** ** The messages *)

(** [sdk.AccAddress]: a byte slice. *)
Definition AccAddress := bytes.

(** The two [sdk.Error]s that the messages make. *)
Inductive sdkError :=
| ErrInvalidAddress (msg : string)   (* sdk.ErrInvalidAddress(msg) *)
| ErrUnknownRequest (msg : string).  (* sdk.ErrUnknownRequest(msg) *)

(** [packp.Command] and [packp.ReferenceUpdateRequest], with the
    fields that [msgs.go] reads.  [Commands] is a slice of pointers: a
    nil pointer is [None]. *)
Record Command := {
  cmd_Name : string;
  cmd_Old : Hash;
  cmd_New : Hash
}.

Record ReferenceUpdateRequest := {
  req_Commands : list (option Command);
  req_Shallow : option Hash
}.

(** [type MsgUpdateReferences struct] *)
Record MsgUpdateReferences := {
  URI : string;
  Author : AccAddress;
  Commands : list (option UpdateReferenceCommand);
  Shallow : option Hash;
  Packfile : bytes
}.

(** [type MsgRemoveRepository struct] *)
Record MsgRemoveRepository := {
  rm_URI : string;
  rm_Author : AccAddress
}.

Section Messages.
(** [Empty()] and [String()] of [sdk.AccAddress] are not part of the
    sources at hand; the messages are embedded over any two such
    functions. *)
Variable Empty : AccAddress -> bool.
Variable AddressString : AccAddress -> string.

(** [func (msg MsgUpdateReferences) ValidateBasic() sdk.Error] *)
Definition ValidateBasic (msg : MsgUpdateReferences) : option sdkError :=
  if Empty (Author msg) then Some (ErrInvalidAddress (AddressString (Author msg)))
  else if (String.length (URI msg) =? 0)%nat then Some (ErrUnknownRequest "URI cannot be empty")
  else if (length (Commands msg) =? 0)%nat then Some (ErrUnknownRequest "Commands cannot be empty")
  else None.

(** The loop of [NewMsgUpdateReferences]: a command of the request is
    read through its pointer and copied. *)
Fixpoint copyCommands (cs : list (option Command)) (cmds : list (option UpdateReferenceCommand))
  : result (list (option UpdateReferenceCommand)) :=
  match cs with
  | [] => Ok cmds
  | None :: _ => Panic "invalid memory address or nil pointer dereference"
  | Some cmd :: rest =>
      copyCommands rest
        (cmds ++ [Some {| Name := cmd_Name cmd; Old := cmd_Old cmd; New := cmd_New cmd |}])
  end.

(** [func NewMsgUpdateReferences(uri, req, packfile, author)]: the
    message is returned also when [ValidateBasic] objects. *)
Definition NewMsgUpdateReferences (uri : string) (req : ReferenceUpdateRequest)
    (packfile : bytes) (author : AccAddress)
  : result (MsgUpdateReferences * option sdkError) :=
  match copyCommands (req_Commands req) [] with
  | Ok cmds =>
      let msg := {| URI := uri; Author := author; Commands := cmds;
                    Shallow := req_Shallow req; Packfile := packfile |} in
      Ok (msg, ValidateBasic msg)
  | Err e => Err e
  | Panic w => Panic w
  end.

(** [func (msg MsgUpdateReferences) Route()], [Type()], [GetSigners()] *)
Definition Route (msg : MsgUpdateReferences) : string := "gitService".
Definition Type_ (msg : MsgUpdateReferences) : string := "push".
Definition GetSigners (msg : MsgUpdateReferences) : list AccAddress := [Author msg].

(** [func (msg MsgRemoveRepository) ValidateBasic() sdk.Error] *)
Definition rm_ValidateBasic (msg : MsgRemoveRepository) : option sdkError :=
  if Empty (rm_Author msg) then Some (ErrInvalidAddress (AddressString (rm_Author msg)))
  else if (String.length (rm_URI msg) =? 0)%nat then Some (ErrUnknownRequest "URI cannot be empty")
  else None.

(** [func NewMsgRemoveRepository(uri, author)] *)
Definition NewMsgRemoveRepository (uri : string) (author : AccAddress)
  : MsgRemoveRepository * option sdkError :=
  let msg := {| rm_URI := uri; rm_Author := author |} in
  (msg, rm_ValidateBasic msg).

(** [func (msg MsgRemoveRepository) Route()], [Type()], [GetSigners()] *)
Definition rm_Route (msg : MsgRemoveRepository) : string := "gitService".
Definition rm_Type (msg : MsgRemoveRepository) : string := "removeRepository".
Definition rm_GetSigners (msg : MsgRemoveRepository) : list AccAddress := [rm_Author msg].

End Messages.

End GitService.

(* ===================================================================== *)
(** * storage/filesystem/object.go                                        *)
(* ===================================================================== *)

Module Filesystem.
Import Plumbing.

(** The [result] monad: a non-[Ok] outcome is passed on as it is. *)
Definition rbind {A B} (m : result A) (f : A -> result B) : result B :=
  match m with
  | Ok a => f a
  | Err e => Err e
  | Panic w => Panic w
  end.

(** [defer ioutil.CheckClose(c, &err)] around a body whose outcome is
    [r]: the error of [c.Close()] becomes the function's error when the
    body itself had none. [c] is the outcome of [Close()]. *)
Definition CheckClose {A} (c : option error) (r : result A) : result A :=
  match r, c with
  | Ok _, Some e => Err e
  | _, _ => r
  end.

(** ** The collaborators of [ObjectStorage]

    [dotgit], [objfile], [idxfile], [packfile.Packfile] and [cache] are
    not part of the sources at hand.  Each is taken as what its calls
    answer: a record of outcomes, one field per call that [object.go]
    makes. *)

(** [objfile.Reader] over an opened loose file: the outcome of
    [Header()], of copying its payload with [io.Copy], of [Close()]. *)
Record ObjReader := {
  r_Header : result (ObjectType * Z);
  r_Copy : result bytes;
  r_Close : option error
}.

(** The [billy.File] that [dir.Object(h)] opens: the outcome of
    [objfile.NewReader(f)] and of [f.Close()]. *)
Record LooseFile := {
  lf_NewReader : result ObjReader;
  lf_Close : option error
}.

(** [idxfile.Index] *)
Record Index := {
  FindOffset : Hash -> result Z;
  FindHash : Z -> result Hash
}.

(** The file that [dir.ObjectPackIdx(h)] opens: the outcome of decoding
    it into a [MemoryIndex] and of [Close()]. *)
Record IdxFile := {
  idx_Decode : result Index;
  idx_Close : option error
}.

(** The file that [dir.ObjectPack(h)] opens, seen through
    [packfile.NewPackfile]: [GetByOffset], [GetSizeByOffset], and the
    outcome of [Close()]. *)
Record PackFile := {
  GetByOffset : Z -> result MemoryObject;
  GetSizeByOffset : Z -> result Z;
  pf_Close : option error
}.

(** [cache.Object], read side: [Get(hash)]. *)
Definition ObjectCache := Hash -> option MemoryObject.

(** [dotgit.DotGit]: an object directory.  The directories that its
    [info/alternates] file names are object directories again; the
    model takes them as a finite tree. *)
#[warnings="-register-all"]
Inductive DotGit := mkDotGit {
  Object : Hash -> result LooseFile;
  ObjectPacks : result (list Hash);
  ObjectPackIdx : Hash -> result IdxFile;
  ObjectPack : Hash -> result PackFile;
  Alternates : result (list DotGit)
}.

Record Options := { KeepDescriptors : bool }.

(** [type ObjectStorage struct].  [index] is [None] for the nil map.
    The map is an association list without repeated keys; the order
    of the list is not the order of a [range] over the map, which is
    a [RangeOrder] given to every loop (see [findObjectInPackfile]). *)
Record ObjectStorage := {
  options : Options;
  deltaBaseCache : option ObjectCache;
  dir : DotGit;
  index : option (list (Hash * Index))
}.

Definition set_index (s : ObjectStorage) (i : option (list (Hash * Index))) : ObjectStorage :=
  {| options := options s; deltaBaseCache := deltaBaseCache s; dir := dir s; index := i |}.

(** [func NewObjectStorage(dir, cache)] *)
Definition NewObjectStorage (d : DotGit) (c : option ObjectCache) : ObjectStorage :=
  {| options := {| KeepDescriptors := false |}; deltaBaseCache := c; dir := d; index := None |}.

(** [m[h] = v] and [m[h]] on the association list. *)
Fixpoint index_insert (h : Hash) (v : Index) (m : list (Hash * Index)) : list (Hash * Index) :=
  match m with
  | [] => [(h, v)]
  | (k, w) :: rest => if (k =? h)%N then (h, v) :: rest else (k, w) :: index_insert h v rest
  end.

Fixpoint index_lookup (h : Hash) (m : list (Hash * Index)) : option Index :=
  match m with
  | [] => None
  | (k, w) :: rest => if (k =? h)%N then Some w else index_lookup h rest
  end.

(** [func (s *ObjectStorage) loadIdxFile(h)] *)
Definition loadIdxFile (s : ObjectStorage) (h : Hash) : result unit * ObjectStorage :=
  match ObjectPackIdx (dir s) h with
  | Ok f =>
      match idx_Decode f with
      | Ok idxf =>
          match index s with
          | Some m => (CheckClose (idx_Close f) (Ok tt), set_index s (Some (index_insert h idxf m)))
          | None => (Panic "assignment to entry in nil map"%string, s)
          end
      | Err e => (Err e, s)
      | Panic w => (Panic w, s)
      end
  | Err e => (Err e, s)
  | Panic w => (Panic w, s)
  end.

Fixpoint loadIdxFiles (packs : list Hash) (s : ObjectStorage) : result unit * ObjectStorage :=
  match packs with
  | [] => (Ok tt, s)
  | h :: rest =>
      match loadIdxFile s h with
      | (Ok _, s') => loadIdxFiles rest s'
      | (r, s') => (r, s')
      end
  end.

(** [func (s *ObjectStorage) requireIndex()] *)
Definition requireIndex (s : ObjectStorage) : result unit * ObjectStorage :=
  match index s with
  | Some _ => (Ok tt, s)
  | None =>
      let s0 := set_index s (Some []) in
      match ObjectPacks (dir s0) with
      | Ok packs => loadIdxFiles packs s0
      | Err e => (Err e, s0)
      | Panic w => (Panic w, s0)
      end
  end.

(** The order in which one [for ... := range s.index] visits the
    entries of the map.  Go leaves it unspecified, and it can differ
    from one loop to the next: every loop over the map is given its
    own order, any rearrangement of the entries. *)
Record RangeOrder := {
  ranged :> list (Hash * Index) -> list (Hash * Index);
  ranged_perm : forall m, ranged m ≡ₚ m
}.

(** The orders of the loops of one call of [EncodedObject]: its own
    loop over [s.index] is given the order at [[]], the call on the
    alternate at position [i] those at [i :: path]. *)
Definition RangeOrders := list nat -> RangeOrder.

Definition alternate (i : nat) (orders : RangeOrders) : RangeOrders :=
  fun path => orders (i :: path).

(** [func (s *ObjectStorage) findObjectInPackfile(h)].  The function
    has no error result: the outcome is [Ok] of its three results, or
    the panic of a call of [FindOffset].  [findIn] is the loop over
    the entries in the order in which they are visited. *)
Fixpoint findIn (m : list (Hash * Index)) (h : Hash) : result (Hash * Hash * Z) :=
  match m with
  | [] => Ok (ZeroHash, ZeroHash, -1)
  | (packfile, idx) :: rest =>
      match FindOffset idx h with
      | Ok offset => Ok (packfile, h, offset)
      | Err _ => findIn rest h
      | Panic w => Panic w
      end
  end.

Definition findObjectInPackfile (order : RangeOrder) (s : ObjectStorage) (h : Hash)
  : result (Hash * Hash * Z) :=
  match index s with
  | Some m => findIn (order m) h
  | None => Ok (ZeroHash, ZeroHash, -1)
  end.

(** [func (s *ObjectStorage) HasEncodedObject(h)] *)
Definition HasEncodedObject (order : RangeOrder) (s : ObjectStorage) (h : Hash)
  : result unit * ObjectStorage :=
  let packed (_ : unit) :=
    match requireIndex s with
    | (Ok _, s') =>
        (rbind (findObjectInPackfile order s' h) (fun '(_, _, offset) =>
           if offset =? -1 then Err ErrObjectNotFound else Ok tt), s')
    | (r, s') => (r, s')
    end in
  match Object (dir s) h with
  | Ok f => (CheckClose (lf_Close f) (Ok tt), s)
  | Err e => if negb (IsNotExist e) then (Err e, s) else packed tt
  | Panic w => (Panic w, s)
  end.

(** [func (s *ObjectStorage) getFromUnpacked(h)].  The object is a
    fresh [MemoryObject] given the header's type and size and then the
    payload through its [Writer]. *)
Definition getFromUnpacked (s : ObjectStorage) (h : Hash) : result MemoryObject :=
  match Object (dir s) h with
  | Ok f =>
      CheckClose (lf_Close f)
        (rbind (lf_NewReader f) (fun r =>
           CheckClose (r_Close r)
             (rbind (r_Header r) (fun '(t, size) =>
                rbind (r_Copy r) (fun cont =>
                  Ok (copiedMemoryObject size t cont))))))
  | Err e => if IsNotExist e then Err ErrObjectNotFound else Err e
  | Panic w => Panic w
  end.

(** [func (s *ObjectStorage) encodedObjectSizeFromUnpacked(h)] *)
Definition encodedObjectSizeFromUnpacked (s : ObjectStorage) (h : Hash) : result Z :=
  match Object (dir s) h with
  | Ok f =>
      rbind (lf_NewReader f) (fun r =>
        CheckClose (r_Close r)
          (rbind (r_Header r) (fun '(_, size) => Ok size)))
  | Err e => if IsNotExist e then Err ErrObjectNotFound else Err e
  | Panic w => Panic w
  end.

(** [s.deltaBaseCache.Get(hash)]; the call panics on a nil cache. *)
Definition cacheGet (s : ObjectStorage) (hash : Hash) : result (option MemoryObject) :=
  match deltaBaseCache s with
  | Some c => Ok (c hash)
  | None => Panic "invalid memory address or nil pointer dereference"%string
  end.

(** [func (s *ObjectStorage) decodeObjectAt(f, idx, offset)] *)
Definition decodeObjectAt (s : ObjectStorage) (f : PackFile) (idx : Index) (offset : Z)
  : result MemoryObject :=
  let fromPack (_ : unit) := GetByOffset f offset in
  match FindHash idx offset with
  | Ok hash =>
      rbind (cacheGet s hash) (fun hit =>
        match hit with
        | Some obj => Ok obj
        | None => fromPack tt
        end)
  | Err ErrObjectNotFound => fromPack tt
  | Err e => Err e
  | Panic w => Panic w
  end.

(** [func (s *ObjectStorage) getFromPackfile(h, canBeDelta)] for
    [canBeDelta = false], the only way [EncodedObject] calls it.  The
    deferred [CheckClose(f, &err)] writes to a local [err] after the
    results are set, so the outcome of closing the pack is lost. *)
Definition getFromPackfile (order : RangeOrder) (s : ObjectStorage) (h : Hash)
  : result MemoryObject * ObjectStorage :=
  match requireIndex s with
  | (Ok _, s') =>
      (rbind (findObjectInPackfile order s' h) (fun '(pack, _, offset) =>
         if offset =? -1 then Err ErrObjectNotFound
         else
           rbind (ObjectPack (dir s') pack) (fun f =>
             match index s' ≫= index_lookup pack with
             | Some idx => decodeObjectAt s' f idx offset
             | None => Panic "invalid memory address or nil pointer dereference"%string
             end)), s')
  | (Err e, s') => (Err e, s')
  | (Panic w, s') => (Panic w, s')
  end.

(** [func (s *ObjectStorage) encodedObjectSizeFromPackfile(h)].  Here
    [err] is the named result, so a failing [Close()] of the pack
    becomes the error. *)
Definition encodedObjectSizeFromPackfile (order : RangeOrder) (s : ObjectStorage) (h : Hash)
  : result Z * ObjectStorage :=
  match requireIndex s with
  | (Ok _, s') =>
      (rbind (findObjectInPackfile order s' h) (fun '(pack, _, offset) =>
         if offset =? -1 then Err ErrObjectNotFound
         else
           rbind (ObjectPack (dir s') pack) (fun f =>
             CheckClose (pf_Close f)
               match index s' ≫= index_lookup pack with
               | Some idx =>
                   let fromPack (_ : unit) := GetSizeByOffset f offset in
                   match FindHash idx offset with
                   | Ok hash =>
                       rbind (cacheGet s' hash) (fun hit =>
                         match hit with
                         | Some obj => Ok (mo_sz obj)
                         | None => fromPack tt
                         end)
                   | Err ErrObjectNotFound => fromPack tt
                   | Err e => Err e
                   | Panic w => Panic w
                   end
               | None => Panic "invalid memory address or nil pointer dereference"%string
               end)), s')
  | (Err e, s') => (Err e, s')
  | (Panic w, s') => (Panic w, s')
  end.

(** [func (s *ObjectStorage) EncodedObjectSize(h)] *)
Definition EncodedObjectSize (order : RangeOrder) (s : ObjectStorage) (h : Hash)
  : result Z * ObjectStorage :=
  match encodedObjectSizeFromUnpacked s h with
  | Ok size => (Ok size, s)
  | Err ErrObjectNotFound => encodedObjectSizeFromPackfile order s h
  | Err e => (Err e, s)
  | Panic w => (Panic w, s)
  end.

(** The loop [for _, dg := range dotgits] of [EncodedObject], over the
    outcomes of [o.EncodedObject(t, h)] for the alternates in order:
    [continue] on an error, [return enobj, nil] on the first object. *)
Fixpoint rangeAlternates (outcomes : list (result MemoryObject)) : result (option MemoryObject) :=
  match outcomes with
  | [] => Ok None
  | Ok enobj :: _ => Ok (Some enobj)
  | Err enerr :: rest => rangeAlternates rest
  | Panic w :: _ => Panic w
  end.

(** [func (s *ObjectStorage) EncodedObject(t, h)], by recursion on the
    tree of alternates.  The storage is passed as its four fields, the
    directory first. *)
Fixpoint EncodedObject_at (d : DotGit) (orders : RangeOrders) (ops : Options)
    (c : option ObjectCache) (ix : option (list (Hash * Index))) (t : ObjectType) (h : Hash)
    {struct d} : result MemoryObject * ObjectStorage :=
  let s := {| options := ops; deltaBaseCache := c; dir := d; index := ix |} in
  let '(r, s1) :=
    match getFromUnpacked s h with
    | Err ErrObjectNotFound => getFromPackfile (orders []) s h
    | r => (r, s)
    end in
  let finish (r : result MemoryObject) :=
    match r with
    | Ok obj =>
        if negb (bool_decide (AnyObject = t)) && negb (bool_decide (mo_t obj = t))
        then Err ErrObjectNotFound else Ok obj
    | _ => r
    end in
  match r with
  | Err ErrObjectNotFound =>
      match d with
      | mkDotGit _ _ _ _ (Ok dotgits) =>
          match rangeAlternates
                  ((fix each (i : nat) (dgs : list DotGit) {struct dgs}
                      : list (result MemoryObject) :=
                      match dgs with
                      | [] => []
                      | dg :: rest =>
                          fst (EncodedObject_at dg (alternate i orders)
                                 (options (NewObjectStorage dg c)) c None t h)
                          :: each (Datatypes.S i) rest
                      end) 0%nat dotgits) with
          | Ok (Some enobj) => (Ok enobj, s1)
          | Ok None => (finish r, s1)
          | Err e => (Err e, s1)
          | Panic w => (Panic w, s1)
          end
      | mkDotGit _ _ _ _ (Err _) => (finish r, s1)
      | mkDotGit _ _ _ _ (Panic w) => (Panic w, s1)
      end
  | _ => (finish r, s1)
  end.

Definition EncodedObject (orders : RangeOrders) (s : ObjectStorage) (t : ObjectType) (h : Hash)
  : result MemoryObject * ObjectStorage :=
  EncodedObject_at (dir s) orders (options s) (deltaBaseCache s) (index s) t h.

(** ** Writing a loose object *)

(** The loose file that reads back as an object of type [t], declared
    size [sz] and payload [cont]. *)
Definition looseFileOf (t : ObjectType) (sz : Z) (cont : bytes) : LooseFile :=
  {| lf_NewReader := Ok {| r_Header := Ok (t, sz); r_Copy := Ok cont; r_Close := None |};
     lf_Close := None |}.

(** The object directory after a loose object was saved under [h]. *)
Definition withObject (d : DotGit) (h : Hash) (f : LooseFile) : DotGit :=
  {| Object := fun h' => if (h' =? h)%N then Ok f else Object d h';
     ObjectPacks := ObjectPacks d;
     ObjectPackIdx := ObjectPackIdx d;
     ObjectPack := ObjectPack d;
     Alternates := Alternates d |}.

(** The outcome of a Go call with the results [(plumbing.Hash, error)]:
    the two results, or a panic.  [SetEncodedObject] has named
    results, and the hash stays beside an error. *)
Inductive outcome :=
| Returned (h : Hash) (err : option error)
| Panicked (why : string).

(** [dotgit.ObjectWriter], the writer that [s.dir.NewObject()] returns,
    is not part of the sources at hand.  It is taken as what its calls
    answer, each answer depending on the calls made before: [W] is the
    state of the writer.  [ow_Copy] is [io.Copy(ow, r)] for a reader
    [r] that delivers the bytes given; [ow_Close] is [Close()], the
    call that may change the object directory. *)
Class ObjectWriter (W : Type) := {
  ow_WriteHeader : ObjectType -> Z -> W -> result unit * W;
  ow_Copy : bytes -> W -> result unit * W;
  ow_Close : W -> DotGit -> result unit * DotGit
}.

(** The other calls of one run of [SetEncodedObject]: [s.dir.NewObject()],
    [o.Reader()] and the [Close()] of that reader. *)
Record WriterIO (W : Type) := {
  io_NewObject : result W;
  io_Reader : option error;
  io_CloseReader : option error
}.
Arguments io_NewObject {W} _.
Arguments io_Reader {W} _.
Arguments io_CloseReader {W} _.

Definition set_dir (d : DotGit) (s : ObjectStorage) : ObjectStorage :=
  {| options := options s; deltaBaseCache := deltaBaseCache s; dir := d; index := index s |}.

Section Writer.
(** [plumbing.ComputeHash(t, content)]; the hash function is a
    parameter. *)
Variable ComputeHash : ObjectType -> bytes -> Hash.

(** [o.Hash()] of a [MemoryObject].
    Modelled from the spec: the hash is that of the type and the
    content; it is computed on the first call for which the size is
    the length of the content, and kept from then on. *)
Definition Hash_of (o : MemoryObject) : Hash :=
  if (mo_h o =? ZeroHash)%N && (Z.of_nat (length (mo_cont o)) =? mo_sz o)
  then ComputeHash (mo_t o) (mo_cont o)
  else mo_h o.

(** [defer ioutil.CheckClose(c, &err)] for a function whose results
    are [(h, err)], [c] being the outcome of [Close()]: [h] stays, and
    [err] is set when it was nil and [Close()] fails.  A panic of the
    body goes on once the deferred call has returned; a panic of
    [Close()] is the panic of the function. *)
Definition CheckClose2 (c : result unit) (r : outcome) : outcome :=
  match c, r with
  | Panic w, _ => Panicked w
  | Err e, Returned h None => Returned h (Some e)
  | _, _ => r
  end.

Definition closed (c : option error) : result unit :=
  match c with Some e => Err e | None => Ok tt end.

Context {W : Type} `{ObjectWriter W}.

(** [func (s *ObjectStorage) SetEncodedObject(o)].  The two deferred
    calls run in the reverse order of the [defer] statements: the
    reader is closed, then the writer. *)
Definition SetEncodedObject (io : WriterIO W) (s : ObjectStorage) (o : MemoryObject)
  : outcome * ObjectStorage :=
  if bool_decide (mo_t o = OFSDeltaObject) || bool_decide (mo_t o = REFDeltaObject)
  then (Returned ZeroHash (Some ErrInvalidType), s)
  else
    match io_NewObject io with
    | Err e => (Returned ZeroHash (Some e), s)
    | Panic w => (Panicked w, s)
    | Ok ow =>
        (* defer ioutil.CheckClose(ow, &err) *)
        let closeWriter (ow : W) (r : outcome) : outcome * ObjectStorage :=
          let '(c, d) := ow_Close ow (dir s) in (CheckClose2 c r, set_dir d s) in
        match io_Reader io with
        | Some e => closeWriter ow (Returned ZeroHash (Some e))
        | None =>
            (* defer ioutil.CheckClose(or, &err) *)
            let '(r, ow') :=
              match ow_WriteHeader (mo_t o) (mo_sz o) ow with
              | (Err e, ow1) => (Returned ZeroHash (Some e), ow1)
              | (Panic w, ow1) => (Panicked w, ow1)
              | (Ok _, ow1) =>
                  match ow_Copy (mo_cont o) ow1 with
                  | (Err e, ow2) => (Returned ZeroHash (Some e), ow2)
                  | (Panic w, ow2) => (Panicked w, ow2)
                  | (Ok _, ow2) => (Returned (Hash_of o) None, ow2)
                  end
              end in
            closeWriter ow' (CheckClose2 (closed (io_CloseReader io)) r)
        end
    end.
End Writer.

(** ** The loose-object writer *)

Section LooseWriter.
(** [plumbing.NewHasher(t, size)] fed [content], then [Sum()]: the
    hash of the framing [typeName SP decimalSize NUL] followed by the
    content; the hash function is a parameter. *)
Variable NewHasher : ObjectType -> Z -> bytes -> Hash.

(** [plumbing.ComputeHash(t, content)]: the hasher for the type and
    the length of the content, fed the content. *)
Definition computeHash (t : ObjectType) (content : bytes) : Hash :=
  NewHasher t (Z.of_nat (length content)) content.

(** [func (t ObjectType) Valid()]: the types from [CommitObject] to
    [REFDeltaObject]. *)
Definition Valid (t : ObjectType) : bool :=
  match t with
  | InvalidObject | AnyObject => false
  | _ => true
  end.

(** The state of an [objfile.Writer]: the header it accepted, the
    bytes of payload it still expects, and the payload written. *)
Record LooseWriter := {
  lw_header : option (ObjectType * Z);
  lw_pending : Z;
  lw_written : bytes
}.

Definition newLooseWriter : LooseWriter :=
  {| lw_header := None; lw_pending := 0; lw_written := [] |}.

(** Modelled from the spec: [objfile.Writer] and [dotgit.ObjectWriter]
    are not part of the sources at hand.  A loose object file holds
    [typeName SP decimalSize NUL payload] and is addressed by the
    hash of this content; it is written to a temporary path and moved
    into place when the writer is closed.  [WriteHeader] refuses a
    type that is not valid and a negative size; the writer takes no
    more payload than the header declared; [Close()] of a writer that
    accepted no header has no hasher to name the file with. *)
Definition lw_WriteHeader (t : ObjectType) (size : Z) (w : LooseWriter)
  : result unit * LooseWriter :=
  if negb (Valid t) then (Err ErrInvalidType, w)
  else if size <? 0 then (Err (ErrOther "objfile: negative object size"), w)
  else (Ok tt, {| lw_header := Some (t, size); lw_pending := size; lw_written := [] |}).

Definition lw_Copy (content : bytes) (w : LooseWriter) : result unit * LooseWriter :=
  match content, lw_header w with
  | [], _ => (Ok tt, w)
  | _, None => (Panic "invalid memory address or nil pointer dereference", w)
  | _, Some _ =>
      let taken := take (Z.to_nat (lw_pending w)) content in
      (if lw_pending w <? Z.of_nat (length content)
       then Err (ErrOther "objfile: declared data length exceeded (overflow)")
       else Ok tt,
       {| lw_header := lw_header w;
          lw_pending := lw_pending w - Z.of_nat (length taken);
          lw_written := lw_written w ++ taken |})
  end.

Definition lw_Close (w : LooseWriter) (d : DotGit) : result unit * DotGit :=
  match lw_header w with
  | None => (Panic "invalid memory address or nil pointer dereference", d)
  | Some (t, size) =>
      (Ok tt, withObject d (NewHasher t size (lw_written w)) (looseFileOf t size (lw_written w)))
  end.

Definition looseWriter : ObjectWriter LooseWriter :=
  {| ow_WriteHeader := lw_WriteHeader; ow_Copy := lw_Copy; ow_Close := lw_Close |}.

(** A run of [SetEncodedObject] on a directory that hands out a fresh
    writer, for an object that is a [MemoryObject]: its reader and
    the closing of it do not fail. *)
Definition looseIO : WriterIO LooseWriter :=
  {| io_NewObject := Ok newLooseWriter; io_Reader := None; io_CloseReader := None |}.
End LooseWriter.

(** [func (s *ObjectStorage) Reindex()] *)
Definition Reindex (s : ObjectStorage) : ObjectStorage := set_index s None.

(** ** Iterators *)

(** [type objectsIter struct]: the loose objects that are still to be
    read. *)
Record objectsIter := {
  oit_s : ObjectStorage;
  oit_t : ObjectType;
  oit_h : list Hash
}.

(** [func (iter *objectsIter) Next()], on the fields of the iterator;
    the second component is [iter.h] as the call leaves it: the hash
    is taken off once the read has returned, so a read that panics
    leaves it in place. *)
Fixpoint objectsIter_next (s : ObjectStorage) (t : ObjectType) (h : list Hash)
  : result MemoryObject * list Hash :=
  match h with
  | [] => (Err EOF, [])
  | h0 :: rest =>
      match getFromUnpacked s h0 with
      | Ok obj =>
          if negb (bool_decide (t = AnyObject)) && negb (bool_decide (t = mo_t obj))
          then objectsIter_next s t rest
          else (Ok obj, rest)
      | Err e => (Err e, rest)
      | Panic w => (Panic w, h)
      end
  end.

Definition objectsIter_Next (iter : objectsIter) : result MemoryObject * objectsIter :=
  let '(r, h) := objectsIter_next (oit_s iter) (oit_t iter) (oit_h iter) in
  (r, {| oit_s := oit_s iter; oit_t := oit_t iter; oit_h := h |}).

(** [func (iter *objectsIter) Close()] *)
Definition objectsIter_Close (iter : objectsIter) : objectsIter :=
  {| oit_s := oit_s iter; oit_t := oit_t iter; oit_h := [] |}.

(** [func (iter *objectsIter) ForEach(cb)].  The callback keeps a
    state of its own, of type [A]; [fuel] bounds the turns of the
    loop, and the outcome [None] is that of a loop that runs out of
    it. *)
Fixpoint objectsIter_forEach {A} (fuel : nat) (cb : A -> MemoryObject -> option error * A)
    (a : A) (iter : objectsIter) : option (result unit) * (A * objectsIter) :=
  match fuel with
  | O => (None, (a, iter))
  | Datatypes.S fuel' =>
      match objectsIter_Next iter with
      | (Ok o, iter') =>
          match cb a o with
          | (Some e, a') => (Some (Err e), (a', iter'))
          | (None, a') => objectsIter_forEach fuel' cb a' iter'
          end
      | (Err e, iter') =>
          if bool_decide (e = EOF) then (Some (Ok tt), (a, iter')) else (Some (Err e), (a, iter'))
      | (Panic w, iter') => (Some (Panic w), (a, iter'))
      end
  end.

(** A call of [Next] that returns an object takes a hash off
    [iter.h]: the loop has no more turns than [iter.h] has hashes, and
    one. *)
Definition objectsIter_ForEach {A} (cb : A -> MemoryObject -> option error * A)
    (a : A) (iter : objectsIter) : option (result unit) * (A * objectsIter) :=
  objectsIter_forEach (Datatypes.S (length (oit_h iter))) cb a iter.

(** [func hashListAsMap(l)] *)
Definition hashListAsMap (l : list Hash) : gset N := list_to_set l.

Section Iterators.
(** [obj.Hash()]: the hash of an object's type and content; the hash
    function is a parameter. *)
Variable ComputeHash : ObjectType -> bytes -> Hash.

(** [p.GetByType(t)] of the [packfile.Packfile] that
    [newPackfileIter] makes over a pack file, an index (nil when
    [s.index] has none for the pack) and a cache, none of which is
    part of the sources at hand.  The iterator it returns is taken as
    the outcomes of its calls of [Next], in order; when they are used
    up, [Next] answers [io.EOF]. *)
Variable GetByType :
  PackFile -> option Index -> option ObjectCache -> ObjectType -> result (list (result MemoryObject)).

(** [type packfileIter struct].  [pit_iter] is what is left of the
    inner iterator; the two flags record the calls of [Close()] on the
    inner iterator and on the pack file. *)
Record packfileIter := {
  pit_pack : PackFile;
  pit_iter : list (result MemoryObject);
  pit_seen : gset N;
  pit_keepPack : bool;
  pit_iterClosed : bool;
  pit_packClosed : bool
}.

Definition set_pit_iter (outs : list (result MemoryObject)) (iter : packfileIter) : packfileIter :=
  {| pit_pack := pit_pack iter; pit_iter := outs; pit_seen := pit_seen iter;
     pit_keepPack := pit_keepPack iter; pit_iterClosed := pit_iterClosed iter;
     pit_packClosed := pit_packClosed iter |}.

(** [func newPackfileIter(fs, f, t, seen, index, cache, keepPack)] *)
Definition newPackfileIter (f : PackFile) (t : ObjectType) (seen : gset N)
    (index : option Index) (cache : option ObjectCache) (keepPack : bool) : result packfileIter :=
  rbind (GetByType f index cache t) (fun iter =>
    Ok {| pit_pack := f; pit_iter := iter; pit_seen := seen; pit_keepPack := keepPack;
          pit_iterClosed := false; pit_packClosed := false |}).

(** [func NewPackfileIter(fs, f, idxFile, t, keepPack)] *)
Definition NewPackfileIter (f : PackFile) (idxFile : IdxFile) (t : ObjectType) (keepPack : bool)
  : result packfileIter :=
  rbind (idx_Decode idxFile) (fun idx =>
    match idx_Close idxFile with
    | Some e => Err e
    | None => newPackfileIter f t ∅ (Some idx) None keepPack
    end).

(** [func (iter *packfileIter) Next()], on what is left of the inner
    iterator. *)
Fixpoint packfileIter_next (seen : gset N) (outs : list (result MemoryObject))
  : result MemoryObject * list (result MemoryObject) :=
  match outs with
  | [] => (Err EOF, [])
  | Ok obj :: rest =>
      if bool_decide (Hash_of ComputeHash obj ∈ seen)
      then packfileIter_next seen rest
      else (Ok obj, rest)
  | Err e :: rest => (Err e, rest)
  | Panic w :: rest => (Panic w, rest)
  end.

Definition packfileIter_Next (iter : packfileIter) : result MemoryObject * packfileIter :=
  let '(r, outs) := packfileIter_next (pit_seen iter) (pit_iter iter) in
  (r, set_pit_iter outs iter).

(** [func (iter *packfileIter) Close()]; the error of closing the
    pack is dropped. *)
Definition packfileIter_Close (iter : packfileIter) : packfileIter :=
  {| pit_pack := pit_pack iter; pit_iter := pit_iter iter; pit_seen := pit_seen iter;
     pit_keepPack := pit_keepPack iter; pit_iterClosed := true;
     pit_packClosed := pit_packClosed iter || negb (pit_keepPack iter) |}.

(** [func (iter *packfileIter) ForEach(cb)] *)
Fixpoint packfileIter_forEach {A} (fuel : nat) (cb : A -> MemoryObject -> option error * A)
    (a : A) (iter : packfileIter) : option (result unit) * (A * packfileIter) :=
  match fuel with
  | O => (None, (a, iter))
  | Datatypes.S fuel' =>
      match packfileIter_Next iter with
      | (Ok o, iter') =>
          match cb a o with
          | (Some e, a') => (Some (Err e), (a', iter'))
          | (None, a') => packfileIter_forEach fuel' cb a' iter'
          end
      | (Err e, iter') =>
          if bool_decide (e = EOF)
          then (Some (Ok tt), (a, packfileIter_Close iter'))
          else (Some (Err e), (a, iter'))
      | (Panic w, iter') => (Some (Panic w), (a, iter'))
      end
  end.

Definition packfileIter_ForEach {A} (cb : A -> MemoryObject -> option error * A)
    (a : A) (iter : packfileIter) : option (result unit) * (A * packfileIter) :=
  packfileIter_forEach (Datatypes.S (length (pit_iter iter))) cb a iter.

(** [type lazyPackfilesIter struct].  [cur] is the iterator over the
    pack that is open, if any: the ones that [open] makes here are
    [packfileIter]s.  [lz_closed] records the iterators that [Next]
    closed, in order. *)
Record lazyPackfilesIter := {
  lz_hashes : list Hash;
  lz_open : Hash -> result packfileIter;
  lz_cur : option packfileIter;
  lz_closed : list packfileIter
}.

(** The loop of [lazyPackfilesIter.Next] from a turn that finds
    [it.cur == nil]: the next pack is opened and asked for an object;
    the loop goes on when opening it, or its first [Next], answers
    [io.EOF]. *)
Fixpoint lazyPackfilesIter_next (open : Hash -> result packfileIter) (hashes : list Hash)
    (closed : list packfileIter) : result MemoryObject * lazyPackfilesIter :=
  match hashes with
  | [] => (Err EOF, {| lz_hashes := []; lz_open := open; lz_cur := None; lz_closed := closed |})
  | h :: rest =>
      match open h with
      | Ok sub =>
          match packfileIter_Next sub with
          | (Err e, sub') =>
              if bool_decide (e = EOF)
              then lazyPackfilesIter_next open rest (closed ++ [packfileIter_Close sub'])
              else (Err e, {| lz_hashes := rest; lz_open := open; lz_cur := Some sub';
                              lz_closed := closed |})
          | (r, sub') =>
              (r, {| lz_hashes := rest; lz_open := open; lz_cur := Some sub';
                     lz_closed := closed |})
          end
      | Err e =>
          if bool_decide (e = EOF)
          then lazyPackfilesIter_next open rest closed
          else (Err e, {| lz_hashes := rest; lz_open := open; lz_cur := None;
                          lz_closed := closed |})
      | Panic w =>
          (Panic w, {| lz_hashes := rest; lz_open := open; lz_cur := None; lz_closed := closed |})
      end
  end.

(** [func (it *lazyPackfilesIter) Next()] *)
Definition lazyPackfilesIter_Next (it : lazyPackfilesIter) : result MemoryObject * lazyPackfilesIter :=
  match lz_cur it with
  | None => lazyPackfilesIter_next (lz_open it) (lz_hashes it) (lz_closed it)
  | Some cur =>
      match packfileIter_Next cur with
      | (Err e, cur') =>
          if bool_decide (e = EOF)
          then lazyPackfilesIter_next (lz_open it) (lz_hashes it)
                 (lz_closed it ++ [packfileIter_Close cur'])
          else (Err e, {| lz_hashes := lz_hashes it; lz_open := lz_open it;
                          lz_cur := Some cur'; lz_closed := lz_closed it |})
      | (r, cur') =>
          (r, {| lz_hashes := lz_hashes it; lz_open := lz_open it;
                 lz_cur := Some cur'; lz_closed := lz_closed it |})
      end
  end.

(** [func (it *lazyPackfilesIter) Close()] *)
Definition lazyPackfilesIter_Close (it : lazyPackfilesIter) : lazyPackfilesIter :=
  {| lz_hashes := []; lz_open := lz_open it; lz_cur := None;
     lz_closed := match lz_cur it with
                  | Some cur => lz_closed it ++ [packfileIter_Close cur]
                  | None => lz_closed it
                  end |}.

(** The closure [open] of [buildPackfileIters]. *)
Definition openPack (s : ObjectStorage) (t : ObjectType) (seen : gset N) (h : Hash)
  : result packfileIter :=
  rbind (ObjectPack (dir s) h) (fun pack =>
    newPackfileIter pack t seen (index s ≫= index_lookup h) (deltaBaseCache s)
      (KeepDescriptors (options s))).

(** [func (s *ObjectStorage) buildPackfileIters(t, seen)].  The
    closure reads [s.dir] and [s.index] when it is called: it is
    given the storage as [requireIndex] leaves it, which is what it
    reads as long as nothing writes to the storage while the
    iteration goes on. *)
Definition buildPackfileIters (s : ObjectStorage) (t : ObjectType) (seen : gset N)
  : result lazyPackfilesIter * ObjectStorage :=
  match requireIndex s with
  | (Ok _, s') =>
      (rbind (ObjectPacks (dir s')) (fun packs =>
         Ok {| lz_hashes := packs; lz_open := openPack s' t seen; lz_cur := None;
               lz_closed := [] |}), s')
  | (Err e, s') => (Err e, s')
  | (Panic w, s') => (Panic w, s')
  end.

(** [func (s *ObjectStorage) IterEncodedObjects(t)], up to the list
    [iters] that it hands to [storer.NewMultiEncodedObjectIter]: the
    iterator over the loose objects, if there are any, and the one
    over the packs.  [objects] is the outcome of [s.dir.Objects()]. *)
Definition IterEncodedObjects (objects : result (list Hash)) (s : ObjectStorage) (t : ObjectType)
  : result (option objectsIter * lazyPackfilesIter) * ObjectStorage :=
  match objects with
  | Ok objects =>
      let seen := if (length objects =? 0)%nat then ∅ else hashListAsMap objects in
      let '(r, s') := buildPackfileIters s t seen in
      (* the iterator holds the pointer [s]: the storage as it is now *)
      let loose :=
        if (length objects =? 0)%nat then None
        else Some {| oit_s := s'; oit_t := t; oit_h := objects |} in
      (rbind r (fun packi => Ok (loose, packi)), s')
  | Err e => (Err e, s)
  | Panic w => (Panic w, s)
  end.

End Iterators.

End Filesystem.

(* ===================================================================== *)
(** * plumbing/format/packfile/parser.go                                  *)
(* ===================================================================== *)

Module Packfile.
Import Plumbing.

(** [packfile.ObjectHeader], as [Scanner.NextObjectHeader] returns it. *)
Record ObjectHeader := {
  oh_Type : ObjectType;
  oh_Offset : Z;
  oh_Length : Z;
  oh_Reference : Hash;
  oh_OffsetReference : Z
}.

(** [type objectInfo struct].  [Parent] and [Children] hold arena
    indices where the Go struct holds pointers. *)
Record objectInfo := {
  Offset : Z;
  Length : Z;
  Typ : ObjectType;
  DiskType : ObjectType;
  ExternalRef : bool;
  Crc32 : N;
  Parent : option nat;
  Children : list nat;
  SHA1 : Hash
}.

(** [func newDeltaObject(offset, length, t, parent)] *)
Definition newDeltaObject (offset length : Z) (t : ObjectType) (parent : option nat) : objectInfo :=
  {| Offset := offset; Length := length; Typ := t; DiskType := t;
     ExternalRef := false; Crc32 := 0%N; Parent := parent; Children := []; SHA1 := ZeroHash |}.

(** [func newBaseObject(offset, length, t)] *)
Definition newBaseObject (offset length : Z) (t : ObjectType) : objectInfo :=
  newDeltaObject offset length t None.

(** The placeholder parent that [indexObjects] makes for a REF delta
    whose base is not in the pack. *)
Definition placeholder (ref : Hash) : objectInfo :=
  {| Offset := 0; Length := 0; Typ := AnyObject; DiskType := AnyObject;
     ExternalRef := true; Crc32 := 0%N; Parent := None; Children := []; SHA1 := ref |}.

(** [func (o *objectInfo) IsDelta() bool] *)
Definition objIsDelta (o : objectInfo) : bool := IsDelta (Typ o).

(** [func (o *objectInfo) Size() int64] *)
Definition Size (o : objectInfo) : Z := Length o.

Definition set_Typ (t : ObjectType) (o : objectInfo) : objectInfo :=
  {| Offset := Offset o; Length := Length o; Typ := t; DiskType := DiskType o;
     ExternalRef := ExternalRef o; Crc32 := Crc32 o; Parent := Parent o;
     Children := Children o; SHA1 := SHA1 o |}.
Definition set_SHA1 (h : Hash) (o : objectInfo) : objectInfo :=
  {| Offset := Offset o; Length := Length o; Typ := Typ o; DiskType := DiskType o;
     ExternalRef := ExternalRef o; Crc32 := Crc32 o; Parent := Parent o;
     Children := Children o; SHA1 := h |}.
Definition set_Length (n : Z) (o : objectInfo) : objectInfo :=
  {| Offset := Offset o; Length := n; Typ := Typ o; DiskType := DiskType o;
     ExternalRef := ExternalRef o; Crc32 := Crc32 o; Parent := Parent o;
     Children := Children o; SHA1 := SHA1 o |}.
Definition set_Crc32 (c : N) (o : objectInfo) : objectInfo :=
  {| Offset := Offset o; Length := Length o; Typ := Typ o; DiskType := DiskType o;
     ExternalRef := ExternalRef o; Crc32 := c; Parent := Parent o;
     Children := Children o; SHA1 := SHA1 o |}.
Definition add_Child (c : nat) (o : objectInfo) : objectInfo :=
  {| Offset := Offset o; Length := Length o; Typ := Typ o; DiskType := DiskType o;
     ExternalRef := ExternalRef o; Crc32 := Crc32 o; Parent := Parent o;
     Children := Children o ++ [c]; SHA1 := SHA1 o |}.

(** ** Observers *)

(** One call of a method of the [Observer] interface. *)
Inductive Event :=
| EvHeader (count : N)
| EvInflatedObjectHeader (t : ObjectType) (objSize : Z) (pos : Z)
| EvInflatedObjectContent (h : Hash) (pos : Z) (crc : N) (content : bytes)
| EvFooter (h : Hash).

(** A callback that was made: the position of the observer in [p.ob],
    the call, and the error it returned. *)
Record Call := {
  c_observer : nat;
  c_event : Event;
  c_error : option error
}.

(** [type Observer interface].  An observer is free to keep state and
    to look at what the others were told: each method answers from the
    callbacks made so far. *)
Record Observer := {
  OnHeader : list Call -> N -> option error;
  OnInflatedObjectHeader : list Call -> ObjectType -> Z -> Z -> option error;
  OnInflatedObjectContent : list Call -> Hash -> Z -> N -> bytes -> option error;
  OnFooter : list Call -> Hash -> option error
}.

Definition notify (o : Observer) (past : list Call) (ev : Event) : option error :=
  match ev with
  | EvHeader c => OnHeader o past c
  | EvInflatedObjectHeader t sz pos => OnInflatedObjectHeader o past t sz pos
  | EvInflatedObjectContent h pos crc content => OnInflatedObjectContent o past h pos crc content
  | EvFooter h => OnFooter o past h
  end.

(** ** The collaborators of the parser

    [Scanner], [cache.BufferLRU], the [storer.EncodedObjectStorer]
    behind [p.storage], [PatchDelta] and the hasher are not part of the
    sources at hand.  The parser is embedded over any implementation
    of them. *)

(** [packfile.Scanner]: each call answers from the scanner's state and
    moves it. *)
Class ScannerOps (S : Type) := {
  sc_Header : S -> result (N * N) * S;
  sc_NextObjectHeader : S -> result ObjectHeader * S;
  sc_NextObject : S -> result (bytes * N) * S;
  sc_SeekFromStart : Z -> S -> result unit * S;
  sc_Checksum : S -> (Hash * option error) * S
}.

(** [*Scanner]: the attribute [IsSeekable] is set once. *)
Record Scanner (S : Type) := {
  IsSeekable : bool;
  sc_state : S
}.
Arguments IsSeekable {S} _.
Arguments sc_state {S} _.

(** [storer.EncodedObjectStorer] *)
Class StorerOps (St : Type) := {
  st_EncodedObject : St -> ObjectType -> Hash -> result MemoryObject * St;
  st_SetEncodedObject : St -> MemoryObject -> result Hash * St
}.

(** [cache.BufferLRU]; [cache_new] is [cache.NewBufferLRUDefault()].
    A hit never holds a nil slice. *)
Class BufferLRU (C : Type) := {
  cache_new : C;
  cache_Get : C -> Z -> option bytes * C;
  cache_Put : C -> Z -> bytes -> C
}.

(** [PatchDelta(base, delta)] and the hash of an object given its type
    and content ([plumbing.NewHasher(t, len)], [Write], [Sum]). *)
Class Codec := {
  PatchDelta : bytes -> bytes -> result bytes;
  ComputeHash : ObjectType -> bytes -> Hash
}.

(** [r.Read(b)] with [b := make([]byte, e.Size())] over the reader of a
    [MemoryObject], a [bytes.Buffer] on its content. *)
Definition readObject (e : MemoryObject) : result bytes :=
  if mo_sz e <? 0 then Panic "makeslice: len out of range"%string
  else
    match mo_cont e with
    | [] => if mo_sz e =? 0 then Ok [] else Err EOF
    | _ =>
        let n := Z.to_nat (mo_sz e) in
        Ok (take n (mo_cont e) ++ replicate (n - length (mo_cont e)) Byte.x00)
    end.

Section Parser.
Context {S St C : Type}.
Context `{ScannerOps S, StorerOps St, BufferLRU C, Codec}.

(** [type Parser struct].  The field [hashOffset] is never read or
    written in [parser.go] and is left out.  [deltas] is [None] for
    the nil map.  [nodes] is the arena of the [objectInfo]s that were
    allocated; [calls] is the log of the observer callbacks made. *)
Record Parser := {
  storage : option St;
  scanner : Scanner S;
  count : N;
  oi : list (option nat);
  oiByHash : gmap N nat;
  oiByOffset : gmap Z nat;
  checksum : Hash;
  cache : C;
  deltas : option (gmap Z bytes);
  ob : list Observer;
  nodes : list objectInfo;
  calls : list Call
}.

Definition set_storage (v : option St) (p : Parser) : Parser :=
  {| storage := v; scanner := scanner p; count := count p; oi := oi p;
     oiByHash := oiByHash p; oiByOffset := oiByOffset p; checksum := checksum p;
     cache := cache p; deltas := deltas p; ob := ob p; nodes := nodes p; calls := calls p |}.
Definition set_scanner (v : Scanner S) (p : Parser) : Parser :=
  {| storage := storage p; scanner := v; count := count p; oi := oi p;
     oiByHash := oiByHash p; oiByOffset := oiByOffset p; checksum := checksum p;
     cache := cache p; deltas := deltas p; ob := ob p; nodes := nodes p; calls := calls p |}.
Definition set_count (v : N) (p : Parser) : Parser :=
  {| storage := storage p; scanner := scanner p; count := v; oi := oi p;
     oiByHash := oiByHash p; oiByOffset := oiByOffset p; checksum := checksum p;
     cache := cache p; deltas := deltas p; ob := ob p; nodes := nodes p; calls := calls p |}.
Definition set_oi (v : list (option nat)) (p : Parser) : Parser :=
  {| storage := storage p; scanner := scanner p; count := count p; oi := v;
     oiByHash := oiByHash p; oiByOffset := oiByOffset p; checksum := checksum p;
     cache := cache p; deltas := deltas p; ob := ob p; nodes := nodes p; calls := calls p |}.
Definition set_oiByHash (v : gmap N nat) (p : Parser) : Parser :=
  {| storage := storage p; scanner := scanner p; count := count p; oi := oi p;
     oiByHash := v; oiByOffset := oiByOffset p; checksum := checksum p;
     cache := cache p; deltas := deltas p; ob := ob p; nodes := nodes p; calls := calls p |}.
Definition set_oiByOffset (v : gmap Z nat) (p : Parser) : Parser :=
  {| storage := storage p; scanner := scanner p; count := count p; oi := oi p;
     oiByHash := oiByHash p; oiByOffset := v; checksum := checksum p;
     cache := cache p; deltas := deltas p; ob := ob p; nodes := nodes p; calls := calls p |}.
Definition set_checksum (v : Hash) (p : Parser) : Parser :=
  {| storage := storage p; scanner := scanner p; count := count p; oi := oi p;
     oiByHash := oiByHash p; oiByOffset := oiByOffset p; checksum := v;
     cache := cache p; deltas := deltas p; ob := ob p; nodes := nodes p; calls := calls p |}.
Definition set_cache (v : C) (p : Parser) : Parser :=
  {| storage := storage p; scanner := scanner p; count := count p; oi := oi p;
     oiByHash := oiByHash p; oiByOffset := oiByOffset p; checksum := checksum p;
     cache := v; deltas := deltas p; ob := ob p; nodes := nodes p; calls := calls p |}.
Definition set_deltas (v : option (gmap Z bytes)) (p : Parser) : Parser :=
  {| storage := storage p; scanner := scanner p; count := count p; oi := oi p;
     oiByHash := oiByHash p; oiByOffset := oiByOffset p; checksum := checksum p;
     cache := cache p; deltas := v; ob := ob p; nodes := nodes p; calls := calls p |}.
Definition set_nodes (v : list objectInfo) (p : Parser) : Parser :=
  {| storage := storage p; scanner := scanner p; count := count p; oi := oi p;
     oiByHash := oiByHash p; oiByOffset := oiByOffset p; checksum := checksum p;
     cache := cache p; deltas := deltas p; ob := ob p; nodes := v; calls := calls p |}.
Definition set_calls (v : list Call) (p : Parser) : Parser :=
  {| storage := storage p; scanner := scanner p; count := count p; oi := oi p;
     oiByHash := oiByHash p; oiByOffset := oiByOffset p; checksum := checksum p;
     cache := cache p; deltas := deltas p; ob := ob p; nodes := nodes p; calls := v |}.

(** [x == nil] for an interface value or a map. *)
Definition isNil {A} (x : option A) : bool :=
  match x with None => true | Some _ => false end.

(** [func NewParserWithStorage(scanner, storage, ob...)] *)
Definition NewParserWithStorage (sc : Scanner S) (st : option St) (obs : list Observer)
  : result Parser :=
  if negb (IsSeekable sc) && isNil st then Err ErrNotSeekableSource
  else
    let deltas := if negb (IsSeekable sc) then Some ∅ else None in
    Ok {| storage := st; scanner := sc; count := 0%N; oi := [];
          oiByHash := ∅; oiByOffset := ∅; checksum := ZeroHash;
          cache := cache_new; deltas := deltas; ob := obs; nodes := []; calls := [] |}.

(** [func NewParser(scanner, ob...)] *)
Definition NewParser (sc : Scanner S) (obs : list Observer) : result Parser :=
  NewParserWithStorage sc None obs.

(** ** The parser's methods, as state transformers

    A method of [*Parser] takes the parser and gives an outcome and
    the parser as the call leaves it, also when it fails.  The
    outcome [None] is that of the recursion of [get] when it runs
    out of fuel; [Parse] never has it ([Parse_never_out_of_fuel]). *)
Definition M (A : Type) : Type := Parser -> option (result A) * Parser.

Definition ret {A} (a : A) : M A := fun p => (Some (Ok a), p).
Definition fail {A} (e : error) : M A := fun p => (Some (Err e), p).
Definition panic {A} (w : string) : M A := fun p => (Some (Panic w), p).
Definition outOfFuel {A} : M A := fun p => (None, p).

Definition bind {A B} (m : M A) (f : A -> M B) : M B :=
  fun p =>
    match m p with
    | (Some (Ok a), p') => f a p'
    | (Some (Err e), p') => (Some (Err e), p')
    | (Some (Panic w), p') => (Some (Panic w), p')
    | (None, p') => (None, p')
    end.

Notation "'let*' x := m 'in' k" := (bind m (fun x => k))
  (at level 10, x pattern, m at level 100, k at level 200).

Definition gets {A} (f : Parser -> A) : M A := fun p => (Some (Ok (f p)), p).
Definition modify (f : Parser -> Parser) : M unit := fun p => (Some (Ok tt), f p).
Definition liftR {A} (r : result A) : M A := fun p => (Some r, p).

Definition nilDeref : string := "invalid memory address or nil pointer dereference".

(** Reading through a pointer to an [objectInfo]. *)
Definition getNode (id : nat) : M objectInfo :=
  fun p =>
    match nodes p !! id with
    | Some o => (Some (Ok o), p)
    | None => (Some (Panic nilDeref), p)
    end.

(** Writing fields through a pointer to an [objectInfo]. *)
Definition setNode (id : nat) (f : objectInfo -> objectInfo) : M unit :=
  modify (fun p => set_nodes (alter f id (nodes p)) p).

(** [&objectInfo{...}]: the new node's index. *)
Definition alloc (o : objectInfo) : M nat :=
  fun p => (Some (Ok (length (nodes p))), set_nodes (nodes p ++ [o]) p).

(** A call of a method of [p.scanner]. *)
Definition scan {A} (op : S -> result A * S) : M A :=
  fun p =>
    let '(r, s') := op (sc_state (scanner p)) in
    (Some r, set_scanner {| IsSeekable := IsSeekable (scanner p); sc_state := s' |} p).

(** [p.storage.EncodedObject(t, h)] and [p.storage.SetEncodedObject(obj)]. *)
Definition storageEncodedObject (t : ObjectType) (h : Hash) : M MemoryObject :=
  fun p =>
    match storage p with
    | Some st => let '(r, st') := st_EncodedObject st t h in (Some r, set_storage (Some st') p)
    | None => (Some (Panic nilDeref), p)
    end.

Definition storageSetEncodedObject (obj : MemoryObject) : M Hash :=
  fun p =>
    match storage p with
    | Some st => let '(r, st') := st_SetEncodedObject st obj in (Some r, set_storage (Some st') p)
    | None => (Some (Panic nilDeref), p)
    end.

(** [p.cache.Get(k)] and [p.cache.Put(k, v)]. *)
Definition cacheGet (k : Z) : M (option bytes) :=
  fun p => let '(r, c') := cache_Get (cache p) k in (Some (Ok r), set_cache c' p).

Definition cachePut (k : Z) (v : bytes) : M unit :=
  modify (fun p => set_cache (cache_Put (cache p) k v) p).

(** [func getSHA1(t, data)]: writing to the hasher does not fail. *)
Definition getSHA1 (t : ObjectType) (data : bytes) : result Hash :=
  Ok (ComputeHash t data).

(** [func (p *Parser) forEachObserver(f)], with [f] the call [ev];
    [k] is the position of the first observer of [obs] in [p.ob]. *)
Fixpoint forEachObserver (k : nat) (obs : list Observer) (ev : Event) (past : list Call)
  : option error * list Call :=
  match obs with
  | [] => (None, past)
  | o :: rest =>
      let err := notify o past ev in
      let past' := past ++ [{| c_observer := k; c_event := ev; c_error := err |}] in
      match err with
      | Some e => (Some e, past')
      | None => forEachObserver (Datatypes.S k) rest ev past'
      end
  end.

Definition onEvent (ev : Event) : M unit :=
  fun p =>
    let '(err, past') := forEachObserver 0 (ob p) ev (calls p) in
    (Some (match err with Some e => Err e | None => Ok tt end), set_calls past' p).

(** [onHeader], [onInflatedObjectHeader], [onInflatedObjectContent],
    [onFooter] *)
Definition onHeader (c : N) : M unit := onEvent (EvHeader c).
Definition onInflatedObjectHeader (t : ObjectType) (objSize pos : Z) : M unit :=
  onEvent (EvInflatedObjectHeader t objSize pos).
Definition onInflatedObjectContent (h : Hash) (pos : Z) (crc : N) (content : bytes) : M unit :=
  onEvent (EvInflatedObjectContent h pos crc content).
Definition onFooter (h : Hash) : M unit := onEvent (EvFooter h).

(** [func (p *Parser) init()] *)
Definition init : M unit :=
  let* (_, c) := scan sc_Header in
  let* _ := onHeader c in
  modify (fun p =>
    set_oi (replicate (N.to_nat c) None)
      (set_oiByOffset ∅ (set_oiByHash ∅ (set_count c p)))).

(** [parent.Children = append(parent.Children, ota)] *)
Definition appendChild (parent ota : nat) : M unit :=
  let* _ := getNode parent in
  setNode parent (add_Child ota).

(** The body of the loop of [indexObjects], for the index [i]. *)
Definition indexObject (i : nat) : M unit :=
  let* oh := scan sc_NextObjectHeader in
  let* (delta, ota) :=
    match oh_Type oh with
    | OFSDeltaObject =>
        let* byOffset := gets oiByOffset in
        match byOffset !! oh_OffsetReference oh with
        | None => fail ErrObjectNotFound
        | Some parent =>
            let* ota := alloc (newDeltaObject (oh_Offset oh) (oh_Length oh) OFSDeltaObject (Some parent)) in
            let* _ := appendChild parent ota in
            ret (true, ota)
        end
    | REFDeltaObject =>
        let* byHash := gets oiByHash in
        let* parent :=
          match byHash !! oh_Reference oh with
          | None =>
              let* parent := alloc (placeholder (oh_Reference oh)) in
              let* _ := modify (fun p => set_oiByHash (<[oh_Reference oh := parent]> (oiByHash p)) p) in
              ret parent
          | Some parent => ret parent
          end in
        let* ota := alloc (newDeltaObject (oh_Offset oh) (oh_Length oh) REFDeltaObject (Some parent)) in
        let* _ := appendChild parent ota in
        ret (true, ota)
    | t =>
        let* ota := alloc (newBaseObject (oh_Offset oh) (oh_Length oh) t) in
        ret (false, ota)
    end in
  let* (data, crc) := scan sc_NextObject in
  let* _ := setNode ota (fun o => set_Length (oh_Length oh) (set_Crc32 crc o)) in
  let* _ :=
    if negb delta then
      let* o := getNode ota in
      let* sha1 := liftR (getSHA1 (Typ o) data) in
      let* _ := setNode ota (set_SHA1 sha1) in
      modify (fun p => set_oiByHash (<[sha1 := ota]> (oiByHash p)) p)
    else ret tt in
  let* st := gets storage in
  let* _ :=
    if negb (isNil st) && negb delta then
      let* _ := storageSetEncodedObject (newMemoryObject (oh_Length oh) (oh_Type oh) data) in
      ret tt
    else ret tt in
  let* seekable := gets (fun p => IsSeekable (scanner p)) in
  let* _ :=
    if delta && negb seekable then
      let* ds := gets deltas in
      match ds with
      | Some m => modify (set_deltas (Some (<[oh_Offset oh := data]> m)))
      | None => panic "assignment to entry in nil map"
      end
    else ret tt in
  let* _ := modify (fun p => set_oiByOffset (<[oh_Offset oh := ota]> (oiByOffset p)) p) in
  let* slots := gets oi in
  if decide (i < length slots)%nat
  then modify (set_oi (<[i := Some ota]> slots))
  else panic "index out of range".

(** [for i := uint32(0); i < p.count; i++]: [n] turns are left, the
    next is for index [i]. *)
Fixpoint indexFrom (n i : nat) : M unit :=
  match n with
  | O => ret tt
  | Datatypes.S n' => let* _ := indexObject i in indexFrom n' (Datatypes.S i)
  end.

(** [func (p *Parser) indexObjects()] *)
Definition indexObjects : M unit :=
  let* c := gets count in
  indexFrom (N.to_nat c) 0.

(** [func (p *Parser) readData(o)] *)
Definition readData (id : nat) : M bytes :=
  let* o := getNode id in
  let* seekable := gets (fun p => IsSeekable (scanner p)) in
  if negb seekable && IsDelta (DiskType o) then
    let* ds := gets deltas in
    match ds ≫= (fun m => m !! Offset o) with
    | Some data => ret data
    | None => fail ErrDeltaNotCached
    end
  else
    let* _ := scan (sc_SeekFromStart (Offset o)) in
    let* _ := scan sc_NextObjectHeader in
    let* (data, _) := scan sc_NextObject in
    ret data.

(** [func applyPatchBase(ota, data, base)] *)
Definition applyPatchBase (id : nat) (data base : bytes) : M bytes :=
  let* patched := liftR (PatchDelta base data) in
  let* ota := getNode id in
  let* _ :=
    if (SHA1 ota =? ZeroHash)%N then
      match Parent ota with
      | None => panic nilDeref
      | Some parent =>
          let* par := getNode parent in
          let* _ := setNode id (set_Typ (Typ par)) in
          let* sha1 := liftR (getSHA1 (Typ par) patched) in
          let* _ := setNode id (set_SHA1 sha1) in
          setNode id (set_Length (Z.of_nat (length patched)))
      end
    else ret tt in
  ret patched.

(** [func (p *Parser) resolveObject(o, base)]; the nil slice of the
    first [return] is the empty list. *)
Definition resolveObject (id : nat) (base : bytes) : M bytes :=
  let* o := getNode id in
  if negb (IsDelta (DiskType o)) then ret []
  else
    let* data := readData id in
    let* data := applyPatchBase id data base in
    let* st := gets storage in
    let* _ :=
      if negb (isNil st) then
        let* o := getNode id in
        let* _ := storageSetEncodedObject (newMemoryObject (Size o) (Typ o) data) in
        ret tt
      else ret tt in
    ret data.

(** [func (p *Parser) get(o)].  The recursion follows [o.Parent];
    [fuel] bounds its depth. *)
Fixpoint get (fuel : nat) (id : nat) : M bytes :=
  match fuel with
  | O => outOfFuel
  | Datatypes.S fuel' =>
      let* o := getNode id in
      (* b, ok = p.cache.Get(o.Offset) *)
      let* hit := if negb (ExternalRef o) then cacheGet (Offset o) else ret None in
      let* st := gets storage in
      let* b :=
        if isNil hit && negb (isNil st) && negb (IsDelta (Typ o)) then
          let* e := storageEncodedObject AnyObject (SHA1 o) in
          let* _ := setNode id (set_Typ (mo_t e)) in
          let* b := liftR (readObject e) in
          ret (Some b)
        else ret hit in
      match b with
      | Some b => ret b
      | None =>
          if ExternalRef o then fail ErrReferenceDeltaNotFound
          else
            let* data :=
              if IsDelta (DiskType o) then
                match Parent o with
                | None => panic nilDeref
                | Some parent =>
                    let* base := get fuel' parent in
                    resolveObject id base
                end
              else readData id in
            let* _ :=
              if (0 <? length (Children o))%nat then cachePut (Offset o) data else ret tt in
            ret data
      end
  end.

(** [p.get(obj)] as [resolveDeltas] calls it: a chain of parents is
    no longer than the arena. *)
Definition getObject (id : nat) : M bytes :=
  fun p => get (Datatypes.S (length (nodes p))) id p.

(** [for _, child := range obj.Children] of [resolveDeltas] *)
Fixpoint resolveChildren (children : list nat) (content : bytes) : M unit :=
  match children with
  | [] => ret tt
  | child :: rest =>
      let* _ := resolveObject child content in
      resolveChildren rest content
  end.

(** The body of the loop of [resolveDeltas], for one entry of [p.oi]. *)
Definition resolveOne (obj : option nat) : M unit :=
  match obj with
  | None => panic nilDeref
  | Some id =>
      let* content := getObject id in
      let* o := getNode id in
      let* _ := onInflatedObjectHeader (Typ o) (Length o) (Offset o) in
      let* _ := onInflatedObjectContent (SHA1 o) (Offset o) (Crc32 o) content in
      if negb (objIsDelta o) && (0 <? length (Children o))%nat then
        let* _ := resolveChildren (Children o) content in
        let* seekable := gets (fun p => IsSeekable (scanner p)) in
        (* Remove the delta from the cache. *)
        if IsDelta (DiskType o) && negb seekable
        then modify (fun p => set_deltas (delete (Offset o) <$> deltas p) p)
        else ret tt
      else ret tt
  end.

(** [for _, obj := range p.oi] *)
Fixpoint resolveEach (objs : list (option nat)) : M unit :=
  match objs with
  | [] => ret tt
  | obj :: rest => let* _ := resolveOne obj in resolveEach rest
  end.

(** [func (p *Parser) resolveDeltas()] *)
Definition resolveDeltas : M unit :=
  let* objs := gets oi in
  resolveEach objs.

(** [p.checksum, err = p.scanner.Checksum()] and the test on [err]
    that follows it in [Parse]. *)
Definition readChecksum : M unit :=
  let* (sum, err) := scan (fun s => let '(r, s') := sc_Checksum s in (Ok r, s')) in
  let* _ := modify (set_checksum sum) in
  match err with
  | Some e => if bool_decide (e = EOF) then ret tt else fail e
  | None => ret tt
  end.

(** [func (p *Parser) Parse()] *)
Definition Parse : M Hash :=
  let* _ := init in
  let* _ := indexObjects in
  let* _ := readChecksum in
  let* _ := resolveDeltas in
  let* sum := gets checksum in
  let* _ := onFooter sum in
  ret sum.

(** The payload that [p.deltas] holds for an offset, if any. *)
Definition cachedDelta (p : Parser) (offset : Z) : option bytes :=
  deltas p ≫= (fun m => m !! offset).

(** The calls that the observer at position [k] of [p.ob] received,
    in order. *)
Definition received (k : nat) (log : list Call) : list Event :=
  c_event <$> filter (fun c => c_observer c = k) log.
End Parser.
End Packfile.

(* ===================================================================== *)
(** * Implementations of the collaborators, to run the parser on packs    *)
(* ===================================================================== *)

Module Doubles.
Import Plumbing Packfile.

(** ** Delta applier *)

(** A variable-length integer: 7 bits a byte, least significant group
    first, the top bit says that more follows. *)
Fixpoint readVarint (fuel : nat) (shift : N) (d : bytes) : option (N * bytes) :=
  match fuel, d with
  | Datatypes.S fuel', b :: rest =>
      let v := N.shiftl (N.land (Byte.to_N b) 127) shift in
      if N.testbit (Byte.to_N b) 7 then
        match readVarint fuel' (shift + 7) rest with
        | Some (w, rest') => Some (N.lor v w, rest')
        | None => None
        end
      else Some (v, rest)
  | _, _ => None
  end.

(** The bytes of a copy opcode that the bits [mask] of [cmd] select,
    as a little-endian number: bit [i] of [cmd] selects byte [i]. *)
Fixpoint readSelected (nbits : nat) (bit : N) (pos : N) (cmd : N) (d : bytes) : option (N * bytes) :=
  match nbits with
  | O => Some (0%N, d)
  | Datatypes.S n =>
      if N.testbit cmd bit then
        match d with
        | b :: rest =>
            match readSelected n (bit + 1) (pos + 8) cmd rest with
            | Some (w, rest') => Some (N.lor (N.shiftl (Byte.to_N b) pos) w, rest')
            | None => None
            end
        | [] => None
        end
      else readSelected n (bit + 1) (pos + 8) cmd d
  end.

Definition deltaCorruption : error := ErrOther "delta corruption".

Fixpoint applyOps (fuel : nat) (base : bytes) (d : bytes) (out : bytes) : result bytes :=
  match fuel, d with
  | _, [] => Ok out
  | O, _ => Err deltaCorruption
  | Datatypes.S fuel', c :: rest =>
      let cmd := Byte.to_N c in
      if N.testbit cmd 7 then
        match readSelected 4 0 0 cmd rest with
        | Some (offset, rest1) =>
            match readSelected 3 4 0 cmd rest1 with
            | Some (size, rest2) =>
                let size := if (size =? 0)%N then 65536%N else size in
                if (offset + size <=? N.of_nat (length base))%N
                then applyOps fuel' base rest2
                       (out ++ take (N.to_nat size) (drop (N.to_nat offset) base))
                else Err deltaCorruption
            | None => Err deltaCorruption
            end
        | None => Err deltaCorruption
        end
      else if (cmd =? 0)%N then Err deltaCorruption
      else
        if (cmd <=? N.of_nat (length rest))%N
        then applyOps fuel' base (drop (N.to_nat cmd) rest) (out ++ take (N.to_nat cmd) rest)
        else Err deltaCorruption
  end.

(** Modelled from the spec: the delta applier ([PatchDelta] is not part
    of the sources at hand): declared base length, declared result
    length, then copy and insert opcodes until the stream ends. *)
Definition patchDelta (base delta : bytes) : result bytes :=
  match readVarint (length delta) 0 delta with
  | Some (baseLen, rest) =>
      if negb (baseLen =? N.of_nat (length base))%N then Err deltaCorruption
      else
        match readVarint (length rest) 0 rest with
        | Some (resultLen, ops) =>
            match applyOps (length ops) base ops [] with
            | Ok out =>
                if (N.of_nat (length out) =? resultLen)%N then Ok out else Err deltaCorruption
            | r => r
            end
        | None => Err deltaCorruption
        end
  | None => Err deltaCorruption
  end.

(** A stand-in for SHA-1 over the canonical framing: a polynomial hash
    of the type and the payload, never zero. *)
Definition typeTag (t : ObjectType) : N :=
  match t with
  | InvalidObject => 0 | CommitObject => 1 | TreeObject => 2 | BlobObject => 3
  | TagObject => 4 | OFSDeltaObject => 6 | REFDeltaObject => 7 | AnyObject => 129
  end%N.

Definition toyHash (t : ObjectType) (data : bytes) : Hash :=
  (1 + fold_left (fun acc b => (acc * 257 + Byte.to_N b) mod 2 ^ 159) data
         (typeTag t * 1000003 + N.of_nat (length data)))%N.

Definition codec : Codec := {| PatchDelta := patchDelta; ComputeHash := toyHash |}.

(** ** Scanner over a pack given as its entries *)

Record Entry := {
  e_header : ObjectHeader;
  e_data : bytes;       (* inflated payload *)
  e_crc : N
}.

Record Pack := {
  pk_count : N;         (* the object count of the header *)
  pk_entries : list Entry;
  pk_trailer : option Hash;   (* [None]: the trailer is missing *)
  pk_next : nat         (* the entry under the cursor *)
}.

Definition at_entry (pk : Pack) (n : nat) : Pack :=
  {| pk_count := pk_count pk; pk_entries := pk_entries pk;
     pk_trailer := pk_trailer pk; pk_next := n |}.

Fixpoint entryAt (offset : Z) (es : list Entry) (n : nat) : option nat :=
  match es with
  | [] => None
  | e :: rest => if oh_Offset (e_header e) =? offset then Some n else entryAt offset rest (Datatypes.S n)
  end.

Definition listScanner : ScannerOps Pack := {|
  sc_Header := fun pk => (Ok (2%N, pk_count pk), at_entry pk 0);
  sc_NextObjectHeader := fun pk =>
    match pk_entries pk !! pk_next pk with
    | Some e => (Ok (e_header e), pk)
    | None => (Err EOF, pk)
    end;
  sc_NextObject := fun pk =>
    match pk_entries pk !! pk_next pk with
    | Some e => (Ok (e_data e, e_crc e), at_entry pk (Datatypes.S (pk_next pk)))
    | None => (Err EOF, pk)
    end;
  sc_SeekFromStart := fun offset pk =>
    match entryAt offset (pk_entries pk) 0 with
    | Some n => (Ok tt, at_entry pk n)
    | None => (Err (ErrOther "seek"), pk)
    end;
  sc_Checksum := fun pk =>
    match pk_trailer pk with
    | Some h => ((h, None), pk)
    | None => ((ZeroHash, Some EOF), pk)
    end
|}.

(** ** Storage in memory *)

Definition MemStorage := list (Hash * MemoryObject).

Fixpoint memLookup (h : Hash) (st : MemStorage) : option MemoryObject :=
  match st with
  | [] => None
  | (k, o) :: rest => if (k =? h)%N then Some o else memLookup h rest
  end.

Definition memStorer : StorerOps MemStorage := {|
  st_EncodedObject := fun st t h =>
    match memLookup h st with
    | Some o =>
        if negb (bool_decide (AnyObject = t)) && negb (bool_decide (mo_t o = t))
        then (Err ErrObjectNotFound, st) else (Ok o, st)
    | None => (Err ErrObjectNotFound, st)
    end;
  st_SetEncodedObject := fun st o =>
    if IsDelta (mo_t o) then (Err ErrInvalidType, st)
    else
      let h := toyHash (mo_t o) (mo_cont o) in
      (Ok h, (h, o) :: st)
|}.

(** ** Buffer cache: keeps what it is given *)

Definition MapCache := list (Z * bytes).

Fixpoint mapCacheGet (k : Z) (c : MapCache) : option bytes :=
  match c with
  | [] => None
  | (k', v) :: rest => if k' =? k then Some v else mapCacheGet k rest
  end.

Definition mapCache : BufferLRU MapCache := {|
  cache_new := [];
  cache_Get := fun c k => (mapCacheGet k c, c);
  cache_Put := fun c k v => (k, v) :: c
|}.

(** ** Observers *)

(** An observer that accepts every call. *)
Definition quiet : Observer := {|
  OnHeader := fun _ _ => None;
  OnInflatedObjectHeader := fun _ _ _ _ => None;
  OnInflatedObjectContent := fun _ _ _ _ _ => None;
  OnFooter := fun _ _ => None
|}.

(** An observer that refuses the content of the object at [pos]. *)
Definition refusing (pos : Z) : Observer := {|
  OnHeader := fun _ _ => None;
  OnInflatedObjectHeader := fun _ _ _ _ => None;
  OnInflatedObjectContent := fun _ _ p _ _ =>
    if p =? pos then Some (ErrOther "refused") else None;
  OnFooter := fun _ _ => None
|}.

(** ** The packs of the scenarios S1 and S3 *)

Import Byte.

(** "hello\n" *)
Definition hello : bytes := [x68; x65; x6c; x6c; x6f; x0a].

(** The delta script [copy(0, 6); insert(" world\n")] against a base
    of 6 bytes, for a result of 13 bytes. *)
Definition helloDelta : bytes :=
  [x06; x0d; x90; x06; x07; x20; x77; x6f; x72; x6c; x64; x0a].

(** "hello\n world\n" *)
Definition helloWorld : bytes :=
  [x68; x65; x6c; x6c; x6f; x0a; x20; x77; x6f; x72; x6c; x64; x0a].

Definition blobEntry : Entry :=
  {| e_header := {| oh_Type := BlobObject; oh_Offset := 12; oh_Length := 6;
                    oh_Reference := ZeroHash; oh_OffsetReference := 0 |};
     e_data := hello; e_crc := 907060870%N |}.

Definition ofsEntry : Entry :=
  {| e_header := {| oh_Type := OFSDeltaObject; oh_Offset := 27; oh_Length := 12;
                    oh_Reference := ZeroHash; oh_OffsetReference := 12 |};
     e_data := helloDelta; e_crc := 3735928559%N |}.

(** S1: a blob and an OFS delta against it. *)
Definition packS1 : Pack :=
  {| pk_count := 2; pk_entries := [blobEntry; ofsEntry];
     pk_trailer := Some 1234567%N; pk_next := 0 |}.

(** S3: a thin pack, one REF delta whose base is not in the pack. *)
Definition refEntry : Entry :=
  {| e_header := {| oh_Type := REFDeltaObject; oh_Offset := 12; oh_Length := 12;
                    oh_Reference := toyHash BlobObject hello; oh_OffsetReference := 0 |};
     e_data := helloDelta; e_crc := 3735928559%N |}.

Definition packS3 : Pack :=
  {| pk_count := 1; pk_entries := [refEntry];
     pk_trailer := Some 7654321%N; pk_next := 0 |}.

(** A pack whose second entry is an OFS delta against an offset where
    no object starts. *)
Definition danglingEntry : Entry :=
  {| e_header := {| oh_Type := OFSDeltaObject; oh_Offset := 27; oh_Length := 12;
                    oh_Reference := ZeroHash; oh_OffsetReference := 13 |};
     e_data := helloDelta; e_crc := 3735928559%N |}.

Definition packDangling : Pack :=
  {| pk_count := 2; pk_entries := [blobEntry; danglingEntry];
     pk_trailer := Some 1234567%N; pk_next := 0 |}.

(** A third entry for S1: an OFS delta against the delta at offset 27,
    [copy(0, 13); insert("!")], for a chain of two deltas. *)
Definition chainDelta : bytes := [x0d; x0e; x90; x0d; x01; x21].

Definition chainEntry : Entry :=
  {| e_header := {| oh_Type := OFSDeltaObject; oh_Offset := 45; oh_Length := 6;
                    oh_Reference := ZeroHash; oh_OffsetReference := 27 |};
     e_data := chainDelta; e_crc := 2882400001%N |}.

Definition packChain : Pack :=
  {| pk_count := 3; pk_entries := [blobEntry; ofsEntry; chainEntry];
     pk_trailer := Some 1234567%N; pk_next := 0 |}.

(** A thin pack of three objects: the blob of S1, a REF delta against
    a blob that the pack does not have, and an OFS delta against that
    delta. *)
Definition outer : bytes := [x77; x6f; x72; x6c; x64; x0a].

(** The delta of S1 applied to [outer]. *)
Definition outerPatched : bytes :=
  [x77; x6f; x72; x6c; x64; x0a; x20; x77; x6f; x72; x6c; x64; x0a].

Definition outerHash : Hash := toyHash BlobObject outer.
Definition outerObject : MemoryObject := newMemoryObject 6 BlobObject outer.

Definition thinEntry : Entry :=
  {| e_header := {| oh_Type := REFDeltaObject; oh_Offset := 27; oh_Length := 12;
                    oh_Reference := outerHash; oh_OffsetReference := 0 |};
     e_data := helloDelta; e_crc := 3735928559%N |}.

Definition packThin : Pack :=
  {| pk_count := 3; pk_entries := [blobEntry; thinEntry; chainEntry];
     pk_trailer := Some 2468642%N; pk_next := 0 |}.

(** The nodes that the index pass makes for the REF delta of
    [packThin] and for its base. *)
Definition thinNode : objectInfo :=
  {| Offset := 27; Length := 12; Typ := REFDeltaObject; DiskType := REFDeltaObject;
     ExternalRef := false; Crc32 := 3735928559%N; Parent := Some 1%nat;
     Children := [3%nat]; SHA1 := ZeroHash |}.

Definition thinPlaceholder : objectInfo :=
  {| Offset := 0; Length := 0; Typ := AnyObject; DiskType := AnyObject;
     ExternalRef := true; Crc32 := 0%N; Parent := None;
     Children := [2%nat]; SHA1 := outerHash |}.

#[local] Existing Instances listScanner memStorer mapCache codec.

(** The parser that [NewParserWithStorage] makes over a pack. *)
Definition newParser (seekable : bool) (pk : Pack) (st : option MemStorage) (obs : list Observer)
  : @Parser Pack MemStorage MapCache :=
  {| storage := st; scanner := {| IsSeekable := seekable; sc_state := pk |};
     count := 0%N; oi := []; oiByHash := ∅; oiByOffset := ∅; checksum := ZeroHash;
     cache := []; deltas := if negb seekable then Some ∅ else None;
     ob := obs; nodes := []; calls := [] |}.

(** The parser as [resolveDeltas] finds it: after [init], the index
    pass and the reading of the trailer. *)
Definition indexed (p : @Parser Pack MemStorage MapCache) : @Parser Pack MemStorage MapCache :=
  snd (readChecksum (snd (indexObjects (snd (init p))))).

(** The parser after the first [n] turns of the loop of
    [resolveDeltas]. *)
Definition resolved (n : nat) (p : @Parser Pack MemStorage MapCache)
  : @Parser Pack MemStorage MapCache :=
  snd (resolveEach (take n (oi (indexed p))) (indexed p)).

(** The node of the delta at offset 27 of [packChain], once the resolve
    pass over a non-seekable source is done with it. *)
Definition chainMiddle : objectInfo :=
  Eval vm_compute in
    default (placeholder ZeroHash)
      (nodes (resolved 2 (newParser false packChain (Some []) [quiet])) !! 1%nat).

(** ** Object directories *)

Import Filesystem.

(** An object directory with no loose object, no pack and no
    alternates. *)
Definition emptyDir : DotGit :=
  {| Object := fun _ => Err ErrNotExist;
     ObjectPacks := Ok [];
     ObjectPackIdx := fun _ => Err ErrNotExist;
     ObjectPack := fun _ => Err ErrNotExist;
     Alternates := Ok [] |}.

(** An object directory on a disk that fails every read. *)
Definition brokenDir : DotGit :=
  {| Object := fun _ => Err (ErrOther "input/output error");
     ObjectPacks := Err (ErrOther "input/output error");
     ObjectPackIdx := fun _ => Err (ErrOther "input/output error");
     ObjectPack := fun _ => Err (ErrOther "input/output error");
     Alternates := Err (ErrOther "input/output error") |}.

(** The blob "hello\n" as a loose object, and a directory that holds
    it. *)
Definition helloHash : Hash := toyHash BlobObject hello.
Definition helloObject : MemoryObject := newMemoryObject 6 BlobObject hello.
Definition helloDir : DotGit := withObject emptyDir helloHash (looseFileOf BlobObject 6 hello).

(** An empty object directory whose alternates are [alts]. *)
Definition borrowing (alts : list DotGit) : DotGit :=
  {| Object := Object emptyDir; ObjectPacks := ObjectPacks emptyDir;
     ObjectPackIdx := ObjectPackIdx emptyDir; ObjectPack := ObjectPack emptyDir;
     Alternates := Ok alts |}.

Definition noCache : option ObjectCache := Some (fun _ => None).

(** Two orders for a loop over [s.index]: the entries as the list has
    them, and the other way round. *)
Definition asListed : RangeOrder :=
  {| ranged := fun m => m; ranged_perm := fun m => Permutation_refl m |}.

Definition backwards : RangeOrder :=
  {| ranged := @reverse _; ranged_perm := @reverse_Permutation _ |}.

(** The same order for every loop of a call of [EncodedObject]. *)
Definition always (order : RangeOrder) : RangeOrders := fun _ => order.

(** The hasher behind [toyHash]: the declared size goes into the
    hash in the place of the length of the content. *)
Definition toyHasher (t : ObjectType) (size : Z) (data : bytes) : Hash :=
  (1 + fold_left (fun acc b => (acc * 257 + Byte.to_N b) mod 2 ^ 159) data
         (typeTag t * 1000003 + Z.to_N size))%N.

(** An object that claims the type [AnyObject], with the payload
    "hello\n". *)
Definition anyObject : MemoryObject :=
  {| mo_t := AnyObject; mo_h := ZeroHash; mo_cont := hello; mo_sz := 6 |}.

(** ** More packs and scanners *)

(** S2: like S1, with the delta naming its base by hash. *)
Definition refInPackEntry : Entry :=
  {| e_header := {| oh_Type := REFDeltaObject; oh_Offset := 27; oh_Length := 12;
                    oh_Reference := toyHash BlobObject hello; oh_OffsetReference := 0 |};
     e_data := helloDelta; e_crc := 3735928559%N |}.

Definition packS2 : Pack :=
  {| pk_count := 2; pk_entries := [blobEntry; refInPackEntry];
     pk_trailer := Some 1234567%N; pk_next := 0 |}.

(** A pack whose trailer cannot be read: [Checksum()] fails, and not
    with [io.EOF]. *)
Record Damaged := { dm_pack : Pack }.

Definition damaged {A} (op : Pack -> A * Pack) (d : Damaged) : A * Damaged :=
  let '(r, pk) := op (dm_pack d) in (r, {| dm_pack := pk |}).

Definition damagedScanner : ScannerOps Damaged := {|
  sc_Header := damaged sc_Header;
  sc_NextObjectHeader := damaged sc_NextObjectHeader;
  sc_NextObject := damaged sc_NextObject;
  sc_SeekFromStart := fun offset => damaged (sc_SeekFromStart offset);
  sc_Checksum := fun d => ((ZeroHash, Some (ErrOther "unexpected EOF")), d)
|}.

#[local] Existing Instance damagedScanner.

(** The parser that [NewParserWithStorage] makes over a damaged pack. *)
Definition newDamagedParser (pk : Pack) (obs : list Observer)
  : @Parser Damaged MemStorage MapCache :=
  {| storage := None; scanner := {| IsSeekable := true; sc_state := {| dm_pack := pk |} |};
     count := 0%N; oi := []; oiByHash := ∅; oiByOffset := ∅; checksum := ZeroHash;
     cache := []; deltas := None;
     ob := obs; nodes := []; calls := [] |}.

(** ** A directory with a pack *)

(** The blob "hello\n world\n". *)
Definition worldHash : Hash := toyHash BlobObject helloWorld.
Definition worldObject : MemoryObject := newMemoryObject 13 BlobObject helloWorld.

(** The index of a pack that holds the two blobs, at the offsets 12
    and 27. *)
Definition twoBlobsIndex : Index :=
  {| FindOffset := fun h =>
       if (h =? helloHash)%N then Ok 12
       else if (h =? worldHash)%N then Ok 27
       else Err ErrObjectNotFound;
     FindHash := fun offset =>
       if offset =? 12 then Ok helloHash
       else if offset =? 27 then Ok worldHash
       else Err ErrObjectNotFound |}.

Definition twoBlobsPack : PackFile :=
  {| GetByOffset := fun offset =>
       if offset =? 12 then Ok helloObject
       else if offset =? 27 then Ok worldObject
       else Err ErrObjectNotFound;
     GetSizeByOffset := fun offset =>
       if offset =? 12 then Ok 6
       else if offset =? 27 then Ok 13
       else Err ErrObjectNotFound;
     pf_Close := None |}.

Definition packName : Hash := 4242%N.

(** A directory with no loose object and the one pack. *)
Definition packedDir : DotGit :=
  {| Object := fun _ => Err ErrNotExist;
     ObjectPacks := Ok [packName];
     ObjectPackIdx := fun h =>
       if (h =? packName)%N then Ok {| idx_Decode := Ok twoBlobsIndex; idx_Close := None |}
       else Err ErrNotExist;
     ObjectPack := fun h => if (h =? packName)%N then Ok twoBlobsPack else Err ErrNotExist;
     Alternates := Ok [] |}.

(** A directory with no loose object and two packs that both hold
    the two blobs: which of the two a lookup opens depends on the
    order in which it visits the indexes. *)
Definition otherPackName : Hash := 4343%N.

Definition twoPacksDir : DotGit :=
  {| Object := fun _ => Err ErrNotExist;
     ObjectPacks := Ok [packName; otherPackName];
     ObjectPackIdx := fun h =>
       if (h =? packName)%N || (h =? otherPackName)%N
       then Ok {| idx_Decode := Ok twoBlobsIndex; idx_Close := None |}
       else Err ErrNotExist;
     ObjectPack := fun h =>
       if (h =? packName)%N || (h =? otherPackName)%N then Ok twoBlobsPack
       else Err ErrNotExist;
     Alternates := Ok [] |}.

(** [GetByType] for the pack of the two blobs. *)
Definition twoBlobsByType (f : PackFile) (index : option Index) (cache : option ObjectCache)
    (t : ObjectType) : result (list (result MemoryObject)) :=
  if bool_decide (t = AnyObject) || bool_decide (t = BlobObject)
  then Ok [Ok helloObject; Ok worldObject]
  else Ok [].

(** A callback that accepts every object and keeps the list of those
    it was given. *)
Definition collect (seen : list MemoryObject) (o : MemoryObject)
  : option error * list MemoryObject :=
  (None, seen ++ [o]).

(** An iterator over the pack of the two blobs. *)
Definition twoBlobsIter (seen : gset N) : packfileIter :=
  {| pit_pack := twoBlobsPack; pit_iter := [Ok helloObject; Ok worldObject];
     pit_seen := seen; pit_keepPack := false;
     pit_iterClosed := false; pit_packClosed := false |}.

(** ** Addresses *)

Definition isEmpty (a : GitService.AccAddress) : bool :=
  match a with [] => true | _ => false end.

Definition addressString (a : GitService.AccAddress) : string := "cosmos1".

(** A command with both hashes zero, and a message that carries it. *)
Definition malformed : GitService.UpdateReferenceCommand :=
  {| GitService.Name := "refs/heads/master"; GitService.Old := ZeroHash;
     GitService.New := ZeroHash |}.

Definition pushMalformed : GitService.MsgUpdateReferences :=
  {| GitService.URI := "repo"; GitService.Author := [x01];
     GitService.Commands := [Some malformed];
     GitService.Shallow := None; GitService.Packfile := [] |}.


(** The directory of the blob with a second loose file, under the
    hash 7, that ends before its header is complete: reading it gives
    [io.EOF]. *)
Definition truncatedHash : Hash := 7%N.
Definition truncatedDir : DotGit :=
  withObject helloDir truncatedHash {| lf_NewReader := Err EOF; lf_Close := None |}.

End Doubles.



(* ===================================================================== *)
(** * Vocabulary of the properties of object.go                           *)
(* ===================================================================== *)

Module FilesystemSpec.
Import Plumbing Filesystem.

(** The storage with another list of alternates, and nothing else
    changed. *)
Definition withAlternates (s : ObjectStorage) (alts : result (list DotGit)) : ObjectStorage :=
  {| options := options s; deltaBaseCache := deltaBaseCache s;
     dir := {| Object := Object (dir s); ObjectPacks := ObjectPacks (dir s);
               ObjectPackIdx := ObjectPackIdx (dir s); ObjectPack := ObjectPack (dir s);
               Alternates := alts |};
     index := index s |}.

(** The outcomes of [EncodedObject(t, h)] on the storages that
    [EncodedObject] makes for the alternates, in order; [i] is the
    position of the first of [alts] among the alternates. *)
Fixpoint alternateOutcomesFrom (i : nat) (orders : RangeOrders) (c : option ObjectCache)
    (t : ObjectType) (h : Hash) (alts : list DotGit) : list (result MemoryObject) :=
  match alts with
  | [] => []
  | dg :: rest =>
      fst (EncodedObject (alternate i orders) (NewObjectStorage dg c) t h)
      :: alternateOutcomesFrom (Datatypes.S i) orders c t h rest
  end.

Definition alternateOutcomes (orders : RangeOrders) (c : option ObjectCache) (t : ObjectType)
    (h : Hash) (alts : list DotGit) : list (result MemoryObject) :=
  alternateOutcomesFrom 0 orders c t h alts.

(** Every alternate before the one that answers fails, with whatever
    error. *)
Definition allFail (orders : RangeOrders) (c : option ObjectCache) (t : ObjectType) (h : Hash)
    (alts : list DotGit) : Prop :=
  Forall (fun r => exists e, r = Err e) (alternateOutcomes orders c t h alts).

(** There is no loose object for [h]: opening it fails with an error
    for which [os.IsNotExist] holds. *)
Definition noLoose (s : ObjectStorage) (h : Hash) : Prop :=
  exists e, Object (dir s) h = Err e /\ IsNotExist e = true.

(** No index of a local pack has an entry for [h]:
    [findObjectInPackfile] returns the offset -1, in whatever order
    it visits the indexes. *)
Definition notPacked (s : ObjectStorage) (h : Hash) : Prop :=
  forall order, findObjectInPackfile order s h = Ok (ZeroHash, ZeroHash, -1).

(** The sizes that the collaborators report agree with the payloads
    they deliver: the header of a loose file declares the length of its
    payload; a pack's [GetSizeByOffset] is the length of the payload of
    its [GetByOffset]; a cached object's size is the length of its
    content; closing a pack does not fail. *)
Definition sizesAgree (s : ObjectStorage) : Prop :=
  (forall h f r t sz cont,
      Object (dir s) h = Ok f -> lf_NewReader f = Ok r ->
      r_Header r = Ok (t, sz) -> r_Copy r = Ok cont ->
      sz = Z.of_nat (length cont)) /\
  (forall ph pf offset obj,
      ObjectPack (dir s) ph = Ok pf -> GetByOffset pf offset = Ok obj ->
      GetSizeByOffset pf offset = Ok (Z.of_nat (length (mo_cont obj)))) /\
  (forall ph pf, ObjectPack (dir s) ph = Ok pf -> pf_Close pf = None) /\
  (forall c h obj,
      deltaBaseCache s = Some c -> c h = Some obj ->
      mo_sz obj = Z.of_nat (length (mo_cont obj))).

(** The loose object under [x] can be read and its type is not [t],
    which is not [AnyObject]: [objectsIter.Next] passes over it. *)
Definition passedOver (s : ObjectStorage) (t : ObjectType) (x : Hash) : Prop :=
  exists obj, getFromUnpacked s x = Ok obj /\ t <> AnyObject /\ t <> mo_t obj.

(** The objects of the type asked for, in order. *)
Definition matching (t : ObjectType) (objs : list MemoryObject) : list MemoryObject :=
  List.filter (fun o => bool_decide (t = AnyObject) || bool_decide (t = mo_t o)) objs.

(** The objects whose hash is not in [seen], in order. *)
Definition unseen (ComputeHash : ObjectType -> bytes -> Hash) (seen : gset N)
    (objs : list MemoryObject) : list MemoryObject :=
  List.filter (fun o => negb (bool_decide (Hash_of ComputeHash o ∈ seen))) objs.

(** What a callback that keeps a state makes of a list of objects. *)
Definition visit {A} (cb : A -> MemoryObject -> option error * A) (a : A)
    (objs : list MemoryObject) : A :=
  fold_left (fun a o => snd (cb a o)) objs a.

(** The outcomes of [n] calls of [lazyPackfilesIter.Next], one after
    the other, and the iterator as the last one leaves it. *)
Fixpoint nextN (ComputeHash : ObjectType -> bytes -> Hash) (n : nat) (it : lazyPackfilesIter)
  : list (result MemoryObject) * lazyPackfilesIter :=
  match n with
  | O => ([], it)
  | Datatypes.S n' =>
      let '(r, it') := lazyPackfilesIter_Next ComputeHash it in
      let '(rs, it'') := nextN ComputeHash n' it' in
      (r :: rs, it'')
  end.

(** The pack under [h] opens, and its iterator has the objects [objs]
    and no error. *)
Definition opensWith (open : Hash -> result packfileIter) (h : Hash) (objs : list MemoryObject)
    (seen : gset N) : Prop :=
  exists sub, open h = Ok sub /\ pit_iter sub = Ok <$> objs /\ pit_seen sub = seen.

(** What is left of a lazy iteration: the objects that the open
    iterator still holds, and those of the packs not opened yet. *)
Definition leftOf (seen : gset N) (it : lazyPackfilesIter)
    (cur : list MemoryObject) (packs : list (list MemoryObject)) : Prop :=
  match lz_cur it with
  | None => cur = []
  | Some sub => pit_iter sub = Ok <$> cur /\ pit_seen sub = seen
  end /\
  Forall2 (fun h objs => opensWith (lz_open it) h objs seen) (lz_hashes it) packs.

(** The iterators that a lazy iterator has still to close: the one
    that is open and those of the packs not opened yet. *)
Definition pending (it : lazyPackfilesIter) : nat :=
  length (lz_hashes it) + match lz_cur it with Some _ => 1 | None => 0 end.


(** What [EncodedObject] has after its two local lookups, before it
    turns to the alternates: the outcome of the loose lookup, or that
    of the pack lookup when the loose one gave object-not-found. *)
Definition localLookup (order : RangeOrder) (s : ObjectStorage) (h : Hash)
  : result MemoryObject :=
  match getFromUnpacked s h with
  | Err ErrObjectNotFound => fst (getFromPackfile order s h)
  | r => r
  end.

(** No two entries of the index map have the same key, as in a Go
    map. *)
Definition uniqueKeys (m : list (Hash * Index)) : Prop := NoDup (fst <$> m).

End FilesystemSpec.

(* ===================================================================== *)
(** * Properties of plumbing/format/packfile/parser.go                    *)
(* ===================================================================== *)

Module PackfileProofs.
Import Plumbing Packfile.

Section Proofs.
Context {S St C : Type}.
Context `{ScannerOps S, StorerOps St, BufferLRU C, Codec}.

Local Abbreviation Parser := (@Parser S St C).
Local Abbreviation M := (@M S St C).

(** ** Vocabulary *)

(** The fields of a node that only the index pass writes: all but
    [Type], [SHA1] and [Length]. *)
Definition sameStatic (o o' : objectInfo) : Prop :=
  Offset o' = Offset o /\ DiskType o' = DiskType o /\ ExternalRef o' = ExternalRef o /\
  Crc32 o' = Crc32 o /\ Parent o' = Parent o /\ Children o' = Children o.

(** Two arenas with the same nodes, up to [Type], [SHA1] and
    [Length]. *)
Definition shape (l l' : list objectInfo) : Prop := Forall2 sameStatic l l'.

(** Every run of [m] relates the parser before to the parser after. *)
Definition respects (R : Parser -> Parser -> Prop) {A} (m : M A) : Prop :=
    forall p r p', m p = (r, p') -> R p p'.

(** What [get], [resolveObject] and [readData] leave as it was: the
      observers, what they were told, the index and the map of cached
      deltas; in the arena, every field that the index pass set for
      good. *)
Definition frame (p p' : Parser) : Prop :=
    ob p' = ob p /\ count p' = count p /\ oi p' = oi p /\
    deltas p' = deltas p /\ calls p' = calls p /\
    IsSeekable (scanner p') = IsSeekable (scanner p) /\
    isNil (storage p') = isNil (storage p) /\
    shape (nodes p) (nodes p').

Definition told (k : nat) (ev : Event) : Call :=
    {| c_observer := k; c_event := ev; c_error := None |}.

(** The call [c] of the log records what the callback of [o] for
      its event returned, given the calls [past] made before it. *)
Definition answered (o : Observer) (past : list Call) (c : Call) : Prop :=
    c_error c =
    match c_event c with
    | EvHeader n => OnHeader o past n
    | EvInflatedObjectHeader t sz pos => OnInflatedObjectHeader o past t sz pos
    | EvInflatedObjectContent h pos crc content =>
        OnInflatedObjectContent o past h pos crc content
    | EvFooter h => OnFooter o past h
    end.

(** Every call of the log is a callback of a registered observer:
      the observer at the position the call names was called with the
      event, and the error recorded is what its method returned. *)
Definition heard (obs : list Observer) (log : list Call) : Prop :=
    forall k c, log !! k = Some c ->
      exists o, obs !! c_observer c = Some o /\ answered o (take k log) c.

(** A run keeps the observers and a log of callbacks really made. *)
Definition hearing (p p' : Parser) : Prop :=
    ob p' = ob p /\ (heard (ob p) (calls p) -> heard (ob p) (calls p')).

(** No call of the log returned an error. *)
Definition accepted (log : list Call) : Prop :=
    Forall (fun c => c_error c = None) log.

(** The outcome [r] and the log fit: no observer returned an error,
      or the last call of the log did and [r] is that error. *)
Definition fits {A} (r : option (result A)) (log : list Call) : Prop :=
    accepted log \/
    exists pre c e, log = pre ++ [c] /\ accepted pre /\ c_error c = Some e /\ r = Some (Err e).

(** A run of [m] keeps outcome and log fitting. *)
Definition orderly {A} (m : M A) : Prop :=
    forall p r p', accepted (calls p) -> m p = (r, p') -> fits r (calls p').

(** What a turn of the loop leaves as it was; the map of cached
      deltas may lose entries and never gains one. *)
Definition turn (p p' : Parser) : Prop :=
    ob p' = ob p /\ count p' = count p /\ oi p' = oi p /\
    IsSeekable (scanner p') = IsSeekable (scanner p) /\
    isNil (storage p') = isNil (storage p) /\
    shape (nodes p) (nodes p') /\
    (forall k v, cachedDelta p' k = Some v -> cachedDelta p k = Some v).

(** No delta read at the offset [k] has a child: every node of the
      arena with that offset and a delta [DiskType] has no
      [Children]. *)
Definition leafDeltaAt (k : Z) (arena : list objectInfo) : Prop :=
    forall id o, arena !! id = Some o -> Offset o = k ->
      IsDelta (DiskType o) = true -> Children o = [].

(** The two calls that an observer receives for the object [id]: its
      header, then its content, both at the object's offset. *)
Definition paired (arena : list objectInfo) (id : nat) (pair : list Event) : Prop :=
    exists o t len h content,
      arena !! id = Some o /\
      pair = [EvInflatedObjectHeader t len (Offset o);
              EvInflatedObjectContent h (Offset o) (Crc32 o) content].

(** The log of callbacks is as it was. *)
Definition hushed (p p' : Parser) : Prop := calls p' = calls p.

(** What the index pass and the reading of the trailer leave as it
      was. *)
Definition indexing (p p' : Parser) : Prop :=
    ob p' = ob p /\ calls p' = calls p /\ count p' = count p /\
    length (oi p') = length (oi p) /\
    IsSeekable (scanner p') = IsSeekable (scanner p) /\
    isNil (storage p') = isNil (storage p).

(** [m], run from [p], does not run out of fuel, and [Q] holds of
      what it returns when it succeeds. *)
Definition wp {A} (m : M A) (Q : A -> Parser -> Prop) (p : Parser) : Prop :=
    forall r p', m p = (r, p') -> r <> None /\ forall a, r = Some (Ok a) -> Q a p'.

(** [m] never runs out of fuel. *)
Definition total {A} (m : M A) : Prop :=
    forall (Q : A -> Parser -> Prop) p, (forall a p', Q a p') -> wp m Q p.

(** Following [Parent] from [id] through delta nodes, in the arena
      [l], ends within [fuel] nodes. *)
Fixpoint enough (fuel : nat) (l : list objectInfo) (id : nat) : bool :=
    match fuel with
    | O => false
    | Datatypes.S fuel' =>
        match l !! id with
        | None => true
        | Some o =>
            if IsDelta (DiskType o) then
              match Parent o with
              | None => true
              | Some parent => enough fuel' l parent
              end
            else true
        end
    end.

(** Every object of the index has a chain of parents that ends. *)
Definition chainsEnd (objs : list (option nat)) (l : list objectInfo) : Prop :=
    forall id, Some id ∈ objs -> enough (Datatypes.S (length l)) l id = true.

(** From the node [n0] on: a parent was allocated before its child,
      and the index ([p.oiByOffset], [p.oiByHash], [p.oi]) points at
      nodes allocated from [n0] on. *)
Definition grounded (n0 : nat) (p : Parser) : Prop :=
    (n0 <= length (nodes p))%nat /\
    (forall id pid, (Parent <$> nodes p) !! id = Some (Some pid) ->
                    (n0 <= id)%nat -> (n0 <= pid < id)%nat) /\
    (forall k id, oiByOffset p !! k = Some id -> (n0 <= id < length (nodes p))%nat) /\
    (forall h id, oiByHash p !! h = Some id -> (n0 <= id < length (nodes p))%nat) /\
    (forall i id, oi p !! i = Some (Some id) -> (n0 <= id < length (nodes p))%nat).

(** What the rest of a turn of the index loop, once a delta node and
      its parent are linked, leaves as it was in every node: all but
      [Length] and [Crc32]. *)
Definition sameLinks (o o' : objectInfo) : Prop :=
    Offset o' = Offset o /\ Typ o' = Typ o /\ DiskType o' = DiskType o /\
    ExternalRef o' = ExternalRef o /\ Parent o' = Parent o /\
    Children o' = Children o /\ SHA1 o' = SHA1 o.

Definition linked (p p' : Parser) : Prop :=
    oiByHash p' = oiByHash p /\ Forall2 sameLinks (nodes p) (nodes p').

(** Every observer accepts every call. *)
Definition allAccept (obs : list Observer) : Prop :=
    Forall (fun o => forall past ev, notify o past ev = None) obs.

(** The scanner reads a thin pack of one object: the header declares
      one object, the entry is a REF delta with payload [data], and the
      trailer is [sum] (or is missing, which [Parse] lets pass). *)
Definition readsThinPack (s0 : S) (oh : ObjectHeader) (data : bytes) (sum : Hash) (s4 : S) : Prop :=
    exists version s1 s2 crc s3 err,
      sc_Header s0 = (Ok (version, 1%N), s1) /\
      sc_NextObjectHeader s1 = (Ok oh, s2) /\
      oh_Type oh = REFDeltaObject /\
      sc_NextObject s2 = (Ok (data, crc), s3) /\
      sc_Checksum s3 = ((sum, err), s4) /\
      (err = None \/ err = Some EOF).

(** Back at the entry's offset, the scanner reads the same payload
      again. *)
Definition rereads (s4 : S) (oh : ObjectHeader) (data : bytes) : Prop :=
    exists s5 oh' s6 crc' s7,
      sc_SeekFromStart (oh_Offset oh) s4 = (Ok tt, s5) /\
      sc_NextObjectHeader s5 = (Ok oh', s6) /\
      sc_NextObject s6 = (Ok (data, crc'), s7).

(** Sent to [offset], the scanner reads an entry with the payload
      [data]. *)
Definition rereadsAt (s : S) (offset : Z) (data : bytes) : Prop :=
    exists s5 oh' s6 crc' s7,
      sc_SeekFromStart offset s = (Ok tt, s5) /\
      sc_NextObjectHeader s5 = (Ok oh', s6) /\
      sc_NextObject s6 = (Ok (data, crc'), s7).

(** In the arena, the node [id] is the delta [o] and its [Parent] is
      the node [par], the placeholder [pn] of a base that is not in
      the pack. *)
Definition thinDelta (arena : list objectInfo) (id par : nat) (o pn : objectInfo) : Prop :=
    arena !! id = Some o /\ arena !! par = Some pn /\
    ExternalRef o = false /\ IsDelta (DiskType o) = true /\
    Parent o = Some par /\ ExternalRef pn = true.

(** The delta [o] is not resolved yet: its [Type] is still a delta
      type and it has no hash; the [Type] of its parent [pn] is not a
      delta type. *)
Definition pending (o pn : objectInfo) : Prop :=
    IsDelta (Typ o) = true /\ SHA1 o = ZeroHash /\ IsDelta (Typ pn) = false.

(** The payload that [readData] finds for the delta [o]: in the map
      of cached deltas when the source cannot seek, in the pack at the
      delta's offset when it can. *)
Definition payloadOf (p : Parser) (o : objectInfo) (data : bytes) : Prop :=
    if IsSeekable (scanner p)
    then rereadsAt (sc_state (scanner p)) (Offset o) data
    else cachedDelta p (Offset o) = Some data.

(** The body of the loop of [resolveDeltas] from the line after
      [p.get(obj)], which returned [content]. *)
Definition afterGet (id : nat) (content : bytes) : M unit :=
    bind (getNode id) (fun o =>
    bind (onInflatedObjectHeader (Typ o) (Length o) (Offset o)) (fun _ =>
    bind (onInflatedObjectContent (SHA1 o) (Offset o) (Crc32 o) content) (fun _ =>
    if negb (objIsDelta o) && (0 <? length (Children o))%nat then
      bind (resolveChildren (Children o) content) (fun _ =>
      bind (gets (fun p => IsSeekable (scanner p))) (fun seekable =>
      if IsDelta (DiskType o) && negb seekable
      then modify (fun p => set_deltas (delete (Offset o) <$> deltas p) p)
      else ret tt))
    else ret tt))).

(** What the resolve pass leaves as it was: the observers, the three
    indexes, the count, the checksum, and the graph (in every node all
    but [Type], [SHA1] and [Length]). *)
Definition untouched (p p' : Parser) : Prop :=
  ob p' = ob p /\ count p' = count p /\ oi p' = oi p /\
  oiByHash p' = oiByHash p /\ oiByOffset p' = oiByOffset p /\
  checksum p' = checksum p /\
  IsSeekable (scanner p') = IsSeekable (scanner p) /\
  isNil (storage p') = isNil (storage p) /\
  shape (nodes p) (nodes p').

(** The node that the type switch of [indexObjects] makes for the
    entry: the header's offset, length and type, no hash yet. *)
Definition freshNode (oh : ObjectHeader) (n : objectInfo) : Prop :=
  Offset n = oh_Offset oh /\ Length n = oh_Length oh /\ Typ n = oh_Type oh /\
  DiskType n = oh_Type oh /\ ExternalRef n = false /\ SHA1 n = ZeroHash /\
  (IsDelta (oh_Type oh) = false -> Parent n = None).

(** ** What never changes in a node once it is allocated by the index
       pass, as far as the resolve pass goes *)

Lemma sameStatic_refl o : sameStatic o o.
Proof. repeat split. Qed.

Lemma sameStatic_trans o1 o2 o3 : sameStatic o1 o2 -> sameStatic o2 o3 -> sameStatic o1 o3.
Proof.
  unfold sameStatic. intros (?&?&?&?&?&?) (?&?&?&?&?&?).
  repeat split; congruence.
Qed.

Lemma shape_refl l : shape l l.
Proof. induction l; constructor; auto using sameStatic_refl. Qed.

Lemma shape_trans l1 l2 l3 : shape l1 l2 -> shape l2 l3 -> shape l1 l3.
Proof.
  unfold shape. apply Forall2_trans. exact sameStatic_trans.
Qed.

Lemma shape_alter (f : objectInfo -> objectInfo) id l :
  (forall o, sameStatic o (f o)) -> shape l (alter f id l).
Proof.
  intros Hf. revert id. induction l as [|o l IH]; intros [|id]; cbn;
    try constructor; auto using sameStatic_refl.
  - apply shape_refl.
  - apply IH.
Qed.

Lemma shape_lookup l l' id o' :
  shape l l' -> l' !! id = Some o' -> exists o, l !! id = Some o /\ sameStatic o o'.
Proof.
  intros Hs Hl. unfold shape in Hs.
  destruct (Forall2_lookup_r _ _ _ _ _ Hs Hl) as (o & Ho & Hso). eauto.
Qed.

Lemma shape_lookup_l l l' id o :
  shape l l' -> l !! id = Some o -> exists o', l' !! id = Some o' /\ sameStatic o o'.
Proof.
  intros Hs Hl. unfold shape in Hs.
  destruct (Forall2_lookup_l _ _ _ _ _ Hs Hl) as (o' & Ho & Hso). eauto.
Qed.

Lemma shape_length l l' : shape l l' -> length l' = length l.
Proof. intros Hs. symmetry. eapply Forall2_length, Hs. Qed.

(** ** Reasoning about state transformers *)

Section Respects.
Variable R : Parser -> Parser -> Prop.
Hypothesis R_refl : forall p, R p p.
Hypothesis R_trans : forall p1 p2 p3, R p1 p2 -> R p2 p3 -> R p1 p3.

Lemma respects_ret {A} (a : A) : respects R (ret a).
Proof. intros p r p' [= _ <-]. apply R_refl. Qed.
Lemma respects_fail {A} e : respects R (fail (A:=A) e).
Proof. intros p r p' [= _ <-]. apply R_refl. Qed.
Lemma respects_panic {A} w : respects R (panic (A:=A) w).
Proof. intros p r p' [= _ <-]. apply R_refl. Qed.
Lemma respects_outOfFuel {A} : respects R (outOfFuel (A:=A)).
Proof. intros p r p' [= _ <-]. apply R_refl. Qed.
Lemma respects_gets {A} (f : Parser -> A) : respects R (gets f).
Proof. intros p r p' [= _ <-]. apply R_refl. Qed.
Lemma respects_liftR {A} (x : result A) : respects R (liftR x).
Proof. intros p r p' [= _ <-]. apply R_refl. Qed.
Lemma respects_getNode id : respects R (getNode id).
Proof.
  intros p r p'. unfold getNode. destruct (nodes p !! id); intros [= _ <-]; apply R_refl.
Qed.

Lemma respects_bind {A B} (m : M A) (f : A -> M B) :
  respects R m -> (forall a, respects R (f a)) -> respects R (bind m f).
Proof.
  intros Hm Hf p r p'. unfold bind.
  destruct (m p) as [[[a|e|w]|] p1] eqn:Hmp.
  - intros Hfa. eapply R_trans; [eapply Hm, Hmp | eapply Hf, Hfa].
  - intros [= _ <-]. eapply Hm, Hmp.
  - intros [= _ <-]. eapply Hm, Hmp.
  - intros [= _ <-]. eapply Hm, Hmp.
Qed.

Lemma respects_modify (g : Parser -> Parser) :
  (forall p, R p (g p)) -> respects R (modify g).
Proof. intros Hg p r p' [= _ <-]. apply Hg. Qed.

Lemma respects_setNode id f :
  (forall p, R p (set_nodes (alter f id (nodes p)) p)) -> respects R (setNode id f).
Proof. intros Hg. apply respects_modify. exact Hg. Qed.

Lemma respects_alloc o :
  (forall p, R p (set_nodes (nodes p ++ [o]) p)) -> respects R (alloc o).
Proof. intros Hg p r p' [= _ <-]. apply Hg. Qed.

Lemma respects_scan {A} (op : S -> result A * S) :
  (forall p s', R p (set_scanner {| IsSeekable := IsSeekable (scanner p); sc_state := s' |} p)) ->
  respects R (scan op).
Proof.
  intros Hg p r p'. unfold scan. destruct (op _) as [x s']. intros [= _ <-]. apply Hg.
Qed.

Lemma respects_storageEncodedObject t h :
  (forall p st', storage p <> None -> R p (set_storage (Some st') p)) ->
  respects R (storageEncodedObject t h).
Proof.
  intros Hg p r p'. unfold storageEncodedObject.
  destruct (storage p) as [st|] eqn:Hst.
  - destruct (st_EncodedObject st t h) as [x st']. intros [= _ <-]. apply Hg. congruence.
  - intros [= _ <-]. apply R_refl.
Qed.

Lemma respects_storageSetEncodedObject obj :
  (forall p st', storage p <> None -> R p (set_storage (Some st') p)) ->
  respects R (storageSetEncodedObject obj).
Proof.
  intros Hg p r p'. unfold storageSetEncodedObject.
  destruct (storage p) as [st|] eqn:Hst.
  - destruct (st_SetEncodedObject st obj) as [x st']. intros [= _ <-]. apply Hg. congruence.
  - intros [= _ <-]. apply R_refl.
Qed.

Lemma respects_cacheGet k :
  (forall p c', R p (set_cache c' p)) -> respects R (cacheGet k).
Proof.
  intros Hg p r p'. unfold cacheGet. destruct (cache_Get _ _) as [x c']. intros [= _ <-]. apply Hg.
Qed.

Lemma respects_cachePut k v :
  (forall p c', R p (set_cache c' p)) -> respects R (cachePut k v).
Proof. intros Hg. apply respects_modify. intros p. apply Hg. Qed.

Lemma respects_onEvent ev :
  (forall p log, R p (set_calls log p)) -> respects R (onEvent ev).
Proof.
  intros Hg p r p'. unfold onEvent. destruct (forEachObserver _ _ _ _) as [x log].
  intros [= _ <-]. apply Hg.
Qed.
End Respects.

(** Case analysis on what a run of [m] is made of: binds, tests and
    the primitive steps; [side] discharges what a primitive step asks
    of the relation. *)
Ltac respects_with Rrefl Rtrans side :=
  repeat
    (first
       [ progress (cbv beta zeta iota delta [negb andb])
       | match goal with Hx : context [respects] |- _ => apply Hx end
       | lazymatch goal with
         | |- respects _ (bind _ _) => apply (respects_bind _ Rtrans); [|intros ?]
         | |- respects _ (ret _) => apply (respects_ret _ Rrefl)
         | |- respects _ (fail _) => apply (respects_fail _ Rrefl)
         | |- respects _ (panic _) => apply (respects_panic _ Rrefl)
         | |- respects _ outOfFuel => apply (respects_outOfFuel _ Rrefl)
         | |- respects _ (gets _) => apply (respects_gets _ Rrefl)
         | |- respects _ (liftR _) => apply (respects_liftR _ Rrefl)
         | |- respects _ (getNode _) => apply (respects_getNode _ Rrefl)
         | |- respects _ (modify _) => apply respects_modify; side
         | |- respects _ (setNode _ _) => apply respects_setNode; side
         | |- respects _ (alloc _) => apply respects_alloc; side
         | |- respects _ (scan _) => apply respects_scan; side
         | |- respects _ (storageEncodedObject _ _) =>
             apply (respects_storageEncodedObject _ Rrefl); side
         | |- respects _ (storageSetEncodedObject _) =>
             apply (respects_storageSetEncodedObject _ Rrefl); side
         | |- respects _ (cacheGet _) => apply respects_cacheGet; side
         | |- respects _ (cachePut _ _) => apply respects_cachePut; side
         | |- respects _ (onEvent _) => apply respects_onEvent; side
         | |- respects _ (match ?x with _ => _ end) => destruct x
         end ]).

(** ** The resolve pass leaves the index alone *)

Lemma frame_refl (p : Parser) : frame p p.
Proof. repeat split. apply shape_refl. Qed.

Lemma frame_trans (p1 p2 p3 : Parser) : frame p1 p2 -> frame p2 p3 -> frame p1 p3.
Proof.
  unfold frame. intros (?&?&?&?&?&?&?&?) (?&?&?&?&?&?&?&?).
  repeat split; try congruence. eapply shape_trans; eauto.
Qed.

Ltac frame_side :=
  intros; unfold frame; simpl; repeat split; try reflexivity;
  try apply shape_refl;
  try (apply shape_alter; intros; repeat split);
  try (match goal with Hs : storage ?p <> None |- _ => destruct (storage p); [reflexivity|congruence] end).

Ltac frame_tac := respects_with frame_refl frame_trans frame_side.

Lemma readData_frame id : respects frame (readData id).
Proof. unfold readData. frame_tac. Qed.

Lemma applyPatchBase_frame id data base : respects frame (applyPatchBase id data base).
Proof. unfold applyPatchBase. frame_tac. Qed.

Lemma resolveObject_frame id base : respects frame (resolveObject id base).
Proof.
  unfold resolveObject.
  pose proof readData_frame. pose proof applyPatchBase_frame.
  frame_tac.
Qed.

Lemma get_frame fuel : forall id, respects frame (get fuel id).
Proof.
  induction fuel as [|fuel IH]; intros id; simpl.
  - frame_tac.
  - pose proof readData_frame. pose proof resolveObject_frame.
    frame_tac.
Qed.

Lemma getObject_frame id : respects frame (getObject id).
Proof. intros p r p'. unfold getObject. apply get_frame. Qed.

Lemma resolveChildren_frame content children : respects frame (resolveChildren children content).
Proof.
  induction children as [|c children IH]; simpl.
  - frame_tac.
  - pose proof resolveObject_frame. frame_tac.
Qed.

Lemma respects_weaken (R R' : Parser -> Parser -> Prop) {A} (m : M A) :
  (forall p p', R p p' -> R' p p') -> respects R m -> respects R' m.
Proof. intros HR Hm p r p' Hrun. apply HR. eapply Hm, Hrun. Qed.

(** A successful [bind] is two successful runs. *)
Lemma bind_ok {A B} (m : M A) (f : A -> M B) (p p' : Parser) b :
  bind m f p = (Some (Ok b), p') ->
  exists a p1, m p = (Some (Ok a), p1) /\ f a p1 = (Some (Ok b), p').
Proof.
  unfold bind. destruct (m p) as [[[a|e|w]|] p1]; try discriminate. eauto.
Qed.

Lemma getNode_ok id (p p' : Parser) o :
  getNode id p = (Some (Ok o), p') -> p' = p /\ nodes p !! id = Some o.
Proof. unfold getNode. destruct (nodes p !! id); intros [= <- <-]; auto. Qed.

Lemma gets_ok {A} (f : Parser -> A) (p p' : Parser) a :
  gets f p = (Some (Ok a), p') -> p' = p /\ a = f p.
Proof. intros [= <- <-]. auto. Qed.

(** ** What the observers are told *)

Lemma received_app k l1 l2 : received k (l1 ++ l2) = received k l1 ++ received k l2.
Proof. unfold received. rewrite filter_app, fmap_app. reflexivity. Qed.

Lemma received_told_all ev j n : forall k,
  received j ((fun i => told i ev) <$> seq k n)
  = if bool_decide (k <= j < k + n)%nat then [ev] else [].
Proof.
  induction n as [|n IH]; intros k; simpl.
  - rewrite bool_decide_eq_false_2 by lia. reflexivity.
  - unfold received in *. rewrite filter_cons. simpl.
    destruct (decide (k = j)) as [->|Hne].
    + simpl. rewrite IH. rewrite bool_decide_eq_false_2 by lia.
      rewrite bool_decide_eq_true_2 by lia. reflexivity.
    + rewrite IH. destruct (bool_decide (Datatypes.S k <= j < Datatypes.S k + n)%nat) eqn:Hb.
      * apply bool_decide_eq_true_1 in Hb. rewrite bool_decide_eq_true_2 by lia. reflexivity.
      * apply bool_decide_eq_false_1 in Hb. rewrite bool_decide_eq_false_2 by lia. reflexivity.
Qed.

(** [forEachObserver]: either every observer is told and none
    objects, or the observers up to the first that objects are told,
    and its error comes back. *)
Lemma forEachObserver_spec obs ev : forall k past err log,
  forEachObserver k obs ev past = (err, log) ->
  match err with
  | None => log = past ++ ((fun i => told i ev) <$> seq k (length obs))
  | Some e =>
      exists n, (n < length obs)%nat /\
        log = past ++ ((fun i => told i ev) <$> seq k n)
                   ++ [{| c_observer := k + n; c_event := ev; c_error := Some e |}]
  end.
Proof.
  induction obs as [|o obs IH]; intros k past err log; simpl.
  - intros [= <- <-]. rewrite app_nil_r. reflexivity.
  - destruct (notify o past ev) as [e|] eqn:Hn.
    + intros [= <- <-]. exists 0%nat. split; [lia|]. simpl. rewrite Nat.add_0_r. reflexivity.
    + intros Hrest. apply IH in Hrest. destruct err as [e|].
      * destruct Hrest as (n & Hn' & ->). exists (Datatypes.S n). split; [lia|].
        simpl. rewrite <- !app_assoc. simpl. rewrite Nat.add_succ_r. reflexivity.
      * rewrite Hrest. rewrite <- app_assoc. reflexivity.
Qed.

Lemma accepted_told ev k n : accepted ((fun i => told i ev) <$> seq k n).
Proof. unfold accepted. apply Forall_fmap, Forall_forall. intros; reflexivity. Qed.

Lemma onEvent_spec ev (p p' : Parser) r :
  onEvent ev p = (r, p') ->
  p' = set_calls (calls p') p /\
  match r with
  | Some (Ok _) => calls p' = calls p ++ ((fun i => told i ev) <$> seq 0 (length (ob p)))
  | Some (Err e) =>
      exists n, calls p' = calls p ++ ((fun i => told i ev) <$> seq 0 n)
                   ++ [{| c_observer := n; c_event := ev; c_error := Some e |}]
  | _ => False
  end.
Proof.
  unfold onEvent. destruct (forEachObserver 0 (ob p) ev (calls p)) as [err log] eqn:Hf.
  intros [= <- <-]. split; [reflexivity|].
  apply forEachObserver_spec in Hf. destruct err as [e|]; simpl.
  - destruct Hf as (n & _ & ->). exists n. reflexivity.
  - exact Hf.
Qed.

Lemma onEvent_received ev (p p' : Parser) j :
  onEvent ev p = (Some (Ok tt), p') -> (j < length (ob p))%nat ->
  received j (calls p') = received j (calls p) ++ [ev].
Proof.
  intros Hrun Hj. apply onEvent_spec in Hrun. destruct Hrun as [_ ->].
  rewrite received_app, received_told_all.
  rewrite bool_decide_eq_true_2 by lia. reflexivity.
Qed.

Lemma orderly_bind {A B} (m : M A) (f : A -> M B) :
  orderly m -> (forall a, orderly (f a)) -> orderly (bind m f).
Proof.
  intros Hm Hf p r p' Hacc. unfold bind.
  destruct (m p) as [[[a|e|w]|] p1] eqn:Hmp.
  - intros Hfa. specialize (Hm _ _ _ Hacc Hmp).
    destruct Hm as [Hacc1 | (pre & c & e & _ & _ & _ & [=])].
    exact (Hf a _ _ _ Hacc1 Hfa).
  - intros [= <- <-]. specialize (Hm _ _ _ Hacc Hmp).
    destruct Hm as [Hacc1 | (pre & c & e' & Hl & Hp & Hc & [= ->])].
    + left. exact Hacc1.
    + right. exists pre, c, e'. auto.
  - intros [= <- <-]. specialize (Hm _ _ _ Hacc Hmp).
    destruct Hm as [Hacc1 | (pre & c & e' & Hl & Hp & Hc & [=])].
    left. exact Hacc1.
  - intros [= <- <-]. specialize (Hm _ _ _ Hacc Hmp).
    destruct Hm as [Hacc1 | (pre & c & e' & Hl & Hp & Hc & [=])].
    left. exact Hacc1.
Qed.

Lemma orderly_silent {A} (m : M A) :
  respects (fun p p' => calls p' = calls p) m -> orderly m.
Proof. intros Hm p r p' Hacc Hrun. left. rewrite (Hm _ _ _ Hrun). exact Hacc. Qed.

Lemma orderly_onEvent ev : orderly (onEvent ev).
Proof.
  intros p r p' Hacc Hrun. apply onEvent_spec in Hrun. destruct Hrun as [_ Hr].
  destruct r as [[[]|e|w]|]; try contradiction.
  - left. rewrite Hr. apply Forall_app. split; [exact Hacc|apply accepted_told].
  - destruct Hr as (n & ->). right. eexists _, _, e. split.
    + rewrite app_assoc. reflexivity.
    + split; [|split; reflexivity].
      apply Forall_app. split; [exact Hacc|apply accepted_told].
Qed.

Lemma fits_last {A} (r : option (result A)) log l1 c l2 e :
  fits r log -> log = l1 ++ c :: l2 -> c_error c = Some e ->
  l2 = [] /\ r = Some (Err e).
Proof.
  intros [Hacc | (pre & c' & e' & -> & Hpre & Hc' & ->)] Hlog Hc.
  - subst log. apply Forall_app in Hacc. destruct Hacc as [_ Hacc].
    inversion Hacc; subst. congruence.
  - destruct l2 as [|c2 l2] using rev_ind.
    + apply app_inj_tail in Hlog. destruct Hlog as [_ ->]. split; [reflexivity|congruence].
    + clear IHl2. rewrite app_comm_cons, app_assoc in Hlog.
      apply app_inj_tail in Hlog. destruct Hlog as [-> _].
      apply Forall_app in Hpre. destruct Hpre as [_ Hpre].
      inversion Hpre; subst. congruence.
Qed.

(** ** One turn of the loop of [resolveDeltas] *)

Lemma turn_refl (p : Parser) : turn p p.
Proof. repeat split; auto. apply shape_refl. Qed.

Lemma turn_trans (p1 p2 p3 : Parser) : turn p1 p2 -> turn p2 p3 -> turn p1 p3.
Proof.
  unfold turn. intros (?&?&?&?&?&?&?) (?&?&?&?&?&?&?).
  repeat split; try congruence; eauto using shape_trans.
Qed.

Lemma frame_turn (p p' : Parser) : frame p p' -> turn p p'.
Proof.
  unfold frame, turn. intros (?&?&?&Hd&?&?&?&?). repeat split; auto.
  unfold cachedDelta. rewrite Hd. auto.
Qed.

Lemma cachedDelta_delete (p : Parser) k k' v :
  cachedDelta (set_deltas (delete k <$> deltas p) p) k' = Some v -> cachedDelta p k' = Some v.
Proof.
  unfold cachedDelta. simpl. destruct (deltas p) as [m|]; simpl; [|discriminate].
  intros Hl. apply lookup_delete_Some in Hl. tauto.
Qed.

Lemma cachedDelta_deleted (p : Parser) k :
  cachedDelta (set_deltas (delete k <$> deltas p) p) k = None.
Proof.
  unfold cachedDelta. simpl. destruct (deltas p) as [m|]; simpl; [|reflexivity].
  apply lookup_delete_eq.
Qed.

Ltac turn_side :=
  intros; unfold turn; simpl; repeat split; try reflexivity;
  try apply shape_refl; try (intros ? ?; apply cachedDelta_delete); auto.

Lemma resolveOne_turn obj : respects turn (resolveOne obj).
Proof.
  unfold resolveOne, onInflatedObjectHeader, onInflatedObjectContent.
  pose proof (fun id => respects_weaken _ _ _ frame_turn (getObject_frame id)) as Hg.
  pose proof (fun c l => respects_weaken _ _ _ frame_turn (resolveChildren_frame c l)) as Hc.
  respects_with turn_refl turn_trans turn_side.
Qed.

Lemma resolveEach_turn objs : respects turn (resolveEach objs).
Proof.
  induction objs as [|obj objs IH]; simpl.
  - respects_with turn_refl turn_trans turn_side.
  - pose proof resolveOne_turn. respects_with turn_refl turn_trans turn_side.
Qed.

Lemma resolveDeltas_turn : respects turn resolveDeltas.
Proof.
  unfold resolveDeltas. pose proof resolveEach_turn.
  respects_with turn_refl turn_trans turn_side.
Qed.

(** A successful turn, step by step. *)
Lemma resolveOne_ok obj (p p' : Parser) :
  resolveOne obj p = (Some (Ok tt), p') ->
  exists id content p1 o p2 p3 p4,
    obj = Some id /\
    getObject id p = (Some (Ok content), p1) /\
    nodes p1 !! id = Some o /\
    onEvent (EvInflatedObjectHeader (Typ o) (Length o) (Offset o)) p1 = (Some (Ok tt), p2) /\
    onEvent (EvInflatedObjectContent (SHA1 o) (Offset o) (Crc32 o) content) p2 = (Some (Ok tt), p3) /\
    nodes p3 = nodes p1 /\ deltas p3 = deltas p1 /\
    IsSeekable (scanner p3) = IsSeekable (scanner p1) /\
    if negb (objIsDelta o) && (0 <? length (Children o))%nat then
      resolveChildren (Children o) content p3 = (Some (Ok tt), p4) /\
      p' = (if IsDelta (DiskType o) && negb (IsSeekable (scanner p4))
            then set_deltas (delete (Offset o) <$> deltas p4) p4 else p4)
    else p' = p3.
Proof.
  unfold resolveOne. destruct obj as [id|]; [|discriminate].
  intros Hrun.
  apply bind_ok in Hrun. destruct Hrun as (content & p1 & Hget & Hrun).
  apply bind_ok in Hrun. destruct Hrun as (o & p1' & Hnode & Hrun).
  apply getNode_ok in Hnode. destruct Hnode as [-> Hnode].
  apply bind_ok in Hrun. destruct Hrun as ([] & p2 & Hev1 & Hrun).
  apply bind_ok in Hrun. destruct Hrun as ([] & p3 & Hev2 & Hrun).
  unfold onInflatedObjectHeader in Hev1. unfold onInflatedObjectContent in Hev2.
  pose proof (onEvent_spec _ _ _ _ Hev1) as [E1 _].
  pose proof (onEvent_spec _ _ _ _ Hev2) as [E2 _].
  assert (Hn : nodes p3 = nodes p1) by (rewrite E2, E1; reflexivity).
  assert (Hd : deltas p3 = deltas p1) by (rewrite E2, E1; reflexivity).
  assert (Hs : IsSeekable (scanner p3) = IsSeekable (scanner p1)) by (rewrite E2, E1; reflexivity).
  destruct (negb (objIsDelta o) && (0 <? length (Children o))%nat) eqn:Hcond.
  - apply bind_ok in Hrun. destruct Hrun as ([] & p4 & Hch & Hrun).
    apply bind_ok in Hrun. destruct Hrun as (seekable & p4' & Hsk & Hrun).
    apply gets_ok in Hsk. destruct Hsk as [-> ->].
    exists id, content, p1, o, p2, p3, p4. rewrite Hcond.
    repeat (split; [assumption || reflexivity|]).
    destruct (IsDelta (DiskType o) && negb (IsSeekable (scanner p4))).
    + injection Hrun as <-. reflexivity.
    + injection Hrun as <-. reflexivity.
  - injection Hrun as <-.
    exists id, content, p1, o, p2, p3, p3. rewrite Hcond.
    repeat (split; [assumption || reflexivity|]). reflexivity.
Qed.

Lemma leafDeltaAt_shape k l l' : shape l l' -> leafDeltaAt k l -> leafDeltaAt k l'.
Proof.
  intros Hs Hleaf id o' Ho' Hoff Hdisk.
  destruct (shape_lookup _ _ _ _ Hs Ho') as (o & Ho & Ho1 & Hd1 & _ & _ & _ & Hc1).
  rewrite Hc1. apply (Hleaf id o Ho); congruence.
Qed.

Lemma cachedDelta_delete_ne (p : Parser) k k' :
  k <> k' -> cachedDelta (set_deltas (delete k <$> deltas p) p) k' = cachedDelta p k'.
Proof.
  intros Hne. unfold cachedDelta. simpl. destruct (deltas p) as [m|]; simpl; [|reflexivity].
  apply lookup_delete_ne. exact Hne.
Qed.

(** A turn of the loop leaves alone the payload at an offset where no
    delta has a child. *)
Lemma resolveOne_spares obj (p p' : Parser) k :
  resolveOne obj p = (Some (Ok tt), p') ->
  leafDeltaAt k (nodes p) ->
  cachedDelta p' k = cachedDelta p k.
Proof.
  intros Hrun Hleaf. apply resolveOne_ok in Hrun.
  destruct Hrun as (id & content & p1 & o & p2 & p3 & p4 & _ & Hget & Hnode & _ & _
                    & Hn3 & Hd3 & _ & Hrest).
  pose proof (getObject_frame _ _ _ _ Hget) as (_&_&_&Hd1&_&_&_&Hsh1).
  assert (H31 : cachedDelta p3 k = cachedDelta p k).
  { unfold cachedDelta. rewrite Hd3, Hd1. reflexivity. }
  destruct (negb (objIsDelta o) && (0 <? length (Children o))%nat) eqn:Hcond.
  - destruct Hrest as [Hch ->].
    pose proof (resolveChildren_frame _ _ _ _ _ Hch) as (_&_&_&Hd4&_&_&_&_).
    assert (H4 : cachedDelta p4 k = cachedDelta p k).
    { unfold cachedDelta in *. rewrite Hd4. exact H31. }
    destruct (IsDelta (DiskType o) && negb (IsSeekable (scanner p4))) eqn:Hdrop; [|exact H4].
    rewrite cachedDelta_delete_ne; [exact H4|].
    intros Hk.
    apply andb_true_iff in Hcond. destruct Hcond as [_ Hkids].
    apply andb_true_iff in Hdrop. destruct Hdrop as [Hdisk _].
    pose proof (leafDeltaAt_shape _ _ _ Hsh1 Hleaf id o Hnode Hk Hdisk) as Hnone.
    rewrite Hnone in Hkids. discriminate.
  - subst p'. exact H31.
Qed.

Lemma resolveEach_spares k objs : forall (p p' : Parser),
  resolveEach objs p = (Some (Ok tt), p') ->
  leafDeltaAt k (nodes p) ->
  cachedDelta p' k = cachedDelta p k.
Proof.
  induction objs as [|obj objs IH]; simpl; intros p p' Hrun Hleaf.
  - injection Hrun as <-. reflexivity.
  - apply bind_ok in Hrun. destruct Hrun as ([] & p1 & Hone & Hrest).
    pose proof (resolveOne_turn _ _ _ _ Hone) as (_&_&_&_&_&Hsh&_).
    rewrite (IH _ _ Hrest (leafDeltaAt_shape _ _ _ Hsh Hleaf)).
    apply (resolveOne_spares _ _ _ _ Hone Hleaf).
Qed.

(** C6 (amended). In the resolve pass over a non-seekable source,
    when the loop is done with a node [o] whose [diskType] is a delta
    variant, whose type is resolved (no longer a delta) and which has
    at least one child, [deltas[o.offset]] is dropped; the resolve
    pass never adds an entry to the map, so what was dropped stays
    dropped; and the payload of a delta without children is not
    dropped: at an offset where no delta has a child, the map holds
    when [resolveDeltas] completes what it held before. *)
Theorem resolveDeltas_drops_delta_with_children :
  (forall (p p' : Parser) id o,
      resolveOne (Some id) p = (Some (Ok tt), p') ->
      IsSeekable (scanner p) = false ->
      nodes p' !! id = Some o ->
      IsDelta (DiskType o) = true ->
      objIsDelta o = false ->
      Children o <> [] ->
      cachedDelta p' (Offset o) = None) /\
  (forall (p p' : Parser) r offset payload,
      resolveDeltas p = (r, p') ->
      cachedDelta p' offset = Some payload ->
      cachedDelta p offset = Some payload) /\
  (forall (p p' : Parser) offset,
      resolveDeltas p = (Some (Ok tt), p') ->
      leafDeltaAt offset (nodes p) ->
      cachedDelta p' offset = cachedDelta p offset).
Proof.
  split; [|split].
  - intros p p' id o' Hrun Hseek Ho' Hdisk Htyp Hkids.
    pose proof (resolveOne_turn _ _ _ _ Hrun) as (_&_&_&Hsk'&_&_&_).
    apply resolveOne_ok in Hrun.
    destruct Hrun as (id0 & content & p1 & o & p2 & p3 & p4 & [= <-] & Hget & Hnode & _ & _ & Hn3 & _ & Hs3 & Hrest).
    pose proof (getObject_frame _ _ _ _ Hget) as (_&_&_&_&_&Hs1&_&_).
    destruct (negb (objIsDelta o) && (0 <? length (Children o))%nat) eqn:Hcond.
    + destruct Hrest as [Hch ->].
      pose proof (resolveChildren_frame _ _ _ _ _ Hch) as (_&_&_&_&_&Hs4&_&Hsh4).
      assert (Hst : sameStatic o o').
      { assert (Hsh : shape (nodes p3)
                        (nodes (if IsDelta (DiskType o) && negb (IsSeekable (scanner p4))
                                then set_deltas (delete (Offset o) <$> deltas p4) p4 else p4))).
        { destruct (IsDelta (DiskType o) && negb (IsSeekable (scanner p4))); exact Hsh4. }
        destruct (shape_lookup _ _ _ _ Hsh Ho') as (o0 & Ho0 & Hs0).
        rewrite Hn3, Hnode in Ho0. injection Ho0 as <-. exact Hs0. }
      destruct Hst as (Hoff & Hdt & _).
      rewrite Hdt in Hdisk. rewrite Hdisk, Hs4, Hs3, Hs1, Hseek. simpl.
      rewrite Hoff. apply cachedDelta_deleted.
    + subst p'. rewrite Hn3, Hnode in Ho'. injection Ho' as <-.
      exfalso. rewrite Htyp in Hcond. simpl in Hcond.
      apply Nat.ltb_ge in Hcond. destruct (Children o); [congruence|simpl in Hcond; lia].
  - intros p p' r offset payload Hrun.
    pose proof (resolveDeltas_turn _ _ _ Hrun) as (_&_&_&_&_&_&Hsub).
    apply Hsub.
  - intros p p' offset Hrun Hleaf. unfold resolveDeltas in Hrun.
    apply bind_ok in Hrun. destruct Hrun as (objs & p0 & Hoi & Hrun).
    apply gets_ok in Hoi. destruct Hoi as [-> ->].
    exact (resolveEach_spares _ _ _ _ Hrun Hleaf).
Qed.

Lemma paired_shape l l' id pair : shape l l' -> paired l id pair -> paired l' id pair.
Proof.
  intros Hs (o & t & len & h & content & Ho & ->).
  destruct (shape_lookup_l _ _ _ _ Hs Ho) as (o' & Ho' & Hoff & _ & _ & Hcrc & _).
  exists o', t, len, h, content. rewrite Hoff, Hcrc. auto.
Qed.

Lemma resolveOne_emits obj (p p' : Parser) :
  resolveOne obj p = (Some (Ok tt), p') ->
  exists id pair,
    obj = Some id /\ paired (nodes p') id pair /\
    forall j, (j < length (ob p))%nat ->
      received j (calls p') = received j (calls p) ++ pair.
Proof.
  intros Hrun. apply resolveOne_ok in Hrun.
  destruct Hrun as (id & content & p1 & o & p2 & p3 & p4 & -> & Hget & Hnode & Hev1 & Hev2
                    & Hn3 & _ & _ & Hrest).
  pose proof (getObject_frame _ _ _ _ Hget) as (Hob1&_&_&_&Hc1&_&_&_).
  pose proof (onEvent_spec _ _ _ _ Hev1) as [E1 _].
  assert (Hob2 : ob p2 = ob p1) by (rewrite E1; reflexivity).
  assert (Hend : calls p' = calls p3 /\ shape (nodes p3) (nodes p')).
  { destruct (negb (objIsDelta o) && (0 <? length (Children o))%nat).
    - destruct Hrest as [Hch ->].
      pose proof (resolveChildren_frame _ _ _ _ _ Hch) as (_&_&_&_&Hc4&_&_&Hsh4).
      destruct (IsDelta (DiskType o) && negb (IsSeekable (scanner p4))); simpl; auto.
    - subst p'. split; [reflexivity|apply shape_refl]. }
  destruct Hend as [Hcalls Hshape].
  exists id, [EvInflatedObjectHeader (Typ o) (Length o) (Offset o);
              EvInflatedObjectContent (SHA1 o) (Offset o) (Crc32 o) content].
  split; [reflexivity|]. split.
  - apply (paired_shape (nodes p3)); [exact Hshape|].
    exists o, (Typ o), (Length o), (SHA1 o), content. rewrite Hn3. auto.
  - intros j Hj. rewrite Hcalls.
    rewrite (onEvent_received _ _ _ j Hev2) by (rewrite Hob2, Hob1; exact Hj).
    rewrite (onEvent_received _ _ _ j Hev1) by (rewrite Hob1; exact Hj).
    rewrite Hc1, <- app_assoc. reflexivity.
Qed.

Lemma resolveEach_emits objs : forall (p p' : Parser),
  resolveEach objs p = (Some (Ok tt), p') ->
  exists ids pairs,
    objs = Some <$> ids /\ Forall2 (paired (nodes p')) ids pairs /\
    forall j, (j < length (ob p))%nat ->
      received j (calls p') = received j (calls p) ++ concat pairs.
Proof.
  induction objs as [|obj objs IH]; simpl; intros p p' Hrun.
  - injection Hrun as <-. exists [], []. split; [reflexivity|]. split; [constructor|].
    intros j _. simpl. rewrite app_nil_r. reflexivity.
  - apply bind_ok in Hrun. destruct Hrun as ([] & p1 & Hone & Hrest).
    pose proof (resolveOne_turn _ _ _ _ Hone) as (Hob1&_).
    pose proof (resolveEach_turn _ _ _ _ Hrest) as (_&_&_&_&_&Hsh&_).
    apply resolveOne_emits in Hone. destruct Hone as (id & pair & -> & Hpair & Hrecv1).
    apply IH in Hrest. destruct Hrest as (ids & pairs & -> & Hpairs & Hrecv).
    exists (id :: ids), (pair :: pairs). split; [reflexivity|]. split.
    + constructor; [|exact Hpairs]. eapply paired_shape; eauto.
    + intros j Hj. rewrite Hrecv by (rewrite Hob1; exact Hj).
      rewrite Hrecv1 by exact Hj. simpl. rewrite <- app_assoc. reflexivity.
Qed.

Lemma hushed_refl (p : Parser) : hushed p p.
Proof. reflexivity. Qed.

Lemma hushed_trans (p1 p2 p3 : Parser) : hushed p1 p2 -> hushed p2 p3 -> hushed p1 p3.
Proof. unfold hushed. congruence. Qed.

Lemma frame_hushed (p p' : Parser) : frame p p' -> hushed p p'.
Proof. intros (_&_&_&_&Hc&_). exact Hc. Qed.

Ltac hushed_tac := respects_with hushed_refl hushed_trans ltac:(intros; reflexivity).

Lemma orderly_resolveOne obj : orderly (resolveOne obj).
Proof.
  pose proof (fun id => respects_weaken _ _ _ frame_hushed (getObject_frame id)) as Hg.
  pose proof (fun c l => respects_weaken _ _ _ frame_hushed (resolveChildren_frame c l)) as Hc.
  unfold resolveOne. destruct obj as [id|].
  2:{ apply orderly_silent. hushed_tac. }
  apply orderly_bind; [apply orderly_silent, Hg|intros content].
  apply orderly_bind; [apply orderly_silent; hushed_tac|intros o].
  apply orderly_bind; [apply orderly_onEvent|intros _].
  apply orderly_bind; [apply orderly_onEvent|intros _].
  apply orderly_silent. hushed_tac.
Qed.

Lemma orderly_resolveEach objs : orderly (resolveEach objs).
Proof.
  induction objs as [|obj objs IH]; simpl.
  - apply orderly_silent. hushed_tac.
  - apply orderly_bind; [apply orderly_resolveOne|intros _; exact IH].
Qed.

Lemma orderly_resolveDeltas : orderly resolveDeltas.
Proof.
  unfold resolveDeltas. apply orderly_bind.
  - apply orderly_silent. hushed_tac.
  - intros objs. apply orderly_resolveEach.
Qed.

(** ** The index pass makes no callback *)

Lemma indexing_refl (p : Parser) : indexing p p.
Proof. repeat split. Qed.

Lemma indexing_trans (p1 p2 p3 : Parser) : indexing p1 p2 -> indexing p2 p3 -> indexing p1 p3.
Proof.
  unfold indexing. intros (?&?&?&?&?&?) (?&?&?&?&?&?). repeat split; congruence.
Qed.

Ltac indexing_side :=
  intros; unfold indexing; simpl; repeat split; try reflexivity;
  try (match goal with Hs : storage ?p <> None |- _ => destruct (storage p); [reflexivity|congruence] end).

Ltac indexing_tac := respects_with indexing_refl indexing_trans indexing_side.

(** [p.oi[i] = ota] *)
Lemma setSlot_indexing i ota :
  respects indexing
    (bind (gets oi) (fun slots : list (option nat) =>
       if decide (i < length slots)%nat
       then modify (set_oi (<[i := Some ota]> slots))
       else panic "index out of range")).
Proof.
  intros p r p'. unfold bind, gets. destruct (decide (i < length (oi p))%nat).
  - intros [= _ <-]. repeat split. simpl. apply length_insert.
  - intros [= _ <-]. apply indexing_refl.
Qed.

Lemma indexObject_indexing i : respects indexing (indexObject i).
Proof. unfold indexObject, appendChild. pose proof setSlot_indexing. indexing_tac. Qed.

Lemma indexFrom_indexing n : forall i, respects indexing (indexFrom n i).
Proof.
  induction n as [|n IH]; intros i; simpl.
  - indexing_tac.
  - pose proof indexObject_indexing. indexing_tac.
Qed.

Lemma indexObjects_indexing : respects indexing indexObjects.
Proof. unfold indexObjects. pose proof indexFrom_indexing. indexing_tac. Qed.

Lemma readChecksum_indexing : respects indexing readChecksum.
Proof. unfold readChecksum. indexing_tac. Qed.

Lemma indexing_hushed (p p' : Parser) : indexing p p' -> hushed p p'.
Proof. intros (_&Hc&_). exact Hc. Qed.

(** A successful [init]. *)
Lemma init_ok (p p' : Parser) :
  init p = (Some (Ok tt), p') ->
  exists version c,
    fst (sc_Header (sc_state (scanner p))) = Ok (version, c) /\
    count p' = c /\ oi p' = replicate (N.to_nat c) None /\
    oiByHash p' = ∅ /\ oiByOffset p' = ∅ /\
    ob p' = ob p /\ nodes p' = nodes p /\ deltas p' = deltas p /\
    cache p' = cache p /\ storage p' = storage p /\
    IsSeekable (scanner p') = IsSeekable (scanner p) /\
    sc_state (scanner p') = snd (sc_Header (sc_state (scanner p))) /\
    calls p' = calls p ++ ((fun i => told i (EvHeader c)) <$> seq 0 (length (ob p))).
Proof.
  unfold init. intros Hrun.
  apply bind_ok in Hrun. destruct Hrun as ([version c] & p1 & Hscan & Hrun).
  apply bind_ok in Hrun. destruct Hrun as ([] & p2 & Hev & Hrun).
  injection Hrun as <-.
  unfold scan in Hscan. destruct (sc_Header (sc_state (scanner p))) as [rh s'] eqn:Hh.
  injection Hscan as -> <-.
  unfold onHeader in Hev. apply onEvent_spec in Hev. destruct Hev as [E Hcalls].
  simpl in Hcalls. exists version, c. simpl. rewrite E. simpl.
  repeat (split; [reflexivity|]). rewrite E in Hcalls. exact Hcalls.
Qed.

Lemma orderly_init : orderly init.
Proof.
  unfold init.
  apply orderly_bind; [apply orderly_silent; hushed_tac|intros [version c]].
  apply orderly_bind; [apply orderly_onEvent|intros _].
  apply orderly_silent. hushed_tac.
Qed.

Lemma orderly_Parse : orderly Parse.
Proof.
  unfold Parse.
  apply orderly_bind; [apply orderly_init|intros _].
  apply orderly_bind;
    [apply orderly_silent, (respects_weaken _ _ _ indexing_hushed indexObjects_indexing)|intros _].
  apply orderly_bind;
    [apply orderly_silent, (respects_weaken _ _ _ indexing_hushed readChecksum_indexing)|intros _].
  apply orderly_bind; [apply orderly_resolveDeltas|intros _].
  apply orderly_bind; [apply orderly_silent; hushed_tac|intros sum].
  apply orderly_bind; [apply orderly_onEvent|intros _].
  apply orderly_silent. hushed_tac.
Qed.

(** A successful [Parse], step by step. *)
Lemma Parse_ok (p p' : Parser) sum :
  Parse p = (Some (Ok sum), p') ->
  exists p1 p2 p3 p4,
    init p = (Some (Ok tt), p1) /\
    indexObjects p1 = (Some (Ok tt), p2) /\
    readChecksum p2 = (Some (Ok tt), p3) /\
    resolveDeltas p3 = (Some (Ok tt), p4) /\
    sum = checksum p4 /\
    onEvent (EvFooter sum) p4 = (Some (Ok tt), p').
Proof.
  unfold Parse. intros Hrun.
  apply bind_ok in Hrun. destruct Hrun as ([] & p1 & H1' & Hrun).
  apply bind_ok in Hrun. destruct Hrun as ([] & p2 & H2' & Hrun).
  apply bind_ok in Hrun. destruct Hrun as ([] & p3 & H3' & Hrun).
  apply bind_ok in Hrun. destruct Hrun as ([] & p4 & H4' & Hrun).
  apply bind_ok in Hrun. destruct Hrun as (sum' & p4' & Hsum & Hrun).
  apply gets_ok in Hsum. destruct Hsum as [-> ->].
  apply bind_ok in Hrun. destruct Hrun as ([] & p5 & H5' & Hrun).
  injection Hrun as <- <-.
  exists p1, p2, p3, p4. repeat (split; [assumption || reflexivity|]). exact H5'.
Qed.

Lemma Parse_emits (p p' : Parser) sum :
  calls p = [] ->
  Parse p = (Some (Ok sum), p') ->
  exists version c ids pairs,
    fst (sc_Header (sc_state (scanner p))) = Ok (version, c) /\
    length pairs = N.to_nat c /\
    oi p' = Some <$> ids /\
    Forall2 (paired (nodes p')) ids pairs /\
    forall j, (j < length (ob p))%nat ->
      received j (calls p') = EvHeader c :: concat pairs ++ [EvFooter sum].
Proof.
  intros Hfresh Hrun. apply Parse_ok in Hrun.
  destruct Hrun as (p1 & p2 & p3 & p4 & Hinit & Hindex & Hsum & Hres & -> & Hfoot).
  apply init_ok in Hinit.
  destruct Hinit as (version & c & Hh & Hc1 & Hoi1 & _ & _ & Hob1 & _ & _ & _ & _ & _ & _ & Hcalls1).
  pose proof (indexObjects_indexing _ _ _ Hindex) as (Hob2 & Hcalls2 & _ & Hlen2 & _).
  pose proof (readChecksum_indexing _ _ _ Hsum) as (Hob3 & Hcalls3 & _ & Hlen3 & _).
  pose proof (resolveDeltas_turn _ _ _ Hres) as (Hob4 & _ & Hoi4 & _).
  unfold resolveDeltas in Hres.
  apply bind_ok in Hres. destruct Hres as (objs & p3' & Hobjs & Hres).
  apply gets_ok in Hobjs. destruct Hobjs as [-> ->].
  apply resolveEach_emits in Hres. destruct Hres as (ids & pairs & Hids & Hpairs & Hrecv).
  pose proof (onEvent_spec _ _ _ _ Hfoot) as [E _].
  exists version, c, ids, pairs. split; [exact Hh|]. split; [|split; [|split]].
  - rewrite <- (Forall2_length _ _ _ Hpairs).
    assert (Hl : length (oi p3) = N.to_nat c).
    { rewrite Hlen3, Hlen2, Hoi1. apply length_replicate. }
    rewrite Hids, length_fmap in Hl. exact Hl.
  - rewrite E. simpl. rewrite Hoi4. exact Hids.
  - rewrite E. simpl. exact Hpairs.
  - intros j Hj.
    assert (Hj4 : (j < length (ob p4))%nat) by (rewrite Hob4, Hob3, Hob2, Hob1; exact Hj).
    assert (Hj3 : (j < length (ob p3))%nat) by (rewrite Hob3, Hob2, Hob1; exact Hj).
    rewrite (onEvent_received _ _ _ j Hfoot Hj4).
    rewrite (Hrecv j Hj3), Hcalls3, Hcalls2, Hcalls1, Hfresh. simpl.
    rewrite received_told_all. rewrite bool_decide_eq_true_2 by lia.
    simpl. reflexivity.
Qed.

(** ** The recursion of [get] has fuel enough *)

Lemma wp_ret {A} (a : A) Q p : Q a p -> wp (ret a) Q p.
Proof. intros HQ r p' [= <- <-]. split; [discriminate|]. intros a' [= <-]. exact HQ. Qed.

Lemma wp_fail {A} e (Q : A -> Parser -> Prop) p : wp (fail e) Q p.
Proof. intros r p' [= <- <-]. split; discriminate. Qed.

Lemma wp_panic {A} w (Q : A -> Parser -> Prop) p : wp (panic w) Q p.
Proof. intros r p' [= <- <-]. split; discriminate. Qed.

Lemma wp_gets {A} (f : Parser -> A) Q p : Q (f p) p -> wp (gets f) Q p.
Proof. intros HQ r p' [= <- <-]. split; [discriminate|]. intros a' [= <-]. exact HQ. Qed.

Lemma wp_modify g (Q : unit -> Parser -> Prop) p : Q tt (g p) -> wp (modify g) Q p.
Proof. intros HQ r p' [= <- <-]. split; [discriminate|]. intros [] _. exact HQ. Qed.

Lemma wp_liftR {A} (x : result A) Q p : (forall a, x = Ok a -> Q a p) -> wp (liftR x) Q p.
Proof. intros HQ r p' [= <- <-]. split; [discriminate|]. intros a [= ->]. auto. Qed.

Lemma wp_getNode id Q p :
  (forall o, nodes p !! id = Some o -> Q o p) -> wp (getNode id) Q p.
Proof.
  intros HQ r p'. unfold getNode. destruct (nodes p !! id) as [o|]; intros [= <- <-].
  - split; [discriminate|]. intros a [= <-]. auto.
  - split; discriminate.
Qed.

Lemma wp_setNode id f (Q : unit -> Parser -> Prop) p :
  Q tt (set_nodes (alter f id (nodes p)) p) -> wp (setNode id f) Q p.
Proof. apply wp_modify. Qed.

Lemma wp_alloc o Q p :
  Q (length (nodes p)) (set_nodes (nodes p ++ [o]) p) -> wp (alloc o) Q p.
Proof. intros HQ r p' [= <- <-]. split; [discriminate|]. intros a' [= <-]. exact HQ. Qed.

Lemma wp_scan {A} (op : S -> result A * S) Q p :
  (forall a s', Q a (set_scanner {| IsSeekable := IsSeekable (scanner p); sc_state := s' |} p)) ->
  wp (scan op) Q p.
Proof.
  intros HQ r p'. unfold scan. destruct (op _) as [x s']. intros [= <- <-].
  split; [discriminate|]. intros a _. apply HQ.
Qed.

Lemma wp_storageEncodedObject t h Q p :
  (forall a st', Q a (set_storage (Some st') p)) -> wp (storageEncodedObject t h) Q p.
Proof.
  intros HQ r p'. unfold storageEncodedObject. destruct (storage p) as [st|].
  - destruct (st_EncodedObject st t h) as [x st']. intros [= <- <-].
    split; [discriminate|]. intros a _. apply HQ.
  - intros [= <- <-]. split; discriminate.
Qed.

Lemma wp_storageSetEncodedObject obj Q p :
  (forall a st', Q a (set_storage (Some st') p)) -> wp (storageSetEncodedObject obj) Q p.
Proof.
  intros HQ r p'. unfold storageSetEncodedObject. destruct (storage p) as [st|].
  - destruct (st_SetEncodedObject st obj) as [x st']. intros [= <- <-].
    split; [discriminate|]. intros a _. apply HQ.
  - intros [= <- <-]. split; discriminate.
Qed.

Lemma wp_cacheGet k Q p :
  (forall a c', Q a (set_cache c' p)) -> wp (cacheGet k) Q p.
Proof.
  intros HQ r p'. unfold cacheGet. destruct (cache_Get _ _) as [x c']. intros [= <- <-].
  split; [discriminate|]. intros a _. apply HQ.
Qed.

Lemma wp_cachePut k v (Q : unit -> Parser -> Prop) p :
  Q tt (set_cache (cache_Put (cache p) k v) p) -> wp (cachePut k v) Q p.
Proof. apply wp_modify. Qed.

Lemma wp_onEvent ev (Q : unit -> Parser -> Prop) p :
  (forall log, Q tt (set_calls log p)) -> wp (onEvent ev) Q p.
Proof.
  intros HQ r p'. unfold onEvent. destruct (forEachObserver _ _ _ _) as [err log].
  intros [= <- <-]. split; [discriminate|]. intros [] _. apply HQ.
Qed.

Lemma wp_bind {A B} (m : M A) (f : A -> M B) Q p :
  wp m (fun a p1 => wp (f a) Q p1) p -> wp (bind m f) Q p.
Proof.
  intros Hm r p'. unfold bind. destruct (m p) as [[[a|e|w]|] p1] eqn:Hmp.
  - destruct (Hm _ _ Hmp) as [_ Hf]. apply (Hf a eq_refl).
  - intros [= <- <-]. split; discriminate.
  - intros [= <- <-]. split; discriminate.
  - destruct (Hm _ _ Hmp) as [Hn _]. congruence.
Qed.

Lemma wp_mono {A} (m : M A) (Q Q' : A -> Parser -> Prop) p :
  (forall a p', Q a p' -> Q' a p') -> wp m Q p -> wp m Q' p.
Proof.
  intros HQ Hm r p' Hrun. destruct (Hm _ _ Hrun) as [Hn Hok]. split; [exact Hn|]. eauto.
Qed.

Lemma wp_respects {A} (R : Parser -> Parser -> Prop) (m : M A) Q p :
  respects R m -> wp m Q p -> wp m (fun a p' => Q a p' /\ R p p') p.
Proof.
  intros HR Hm r p' Hrun. destruct (Hm _ _ Hrun) as [Hn Hok]. split; [exact Hn|].
  intros a Ha. split; [auto|]. eapply HR, Hrun.
Qed.

Ltac wp_tac :=
  repeat
    (first
       [ progress (cbv beta zeta)
       | match goal with
         | Hx : context [wp] |- wp _ _ _ => apply Hx; [intros ? ?]
         end
       | lazymatch goal with
         | |- wp (bind _ _) _ _ => apply wp_bind
         | |- wp (ret _) _ _ => apply wp_ret
         | |- wp (fail _) _ _ => apply wp_fail
         | |- wp (panic _) _ _ => apply wp_panic
         | |- wp (gets _) _ _ => apply wp_gets
         | |- wp (liftR _) _ _ => apply wp_liftR; intros ? ?
         | |- wp (modify _) _ _ => apply wp_modify
         | |- wp (getNode _) _ _ => apply wp_getNode; intros ? ?
         | |- wp (setNode _ _) _ _ => apply wp_setNode
         | |- wp (alloc _) _ _ => apply wp_alloc
         | |- wp (scan _) _ _ => apply wp_scan; intros ? ?
         | |- wp (storageEncodedObject _ _) _ _ => apply wp_storageEncodedObject; intros ? ?
         | |- wp (storageSetEncodedObject _) _ _ => apply wp_storageSetEncodedObject; intros ? ?
         | |- wp (cacheGet _) _ _ => apply wp_cacheGet; intros ? ?
         | |- wp (cachePut _ _) _ _ => apply wp_cachePut
         | |- wp (onEvent _) _ _ => apply wp_onEvent; intros ?
         | |- wp (match ?x with _ => _ end) _ _ => destruct x eqn:?
         end ]).

Lemma readData_total id : total (readData id).
Proof. intros Q p HQ. unfold readData. wp_tac; apply HQ. Qed.

Lemma applyPatchBase_total id data base : total (applyPatchBase id data base).
Proof. intros Q p HQ. unfold applyPatchBase. wp_tac; apply HQ. Qed.

Lemma resolveObject_total id base : total (resolveObject id base).
Proof.
  intros Q p HQ. unfold resolveObject.
  pose proof readData_total as Hr. pose proof applyPatchBase_total as Ha.
  unfold total in Hr, Ha.
  wp_tac; apply HQ.
Qed.

Lemma resolveChildren_total children content : total (resolveChildren children content).
Proof.
  induction children as [|c children IH]; intros Q p HQ; simpl.
  - wp_tac. apply HQ.
  - pose proof resolveObject_total as Hr. unfold total in Hr, IH. wp_tac. apply HQ.
Qed.

Lemma enough_shape fuel : forall l l' id,
  shape l l' -> enough fuel l id = enough fuel l' id.
Proof.
  induction fuel as [|fuel IH]; intros l l' id Hs; simpl; [reflexivity|].
  destruct (l !! id) as [o|] eqn:Ho.
  - destruct (shape_lookup_l _ _ _ _ Hs Ho) as (o' & -> & _ & -> & _ & _ & -> & _).
    destruct (IsDelta (DiskType o)); [|reflexivity].
    destruct (Parent o); [|reflexivity]. apply IH, Hs.
  - assert (Hn : l' !! id = None).
    { apply lookup_ge_None. rewrite (shape_length _ _ Hs). apply lookup_ge_None, Ho. }
    rewrite Hn. reflexivity.
Qed.

Lemma get_wp fuel : forall id (Q : bytes -> Parser -> Prop) p,
  enough fuel (nodes p) id = true ->
  (forall a p', Q a p') ->
  wp (get fuel id) Q p.
Proof.
  induction fuel as [|fuel IH]; intros id Q p Hen HQ; [discriminate|].
  pose proof readData_total as Hr. pose proof resolveObject_total as Ho.
  unfold total in Hr, Ho.
  cbn [get]. apply wp_bind, wp_getNode. intros o Hnode.
  simpl in Hen. rewrite Hnode in Hen.
  clear Hr.
  assert (Hrec : forall parent (p1 : Parser) (Q1 : bytes -> Parser -> Prop),
             nodes p1 = nodes p -> IsDelta (DiskType o) = true -> Parent o = Some parent ->
             (forall a p', Q1 a p') -> wp (get fuel parent) Q1 p1).
  { intros parent p1 Q1 Hn Hd Hp HQ1. apply IH; [|exact HQ1].
    rewrite Hn. rewrite Hd, Hp in Hen. exact Hen. }
  clear IH Hen Hnode.
  pose proof readData_total as Hr. unfold total in Hr.
  wp_tac; try apply HQ.
  all: apply Hrec; try reflexivity; intros; wp_tac; apply HQ.
Qed.

Lemma getObject_wp id (Q : bytes -> Parser -> Prop) p :
  enough (Datatypes.S (length (nodes p))) (nodes p) id = true ->
  (forall a p', Q a p') ->
  wp (getObject id) Q p.
Proof. intros Hen HQ r p'. unfold getObject. apply get_wp; assumption. Qed.

Lemma chainsEnd_shape objs l l' : shape l l' -> chainsEnd objs l -> chainsEnd objs l'.
Proof.
  intros Hs Hc id Hid. rewrite (shape_length _ _ Hs), <- (enough_shape _ _ _ _ Hs). auto.
Qed.

Lemma resolveOne_wp obj (Q : unit -> Parser -> Prop) p :
  chainsEnd [obj] (nodes p) ->
  (forall a p', Q a p') ->
  wp (resolveOne obj) Q p.
Proof.
  intros Hc HQ. unfold resolveOne, onInflatedObjectHeader, onInflatedObjectContent.
  destruct obj as [id|]; [|apply wp_panic].
  apply wp_bind, getObject_wp; [apply Hc; left|].
  intros content p1.
  pose proof resolveChildren_total as Hch. unfold total in Hch.
  wp_tac; apply HQ.
Qed.

Lemma resolveEach_wp objs : forall (Q : unit -> Parser -> Prop) p,
  chainsEnd objs (nodes p) ->
  (forall a p', Q a p') ->
  wp (resolveEach objs) Q p.
Proof.
  induction objs as [|obj objs IH]; intros Q p Hc HQ; simpl.
  - apply wp_ret, HQ.
  - apply wp_bind.
    eapply wp_mono; [|apply (wp_respects turn _ (fun _ _ => True) p (resolveOne_turn obj))].
    + intros [] p1 [_ (_&_&_&_&_&Hsh&_)]. apply IH; [|exact HQ].
      apply (chainsEnd_shape _ _ _ Hsh). intros id Hid. apply Hc. right. exact Hid.
    + apply resolveOne_wp; [|auto]. intros id Hid. apply Hc.
      apply list_elem_of_singleton in Hid. subst. left.
Qed.

(** ** The index pass builds chains of parents that end *)

Lemma parents_alter (f : objectInfo -> objectInfo) (id : nat) (l : list objectInfo) :
  (forall o, Parent (f o) = Parent o) -> Parent <$> alter f id l = Parent <$> l.
Proof.
  intros Hf. revert id. induction l as [|o l IH]; intros [|id]; cbn; try reflexivity.
  - rewrite Hf. reflexivity.
  - f_equal. apply IH.
Qed.

Lemma grounded_snoc n0 (ps : list (option nat)) parent :
  (forall id pid, ps !! id = Some (Some pid) -> (n0 <= id)%nat -> (n0 <= pid < id)%nat) ->
  (forall pid, parent = Some pid -> (n0 <= pid < length ps)%nat) ->
  forall id pid, (ps ++ [parent]) !! id = Some (Some pid) ->
                 (n0 <= id)%nat -> (n0 <= pid < id)%nat.
Proof.
  intros Hps Hnew id pid Hl Hid. apply lookup_snoc_Some in Hl.
  destruct Hl as [[_ Hl] | [-> ->]]; [eauto|]. apply Hnew. reflexivity.
Qed.

Ltac grounded_leaf :=
  unfold grounded in *;
  cbn [nodes oi oiByHash oiByOffset set_storage set_scanner set_count snd
    set_oi set_oiByHash set_oiByOffset set_checksum set_cache set_deltas set_nodes set_calls] in *;
  repeat (rewrite parents_alter by (intros; reflexivity));
  rewrite ?length_alter, ?fmap_app, ?length_app, ?length_alter;
  cbn [length fmap list_fmap Parent newDeltaObject newBaseObject placeholder];
  repeat match goal with Hg : _ /\ _ |- _ => destruct Hg end;
  split_and?; intros;
  repeat match goal with
    | Hl : (_ ++ [_]) !! _ = Some _ |- _ =>
        apply lookup_snoc_Some in Hl; destruct Hl as [[? ?]|[? ?]]
    | Hl : <[_:=_]> _ !! _ = Some _ |- _ =>
        first [ apply lookup_insert_Some in Hl; destruct Hl as [[? ?]|[? ?]]
              | apply list_lookup_insert_Some in Hl; destruct Hl as [(?&?&?)|[? ?]] ]
    end;
  simplify_eq;
  repeat match goal with
    | Hl : ?m !! _ = Some _ |- _ =>
        first [ match goal with
                | Hx : forall a b, m !! a = Some _ -> _ |- _ => pose proof (Hx _ _ Hl)
                end
              | idtac ];
        clear Hl
    end;
  rewrite ?length_app, ?length_fmap in *; cbn [length] in *;
  try lia.

Lemma indexObject_grounded n0 i p :
  grounded n0 p -> wp (indexObject i) (fun _ p' => grounded n0 p') p.
Proof.
  intros Hg. unfold indexObject, appendChild.
  apply wp_bind, wp_scan. intros oh s1.
  apply wp_bind.
  apply (wp_mono _ (fun x p2 => grounded n0 p2 /\ (n0 <= snd x < length (nodes p2))%nat)).
  - intros [delta ota] p2 [Hg2 Hota]. simpl in Hota.
    wp_tac; grounded_leaf.
  - wp_tac; grounded_leaf.
Qed.

Lemma indexFrom_grounded n0 n : forall i p,
  grounded n0 p -> wp (indexFrom n i) (fun _ p' => grounded n0 p') p.
Proof.
  induction n as [|n IH]; intros i p Hg; simpl.
  - apply wp_ret, Hg.
  - apply wp_bind. eapply wp_mono; [|apply indexObject_grounded, Hg].
    intros [] p1 Hg1. apply IH, Hg1.
Qed.

Lemma enough_grounded n0 l fuel : forall id,
  (forall id pid, (Parent <$> l) !! id = Some (Some pid) ->
                  (n0 <= id)%nat -> (n0 <= pid < id)%nat) ->
  (n0 <= id)%nat -> (id - n0 < fuel)%nat ->
  enough fuel l id = true.
Proof.
  induction fuel as [|fuel IH]; intros id Hwf Hid Hfuel; [lia|]. simpl.
  destruct (l !! id) as [o|] eqn:Ho; [|reflexivity].
  destruct (IsDelta (DiskType o)); [|reflexivity].
  destruct (Parent o) as [pid|] eqn:Hp; [|reflexivity].
  assert (Hl : (Parent <$> l) !! id = Some (Some pid)).
  { rewrite list_lookup_fmap, Ho. simpl. rewrite Hp. reflexivity. }
  specialize (Hwf _ _ Hl Hid) as Hpid.
  apply IH; [exact Hwf|lia|lia].
Qed.

Lemma grounded_chainsEnd n0 (p : Parser) :
  grounded n0 p -> chainsEnd (oi p) (nodes p).
Proof.
  intros (_ & Hwf & _ & _ & Hoi) id Hid.
  apply list_elem_of_lookup in Hid. destruct Hid as [i Hi].
  specialize (Hoi _ _ Hi).
  apply (enough_grounded n0); [exact Hwf|lia|lia].
Qed.

(** [Parse] never runs out of fuel, whatever the parser it is run
    on. *)
Lemma Parse_total : total Parse.
Proof.
  intros Q p HQ. unfold Parse.
  apply wp_bind.
  apply (wp_mono _ (fun _ p1 => grounded (length (nodes p)) p1)).
  2:{ unfold init, onHeader. wp_tac. unfold grounded. simpl.
      split; [lia|]. split; [|split; [|split]].
      - intros id pid Hl Hid. apply lookup_lt_Some in Hl. rewrite length_fmap in Hl. lia.
      - intros k id Hl. rewrite lookup_empty in Hl. discriminate.
      - intros h id Hl. rewrite lookup_empty in Hl. discriminate.
      - intros i id Hl. apply lookup_replicate in Hl. destruct Hl as [[=] _]. }
  intros [] p1 Hg1. apply wp_bind.
  apply (wp_mono _ (fun _ p2 => grounded (length (nodes p)) p2)).
  2:{ unfold indexObjects. apply wp_bind, wp_gets. apply indexFrom_grounded, Hg1. }
  intros [] p2 Hg2. apply wp_bind.
  apply (wp_mono _ (fun _ p3 => grounded (length (nodes p)) p3)).
  2:{ unfold readChecksum. wp_tac; exact Hg2. }
  intros [] p3 Hg3. apply wp_bind.
  unfold resolveDeltas. apply wp_bind, wp_gets.
  apply resolveEach_wp; [exact (grounded_chainsEnd _ _ Hg3)|].
  intros [] p4. unfold onFooter. wp_tac. apply HQ.
Qed.

Lemma Parse_never_out_of_fuel (p : Parser) : fst (Parse p) <> None.
Proof.
  destruct (Parse p) as [r p'] eqn:Hrun. simpl.
  apply (Parse_total (fun _ _ => True) p (fun _ _ => I) r p' Hrun).
Qed.

(** ** The log is made of callbacks *)

Lemma forEachObserver_calls obs ev : forall k past,
  exists made : list Call,
    snd (forEachObserver k obs ev past) = past ++ made /\
    c_observer <$> made = seq k (length made) /\
    Forall (fun c => c_event c = ev) made /\
    (forall i c, made !! i = Some c ->
       exists o, obs !! i = Some o /\ c_error c = notify o (past ++ take i made) ev) /\
    match fst (forEachObserver k obs ev past) with
    | None => length made = length obs /\ accepted made
    | Some e => exists pre c, made = pre ++ [c] /\ accepted pre /\ c_error c = Some e
    end.
Proof.
  induction obs as [|o obs IH]; intros k past; simpl.
  - exists []. rewrite app_nil_r. repeat split; try constructor.
    intros [|i] c Hl; discriminate.
  - destruct (notify o past ev) as [e|] eqn:Hn; simpl.
    + exists [{| c_observer := k; c_event := ev; c_error := Some e |}].
      split; [reflexivity|]. split; [reflexivity|]. split; [repeat constructor|]. split.
      * intros [|i] c Hl; [|destruct i; discriminate].
        injection Hl as <-. exists o. simpl. rewrite app_nil_r. auto.
      * exists [], {| c_observer := k; c_event := ev; c_error := Some e |}.
        repeat split. constructor.
    + destruct (IH (Datatypes.S k)
                  (past ++ [{| c_observer := k; c_event := ev; c_error := None |}]))
        as (made & Hlog & Hobs & Hev & Hnot & Hend).
      exists ({| c_observer := k; c_event := ev; c_error := None |} :: made).
      split; [rewrite Hlog, <- app_assoc; reflexivity|].
      split; [cbn [fmap list_fmap length seq]; f_equal; exact Hobs|].
      split; [constructor; [reflexivity|exact Hev]|]. split.
      * intros [|i] c Hl.
        -- injection Hl as <-. exists o. simpl. rewrite app_nil_r. auto.
        -- simpl in Hl. destruct (Hnot i c Hl) as (o' & Ho' & Hc).
           exists o'. split; [exact Ho'|]. rewrite Hc, <- app_assoc. reflexivity.
      * destruct (fst (forEachObserver _ obs ev _)) as [e|].
        -- destruct Hend as (pre & c & -> & Hpre & Hc).
           exists ({| c_observer := k; c_event := ev; c_error := None |} :: pre), c.
           repeat split; [|exact Hc]. constructor; [reflexivity|exact Hpre].
        -- destruct Hend as [Hlen Hacc]. split; [simpl; congruence|].
           constructor; [reflexivity|exact Hacc].
Qed.

Lemma hearing_refl (p : Parser) : hearing p p.
Proof. split; auto. Qed.

Lemma hearing_trans (p1 p2 p3 : Parser) : hearing p1 p2 -> hearing p2 p3 -> hearing p1 p3.
Proof.
  unfold hearing. intros [Ho1 Hh1] [Ho2 Hh2]. split; [congruence|].
  intros Hh. rewrite Ho1 in Hh2. auto.
Qed.

Lemma frame_hearing (p p' : Parser) : frame p p' -> hearing p p'.
Proof. intros (Ho&_&_&_&Hc&_). split; [exact Ho|]. rewrite Hc. auto. Qed.

Lemma indexing_hearing (p p' : Parser) : indexing p p' -> hearing p p'.
Proof. intros (Ho&Hc&_). split; [exact Ho|]. rewrite Hc. auto. Qed.

(** One event: every call appended to the log is the answer of the
    observer at that position to the event. *)
Lemma hearing_onEvent ev : respects hearing (onEvent ev).
Proof.
  intros p r p'. unfold onEvent.
  destruct (forEachObserver_calls (ob p) ev 0 (calls p))
    as (made & Hlog & Hobs & Hev & Hans & _).
  destruct (forEachObserver 0 (ob p) ev (calls p)) as [err log]. simpl in Hlog. subst log.
  intros [= _ <-]. split; [reflexivity|]. simpl.
  intros Hheard k c Hk.
  destruct (decide (k < length (calls p))%nat) as [Hlt|Hge].
  - rewrite lookup_app_l in Hk by exact Hlt.
    destruct (Hheard k c Hk) as (o & Ho & Hc). exists o. split; [exact Ho|].
    rewrite take_app_le by lia. exact Hc.
  - rewrite lookup_app_r in Hk by lia.
    destruct (Hans _ _ Hk) as (o & Ho & Hc).
    assert (Hpos : c_observer c = (k - length (calls p))%nat).
    { assert (Hn : (c_observer <$> made) !! (k - length (calls p))%nat = Some (c_observer c))
        by (rewrite list_lookup_fmap, Hk; reflexivity).
      rewrite Hobs in Hn. apply lookup_seq in Hn. lia. }
    assert (Hevent : c_event c = ev).
    { rewrite Forall_forall in Hev. apply Hev. eapply list_elem_of_lookup_2, Hk. }
    exists o. split; [rewrite Hpos; exact Ho|].
    replace k with (length (calls p) + (k - length (calls p)))%nat at 1 by lia.
    rewrite take_app_add. unfold answered. rewrite Hc, Hevent.
    destruct ev; reflexivity.
Qed.

Ltac hearing_side := intros; unfold hearing; simpl; split; [reflexivity|tauto].

Ltac hearing_tac := respects_with hearing_refl hearing_trans hearing_side.

Lemma resolveOne_hearing obj : respects hearing (resolveOne obj).
Proof.
  unfold resolveOne, onInflatedObjectHeader, onInflatedObjectContent.
  pose proof (fun id => respects_weaken _ _ _ frame_hearing (getObject_frame id)) as Hg.
  pose proof (fun c l => respects_weaken _ _ _ frame_hearing (resolveChildren_frame c l)) as Hc.
  pose proof hearing_onEvent as He.
  hearing_tac.
Qed.

Lemma resolveEach_hearing objs : respects hearing (resolveEach objs).
Proof.
  induction objs as [|obj objs IH]; simpl.
  - hearing_tac.
  - pose proof resolveOne_hearing. hearing_tac.
Qed.

Lemma Parse_hearing : respects hearing Parse.
Proof.
  unfold Parse, init, resolveDeltas, onHeader, onFooter.
  pose proof (respects_weaken _ _ _ indexing_hearing indexObjects_indexing) as Hi.
  pose proof (respects_weaken _ _ _ indexing_hearing readChecksum_indexing) as Hc.
  pose proof resolveEach_hearing as Hr.
  pose proof hearing_onEvent as He.
  hearing_tac.
Qed.

(** ** The observer contract *)

(** C1. On a run of [Parse()] that no callback was made before, over
    a pack whose header declares [c] objects: when it returns the
    checksum [sum], every registered observer received [OnHeader(c)],
    then for each of the [c] objects of [p.oi], in index order, the
    pair [OnInflatedObjectHeader], [OnInflatedObjectContent] at that
    object's offset, then [OnFooter(sum)], and nothing else; and
    whenever a callback returns an error, it is the last callback
    made and [Parse()] returns that very error.  [Parse()] always has
    an outcome.  What an observer received is what the parser called:
    every call of the log is a call of the method of the registered
    observer at that position, and the error recorded for it is what
    the method returned, so that the error of any of the four
    callbacks of any observer ends [Parse()]. *)
Theorem Parse_observer_contract (p p' : Parser) (r : option (result Hash)) :
  calls p = [] ->
  Parse p = (r, p') ->
  (forall sum, r = Some (Ok sum) ->
     exists version c ids pairs,
       fst (sc_Header (sc_state (scanner p))) = Ok (version, c) /\
       length pairs = N.to_nat c /\
       oi p' = Some <$> ids /\
       Forall2 (paired (nodes p')) ids pairs /\
       forall j, (j < length (ob p))%nat ->
         received j (calls p') = EvHeader c :: concat pairs ++ [EvFooter sum]) /\
  (forall before c after e,
     calls p' = before ++ c :: after -> c_error c = Some e ->
     after = [] /\ r = Some (Err e)) /\
  r <> None /\
  heard (ob p) (calls p') /\
  (forall k c o e,
     calls p' !! k = Some c -> ob p !! c_observer c = Some o ->
     match c_event c with
     | EvHeader n => OnHeader o (take k (calls p')) n
     | EvInflatedObjectHeader t sz pos =>
         OnInflatedObjectHeader o (take k (calls p')) t sz pos
     | EvInflatedObjectContent h pos crc content =>
         OnInflatedObjectContent o (take k (calls p')) h pos crc content
     | EvFooter h => OnFooter o (take k (calls p')) h
     end = Some e ->
     r = Some (Err e) /\ length (calls p') = Datatypes.S k).
Proof.
  intros Hfresh Hrun.
  assert (Hfit : fits r (calls p')).
  { apply (orderly_Parse p r p'); [|exact Hrun]. rewrite Hfresh. constructor. }
  assert (Hheard : heard (ob p) (calls p')).
  { destruct (Parse_hearing _ _ _ Hrun) as [_ Hh]. apply Hh.
    rewrite Hfresh. intros k c Hk. destruct k; discriminate. }
  split; [|split; [|split; [|split; [exact Hheard|]]]].
  - intros sum ->. exact (Parse_emits _ _ _ Hfresh Hrun).
  - intros before c after e Hlog Hc.
    exact (fits_last _ _ _ _ _ _ Hfit Hlog Hc).
  - pose proof (Parse_never_out_of_fuel p) as Hn. rewrite Hrun in Hn. exact Hn.
  - intros k c o e Hk Ho Hanswer.
    destruct (Hheard k c Hk) as (o' & Ho' & Hc).
    rewrite Ho in Ho'. injection Ho' as <-.
    unfold answered in Hc. rewrite Hanswer in Hc.
    pose proof (take_drop_middle _ _ _ Hk) as Hsplit. symmetry in Hsplit.
    destruct (fits_last _ _ _ _ _ _ Hfit Hsplit Hc) as [Hafter ->].
    split; [reflexivity|].
    rewrite Hsplit, length_app, Hafter. simpl.
    rewrite length_take_le by (apply Nat.lt_le_incl; eapply lookup_lt_Some, Hk). lia.
Qed.

(** ** Construction *)

(** C3. [NewParserWithStorage] over a scanner that is not seekable and
    without a storage fails with [ErrNotSeekableSource]; it succeeds
    whenever the scanner is seekable or a storage is given, and then
    the [deltas] map is allocated (and empty) exactly when the scanner
    is not seekable. *)
Theorem NewParserWithStorage_needs_seek_or_storage
    (sc : Scanner S) (st : option St) (obs : list Observer) :
  (IsSeekable sc = false -> st = None ->
     NewParserWithStorage sc st obs = Err ErrNotSeekableSource) /\
  (IsSeekable sc = true \/ st <> None ->
     exists p : Parser,
       NewParserWithStorage sc st obs = Ok p /\
       storage p = st /\ scanner p = sc /\ ob p = obs /\
       (IsSeekable sc = false -> deltas p = Some ∅) /\
       (IsSeekable sc = true -> deltas p = None)).
Proof.
  unfold NewParserWithStorage. split.
  - intros -> ->. reflexivity.
  - intros Hor.
    assert (Hc : negb (IsSeekable sc) && isNil st = false).
    { destruct Hor as [-> | Hst]; [reflexivity|].
      destruct st; [|congruence]. apply andb_false_r. }
    rewrite Hc. eexists. split; [reflexivity|]. simpl.
    repeat split; intros ->; reflexivity.
Qed.

(** ** The index pass: deltas and their bases *)

Lemma bind_run {A B} (m : M A) (f : A -> M B) (p p1 : Parser) a :
  m p = (Some (Ok a), p1) -> bind m f p = f a p1.
Proof. intros Hm. unfold bind. rewrite Hm. reflexivity. Qed.

Lemma bind_stop {A B} (m : M A) (f : A -> M B) (p p1 : Parser) e :
  m p = (Some (Err e), p1) -> bind m f p = (Some (Err e), p1).
Proof. intros Hm. unfold bind. rewrite Hm. reflexivity. Qed.

Lemma scan_run {A} (op : S -> result A * S) (p : Parser) x s' :
  op (sc_state (scanner p)) = (x, s') ->
  scan op p = (Some x, set_scanner {| IsSeekable := IsSeekable (scanner p); sc_state := s' |} p).
Proof. intros Hop. unfold scan. rewrite Hop. reflexivity. Qed.

Lemma sameLinks_refl o : sameLinks o o.
Proof. repeat split. Qed.

Lemma linked_refl (p : Parser) : linked p p.
Proof.
  split; [reflexivity|]. induction (nodes p); constructor; auto using sameLinks_refl.
Qed.

Lemma linked_trans (p1 p2 p3 : Parser) : linked p1 p2 -> linked p2 p3 -> linked p1 p3.
Proof.
  intros [Hh1 Hn1] [Hh2 Hn2]. split; [congruence|].
  eapply Forall2_trans; [|exact Hn1|exact Hn2].
  unfold sameLinks. intros o1 o2 o3 (?&?&?&?&?&?&?) (?&?&?&?&?&?&?).
  repeat split; congruence.
Qed.

Lemma linked_alter (f : objectInfo -> objectInfo) (id : nat) (l : list objectInfo) :
  (forall o, sameLinks o (f o)) -> Forall2 sameLinks l (alter f id l).
Proof.
  intros Hf. revert id. induction l as [|o l IH]; intros [|id]; cbn;
    try constructor; auto using sameLinks_refl.
  clear. induction l; constructor; auto using sameLinks_refl.
Qed.

Ltac linked_side :=
  intros; unfold linked; simpl; split; try reflexivity;
  first [ apply linked_refl
        | apply linked_alter; intros; repeat split
        | idtac ].

Ltac linked_tac := respects_with linked_refl linked_trans linked_side.

Lemma linked_lookup (p p' : Parser) id o :
  linked p p' -> nodes p !! id = Some o ->
  exists o', nodes p' !! id = Some o' /\ sameLinks o o'.
Proof.
  intros [_ Hn] Ho. destruct (Forall2_lookup_l _ _ _ _ _ Hn Ho) as (o' & Ho' & Hs). eauto.
Qed.

(** C7. In the index pass, an OFS-delta entry whose base offset is
    not in [oiByOffset] (no object indexed so far starts there) makes
    [Parse()] fail with object-not-found; when the base is there, a
    delta node is made for the entry, with the base as its parent, and
    is appended at the end of the base's [Children]. *)
Theorem indexObjects_OFS_delta_base :
  (forall (p p1 p2 : Parser) k oh s',
      init p = (Some (Ok tt), p1) ->
      (k < N.to_nat (count p1))%nat ->
      indexFrom k 0 p1 = (Some (Ok tt), p2) ->
      sc_NextObjectHeader (sc_state (scanner p2)) = (Ok oh, s') ->
      oh_Type oh = OFSDeltaObject ->
      oiByOffset p2 !! oh_OffsetReference oh = None ->
      fst (Parse p) = Some (Err ErrObjectNotFound)) /\
  (forall (p p' : Parser) i oh s' base par r,
      sc_NextObjectHeader (sc_state (scanner p)) = (Ok oh, s') ->
      oh_Type oh = OFSDeltaObject ->
      oiByOffset p !! oh_OffsetReference oh = Some base ->
      nodes p !! base = Some par ->
      indexObject i p = (r, p') ->
      exists child par',
        nodes p' !! length (nodes p) = Some child /\
        Parent child = Some base /\
        DiskType child = OFSDeltaObject /\
        Offset child = oh_Offset oh /\
        nodes p' !! base = Some par' /\
        Children par' = Children par ++ [length (nodes p)]).
Proof.
  split.
  - intros p p1 p2 k oh s' Hinit Hk Hfirst Hhdr Htype Hmiss.
    pose proof (indexFrom_indexing _ _ _ _ _ Hfirst) as (_&_&Hcount&_).
    assert (Hsplit : forall m n i (q : Parser),
               indexFrom (n + m) i q = bind (indexFrom n i) (fun _ => indexFrom m (i + n)) q).
    { intros m n. induction n as [|n IH]; intros i q; simpl.
      - unfold bind, ret. rewrite Nat.add_0_r. reflexivity.
      - unfold bind. destruct (indexObject i q) as [[[[]|e|w]|] q1]; try reflexivity.
        rewrite IH. unfold bind. rewrite Nat.add_succ_r. reflexivity. }
    assert (Hone : indexObject k p2
                   = (Some (Err ErrObjectNotFound),
                      set_scanner {| IsSeekable := IsSeekable (scanner p2); sc_state := s' |} p2)).
    { unfold indexObject. rewrite (bind_run _ _ _ _ _ (scan_run _ _ _ _ Hhdr)).
      rewrite Htype. unfold bind, gets, fail. simpl. rewrite Hmiss. reflexivity. }
    assert (Hidx : exists q, indexObjects p1 = (Some (Err ErrObjectNotFound), q)).
    { unfold indexObjects.
      change (bind (gets count) (fun c => indexFrom (N.to_nat c) 0) p1)
        with (indexFrom (N.to_nat (count p1)) 0 p1).
      replace (N.to_nat (count p1))
        with (k + Datatypes.S (N.to_nat (count p1) - Datatypes.S k))%nat by lia.
      rewrite Hsplit, (bind_run _ _ _ _ _ Hfirst). cbn [indexFrom].
      rewrite (bind_stop _ _ _ _ _ Hone). eauto. }
    destruct Hidx as [q Hq].
    unfold Parse. rewrite (bind_run _ _ _ _ _ Hinit), (bind_stop _ _ _ _ _ Hq). reflexivity.
  - intros p p' i oh s' base par r Hhdr Htype Hbase Hpar Hrun.
    unfold indexObject in Hrun.
    rewrite (bind_run _ _ _ _ _ (scan_run _ _ _ _ Hhdr)) in Hrun.
    rewrite Htype in Hrun.
    set (p1 := set_scanner {| IsSeekable := IsSeekable (scanner p); sc_state := s' |} p) in *.
    set (child := newDeltaObject (oh_Offset oh) (oh_Length oh) OFSDeltaObject (Some base)).
    set (pa := set_nodes (alter (add_Child (length (nodes p))) base (nodes p ++ [child])) p1).
    erewrite (bind_run _ _ p1 pa (true, length (nodes p))) in Hrun.
    2:{ unfold bind, gets, alloc, appendChild, bind, getNode, setNode, modify, ret. simpl.
        rewrite Hbase. simpl.
        rewrite (lookup_app_l_Some _ _ _ _ Hpar). reflexivity. }
    match type of Hrun with
    | ?tail _ = _ => assert (Hresp : respects linked tail)
    end.
    { linked_tac. }
    destruct (Hresp _ _ _ Hrun) as [_ Hn].
    assert (Hlen : (base < length (nodes p))%nat) by (eapply lookup_lt_Some, Hpar).
    assert (Hc : nodes pa !! length (nodes p) = Some child).
    { unfold pa. simpl. rewrite list_lookup_alter_ne by lia.
      rewrite lookup_app_r by lia. rewrite Nat.sub_diag. reflexivity. }
    assert (Hp : nodes pa !! base = Some (add_Child (length (nodes p)) par)).
    { unfold pa. simpl. rewrite list_lookup_alter. rewrite decide_True by reflexivity.
      rewrite (lookup_app_l_Some _ _ _ _ Hpar). reflexivity. }
    destruct (Forall2_lookup_l _ _ _ _ _ Hn Hc) as (child' & Hc' & Hs1).
    destruct (Forall2_lookup_l _ _ _ _ _ Hn Hp) as (par' & Hp' & Hs2).
    destruct Hs1 as (Ho1 & _ & Hd1 & _ & Hpa1 & _).
    destruct Hs2 as (_ & _ & _ & _ & _ & Hch2 & _).
    exists child', par'. repeat split; try assumption.
Qed.

(** ** Running the parser step by step *)

Lemma bind_bind {A B D} (m : M A) (f : A -> M B) (k : B -> M D) (p : Parser) :
  bind (bind m f) k p = bind m (fun a => bind (f a) k) p.
Proof. unfold bind. destruct (m p) as [[[a|e|w]|] p1]; reflexivity. Qed.

Lemma bind_ret {A B} (a : A) (k : A -> M B) (p : Parser) : bind (ret a) k p = k a p.
Proof. reflexivity. Qed.

Lemma bind_gets {A B} (f : Parser -> A) (k : A -> M B) (p : Parser) :
  bind (gets f) k p = k (f p) p.
Proof. reflexivity. Qed.

Lemma bind_modify {B} (g : Parser -> Parser) (k : unit -> M B) (p : Parser) :
  bind (modify g) k p = k tt (g p).
Proof. reflexivity. Qed.

Lemma bind_alloc {B} o (k : nat -> M B) (p : Parser) :
  bind (alloc o) k p = k (length (nodes p)) (set_nodes (nodes p ++ [o]) p).
Proof. reflexivity. Qed.

Lemma bind_setNode {B} id f (k : unit -> M B) (p : Parser) :
  bind (setNode id f) k p = k tt (set_nodes (alter f id (nodes p)) p).
Proof. reflexivity. Qed.

Lemma bind_getNode {B} id o (k : objectInfo -> M B) (p : Parser) :
  nodes p !! id = Some o -> bind (getNode id) k p = k o p.
Proof. intros Ho. unfold bind, getNode. rewrite Ho. reflexivity. Qed.

Lemma bind_liftR {A B} (a : A) (k : A -> M B) (p : Parser) : bind (liftR (Ok a)) k p = k a p.
Proof. reflexivity. Qed.

Lemma bind_scan {A B} (op : S -> result A * S) a s' (k : A -> M B) (p : Parser) :
  op (sc_state (scanner p)) = (Ok a, s') ->
  bind (scan op) k p
  = k a (set_scanner {| IsSeekable := IsSeekable (scanner p); sc_state := s' |} p).
Proof. intros Hop. unfold bind, scan. rewrite Hop. reflexivity. Qed.

Lemma bind_cacheGet {B} key x c' (k : option bytes -> M B) (p : Parser) :
  cache_Get (cache p) key = (x, c') -> bind (cacheGet key) k p = k x (set_cache c' p).
Proof. intros Hc. unfold bind, cacheGet. rewrite Hc. reflexivity. Qed.

Lemma bind_storageEncodedObject {B} t h st a st' (k : MemoryObject -> M B) (p : Parser) :
  storage p = Some st -> st_EncodedObject st t h = (Ok a, st') ->
  bind (storageEncodedObject t h) k p = k a (set_storage (Some st') p).
Proof. intros Hs Hop. unfold bind, storageEncodedObject. rewrite Hs, Hop. reflexivity. Qed.

Lemma bind_storageSetEncodedObject {B} obj st a st' (k : Hash -> M B) (p : Parser) :
  storage p = Some st -> st_SetEncodedObject st obj = (Ok a, st') ->
  bind (storageSetEncodedObject obj) k p = k a (set_storage (Some st') p).
Proof. intros Hs Hop. unfold bind, storageSetEncodedObject. rewrite Hs, Hop. reflexivity. Qed.

Lemma forEachObserver_allAccept obs ev : forall k past,
  allAccept obs ->
  forEachObserver k obs ev past = (None, past ++ ((fun i => told i ev) <$> seq k (length obs))).
Proof.
  induction obs as [|o obs IH]; intros k past Hall; simpl.
  - rewrite app_nil_r. reflexivity.
  - inversion Hall as [|? ? Ho Hrest]; subst. rewrite Ho.
    rewrite (IH _ _ Hrest). rewrite <- app_assoc. reflexivity.
Qed.

Lemma bind_onEvent {B} ev (k : unit -> M B) (p : Parser) :
  allAccept (ob p) ->
  bind (onEvent ev) k p
  = k tt (set_calls (calls p ++ ((fun i => told i ev) <$> seq 0 (length (ob p)))) p).
Proof.
  intros Hall. unfold bind, onEvent. rewrite (forEachObserver_allAccept _ _ _ _ Hall).
  reflexivity.
Qed.

Lemma bind_getObject {B} id (k : bytes -> M B) (p : Parser) :
  bind (getObject id) k p = bind (get (Datatypes.S (length (nodes p))) id) k p.
Proof. reflexivity. Qed.

Ltac project :=
  cbn [storage scanner count oi oiByHash oiByOffset checksum cache deltas ob nodes calls
       set_storage set_scanner set_count set_oi set_oiByHash set_oiByOffset set_checksum
       set_cache set_deltas set_nodes set_calls IsSeekable sc_state fst snd
       negb andb isNil length app indexFrom resolveEach resolveChildren get
       Offset Length Typ DiskType ExternalRef Crc32 Parent Children SHA1
       newDeltaObject newBaseObject placeholder set_Typ set_SHA1 set_Length set_Crc32
       add_Child IsDelta objIsDelta Size getSHA1 newMemoryObject mo_t mo_sz mo_cont
       Nat.ltb Nat.leb alter list_alter replicate insert list_insert
       mbind option_bind N.eqb ZeroHash].

(** One step of a run: the first primitive of a chain of binds. *)
Ltac exec1 :=
  first
    [ rewrite bind_bind
    | rewrite bind_ret
    | rewrite bind_gets
    | rewrite bind_modify
    | rewrite bind_alloc
    | rewrite bind_setNode
    | rewrite bind_liftR
    | rewrite bind_getObject
    | erewrite bind_getNode by (project; reflexivity)
    | erewrite bind_scan by (project; eassumption)
    | erewrite bind_cacheGet by (project; eassumption)
    | erewrite bind_storageEncodedObject by (project; first [reflexivity|eassumption])
    | erewrite bind_storageSetEncodedObject by (project; first [reflexivity|eassumption])
    | rewrite bind_onEvent by (project; assumption)
    | erewrite bind_scan by (project; cbv beta; match goal with Hx : sc_Checksum _ = _ |- _ => rewrite Hx end; reflexivity)
    | match goal with Hx : _ = Ok _ |- _ => rewrite Hx end
    | rewrite andb_false_r
    | rewrite lookup_empty
    | rewrite lookup_insert_eq
    | rewrite decide_True by (project; lia)
    | progress project
    | progress (unfold getSHA1)
    | progress (cbv beta iota zeta) ].

Ltac exec := repeat exec1.

Lemma thin_pack_without_storage (sc : Scanner S) obs oh data sum s4 (p : Parser) :
  readsThinPack (sc_state sc) oh data sum s4 ->
  allAccept obs ->
  fst (cache_Get cache_new (oh_Offset oh)) = None ->
  NewParser sc obs = Ok p ->
  fst (Parse p) = Some (Err ErrReferenceDeltaNotFound).
Proof.
  intros (version & s1 & s2 & crc & s3 & err & Hh & Hoh & Ht & Hobj & Hsum & Herr) Hall Hmiss.
  destruct sc as [[|] s0]; [|discriminate]. simpl in Hh.
  intros [= <-].
  destruct (cache_Get cache_new (oh_Offset oh)) as [hit c1] eqn:Hc. simpl in Hmiss. subst hit.
  unfold Parse, init, onHeader, indexObjects.
  exec. change (N.to_nat 1) with 1%nat. exec.
  unfold indexObject, appendChild. exec. rewrite Ht. exec.
  unfold readChecksum. exec.
  assert (Hpass : forall (k : unit -> M Hash) (q : Parser),
             bind match err with
                  | Some e => if bool_decide (e = EOF) then ret () else fail e
                  | None => ret ()
                  end k q = k tt q).
  { intros k q. destruct Herr as [-> | ->]; reflexivity. }
  rewrite Hpass. clear Hpass.
  unfold resolveDeltas. exec. unfold resolveOne. exec.
  reflexivity.
Qed.

Lemma thin_pack_with_storage (sc : Scanner S) obs oh data sum s4 (p : Parser)
    st base st1 content patched h st2 :
  readsThinPack (sc_state sc) oh data sum s4 ->
  allAccept obs ->
  fst (cache_Get cache_new (oh_Offset oh)) = None ->
  st_EncodedObject st AnyObject (oh_Reference oh) = (Ok base, st1) ->
  readObject base = Ok content ->
  (IsSeekable sc = true -> rereads s4 oh data) ->
  PatchDelta content data = Ok patched ->
  st_SetEncodedObject st1 (newMemoryObject (Z.of_nat (length patched)) (mo_t base) patched)
    = (Ok h, st2) ->
  NewParserWithStorage sc (Some st) obs = Ok p ->
  fst (Parse p) = Some (Ok sum).
Proof.
  intros (version & s1 & s2 & crc & s3 & err & Hh & Hoh & Ht & Hobj & Hsum & Herr) Hall Hmiss
    Hbase Hread Hre Hpatch Hset.
  destruct (cache_Get cache_new (oh_Offset oh)) as [hit c1] eqn:Hc. simpl in Hmiss. subst hit.
  assert (Hpass : forall (k : unit -> M Hash) (q : Parser),
             bind match err with
                  | Some e => if bool_decide (e = EOF) then ret () else fail e
                  | None => ret ()
                  end k q = k tt q).
  { intros k q. destruct Herr as [-> | ->]; reflexivity. }
  destruct sc as [[|] s0]; simpl in Hh; intros [= <-].
  - destruct (Hre eq_refl) as (s5 & oh' & s6 & crc' & s7 & Hseek & Hoh' & Hobj').
    unfold Parse, init, onHeader, indexObjects.
    exec. change (N.to_nat 1) with 1%nat. exec.
    unfold indexObject, appendChild. exec. rewrite Ht. exec.
    unfold readChecksum. exec. rewrite Hpass.
    unfold resolveDeltas. exec. unfold resolveOne. exec.
    unfold resolveObject. exec. unfold readData. exec.
    unfold applyPatchBase. exec.
    unfold onInflatedObjectHeader, onInflatedObjectContent, onFooter. exec.
    reflexivity.
  - clear Hre.
    unfold Parse, init, onHeader, indexObjects.
    exec. change (N.to_nat 1) with 1%nat. exec.
    unfold indexObject, appendChild. exec. rewrite Ht. exec.
    unfold readChecksum. exec. rewrite Hpass.
    unfold resolveDeltas. exec. unfold resolveOne. exec.
    unfold resolveObject. exec. unfold readData. exec.
    unfold applyPatchBase. exec.
    unfold onInflatedObjectHeader, onInflatedObjectContent, onFooter. exec.
    reflexivity.
Qed.

(** ** One event, many observers *)

(** X1. One event is told to the observers in the order of their
    registration, each one once, each one answering from the calls
    made before it; the first error stops the round: no later observer
    is told, and that error is the outcome. *)
Theorem forEachObserver_in_registration_order
    (obs : list Observer) (ev : Event) (past : list Call) :
  exists made : list Call,
    snd (forEachObserver 0 obs ev past) = past ++ made /\
    c_observer <$> made = seq 0 (length made) /\
    Forall (fun c => c_event c = ev) made /\
    (forall i c, made !! i = Some c ->
       exists o, obs !! i = Some o /\ c_error c = notify o (past ++ take i made) ev) /\
    match fst (forEachObserver 0 obs ev past) with
    | None => length made = length obs /\ accepted made
    | Some e => exists pre c, made = pre ++ [c] /\ accepted pre /\ c_error c = Some e
    end.
Proof. apply forEachObserver_calls. Qed.

(** ** The resolve pass leaves index and graph alone *)

Lemma untouched_refl (p : Parser) : untouched p p.
Proof. repeat split. apply shape_refl. Qed.

Lemma untouched_trans (p1 p2 p3 : Parser) :
  untouched p1 p2 -> untouched p2 p3 -> untouched p1 p3.
Proof.
  unfold untouched. intros (?&?&?&?&?&?&?&?&?) (?&?&?&?&?&?&?&?&?).
  repeat split; try congruence. eapply shape_trans; eauto.
Qed.

Ltac untouched_side :=
  intros; unfold untouched; simpl; repeat split; try reflexivity;
  try apply shape_refl;
  try (apply shape_alter; intros; repeat split);
  try (match goal with Hs : storage ?p <> None |- _ => destruct (storage p); [reflexivity|congruence] end).

Ltac untouched_tac := respects_with untouched_refl untouched_trans untouched_side.

Lemma readData_untouched id : respects untouched (readData id).
Proof. unfold readData. untouched_tac. Qed.

Lemma applyPatchBase_untouched id data base : respects untouched (applyPatchBase id data base).
Proof. unfold applyPatchBase. untouched_tac. Qed.

Lemma resolveObject_untouched id base : respects untouched (resolveObject id base).
Proof.
  unfold resolveObject.
  pose proof readData_untouched. pose proof applyPatchBase_untouched.
  untouched_tac.
Qed.

Lemma get_untouched fuel : forall id, respects untouched (get fuel id).
Proof.
  induction fuel as [|fuel IH]; intros id; simpl.
  - untouched_tac.
  - pose proof readData_untouched. pose proof resolveObject_untouched.
    untouched_tac.
Qed.

Lemma resolveChildren_untouched content children :
  respects untouched (resolveChildren children content).
Proof.
  induction children as [|c children IH]; simpl.
  - untouched_tac.
  - pose proof resolveObject_untouched. untouched_tac.
Qed.

Lemma resolveOne_untouched obj : respects untouched (resolveOne obj).
Proof.
  unfold resolveOne, onInflatedObjectHeader, onInflatedObjectContent.
  assert (Hg : forall id, respects untouched (getObject id)).
  { intros id p r p'. unfold getObject. apply get_untouched. }
  pose proof resolveChildren_untouched.
  untouched_tac.
Qed.

Lemma resolveEach_untouched objs : respects untouched (resolveEach objs).
Proof.
  induction objs as [|obj objs IH]; simpl.
  - untouched_tac.
  - pose proof resolveOne_untouched. untouched_tac.
Qed.

(** X2. Whatever its outcome, [resolveDeltas] leaves [p.oi],
    [p.oiByHash], [p.oiByOffset], [p.count], [p.checksum] and the
    observers as they were, allocates no node, and in every node
    leaves [Offset], [DiskType], [ExternalRef], [Crc32], [Parent] and
    [Children] as the index pass set them: only [Type], [SHA1] and
    [Length] of a node are rewritten. *)
Theorem resolveDeltas_leaves_index_and_graph (p : Parser) :
  untouched p (snd (resolveDeltas p)).
Proof.
  destruct (resolveDeltas p) as [r p'] eqn:Hrun. simpl.
  revert Hrun. apply (respects_bind untouched untouched_trans); [|intros objs].
  - apply (respects_gets untouched untouched_refl).
  - apply resolveEach_untouched.
Qed.

(** ** Thin packs *)

Lemma resolveOne_afterGet id (p : Parser) :
  resolveOne (Some id) p = bind (getObject id) (afterGet id) p.
Proof. reflexivity. Qed.

Lemma resolveEach_app pre : forall post (p : Parser),
  resolveEach (pre ++ post) p = bind (resolveEach pre) (fun _ => resolveEach post) p.
Proof.
  induction pre as [|obj pre IH]; intros post p; simpl.
  - reflexivity.
  - rewrite bind_bind.
    change (bind (resolveOne obj) (fun _ => resolveEach (pre ++ post)) p
            = bind (resolveOne obj)
                (fun _ => bind (resolveEach pre) (fun _ => resolveEach post)) p).
    unfold bind at 1 2.
    destruct (resolveOne obj p) as [[[[]|e|w]|] p1]; try reflexivity.
    apply IH.
Qed.

Lemma init_storage (p p' : Parser) r : init p = (r, p') -> storage p' = storage p.
Proof.
  unfold init, onHeader, onEvent, scan, bind, modify. intros Hrun.
  destruct (sc_Header (sc_state (scanner p))) as [[[v c]|e|w] s1];
    simpl in Hrun; try (injection Hrun as <- <-; reflexivity).
  destruct (forEachObserver 0 (ob p) (EvHeader c) (calls p)) as [[e|] log];
    simpl in Hrun; injection Hrun as <- <-; reflexivity.
Qed.

Ltac thin_steps :=
  repeat first
    [ rewrite bind_bind | rewrite bind_ret | rewrite bind_gets | rewrite bind_modify
    | rewrite bind_setNode | rewrite bind_liftR
    | progress cbn [storage scanner cache deltas nodes calls ob oi
                    set_storage set_scanner set_cache set_deltas set_nodes set_calls
                    IsSeekable sc_state isNil negb andb] ].

(** Without a storage, [p.get] of a delta whose parent is a
    placeholder fails, whatever the state of the parser. *)
Lemma getObject_thin_without_storage (q : Parser) id par o pn :
  thinDelta (nodes q) id par o pn ->
  storage q = None ->
  fst (cache_Get (cache q) (Offset o)) = None ->
  exists q', getObject id q = (Some (Err ErrReferenceDeltaNotFound), q') /\
             calls q' = calls q.
Proof.
  intros (Ho & Hpn & Hext & Hdelta & Hpar & Hph) Hst Hmiss.
  destruct (cache_Get (cache q) (Offset o)) as [hit c1] eqn:Hc. simpl in Hmiss. subst hit.
  assert (Hlen : (id < length (nodes q))%nat) by (eapply lookup_lt_Some, Ho).
  unfold getObject.
  destruct (length (nodes q)) as [|n] eqn:Hn; [lia|].
  cbn [get].
  rewrite (bind_getNode _ _ _ _ Ho), Hext. cbn [negb].
  rewrite (bind_cacheGet _ _ _ _ _ Hc).
  thin_steps. rewrite Hst. thin_steps. rewrite Hdelta, Hpar. thin_steps.
  erewrite bind_getNode by (cbn [nodes set_cache]; exact Hpn).
  rewrite Hph. thin_steps. rewrite Hst. thin_steps.
  eexists. split; [reflexivity|]. reflexivity.
Qed.

(** [readData] of a delta whose payload is at hand returns it and
    changes the scanner at most. *)
Lemma readData_payload (q : Parser) id o data :
  nodes q !! id = Some o ->
  IsDelta (DiskType o) = true ->
  payloadOf q o data ->
  exists q', readData id q = (Some (Ok data), q') /\
    storage q' = storage q /\ nodes q' = nodes q /\ cache q' = cache q /\
    calls q' = calls q /\ deltas q' = deltas q /\
    IsSeekable (scanner q') = IsSeekable (scanner q).
Proof.
  intros Ho Hdelta Hpay. unfold payloadOf in Hpay. unfold readData.
  rewrite (bind_getNode _ _ _ _ Ho), bind_gets, Hdelta.
  destruct (IsSeekable (scanner q)) eqn:Hseek; cbn [negb andb].
  - destruct Hpay as (s5 & oh' & s6 & crc' & s7 & Hs & Hh & Hn).
    erewrite bind_scan by exact Hs.
    erewrite bind_scan by exact Hh.
    erewrite bind_scan by exact Hn.
    eexists. split; [reflexivity|]. cbn. rewrite Hseek. repeat split.
  - rewrite bind_gets. unfold cachedDelta in Hpay. rewrite Hpay.
    exists q. repeat split; congruence.
Qed.

(** With a storage that holds the base, [p.get] of the delta patches
    the base, stores the result and returns it. *)
Lemma getObject_thin_with_storage (q : Parser) id par o pn
    st base st1 content data patched h st2 :
  thinDelta (nodes q) id par o pn ->
  pending o pn ->
  storage q = Some st ->
  fst (cache_Get (cache q) (Offset o)) = None ->
  st_EncodedObject st AnyObject (SHA1 pn) = (Ok base, st1) ->
  readObject base = Ok content ->
  payloadOf q o data ->
  PatchDelta content data = Ok patched ->
  st_SetEncodedObject st1
    (newMemoryObject (Z.of_nat (length patched)) (mo_t base) patched) = (Ok h, st2) ->
  exists q1 o1,
    getObject id q = (Some (Ok patched), q1) /\
    storage q1 = Some st2 /\
    nodes q1 !! id = Some o1 /\
    Typ o1 = mo_t base /\
    SHA1 o1 = ComputeHash (mo_t base) patched /\
    Length o1 = Z.of_nat (length patched) /\
    calls q1 = calls q.
Proof.
  intros (Ho & Hpn & Hext & Hdelta & Hpar & Hph) (Hty & Hsha & Hpty) Hst Hmiss
    Hbase Hread Hpay Hpatch Hset.
  destruct (cache_Get (cache q) (Offset o)) as [hit c1] eqn:Hc. simpl in Hmiss. subst hit.
  assert (Hlen : (id < length (nodes q))%nat) by (eapply lookup_lt_Some, Ho).
  assert (Hne : id <> par).
  { intros ->. rewrite Ho in Hpn. injection Hpn as ->. congruence. }
  unfold getObject.
  destruct (length (nodes q)) as [|n] eqn:Hn; [lia|].
  cbn [get].
  rewrite (bind_getNode _ _ _ _ Ho), Hext. cbn [negb].
  rewrite (bind_cacheGet _ _ _ _ _ Hc).
  thin_steps. rewrite Hst, Hty. thin_steps. rewrite Hdelta, Hpar. thin_steps.
  erewrite bind_getNode by (cbn [nodes set_cache]; exact Hpn).
  rewrite Hph. thin_steps. rewrite Hst, Hpty. thin_steps.
  erewrite bind_storageEncodedObject by (thin_steps; eassumption).
  thin_steps. rewrite Hread. thin_steps.
  assert (Ho' : alter (set_Typ (mo_t base)) par (nodes q) !! id = Some o).
  { rewrite list_lookup_alter_ne by congruence. exact Ho. }
  assert (Hpn' : alter (set_Typ (mo_t base)) par (nodes q) !! par
                 = Some (set_Typ (mo_t base) pn)).
  { rewrite list_lookup_alter, decide_True by reflexivity. rewrite Hpn. reflexivity. }
  unfold resolveObject. thin_steps.
  erewrite bind_getNode by (thin_steps; exact Ho').
  rewrite Hdelta. thin_steps.
  match goal with
  | |- context [bind (readData id) _ ?q0] =>
      destruct (readData_payload q0 id o data Ho' Hdelta Hpay)
        as (q3 & Hrd & Hst3 & Hn3 & Hc3 & Hcalls3 & Hd3 & Hseek3);
      rewrite (bind_run _ _ _ _ _ Hrd)
  end.
  cbn [storage nodes cache calls set_nodes set_storage set_cache] in Hst3, Hn3, Hc3, Hcalls3.
  unfold applyPatchBase. thin_steps. rewrite Hpatch. thin_steps.
  erewrite bind_getNode by (rewrite Hn3; exact Ho').
  rewrite Hsha. cbn [N.eqb ZeroHash]. rewrite Hpar. thin_steps.
  erewrite bind_getNode by (rewrite Hn3; exact Hpn').
  thin_steps. unfold getSHA1. thin_steps.
  cbn [Typ set_Typ]. rewrite Hst3. thin_steps.
  set (o1 := set_Length (Z.of_nat (length patched))
               (set_SHA1 (ComputeHash (mo_t base) patched) (set_Typ (mo_t base) o))).
  assert (Ho1 : alter (set_Length (Z.of_nat (length patched))) id
                  (alter (set_SHA1 (ComputeHash (mo_t base) patched)) id
                     (alter (set_Typ (mo_t base)) id (nodes q3))) !! id = Some o1).
  { rewrite !list_lookup_alter, !decide_True by reflexivity.
    rewrite Hn3, Ho'. reflexivity. }
  erewrite bind_getNode by (thin_steps; exact Ho1).
  cbn [Size Length Typ o1 set_Length set_SHA1 set_Typ]. thin_steps.
  erewrite bind_storageSetEncodedObject by (thin_steps; eassumption).
  thin_steps.
  destruct (0 <? length (Children o))%nat.
  - unfold cachePut. thin_steps.
    eexists _, o1. split; [reflexivity|]. thin_steps.
    repeat split; try assumption; reflexivity.
  - thin_steps.
    eexists _, o1. split; [reflexivity|]. thin_steps.
    repeat split; try assumption; reflexivity.
Qed.

Lemma thinDelta_shape l l' id par o pn :
  shape l l' -> thinDelta l id par o pn ->
  exists o' pn', thinDelta l' id par o' pn' /\ Offset o' = Offset o.
Proof.
  intros Hshape (Ho & Hpn & Hext & Hdelta & Hpar & Hph).
  destruct (Forall2_lookup_l _ _ _ _ _ Hshape Ho) as (o' & Ho' & Hs1).
  destruct (Forall2_lookup_l _ _ _ _ _ Hshape Hpn) as (pn' & Hpn' & Hs2).
  destruct Hs1 as (Hoff & Hd1 & He1 & _ & Hp1 & _).
  destruct Hs2 as (_ & _ & He2 & _).
  exists o', pn'. split; [|exact Hoff].
  repeat split; congruence.
Qed.

(** [Parse], once its first three steps and the turns of the resolve
    loop for the entries [pre] have succeeded, goes on with the
    entries that follow. *)
Lemma Parse_from_turn (p p1 p2 p3 q : Parser) pre rest :
  init p = (Some (Ok tt), p1) ->
  indexObjects p1 = (Some (Ok tt), p2) ->
  readChecksum p2 = (Some (Ok tt), p3) ->
  oi p3 = pre ++ rest ->
  resolveEach pre p3 = (Some (Ok tt), q) ->
  Parse p
  = bind (resolveEach rest)
      (fun _ => bind (gets checksum) (fun sum => bind (onFooter sum) (fun _ => ret sum))) q.
Proof.
  intros Hinit Hindex Hsum Hoi Hpre. unfold Parse.
  rewrite (bind_run _ _ _ _ _ Hinit), (bind_run _ _ _ _ _ Hindex), (bind_run _ _ _ _ _ Hsum).
  unfold resolveDeltas. rewrite bind_bind, bind_gets, Hoi.
  unfold bind at 1. rewrite resolveEach_app. rewrite (bind_run _ _ _ _ _ Hpre).
  reflexivity.
Qed.

Lemma Parse_thin_without_storage (p p1 p2 p3 q : Parser) pre id post par o pn :
  storage p = None ->
  init p = (Some (Ok tt), p1) ->
  indexObjects p1 = (Some (Ok tt), p2) ->
  readChecksum p2 = (Some (Ok tt), p3) ->
  thinDelta (nodes p3) id par o pn ->
  oi p3 = pre ++ Some id :: post ->
  resolveEach pre p3 = (Some (Ok tt), q) ->
  fst (cache_Get (cache q) (Offset o)) = None ->
  fst (Parse p) = Some (Err ErrReferenceDeltaNotFound).
Proof.
  intros Hst Hinit Hindex Hsum Hthin Hoi Hpre Hmiss.
  rewrite (Parse_from_turn _ _ _ _ _ _ _ Hinit Hindex Hsum Hoi Hpre).
  destruct (resolveEach_untouched _ _ _ _ Hpre) as (_&_&_&_&_&_&_&Hnil&Hshape).
  destruct (indexObjects_indexing _ _ _ Hindex) as (_&_&_&_&_&Hnil2).
  destruct (readChecksum_indexing _ _ _ Hsum) as (_&_&_&_&_&Hnil3).
  pose proof (init_storage _ _ _ Hinit) as Hst1.
  assert (Hstq : storage q = None).
  { rewrite Hnil3, Hnil2, Hst1, Hst in Hnil. destruct (storage q); [discriminate|reflexivity]. }
  destruct (thinDelta_shape _ _ _ _ _ _ Hshape Hthin) as (o' & pn' & Hthin' & Hoff).
  rewrite <- Hoff in Hmiss.
  destruct (getObject_thin_without_storage q id par o' pn' Hthin' Hstq Hmiss) as (q' & Hget & _).
  cbn [resolveEach].
  change (resolveOne (Some id)) with (bind (getObject id) (afterGet id)).
  rewrite !bind_bind, (bind_stop _ _ _ _ _ Hget). reflexivity.
Qed.

Lemma Parse_thin_with_storage (p p1 p2 p3 q q1 q2 : Parser) pre id post patched :
  init p = (Some (Ok tt), p1) ->
  indexObjects p1 = (Some (Ok tt), p2) ->
  readChecksum p2 = (Some (Ok tt), p3) ->
  oi p3 = pre ++ Some id :: post ->
  resolveEach pre p3 = (Some (Ok tt), q) ->
  getObject id q = (Some (Ok patched), q1) ->
  bind (afterGet id patched) (fun _ => resolveEach post) q1 = (Some (Ok tt), q2) ->
  fst (onFooter (checksum p3) q2) = Some (Ok tt) ->
  fst (Parse p) = Some (Ok (checksum p3)).
Proof.
  intros Hinit Hindex Hsum Hoi Hpre Hget Hrest Hfoot.
  assert (Hall : resolveEach (oi p3) p3 = (Some (Ok tt), q2)).
  { rewrite Hoi, resolveEach_app, (bind_run _ _ _ _ _ Hpre).
    cbn [resolveEach].
    change (resolveOne (Some id)) with (bind (getObject id) (afterGet id)).
    rewrite bind_bind, (bind_run _ _ _ _ _ Hget). exact Hrest. }
  destruct (resolveEach_untouched _ _ _ _ Hall) as (_&_&_&_&_&Hck&_).
  rewrite (Parse_from_turn p p1 p2 p3 p3 [] (oi p3) Hinit Hindex Hsum eq_refl eq_refl).
  rewrite (bind_run _ _ _ _ _ Hall), bind_gets, Hck.
  unfold bind. destruct (onFooter (checksum p3) q2) as [r q3]. simpl in Hfoot. subst r.
  reflexivity.
Qed.

(** C2. For a thin pack with a REF delta whose base hash is not in the
    pack: the index pass makes a placeholder parent with
    [ExternalRef = true], registered under the base hash in
    [oiByHash], with the delta as its child; [Parse()] without a
    storage fails with [ErrReferenceDeltaNotFound]; [Parse()] with a
    storage that holds the base object succeeds (the delta applies to
    the base and the result is stored).

    The second part is for the pack of one REF delta.  The third and
    the fourth are for any pack, any number of objects and the delta
    at any place: when the resolve loop, the entries before it
    resolved, comes to a delta whose parent is a placeholder and which
    the LRU does not hold, then without a storage [Parse()] returns
    [ErrReferenceDeltaNotFound]; with a storage that holds the base,
    [p.get] returns the patched content, the storage has taken it and
    the node has the type of the base and the hash of the result, and
    [Parse()] succeeds when the rest of the loop does and the
    observers accept the footer. *)
Theorem thin_pack_needs_storage :
  (forall (p p' : Parser) i oh s' r,
      sc_NextObjectHeader (sc_state (scanner p)) = (Ok oh, s') ->
      oh_Type oh = REFDeltaObject ->
      oiByHash p !! oh_Reference oh = None ->
      indexObject i p = (r, p') ->
      exists par child,
        oiByHash p' !! oh_Reference oh = Some (length (nodes p)) /\
        nodes p' !! length (nodes p) = Some par /\
        ExternalRef par = true /\
        SHA1 par = oh_Reference oh /\
        Children par = [Datatypes.S (length (nodes p))] /\
        nodes p' !! Datatypes.S (length (nodes p)) = Some child /\
        Parent child = Some (length (nodes p)) /\
        DiskType child = REFDeltaObject) /\
  (forall (sc : Scanner S) obs oh data sum s4,
      readsThinPack (sc_state sc) oh data sum s4 ->
      allAccept obs ->
      fst (cache_Get cache_new (oh_Offset oh)) = None ->
      (forall p : Parser,
          NewParser sc obs = Ok p ->
          fst (Parse p) = Some (Err ErrReferenceDeltaNotFound)) /\
      (forall (p : Parser) st base st1 content patched h st2,
          st_EncodedObject st AnyObject (oh_Reference oh) = (Ok base, st1) ->
          readObject base = Ok content ->
          (IsSeekable sc = true -> rereads s4 oh data) ->
          PatchDelta content data = Ok patched ->
          st_SetEncodedObject st1
            (newMemoryObject (Z.of_nat (length patched)) (mo_t base) patched) = (Ok h, st2) ->
          NewParserWithStorage sc (Some st) obs = Ok p ->
          fst (Parse p) = Some (Ok sum))) /\
  (forall (p p1 p2 p3 q : Parser) pre id post par o pn,
      storage p = None ->
      init p = (Some (Ok tt), p1) ->
      indexObjects p1 = (Some (Ok tt), p2) ->
      readChecksum p2 = (Some (Ok tt), p3) ->
      thinDelta (nodes p3) id par o pn ->
      oi p3 = pre ++ Some id :: post ->
      resolveEach pre p3 = (Some (Ok tt), q) ->
      fst (cache_Get (cache q) (Offset o)) = None ->
      fst (Parse p) = Some (Err ErrReferenceDeltaNotFound)) /\
  (forall (p p1 p2 p3 q : Parser) pre id post par o pn
          st base st1 content data patched h st2,
      init p = (Some (Ok tt), p1) ->
      indexObjects p1 = (Some (Ok tt), p2) ->
      readChecksum p2 = (Some (Ok tt), p3) ->
      oi p3 = pre ++ Some id :: post ->
      resolveEach pre p3 = (Some (Ok tt), q) ->
      thinDelta (nodes q) id par o pn ->
      pending o pn ->
      storage q = Some st ->
      fst (cache_Get (cache q) (Offset o)) = None ->
      st_EncodedObject st AnyObject (SHA1 pn) = (Ok base, st1) ->
      readObject base = Ok content ->
      payloadOf q o data ->
      PatchDelta content data = Ok patched ->
      st_SetEncodedObject st1
        (newMemoryObject (Z.of_nat (length patched)) (mo_t base) patched) = (Ok h, st2) ->
      exists q1 o1,
        getObject id q = (Some (Ok patched), q1) /\
        storage q1 = Some st2 /\
        nodes q1 !! id = Some o1 /\
        Typ o1 = mo_t base /\
        SHA1 o1 = ComputeHash (mo_t base) patched /\
        Length o1 = Z.of_nat (length patched) /\
        forall q2,
          bind (afterGet id patched) (fun _ => resolveEach post) q1 = (Some (Ok tt), q2) ->
          fst (onFooter (checksum p3) q2) = Some (Ok tt) ->
          fst (Parse p) = Some (Ok (checksum p3))).
Proof.
  split; [|split; [|split]].
  - intros p p' i oh s' r Hhdr Htype Hmiss Hrun.
    unfold indexObject in Hrun.
    rewrite (bind_run _ _ _ _ _ (scan_run _ _ _ _ Hhdr)) in Hrun.
    rewrite Htype in Hrun.
    set (p1 := set_scanner {| IsSeekable := IsSeekable (scanner p); sc_state := s' |} p) in *.
    set (n := length (nodes p)) in *.
    set (child := newDeltaObject (oh_Offset oh) (oh_Length oh) REFDeltaObject (Some n)).
    set (pa := set_nodes
                 (alter (add_Child (Datatypes.S n)) n
                    ((nodes p ++ [placeholder (oh_Reference oh)]) ++ [child]))
                 (set_oiByHash (<[oh_Reference oh := n]> (oiByHash p)) p1)).
    assert (Hph : ((nodes p ++ [placeholder (oh_Reference oh)]) ++ [child]) !! n
                  = Some (placeholder (oh_Reference oh))).
    { rewrite lookup_app_l by (rewrite length_app; simpl; lia).
      rewrite lookup_app_r by lia. unfold n. rewrite Nat.sub_diag. reflexivity. }
    erewrite (bind_run _ _ p1 pa (true, Datatypes.S n)) in Hrun.
    2:{ unfold appendChild, pa, p1.
        repeat rewrite bind_bind. rewrite bind_gets. project. rewrite Hmiss.
        repeat rewrite bind_bind. rewrite bind_alloc. project.
        repeat rewrite bind_bind. rewrite bind_modify. project. rewrite bind_ret.
        repeat rewrite bind_bind. rewrite bind_alloc. project.
        rewrite length_app. simpl length. rewrite Nat.add_1_r. fold n.
        repeat rewrite bind_bind.
        erewrite bind_getNode by (project; exact Hph).
        rewrite bind_setNode. project. reflexivity. }
    match type of Hrun with
    | ?tail _ = _ => assert (Hresp : respects linked tail)
    end.
    { linked_tac. }
    destruct (Hresp _ _ _ Hrun) as [Hh Hn].
    assert (Hp : nodes pa !! n = Some (add_Child (Datatypes.S n) (placeholder (oh_Reference oh)))).
    { unfold pa. project. rewrite list_lookup_alter, decide_True by reflexivity.
      rewrite Hph. reflexivity. }
    assert (Hc : nodes pa !! Datatypes.S n = Some child).
    { unfold pa. project. rewrite list_lookup_alter_ne by lia.
      rewrite lookup_app_r by (rewrite length_app; simpl; lia).
      rewrite length_app. simpl length. fold n.
      replace (Datatypes.S n - (n + 1))%nat with 0%nat by lia. reflexivity. }
    destruct (Forall2_lookup_l _ _ _ _ _ Hn Hp) as (par' & Hp' & Hs1).
    destruct (Forall2_lookup_l _ _ _ _ _ Hn Hc) as (child' & Hc' & Hs2).
    destruct Hs1 as (_ & _ & _ & He1 & _ & Hch1 & Hsha1).
    destruct Hs2 as (_ & _ & Hd2 & _ & Hpa2 & _).
    exists par', child'. rewrite Hh. unfold pa. project.
    rewrite lookup_insert_eq. repeat split; assumption.
  - intros sc obs oh data sum s4 Hpack Hall Hmiss. split.
    + intros p. apply (thin_pack_without_storage sc obs oh data sum s4 p Hpack Hall Hmiss).
    + intros p st base st1 content patched h st2.
      apply (thin_pack_with_storage sc obs oh data sum s4 p st base st1 content patched h st2
               Hpack Hall Hmiss).
  - intros p p1 p2 p3 q pre id post par o pn.
    apply Parse_thin_without_storage.
  - intros p p1 p2 p3 q pre id post par o pn st base st1 content data patched h st2
      Hinit Hindex Hsum Hoi Hpre Hthin Hpend Hst Hmiss Hbase Hread Hpay Hpatch Hset.
    destruct (getObject_thin_with_storage q id par o pn st base st1 content data patched h st2
                Hthin Hpend Hst Hmiss Hbase Hread Hpay Hpatch Hset)
      as (q1 & o1 & Hget & Hst2 & Ho1 & Hty & Hsha & Hlen & _).
    exists q1, o1. repeat (split; [assumption|]).
    intros q2 Hrest Hfoot.
    exact (Parse_thin_with_storage p p1 p2 p3 q q1 q2 pre id post patched
             Hinit Hindex Hsum Hoi Hpre Hget Hrest Hfoot).
Qed.

(** ** The trailer *)

(** X3. When the header was read and the whole pack indexed, and
    [Checksum()] then fails with an error other than [io.EOF],
    [Parse()] returns that error, keeps what [Checksum()] gave as
    [p.checksum], and resolves nothing: every observer has received
    [OnHeader] and nothing else.  With [io.EOF] the reading of the
    trailer is not a failure. *)
Theorem Parse_stops_at_checksum_error (p p1 p2 : Parser) (sum : Hash) (e : error) (s' : S) :
  calls p = [] ->
  init p = (Some (Ok tt), p1) ->
  indexObjects p1 = (Some (Ok tt), p2) ->
  sc_Checksum (sc_state (scanner p2)) = ((sum, Some e), s') ->
  (e <> EOF ->
     fst (Parse p) = Some (Err e) /\
     checksum (snd (Parse p)) = sum /\
     forall j, (j < length (ob p))%nat ->
       received j (calls (snd (Parse p))) = [EvHeader (count p1)]) /\
  (e = EOF -> fst (readChecksum p2) = Some (Ok tt)).
Proof.
  intros Hfresh Hinit Hindex Hsum.
  assert (Hck : readChecksum p2
                = (if bool_decide (e = EOF) then Some (Ok tt) else Some (Err e),
                   set_checksum sum
                     (set_scanner {| IsSeekable := IsSeekable (scanner p2); sc_state := s' |} p2))).
  { unfold readChecksum, bind, scan, modify. rewrite Hsum. simpl.
    destruct (bool_decide (e = EOF)); reflexivity. }
  split.
  - intros Hne. rewrite bool_decide_eq_false_2 in Hck by exact Hne.
    unfold Parse.
    rewrite (bind_run _ _ _ _ _ Hinit), (bind_run _ _ _ _ _ Hindex), (bind_stop _ _ _ _ _ Hck).
    simpl. split; [reflexivity|]. split; [reflexivity|].
    intros j Hj.
    pose proof (indexObjects_indexing _ _ _ Hindex) as (_ & Hcalls2 & _).
    apply init_ok in Hinit.
    destruct Hinit as (version & c & _ & Hc & _ & _ & _ & _ & _ & _ & _ & _ & _ & _ & Hcalls1).
    rewrite Hcalls2, Hcalls1, Hfresh, Hc. simpl.
    rewrite received_told_all, bool_decide_eq_true_2 by lia. reflexivity.
  - intros ->. rewrite Hck. reflexivity.
Qed.

(** ** One turn of the index loop, step by step *)

Lemma scan_ok {A} (op : S -> result A * S) (p p' : Parser) a :
  scan op p = (Some (Ok a), p') ->
  exists s', op (sc_state (scanner p)) = (Ok a, s') /\
    p' = set_scanner {| IsSeekable := IsSeekable (scanner p); sc_state := s' |} p.
Proof.
  unfold scan. destruct (op (sc_state (scanner p))) as [x s'].
  intros [= -> <-]. eauto.
Qed.

Lemma modify_ok (g : Parser -> Parser) (p p' : Parser) u :
  modify g p = (Some (Ok u), p') -> p' = g p.
Proof. intros [= _ <-]. reflexivity. Qed.

Lemma alloc_ok o (p p' : Parser) id :
  alloc o p = (Some (Ok id), p') ->
  id = length (nodes p) /\ p' = set_nodes (nodes p ++ [o]) p.
Proof. intros [= <- <-]. auto. Qed.

Lemma ret_ok {A} (a b : A) (p p' : Parser) : ret a p = (Some (Ok b), p') -> b = a /\ p' = p.
Proof. intros [= <- <-]. auto. Qed.

Lemma liftR_ok {A} (x : result A) (p p' : Parser) a :
  liftR x p = (Some (Ok a), p') -> x = Ok a /\ p' = p.
Proof. intros [= -> <-]. auto. Qed.

Lemma storageSetEncodedObject_ok obj (p p' : Parser) h :
  storageSetEncodedObject obj p = (Some (Ok h), p') ->
  exists st st', storage p = Some st /\ st_SetEncodedObject st obj = (Ok h, st') /\
    p' = set_storage (Some st') p.
Proof.
  unfold storageSetEncodedObject. destruct (storage p) as [st|]; [|discriminate].
  destruct (st_SetEncodedObject st obj) as [x st'] eqn:Hs. intros [= -> <-]. eauto.
Qed.

Lemma freshNode_add_Child oh c n : freshNode oh n -> freshNode oh (add_Child c n).
Proof. exact id. Qed.

Lemma freshNode_new oh par :
  (IsDelta (oh_Type oh) = false -> par = None) ->
  freshNode oh (newDeltaObject (oh_Offset oh) (oh_Length oh) (oh_Type oh) par).
Proof. intros Hp. repeat split. exact Hp. Qed.

(** The type switch: the node made for the entry. *)
Lemma switch_child (l : list objectInfo) (parent : nat) (child : objectInfo) oh :
  freshNode oh child ->
  (parent <= length l)%nat ->
  exists n, alter (add_Child (length l)) parent (l ++ [child]) !! length l = Some n /\
            freshNode oh n.
Proof.
  intros Hf Hp. rewrite list_lookup_alter.
  destruct (decide (parent = length l)) as [->|_];
    rewrite lookup_app_r, Nat.sub_diag by lia; simpl; eauto.
Qed.

Lemma indexObject_ok i (p p' : Parser) :
  indexObject i p = (Some (Ok tt), p') ->
  exists oh s1 data crc s2 id o,
    sc_NextObjectHeader (sc_state (scanner p)) = (Ok oh, s1) /\
    sc_NextObject s1 = (Ok (data, crc), s2) /\
    sc_state (scanner p') = s2 /\
    (i < length (oi p))%nat /\
    oi p' = <[i := Some id]> (oi p) /\
    oiByOffset p' = <[oh_Offset oh := id]> (oiByOffset p) /\
    (length (nodes p) <= id < length (nodes p'))%nat /\
    nodes p' !! id = Some o /\
    Offset o = oh_Offset oh /\ Length o = oh_Length oh /\ Crc32 o = crc /\
    DiskType o = oh_Type oh /\ Typ o = oh_Type oh /\ ExternalRef o = false /\
    (if IsDelta (oh_Type oh)
     then SHA1 o = ZeroHash /\
          (if IsSeekable (scanner p)
           then deltas p' = deltas p
           else exists m, deltas p = Some m /\ deltas p' = Some (<[oh_Offset oh := data]> m))
     else SHA1 o = ComputeHash (oh_Type oh) data /\
          oiByHash p' = <[ComputeHash (oh_Type oh) data := id]> (oiByHash p) /\
          Parent o = None /\ deltas p' = deltas p).
Proof.
  unfold indexObject. intros Hrun.
  apply bind_ok in Hrun. destruct Hrun as (oh & p1 & Hhdr & Hrun).
  apply scan_ok in Hhdr. destruct Hhdr as (s1 & Hhdr & Hp1).
  apply bind_ok in Hrun. destruct Hrun as ([delta ota] & p2 & Hsw & Hrun).
  assert (SW : delta = IsDelta (oh_Type oh) /\
               (length (nodes p1) <= ota < length (nodes p2))%nat /\
               (exists n, nodes p2 !! ota = Some n /\ freshNode oh n) /\
               scanner p2 = scanner p1 /\ deltas p2 = deltas p1 /\ oi p2 = oi p1 /\
               oiByOffset p2 = oiByOffset p1 /\
               (delta = false -> oiByHash p2 = oiByHash p1)).
  { clear Hrun. unfold appendChild in Hsw.
    destruct (oh_Type oh) eqn:Ht.
    all: try (apply bind_ok in Hsw; destruct Hsw as (ota' & q & Ha & Hr);
              apply alloc_ok in Ha; destruct Ha as [-> ->];
              apply ret_ok in Hr; destruct Hr as [[= -> ->] ->];
              simpl; rewrite length_app; simpl;
              split; [reflexivity|]; split; [lia|]; split;
              [eexists; split; [rewrite lookup_app_r, Nat.sub_diag by lia; reflexivity|];
               rewrite <- Ht; apply freshNode_new; reflexivity
              |repeat split]).
    - (* OFS delta *)
      apply bind_ok in Hsw. destruct Hsw as (byOffset & q & Hg & Hsw).
      apply gets_ok in Hg. destruct Hg as [-> ->].
      destruct (oiByOffset p1 !! oh_OffsetReference oh) as [parent|]; [|discriminate].
      apply bind_ok in Hsw. destruct Hsw as (ota' & q & Ha & Hsw).
      apply alloc_ok in Ha. destruct Ha as [-> ->].
      apply bind_ok in Hsw. destruct Hsw as ([] & q & Hc & Hr).
      apply ret_ok in Hr. destruct Hr as [[= -> ->] ->].
      apply bind_ok in Hc. destruct Hc as (par & q' & Hn & Hc).
      apply getNode_ok in Hn. destruct Hn as [-> Hn].
      apply modify_ok in Hc. subst q. simpl in *.
      apply lookup_lt_Some in Hn. rewrite length_app in Hn. simpl in Hn.
      rewrite length_alter, length_app. simpl.
      split; [reflexivity|]. split; [lia|]. split; [|repeat split; discriminate].
      apply switch_child; [|lia]. rewrite <- Ht. apply freshNode_new. rewrite Ht. discriminate.
    - (* REF delta *)
      apply bind_ok in Hsw. destruct Hsw as (byHash & q & Hg & Hsw).
      apply gets_ok in Hg. destruct Hg as [-> ->].
      apply bind_ok in Hsw. destruct Hsw as (parent & q & Hpar & Hsw).
      assert (Hq : (length (nodes p1) <= length (nodes q))%nat /\
                   scanner q = scanner p1 /\ deltas q = deltas p1 /\ oi q = oi p1 /\
                   oiByOffset q = oiByOffset p1).
      { destruct (oiByHash p1 !! oh_Reference oh) as [parent'|].
        - apply ret_ok in Hpar. destruct Hpar as [-> ->]. repeat split. lia.
        - apply bind_ok in Hpar. destruct Hpar as (parent' & q1 & Ha & Hpar).
          apply alloc_ok in Ha. destruct Ha as [-> ->].
          apply bind_ok in Hpar. destruct Hpar as ([] & q2 & Hm & Hr).
          apply modify_ok in Hm. subst q2.
          apply ret_ok in Hr. destruct Hr as [-> ->]. simpl.
          rewrite length_app. simpl. repeat split. lia. }
      destruct Hq as (Hlen & Hsq & Hdq & Hoiq & Hoffq).
      apply bind_ok in Hsw. destruct Hsw as (ota' & q1 & Ha & Hsw).
      apply alloc_ok in Ha. destruct Ha as [-> ->].
      apply bind_ok in Hsw. destruct Hsw as ([] & q2 & Hc & Hr).
      apply ret_ok in Hr. destruct Hr as [[= -> ->] ->].
      apply bind_ok in Hc. destruct Hc as (par & q' & Hn & Hc).
      apply getNode_ok in Hn. destruct Hn as [-> Hn].
      apply modify_ok in Hc. subst q2. simpl in *.
      apply lookup_lt_Some in Hn. rewrite length_app in Hn. simpl in Hn.
      rewrite length_alter, length_app. simpl.
      split; [reflexivity|]. split; [lia|].
      split; [|repeat split; try assumption; discriminate].
      apply switch_child; [|lia]. rewrite <- Ht. apply freshNode_new. rewrite Ht. discriminate. }
  destruct SW as (Hdelta & Hota & (n & Hn & Hfresh) & Hsc2 & Hd2 & Hoi2 & Hoff2 & Hh2).
  assert (E1 : IsSeekable (scanner p1) = IsSeekable (scanner p) /\ deltas p1 = deltas p /\
               oi p1 = oi p /\ oiByOffset p1 = oiByOffset p /\ oiByHash p1 = oiByHash p /\
               nodes p1 = nodes p /\ sc_state (scanner p1) = s1).
  { subst p1. repeat split. }
  destruct E1 as (Hsk1 & Hd1 & Hoi1 & Hoff1 & Hh1 & Hn1 & Hs1).
  apply bind_ok in Hrun. destruct Hrun as ([data crc] & p3 & Hobj & Hrun).
  apply scan_ok in Hobj. destruct Hobj as (s2 & Hobj & Hp3).
  rewrite Hsc2, Hs1 in Hobj.
  apply bind_ok in Hrun. destruct Hrun as ([] & p4 & Hset & Hrun).
  apply modify_ok in Hset.
  destruct Hfresh as (Fo & Fl & Ft & Fd & Fe & Fs & Fp).
  set (n4 := set_Length (oh_Length oh) (set_Crc32 crc n)).
  assert (Hn4 : nodes p4 !! ota = Some n4).
  { subst p4 p3. simpl. rewrite list_lookup_alter, decide_True by reflexivity.
    rewrite Hn. reflexivity. }
  assert (E4 : IsSeekable (scanner p4) = IsSeekable (scanner p) /\ sc_state (scanner p4) = s2 /\
               deltas p4 = deltas p /\ oi p4 = oi p /\ oiByOffset p4 = oiByOffset p /\
               oiByHash p4 = oiByHash p2 /\ length (nodes p4) = length (nodes p2)).
  { subst p4 p3. simpl. rewrite length_alter, Hsc2, Hd2, Hoi2, Hoff2. repeat split; assumption. }
  clear Hset Hp3.
  destruct E4 as (Hsk4 & Hs4 & Hd4 & Hoi4 & Hoff4 & Hh4 & Hlen4).
  apply bind_ok in Hrun. destruct Hrun as ([] & p5 & Hsha & Hrun).
  exists oh, s1, data, crc, s2, ota.
  destruct delta; simpl in Hsha.
  - (* a delta: no hash, no storage *)
    apply ret_ok in Hsha. destruct Hsha as [_ ->].
    apply bind_ok in Hrun. destruct Hrun as (st & q & Hg & Hrun).
    apply gets_ok in Hg. destruct Hg as [-> ->].
    rewrite andb_false_r in Hrun.
    apply bind_ok in Hrun. destruct Hrun as ([] & q & Hr & Hrun).
    apply ret_ok in Hr. destruct Hr as [_ ->].
    apply bind_ok in Hrun. destruct Hrun as (seekable & q & Hg & Hrun).
    apply gets_ok in Hg. destruct Hg as [-> ->].
    apply bind_ok in Hrun. destruct Hrun as ([] & p6 & Hdel & Hrun).
    assert (E6 : nodes p6 = nodes p4 /\ oi p6 = oi p4 /\ oiByOffset p6 = oiByOffset p4 /\
                 scanner p6 = scanner p4 /\
                 (if IsSeekable (scanner p)
                  then deltas p6 = deltas p
                  else exists m, deltas p = Some m /\
                                 deltas p6 = Some (<[oh_Offset oh := data]> m))).
    { rewrite Hsk4 in Hdel. destruct (IsSeekable (scanner p)); simpl in Hdel.
      - apply ret_ok in Hdel. destruct Hdel as [_ ->]. repeat split. exact Hd4.
      - apply bind_ok in Hdel. destruct Hdel as (ds & q & Hg & Hdel).
        apply gets_ok in Hg. destruct Hg as [-> ->].
        destruct (deltas p4) as [m|] eqn:Hm; [|discriminate].
        apply modify_ok in Hdel. subst p6. simpl. repeat split.
        exists m. rewrite <- Hd4. auto. }
    destruct E6 as (Hn6 & Hoi6 & Hoff6 & Hsc6 & Hd6).
    apply bind_ok in Hrun. destruct Hrun as ([] & p7 & Hm & Hrun).
    apply modify_ok in Hm.
    apply bind_ok in Hrun. destruct Hrun as (slots & q & Hg & Hrun).
    apply gets_ok in Hg. destruct Hg as [-> ->].
    destruct (decide (i < length (oi p7))%nat) as [Hi|]; [|discriminate].
    apply modify_ok in Hrun. subst p' p7. simpl in *.
    exists n4. rewrite Hsc6, Hs4, Hoi6, Hoi4, Hoff6, Hoff4, Hn6, Hn4, <- Hdelta, <- Hn1.
    rewrite Hoi6, Hoi4 in Hi.
    repeat (split; [first [assumption | reflexivity | lia]|]).
    exact Hd6.
  - (* a base object: hashed and registered *)
    apply bind_ok in Hsha. destruct Hsha as (o & q & Hg & Hsha).
    apply getNode_ok in Hg. destruct Hg as [-> Hg].
    rewrite Hn4 in Hg. injection Hg as <-.
    apply bind_ok in Hsha. destruct Hsha as (sha1 & q & Hl & Hsha).
    apply liftR_ok in Hl. destruct Hl as [[= <-] ->].
    apply bind_ok in Hsha. destruct Hsha as ([] & q & Hs & Hsha).
    apply modify_ok in Hs. subst q.
    apply modify_ok in Hsha.
    set (n5 := set_SHA1 (ComputeHash (Typ n4) data) n4) in *.
    assert (Hn5 : nodes p5 !! ota = Some n5).
    { subst p5. simpl. rewrite list_lookup_alter, decide_True by reflexivity.
      rewrite Hn4. reflexivity. }
    assert (E5 : IsSeekable (scanner p5) = IsSeekable (scanner p) /\ sc_state (scanner p5) = s2 /\
                 deltas p5 = deltas p /\ oi p5 = oi p /\ oiByOffset p5 = oiByOffset p /\
                 oiByHash p5 = <[ComputeHash (Typ n4) data := ota]> (oiByHash p) /\
                 length (nodes p5) = length (nodes p2)).
    { subst p5. simpl. rewrite length_alter, Hh4, (Hh2 eq_refl), Hh1. repeat split; assumption. }
    clear Hsha.
    destruct E5 as (Hsk5 & Hs5 & Hd5 & Hoi5 & Hoff5 & Hh5 & Hlen5).
    apply bind_ok in Hrun. destruct Hrun as (st & q & Hg & Hrun).
    apply gets_ok in Hg. destruct Hg as [-> ->].
    apply bind_ok in Hrun. destruct Hrun as ([] & p6 & Hst & Hrun).
    assert (E6 : nodes p6 = nodes p5 /\ oi p6 = oi p5 /\ oiByOffset p6 = oiByOffset p5 /\
                 oiByHash p6 = oiByHash p5 /\ scanner p6 = scanner p5 /\ deltas p6 = deltas p5).
    { destruct (negb (isNil (storage p5)) && negb false).
      - apply bind_ok in Hst. destruct Hst as (h & q & Hst & Hr).
        apply ret_ok in Hr. destruct Hr as [_ ->].
        apply storageSetEncodedObject_ok in Hst. destruct Hst as (st & st' & _ & _ & ->).
        repeat split.
      - apply ret_ok in Hst. destruct Hst as [_ ->]. repeat split. }
    destruct E6 as (Hn6 & Hoi6 & Hoff6 & Hh6 & Hsc6 & Hd6).
    apply bind_ok in Hrun. destruct Hrun as (seekable & q & Hg & Hrun).
    apply gets_ok in Hg. destruct Hg as [-> ->].
    apply bind_ok in Hrun. destruct Hrun as ([] & q & Hr & Hrun).
    apply ret_ok in Hr. destruct Hr as [_ ->].
    apply bind_ok in Hrun. destruct Hrun as ([] & p7 & Hm & Hrun).
    apply modify_ok in Hm.
    apply bind_ok in Hrun. destruct Hrun as (slots & q & Hg & Hrun).
    apply gets_ok in Hg. destruct Hg as [-> ->].
    destruct (decide (i < length (oi p7))%nat) as [Hi|]; [|discriminate].
    apply modify_ok in Hrun. subst p' p7. simpl in *.
    exists n5.
    rewrite Hsc6, Hs5, Hoi6, Hoi5, Hoff6, Hoff5, Hn6, Hn5, Hh6, Hh5, Hd6, Hd5, <- Hdelta, <- Hn1.
    rewrite Hoi6, Hoi5 in Hi. simpl. rewrite Ft.
    assert (Hpar : Parent n = None) by (apply Fp; symmetry; exact Hdelta).
    repeat (split; [first [assumption | reflexivity | lia]|]).
    reflexivity.
Qed.

(** X4. A turn of the index loop that succeeds registers one new node
    for the entry: [p.oi[i]] and [p.oiByOffset[oh.Offset]] point at
    it, it carries the header's offset, length and type and the CRC
    that the scanner computed; an object that is not a delta is
    hashed at once and [p.oiByHash] finds it under that hash, a delta
    has the zero hash until it is resolved; the other entries of
    [p.oi] and [p.oiByOffset] are as before. *)
Theorem indexObject_registers_node (i : nat) (p p' : Parser) (oh : ObjectHeader) (s1 : S) :
  sc_NextObjectHeader (sc_state (scanner p)) = (Ok oh, s1) ->
  indexObject i p = (Some (Ok tt), p') ->
  exists id o data crc s2,
    sc_NextObject s1 = (Ok (data, crc), s2) /\
    oi p' !! i = Some (Some id) /\
    oiByOffset p' !! oh_Offset oh = Some id /\
    nodes p' !! id = Some o /\
    (length (nodes p) <= id)%nat /\
    Offset o = oh_Offset oh /\ Length o = oh_Length oh /\ Crc32 o = crc /\
    DiskType o = oh_Type oh /\ Typ o = oh_Type oh /\
    (IsDelta (oh_Type oh) = false ->
       SHA1 o = ComputeHash (oh_Type oh) data /\ oiByHash p' !! SHA1 o = Some id) /\
    (IsDelta (oh_Type oh) = true -> SHA1 o = ZeroHash) /\
    (forall j, j <> i -> oi p' !! j = oi p !! j) /\
    (forall k, k <> oh_Offset oh -> oiByOffset p' !! k = oiByOffset p !! k).
Proof.
  intros Hhdr Hrun. apply indexObject_ok in Hrun.
  destruct Hrun as (oh' & s1' & data & crc & s2 & id & o & Hhdr' & Hobj & _ & Hi & Hoi & Hoff
                    & Hid & Hnode & Fo & Fl & Fc & Fd & Ft & _ & Hkind).
  rewrite Hhdr in Hhdr'. injection Hhdr' as <- <-.
  exists id, o, data, crc, s2.
  split; [exact Hobj|]. split; [rewrite Hoi; apply list_lookup_insert_eq, Hi|].
  split; [rewrite Hoff; apply lookup_insert_eq|].
  split; [exact Hnode|]. split; [lia|].
  repeat (split; [assumption|]).
  split; [|split; [|split]].
  - intros Hnd. rewrite Hnd in Hkind. destruct Hkind as (Hs & Hh & _).
    split; [exact Hs|]. rewrite Hh, Hs. apply lookup_insert_eq.
  - intros Hd. rewrite Hd in Hkind. apply Hkind.
  - intros j Hj. rewrite Hoi. apply list_lookup_insert_ne. congruence.
  - intros k Hk. rewrite Hoff. apply lookup_insert_ne. congruence.
Qed.

(** X5. Over a source that is not seekable, the payload of a delta
    read by the index pass is kept in [p.deltas] under the entry's
    offset, and [readData] on the entry's node gives back these very
    bytes without calling the scanner; over a seekable source the
    index pass puts nothing in [p.deltas]. *)
Theorem readData_returns_indexed_delta (i : nat) (p p' : Parser) (oh : ObjectHeader) (s1 : S) :
  sc_NextObjectHeader (sc_state (scanner p)) = (Ok oh, s1) ->
  IsDelta (oh_Type oh) = true ->
  indexObject i p = (Some (Ok tt), p') ->
  (IsSeekable (scanner p) = false ->
     exists id data crc s2,
       sc_NextObject s1 = (Ok (data, crc), s2) /\
       oi p' !! i = Some (Some id) /\
       cachedDelta p' (oh_Offset oh) = Some data /\
       readData id p' = (Some (Ok data), p')) /\
  (IsSeekable (scanner p) = true -> deltas p' = deltas p).
Proof.
  intros Hhdr Hdelta Hrun.
  pose proof (indexObject_indexing _ _ _ _ Hrun) as (_ & _ & _ & _ & Hsk & _).
  apply indexObject_ok in Hrun.
  destruct Hrun as (oh' & s1' & data & crc & s2 & id & o & Hhdr' & Hobj & _ & Hi & Hoi & _
                    & _ & Hnode & Fo & _ & _ & Fd & _ & _ & Hkind).
  rewrite Hhdr in Hhdr'. injection Hhdr' as <- <-.
  rewrite Hdelta in Hkind. destruct Hkind as [_ Hd].
  split.
  - intros Hns. rewrite Hns in Hd. destruct Hd as (m & Hm & Hm').
    exists id, data, crc, s2.
    split; [exact Hobj|]. split; [rewrite Hoi; apply list_lookup_insert_eq, Hi|].
    assert (Hc : cachedDelta p' (oh_Offset oh) = Some data).
    { unfold cachedDelta. rewrite Hm'. simpl. apply lookup_insert_eq. }
    split; [exact Hc|].
    unfold readData. rewrite (bind_getNode _ _ _ _ Hnode), bind_gets.
    rewrite Hsk, Hns, Fd, Hdelta. simpl. rewrite bind_gets.
    unfold cachedDelta in Hc. rewrite Fo, Hc. reflexivity.
  - intros Hs. rewrite Hs in Hd. exact Hd.
Qed.

(** X6. A REF delta whose base is in the pack (its hash is in
    [p.oiByHash]) is linked to that node: one node is allocated, for
    the delta, with the base as its parent; it is appended to the
    base's children; no placeholder is made and [p.oiByHash] stays as
    it was, whatever the outcome of the turn. *)
Theorem indexObject_REF_delta_base_in_pack
    (p p' : Parser) (i : nat) (oh : ObjectHeader) (s' : S) (base : nat) (par : objectInfo)
    (r : option (result unit)) :
  sc_NextObjectHeader (sc_state (scanner p)) = (Ok oh, s') ->
  oh_Type oh = REFDeltaObject ->
  oiByHash p !! oh_Reference oh = Some base ->
  nodes p !! base = Some par ->
  indexObject i p = (r, p') ->
  exists child par',
    nodes p' !! length (nodes p) = Some child /\
    Parent child = Some base /\
    DiskType child = REFDeltaObject /\
    Offset child = oh_Offset oh /\
    ExternalRef child = false /\
    nodes p' !! base = Some par' /\
    Children par' = Children par ++ [length (nodes p)] /\
    ExternalRef par' = ExternalRef par /\
    length (nodes p') = Datatypes.S (length (nodes p)) /\
    oiByHash p' = oiByHash p.
Proof.
  intros Hhdr Htype Hbase Hpar Hrun.
  unfold indexObject in Hrun.
  rewrite (bind_run _ _ _ _ _ (scan_run _ _ _ _ Hhdr)) in Hrun.
  rewrite Htype in Hrun.
  set (p1 := set_scanner {| IsSeekable := IsSeekable (scanner p); sc_state := s' |} p) in *.
  set (child := newDeltaObject (oh_Offset oh) (oh_Length oh) REFDeltaObject (Some base)).
  set (pa := set_nodes (alter (add_Child (length (nodes p))) base (nodes p ++ [child])) p1).
  erewrite (bind_run _ _ p1 pa (true, length (nodes p))) in Hrun.
  2:{ unfold bind, gets, alloc, appendChild, bind, getNode, setNode, modify, ret. simpl.
      rewrite Hbase. simpl.
      rewrite (lookup_app_l_Some _ _ _ _ Hpar). reflexivity. }
  match type of Hrun with
  | ?tail _ = _ => assert (Hresp : respects linked tail)
  end.
  { linked_tac. }
  destruct (Hresp _ _ _ Hrun) as [Hh Hn].
  assert (Hlen : (base < length (nodes p))%nat) by (eapply lookup_lt_Some, Hpar).
  assert (Hc : nodes pa !! length (nodes p) = Some child).
  { unfold pa. simpl. rewrite list_lookup_alter_ne by lia.
    rewrite lookup_app_r by lia. rewrite Nat.sub_diag. reflexivity. }
  assert (Hp : nodes pa !! base = Some (add_Child (length (nodes p)) par)).
  { unfold pa. simpl. rewrite list_lookup_alter. rewrite decide_True by reflexivity.
    rewrite (lookup_app_l_Some _ _ _ _ Hpar). reflexivity. }
  destruct (Forall2_lookup_l _ _ _ _ _ Hn Hc) as (child' & Hc' & Hs1).
  destruct (Forall2_lookup_l _ _ _ _ _ Hn Hp) as (par' & Hp' & Hs2).
  destruct Hs1 as (Ho1 & _ & Hd1 & He1 & Hpa1 & _).
  destruct Hs2 as (_ & _ & _ & He2 & _ & Hch2 & _).
  exists child', par'. repeat split; try assumption.
  - rewrite <- (Forall2_length _ _ _ Hn). unfold pa. simpl.
    rewrite length_alter, length_app. simpl. lia.
Qed.


(** ** The index pass as a whole *)

Lemma indexFrom_fills n : forall i (p p' : Parser),
  indexFrom n i p = (Some (Ok tt), p') ->
  (length (nodes p) <= length (nodes p'))%nat /\
  exists ids,
    length ids = n /\
    oi p' = take i (oi p) ++ (Some <$> ids) ++ drop (i + n) (oi p) /\
    (n = 0%nat \/ (i + n <= length (oi p))%nat) /\
    (forall j k a b, (j < k)%nat -> ids !! j = Some a -> ids !! k = Some b -> (a < b)%nat) /\
    Forall (fun id => (length (nodes p) <= id < length (nodes p'))%nat) ids.
Proof.
  induction n as [|n IH]; intros i p p' Hrun.
  - apply ret_ok in Hrun. destruct Hrun as [_ ->].
    split; [lia|]. exists []. simpl. rewrite Nat.add_0_r, take_drop.
    repeat split; auto; try constructor. intros j k a b _ Hj. destruct j; discriminate.
  - simpl in Hrun. apply bind_ok in Hrun. destruct Hrun as ([] & p1 & Hone & Hrest).
    apply indexObject_ok in Hone.
    destruct Hone as (oh & s1 & data & crc & s2 & id & o & _ & _ & _ & Hi & Hoi & _ & Hid & _).
    destruct (IH _ _ _ Hrest) as (Hlen & ids & Hn & Hoi' & Hfit & Hsorted & Hall).
    split; [lia|]. exists (id :: ids).
    assert (Hlen1 : length (oi p1) = length (oi p)) by (rewrite Hoi; apply length_insert).
    split; [simpl; lia|]. split; [|split; [|split]].
    + rewrite Hoi', Hoi.
      rewrite (take_S_r _ _ (Some id)) by (apply list_lookup_insert_eq, Hi).
      rewrite take_insert_ge by lia.
      rewrite drop_insert_lt by lia.
      rewrite <- app_assoc. simpl.
      replace (i + Datatypes.S n)%nat with (Datatypes.S i + n)%nat by lia. reflexivity.
    + right. destruct Hfit as [-> | Hfit]; lia.
    + intros [|j] [|k] a b Hjk Hj Hk; try lia; simpl in Hj, Hk.
      * injection Hj as <-.
        pose proof (proj1 (Forall_lookup _ _) Hall _ _ Hk) as Hb. simpl in Hb. lia.
      * apply (Hsorted j k); [lia|assumption|assumption].
    + constructor; [lia|].
      eapply Forall_impl; [exact Hall|]. simpl. intros x Hx. lia.
Qed.

(** X21. When the header was read and the index pass went through,
    every slot of [p.oi] is filled: [p.oi] has [count] entries, none
    of them nil, each with a node of its own that this pass
    allocated, later entries with later nodes; so the loop of
    [resolveDeltas] never meets a nil entry. *)
Theorem indexObjects_fills_every_slot (p p1 p2 : Parser) :
  init p = (Some (Ok tt), p1) ->
  indexObjects p1 = (Some (Ok tt), p2) ->
  exists ids,
    oi p2 = Some <$> ids /\
    length ids = N.to_nat (count p2) /\
    (forall j k a b, (j < k)%nat -> ids !! j = Some a -> ids !! k = Some b -> (a < b)%nat) /\
    Forall (fun id => (length (nodes p) <= id < length (nodes p2))%nat) ids.
Proof.
  intros Hinit Hindex.
  pose proof (indexObjects_indexing _ _ _ Hindex) as (_ & _ & Hcount & _).
  apply init_ok in Hinit.
  destruct Hinit as (version & c & _ & Hc & Hoi & _ & _ & _ & Hnodes & _).
  unfold indexObjects in Hindex. rewrite bind_gets, Hc in Hindex.
  destruct (indexFrom_fills _ _ _ _ Hindex) as (_ & ids & Hn & Hoi' & _ & Hsorted & Hall).
  exists ids. rewrite Hoi in Hoi'. simpl in Hoi'.
  rewrite drop_ge in Hoi' by (rewrite length_replicate; lia).
  rewrite app_nil_r in Hoi'.
  split; [exact Hoi'|]. split; [rewrite Hcount, Hc; exact Hn|].
  split; [exact Hsorted|]. rewrite <- Hnodes. exact Hall.
Qed.

(** ** What [Parse] returns *)

Lemma resolveDeltas_untouched : respects untouched resolveDeltas.
Proof.
  apply (respects_bind untouched untouched_trans); [|intros objs].
  - apply (respects_gets untouched untouched_refl).
  - apply resolveEach_untouched.
Qed.

(** X26. The hash that a successful [Parse()] returns is the one
    that the scanner's [Checksum()] gave once the header and all the
    objects were read, whether [Checksum()] reported no error or
    [io.EOF]; it is also what [p.checksum] holds when [Parse()]
    returns. *)
Theorem Parse_returns_trailer_checksum (p p' : Parser) (sum : Hash) :
  Parse p = (Some (Ok sum), p') ->
  exists p1 p2,
    init p = (Some (Ok tt), p1) /\
    indexObjects p1 = (Some (Ok tt), p2) /\
    sum = fst (fst (sc_Checksum (sc_state (scanner p2)))) /\
    (snd (fst (sc_Checksum (sc_state (scanner p2)))) = None \/
     snd (fst (sc_Checksum (sc_state (scanner p2)))) = Some EOF) /\
    checksum p' = sum.
Proof.
  intros Hrun. apply Parse_ok in Hrun.
  destruct Hrun as (p1 & p2 & p3 & p4 & Hinit & Hindex & Hck & Hres & Hsum & Hfoot).
  exists p1, p2. split; [exact Hinit|]. split; [exact Hindex|].
  assert (H4 : checksum p4 = checksum p3).
  { destruct (resolveDeltas_untouched _ _ _ Hres) as (_ & _ & _ & _ & _ & Hc & _). exact Hc. }
  assert (H5 : checksum p' = checksum p4).
  { unfold onEvent in Hfoot.
    destruct (forEachObserver 0 (ob p4) (EvFooter sum) (calls p4)) as [err past'].
    injection Hfoot as _ <-. reflexivity. }
  unfold readChecksum, bind, scan, modify in Hck.
  destruct (sc_Checksum (sc_state (scanner p2))) as [[sum' err] s'] eqn:Hsc. simpl in *.
  destruct err as [e|].
  - destruct (bool_decide (e = EOF)) eqn:He; [|discriminate].
    apply bool_decide_eq_true_1 in He. subst e.
    injection Hck as <-. simpl in *.
    repeat split; [congruence|right; reflexivity|congruence].
  - injection Hck as <-. simpl in *.
    repeat split; [congruence|left; reflexivity|congruence].
Qed.

End Proofs.

(** ** The theorems at work on the packs of the scenarios *)

Section Scenarios.
Import Doubles.
#[local] Existing Instances listScanner memStorer mapCache codec.

Lemma allAccept_quiet : allAccept [quiet].
Proof. constructor; [|constructor]. intros past []; reflexivity. Qed.

Lemma readsThinPack_packS3 :
  readsThinPack packS3 (e_header refEntry) helloDelta 7654321%N
    (at_entry packS3 1).
Proof.
  exists 2%N, packS3, packS3, 3735928559%N, (at_entry packS3 1), None.
  repeat split; try reflexivity. left. reflexivity.
Qed.

(** S1 over a non-seekable source, with a storage and two observers:
    both receive the header, two pairs and the footer.  S1 with an
    observer whose [OnInflatedObjectContent] refuses the object at
    offset 27: the tenth callback is that one, and its error is what
    [Parse] returns. *)
Lemma Parse_observer_contract_witness :
  (exists pairs,
     length pairs = 2%nat /\
     forall j, (j < 2)%nat ->
       received j (calls (snd (Parse (newParser false packS1 (Some []) [quiet; quiet]))))
       = EvHeader 2 :: concat pairs ++ [EvFooter 1234567%N]) /\
  (fst (Parse (newParser true packS1 None [quiet; refusing 27]))
   = Some (Err (ErrOther "refused")) /\
   length (calls (snd (Parse (newParser true packS1 None [quiet; refusing 27])))) = 10%nat).
Proof.
  split.
  - destruct (Parse_observer_contract
                (newParser false packS1 (Some []) [quiet; quiet])
                (snd (Parse (newParser false packS1 (Some []) [quiet; quiet])))
                (Some (Ok 1234567%N)))
      as (Hok & _ & _).
    + reflexivity.
    + vm_compute. reflexivity.
    + destruct (Hok _ eq_refl) as (version & c & ids & pairs & Hh & Hlen & _ & _ & Hrecv).
      injection Hh as _ <-.
      exists pairs. split; [exact Hlen|exact Hrecv].
  - destruct (Parse_observer_contract
                (newParser true packS1 None [quiet; refusing 27])
                (snd (Parse (newParser true packS1 None [quiet; refusing 27])))
                (fst (Parse (newParser true packS1 None [quiet; refusing 27]))))
      as (_ & _ & _ & _ & Hstop).
    + reflexivity.
    + apply surjective_pairing.
    + apply (Hstop 9%nat
               (default (told 0 (EvHeader 0))
                  (calls (snd (Parse (newParser true packS1 None [quiet; refusing 27])))
                     !! 9%nat))
               (refusing 27) (ErrOther "refused")).
      * vm_compute. reflexivity.
      * vm_compute. reflexivity.
      * vm_compute. reflexivity.
Defined.

(** S1 with an observer that refuses the content of the second
    object: [Parse] returns its error, and the refused call is the
    last one made. *)
Example Parse_stops_at_refusal :
  let run := Parse (newParser true packS1 None [quiet; refusing 27]) in
  fst run = Some (Err (ErrOther "refused")) /\
  c_error <$> last (calls (snd run)) = Some (Some (ErrOther "refused")) /\
  length (calls (snd run)) = 10%nat.
Proof. vm_compute. repeat split. Qed.

(** S3: without a storage the thin pack is refused, with a storage
    that holds the base it is parsed.  The same for [packThin], where
    the REF delta is the second of three objects and has a child. *)
Lemma thin_pack_needs_storage_witness :
  fst (Parse (newParser true packS3 None [quiet])) = Some (Err ErrReferenceDeltaNotFound) /\
  fst (Parse (newParser false packS3 (Some [(helloHash, helloObject)]) [quiet]))
    = Some (Ok 7654321%N) /\
  fst (Parse (newParser true packThin None [quiet])) = Some (Err ErrReferenceDeltaNotFound) /\
  fst (Parse (newParser false packThin (Some [(outerHash, outerObject)]) [quiet]))
    = Some (Ok 2468642%N).
Proof.
  split; [|split; [|split]].
  - refine (proj1 (proj1 (proj2 thin_pack_needs_storage)
                     {| IsSeekable := true; sc_state := packS3 |} [quiet]
                     (e_header refEntry) helloDelta 7654321%N (at_entry packS3 1)
                     readsThinPack_packS3 allAccept_quiet eq_refl) _ _).
    reflexivity.
  - refine (proj2 (proj1 (proj2 thin_pack_needs_storage)
                     {| IsSeekable := false; sc_state := packS3 |} [quiet]
                     (e_header refEntry) helloDelta 7654321%N (at_entry packS3 1)
                     readsThinPack_packS3 allAccept_quiet eq_refl)
              _ [(helloHash, helloObject)] helloObject [(helloHash, helloObject)]
              hello helloWorld (toyHash BlobObject helloWorld)
              ((toyHash BlobObject helloWorld, newMemoryObject 13 BlobObject helloWorld)
                 :: [(helloHash, helloObject)])
              _ _ _ _ _ _).
    + vm_compute. reflexivity.
    + reflexivity.
    + discriminate.
    + vm_compute. reflexivity.
    + vm_compute. reflexivity.
    + reflexivity.
  - set (p := newParser true packThin None [quiet]).
    refine (proj1 (proj2 (proj2 thin_pack_needs_storage))
              p (snd (init p)) (snd (indexObjects (snd (init p)))) (indexed p) (resolved 1 p)
              [Some 0%nat] 2%nat [Some 3%nat] 1%nat thinNode thinPlaceholder
              _ _ _ _ _ _ _ _).
    + reflexivity.
    + vm_compute. reflexivity.
    + vm_compute. reflexivity.
    + vm_compute. reflexivity.
    + vm_compute. repeat split.
    + vm_compute. reflexivity.
    + vm_compute. reflexivity.
    + vm_compute. reflexivity.
  - set (p := newParser false packThin (Some [(outerHash, outerObject)]) [quiet]).
    set (st := [(helloHash, helloObject); (outerHash, outerObject)]).
    destruct (proj2 (proj2 (proj2 thin_pack_needs_storage))
                p (snd (init p)) (snd (indexObjects (snd (init p)))) (indexed p) (resolved 1 p)
                [Some 0%nat] 2%nat [Some 3%nat] 1%nat thinNode thinPlaceholder
                st outerObject st outer helloDelta outerPatched (toyHash BlobObject outerPatched)
                ((toyHash BlobObject outerPatched, newMemoryObject 13 BlobObject outerPatched) :: st))
      as (q1 & o1 & Hget & _ & _ & _ & _ & _ & Hparse).
    + vm_compute. reflexivity.
    + vm_compute. reflexivity.
    + vm_compute. reflexivity.
    + vm_compute. reflexivity.
    + vm_compute. reflexivity.
    + vm_compute. repeat split.
    + vm_compute. repeat split.
    + vm_compute. reflexivity.
    + vm_compute. reflexivity.
    + vm_compute. reflexivity.
    + vm_compute. reflexivity.
    + vm_compute. reflexivity.
    + vm_compute. reflexivity.
    + vm_compute. reflexivity.
    + assert (Hq1 : q1 = snd (getObject 2 (resolved 1 p))) by (rewrite Hget; reflexivity).
      subst q1.
      refine (Hparse (snd (bind (afterGet 2 outerPatched) (fun _ => resolveEach [Some 3%nat])
                             (snd (getObject 2 (resolved 1 p))))) _ _).
      * vm_compute. reflexivity.
      * vm_compute. reflexivity.
Defined.

Lemma NewParserWithStorage_needs_seek_or_storage_witness :
  NewParserWithStorage {| IsSeekable := false; sc_state := packS1 |} (None : option MemStorage) [quiet]
    = Err ErrNotSeekableSource /\
  exists p : @Parser Pack MemStorage MapCache,
    NewParserWithStorage {| IsSeekable := false; sc_state := packS1 |} (Some ([] : MemStorage)) [quiet] = Ok p /\
    deltas p = Some ∅.
Proof.
  split.
  - apply (proj1 (NewParserWithStorage_needs_seek_or_storage
                    {| IsSeekable := false; sc_state := packS1 |} None [quiet]));
      reflexivity.
  - destruct (proj2 (NewParserWithStorage_needs_seek_or_storage
                       {| IsSeekable := false; sc_state := packS1 |}
                       (Some ([] : MemStorage)) [quiet]))
      as (p & Hp & _ & _ & _ & Hd & _).
    + right. discriminate.
    + exists p. split; [exact Hp|]. apply Hd. reflexivity.
Defined.

(** The pack whose second entry is an OFS delta against offset 13,
    where no object starts, is refused; in S1 the delta at offset 27
    becomes the only child of the blob at offset 12. *)
Lemma indexObjects_OFS_delta_base_witness :
  fst (Parse (newParser true packDangling None [quiet])) = Some (Err ErrObjectNotFound) /\
  exists child par',
    nodes (snd (indexFrom 2 0 (snd (init (newParser true packS1 None [quiet]))))) !! 1%nat
      = Some child /\
    Parent child = Some 0%nat /\
    nodes (snd (indexFrom 2 0 (snd (init (newParser true packS1 None [quiet]))))) !! 0%nat
      = Some par' /\
    Children par' = [1%nat].
Proof.
  split.
  - refine (proj1 indexObjects_OFS_delta_base
              (newParser true packDangling None [quiet])
              (snd (init (newParser true packDangling None [quiet])))
              (snd (indexFrom 1 0 (snd (init (newParser true packDangling None [quiet])))))
              1%nat (e_header danglingEntry) (at_entry packDangling 1) _ _ _ _ _ _).
    + vm_compute. reflexivity.
    + vm_compute. lia.
    + vm_compute. reflexivity.
    + vm_compute. reflexivity.
    + reflexivity.
    + vm_compute. reflexivity.
  - destruct (proj2 indexObjects_OFS_delta_base
                (snd (indexFrom 1 0 (snd (init (newParser true packS1 None [quiet])))))
                (snd (indexFrom 2 0 (snd (init (newParser true packS1 None [quiet])))))
                1%nat (e_header ofsEntry) (at_entry packS1 1) 0%nat
                (set_SHA1 (toyHash BlobObject hello)
                   (set_Crc32 907060870%N (newBaseObject 12 6 BlobObject)))
                (Some (Ok tt)))
      as (child & par' & Hc & Hp & _ & _ & Hpar & Hch).
    + vm_compute. reflexivity.
    + reflexivity.
    + vm_compute. reflexivity.
    + vm_compute. reflexivity.
    + vm_compute. reflexivity.
    + exists child, par'. repeat split; assumption.
Defined.

(** In the chain of two deltas over a non-seekable source, the turn
    of the loop for the delta at offset 27, which has a child, drops
    its payload. *)
Lemma resolveDeltas_drops_delta_with_children_witness :
  cachedDelta (resolved 2 (newParser false packChain (Some []) [quiet])) 27 = None /\
  cachedDelta (snd (resolveDeltas (indexed (newParser false packChain (Some []) [quiet])))) 45
  = cachedDelta (indexed (newParser false packChain (Some []) [quiet])) 45.
Proof.
  split.
  - refine (proj1 resolveDeltas_drops_delta_with_children
              (resolved 1 (newParser false packChain (Some []) [quiet]))
              (resolved 2 (newParser false packChain (Some []) [quiet]))
              1%nat chainMiddle _ _ _ _ _ _).
    + vm_compute. reflexivity.
    + reflexivity.
    + vm_compute. reflexivity.
    + reflexivity.
    + reflexivity.
    + discriminate.
  - apply (proj2 (proj2 resolveDeltas_drops_delta_with_children)).
    + vm_compute. reflexivity.
    + intros [|[|[|id]]] o; vm_compute; intros [= <-]; try discriminate. reflexivity.
Defined.

(** C6, as stated, fails: S1 over a non-seekable source.  When
    [resolveDeltas] is done, the node of the OFS delta at offset 27,
    which has no child, still has its payload in [p.deltas]. *)
Lemma resolveDeltas_keeps_delta_without_children :
  let p := indexed (newParser false packS1 (Some []) [quiet]) in
  IsSeekable (scanner p) = false /\
  fst (resolveDeltas p) = Some (Ok tt) /\
  exists o,
    oi (snd (resolveDeltas p)) !! 1%nat = Some (Some 1%nat) /\
    nodes (snd (resolveDeltas p)) !! 1%nat = Some o /\
    DiskType o = OFSDeltaObject /\
    Offset o = 27 /\
    cachedDelta (snd (resolveDeltas p)) (Offset o) = Some helloDelta.
Proof.
  vm_compute. repeat split. eexists. repeat split.
Qed.
#[local] Existing Instance damagedScanner.

(** S1 with its trailer unreadable: [Parse] fails with the error of
    [Checksum()], and the two observers received [OnHeader(2)] only. *)
Lemma Parse_stops_at_checksum_error_witness :
  fst (Parse (newDamagedParser packS1 [quiet; quiet])) = Some (Err (ErrOther "unexpected EOF")) /\
  checksum (snd (Parse (newDamagedParser packS1 [quiet; quiet]))) = ZeroHash /\
  forall j, (j < 2)%nat ->
    received j (calls (snd (Parse (newDamagedParser packS1 [quiet; quiet])))) = [EvHeader 2].
Proof.
  refine (proj1 (Parse_stops_at_checksum_error
                   (newDamagedParser packS1 [quiet; quiet])
                   (snd (init (newDamagedParser packS1 [quiet; quiet])))
                   (snd (indexObjects (snd (init (newDamagedParser packS1 [quiet; quiet])))))
                   ZeroHash (ErrOther "unexpected EOF")
                   {| dm_pack := at_entry packS1 2 |} _ _ _ _) _).
  - reflexivity.
  - vm_compute. reflexivity.
  - vm_compute. reflexivity.
  - vm_compute. reflexivity.
  - discriminate.
Defined.

(** The first turn of the index loop on S1 registers the blob at
    offset 12. *)
Lemma indexObject_registers_node_witness :
  exists id o data crc s2,
    sc_NextObject (at_entry packS1 0) = (Ok (data, crc), s2) /\
    oi (snd (indexObject 0 (snd (init (newParser true packS1 None [quiet]))))) !! 0%nat
      = Some (Some id) /\
    oiByOffset (snd (indexObject 0 (snd (init (newParser true packS1 None [quiet]))))) !! 12
      = Some id /\
    nodes (snd (indexObject 0 (snd (init (newParser true packS1 None [quiet]))))) !! id = Some o /\
    SHA1 o = toyHash BlobObject data /\
    oiByHash (snd (indexObject 0 (snd (init (newParser true packS1 None [quiet]))))) !! SHA1 o
      = Some id.
Proof.
  destruct (indexObject_registers_node 0
              (snd (init (newParser true packS1 None [quiet])))
              (snd (indexObject 0 (snd (init (newParser true packS1 None [quiet])))))
              (e_header blobEntry) (at_entry packS1 0))
    as (id & o & data & crc & s2 & Hobj & Hoi & Hoff & Hnode & _ & _ & _ & _ & _ & _ & Hbase & _).
  - vm_compute. reflexivity.
  - vm_compute. reflexivity.
  - destruct (Hbase eq_refl) as [Hs Hh].
    exists id, o, data, crc, s2. repeat split; assumption.
Defined.

(** The second turn of the index loop on S1 over a source that is not
    seekable keeps the delta's payload, and [readData] returns it. *)
Lemma readData_returns_indexed_delta_witness :
  exists id data crc s2,
    sc_NextObject (at_entry packS1 1) = (Ok (data, crc), s2) /\
    oi (snd (indexFrom 2 0 (snd (init (newParser false packS1 (Some []) [quiet]))))) !! 1%nat
      = Some (Some id) /\
    cachedDelta (snd (indexFrom 2 0 (snd (init (newParser false packS1 (Some []) [quiet]))))) 27
      = Some data /\
    readData id (snd (indexFrom 2 0 (snd (init (newParser false packS1 (Some []) [quiet])))))
      = (Some (Ok data), snd (indexFrom 2 0 (snd (init (newParser false packS1 (Some []) [quiet]))))).
Proof.
  refine (proj1 (readData_returns_indexed_delta 1
                   (snd (indexFrom 1 0 (snd (init (newParser false packS1 (Some []) [quiet])))))
                   (snd (indexFrom 2 0 (snd (init (newParser false packS1 (Some []) [quiet])))))
                   (e_header ofsEntry) (at_entry packS1 1) _ _ _) _).
  - vm_compute. reflexivity.
  - reflexivity.
  - vm_compute. reflexivity.
  - reflexivity.
Defined.

(** S2: the REF delta at offset 27 becomes the only child of the blob
    it names, and no placeholder is made. *)
Lemma indexObject_REF_delta_base_in_pack_witness :
  exists child par',
    nodes (snd (indexFrom 2 0 (snd (init (newParser true packS2 None [quiet]))))) !! 1%nat
      = Some child /\
    Parent child = Some 0%nat /\
    nodes (snd (indexFrom 2 0 (snd (init (newParser true packS2 None [quiet]))))) !! 0%nat
      = Some par' /\
    Children par' = [1%nat] /\
    length (nodes (snd (indexFrom 2 0 (snd (init (newParser true packS2 None [quiet])))))) = 2%nat.
Proof.
  destruct (indexObject_REF_delta_base_in_pack
              (snd (indexFrom 1 0 (snd (init (newParser true packS2 None [quiet])))))
              (snd (indexFrom 2 0 (snd (init (newParser true packS2 None [quiet])))))
              1%nat (e_header refInPackEntry) (at_entry packS2 1) 0%nat
              (set_SHA1 (toyHash BlobObject hello)
                 (set_Crc32 907060870%N (newBaseObject 12 6 BlobObject)))
              (Some (Ok tt)))
    as (child & par' & Hc & Hp & _ & _ & _ & Hpar & Hch & _ & Hlen & _).
  - vm_compute. reflexivity.
  - reflexivity.
  - vm_compute. reflexivity.
  - vm_compute. reflexivity.
  - vm_compute. reflexivity.
  - exists child, par'. repeat split; assumption.
Defined.


(** The index pass over S1, blob and delta: two slots, two nodes. *)
Lemma indexObjects_fills_every_slot_witness :
  exists ids,
    oi (snd (indexObjects (snd (init (newParser true packS1 None [quiet]))))) = Some <$> ids /\
    length ids = 2%nat /\
    forall j k a b, (j < k)%nat -> ids !! j = Some a -> ids !! k = Some b -> (a < b)%nat.
Proof.
  destruct (indexObjects_fills_every_slot
              (newParser true packS1 None [quiet])
              (snd (init (newParser true packS1 None [quiet])))
              (snd (indexObjects (snd (init (newParser true packS1 None [quiet]))))))
    as (ids & Hoi & Hlen & Hsorted & _).
  - vm_compute. reflexivity.
  - vm_compute. reflexivity.
  - exists ids. split; [exact Hoi|]. split; [exact Hlen|exact Hsorted].
Defined.

(** [Parse] over S1 returns the checksum of the trailer of S1. *)
Lemma Parse_returns_trailer_checksum_witness :
  exists p1 p2,
    init (newParser true packS1 None [quiet]) = (Some (Ok tt), p1) /\
    indexObjects p1 = (Some (Ok tt), p2) /\
    1234567%N = fst (fst (sc_Checksum (sc_state (scanner p2)))) /\
    (snd (fst (sc_Checksum (sc_state (scanner p2)))) = None \/
     snd (fst (sc_Checksum (sc_state (scanner p2)))) = Some EOF) /\
    checksum (snd (Parse (newParser true packS1 None [quiet]))) = 1234567%N.
Proof.
  apply (Parse_returns_trailer_checksum (newParser true packS1 None [quiet])
           (snd (Parse (newParser true packS1 None [quiet]))) 1234567%N).
  vm_compute. reflexivity.
Defined.

End Scenarios.

End PackfileProofs.


(* ===================================================================== *)
(** * Properties of x/gitService/msgs.go                                  *)
(* ===================================================================== *)

Module GitServiceProofs.
Import Plumbing GitService.

(** C10. For every command [c]: [Action] is [InvalidAction] iff both
    hashes are zero, [CreateAction] iff only [Old] is zero,
    [DeleteAction] iff only [New] is zero, [UpdateAction] iff neither is
    zero; and [validate] returns an error exactly when [Action] is
    [InvalidAction]. *)
Theorem Action_classifies (c : UpdateReferenceCommand) :
  (Action c = InvalidAction <-> Old c = ZeroHash /\ New c = ZeroHash) /\
  (Action c = CreateAction <-> Old c = ZeroHash /\ New c <> ZeroHash) /\
  (Action c = DeleteAction <-> Old c <> ZeroHash /\ New c = ZeroHash) /\
  (Action c = UpdateAction <-> Old c <> ZeroHash /\ New c <> ZeroHash) /\
  (validate c <> None <-> Action c = InvalidAction).
Proof.
  unfold validate, Action.
  destruct (N.eqb_spec (Old c) ZeroHash) as [Ho|Ho];
    destruct (N.eqb_spec (New c) ZeroHash) as [Hn|Hn]; simpl;
    repeat split; intros; try tauto; try discriminate; try congruence;
    destruct_and?; try tauto; try congruence.
Qed.

(** ** The messages *)

Lemma length_zero_empty (s : string) : (String.length s =? 0)%nat = true <-> s = ""%string.
Proof. destruct s; simpl; split; intros; congruence. Qed.

Lemma length_zero_nil {A} (l : list A) : (length l =? 0)%nat = true <-> l = [].
Proof. destruct l; simpl; split; intros; congruence. Qed.

Lemma ValidateBasic_nil_iff
    (Empty : AccAddress -> bool) (AddressString : AccAddress -> string)
    (msg : MsgUpdateReferences) :
  ValidateBasic Empty AddressString msg = None <->
  Empty (Author msg) = false /\ URI msg <> ""%string /\ Commands msg <> [].
Proof.
  unfold ValidateBasic.
  destruct (Empty (Author msg)); [split; [discriminate|intros [[=] _]]|].
  destruct (String.length (URI msg) =? 0)%nat eqn:Hu.
  - apply length_zero_empty in Hu. split; [discriminate|]. intros (_ & Hne & _). contradiction.
  - destruct (length (Commands msg) =? 0)%nat eqn:Hc.
    + apply length_zero_nil in Hc. split; [discriminate|]. intros (_ & _ & Hne). contradiction.
    + split; [|reflexivity]. intros _. split; [reflexivity|].
      split; intros Heq.
      * apply length_zero_empty in Heq. congruence.
      * apply length_zero_nil in Heq. congruence.
Qed.

(** X11. [MsgUpdateReferences.ValidateBasic] checks presence only: it
    returns nil exactly when the author is not empty, the URI is not
    the empty string and there is at least one command; an empty
    author is reported first, as an invalid address, whatever the
    other fields are; and the commands themselves are never looked
    at, nor the shallow hash, nor the pack: any other non-empty list
    of commands gets the same answer. *)
Theorem ValidateBasic_checks_presence_only
    (Empty : AccAddress -> bool) (AddressString : AccAddress -> string)
    (msg : MsgUpdateReferences) :
  (ValidateBasic Empty AddressString msg = None <->
     Empty (Author msg) = false /\ URI msg <> ""%string /\ Commands msg <> []) /\
  (Empty (Author msg) = true ->
     ValidateBasic Empty AddressString msg
     = Some (ErrInvalidAddress (AddressString (Author msg)))) /\
  (forall cmds shallow packfile,
     cmds <> [] -> Commands msg <> [] ->
     ValidateBasic Empty AddressString
       {| URI := URI msg; Author := Author msg; Commands := cmds;
          Shallow := shallow; Packfile := packfile |}
     = ValidateBasic Empty AddressString msg).
Proof.
  split; [apply ValidateBasic_nil_iff|]. unfold ValidateBasic. split.
  - intros ->. reflexivity.
  - intros cmds shallow packfile Hcmds Hmsg. simpl.
    destruct (Empty (Author msg)); [reflexivity|].
    destruct (String.length (URI msg) =? 0)%nat; [reflexivity|].
    destruct (length cmds =? 0)%nat eqn:H1; [apply length_zero_nil in H1; contradiction|].
    destruct (length (Commands msg) =? 0)%nat eqn:H2; [apply length_zero_nil in H2; contradiction|].
    reflexivity.
Qed.

Lemma copyCommands_app cmds : forall acc,
  copyCommands (Some <$> cmds) acc
  = Ok (acc ++ ((fun c => Some {| Name := cmd_Name c; Old := cmd_Old c; New := cmd_New c |})
                  <$> cmds)).
Proof.
  induction cmds as [|c cmds IH]; intros acc; simpl.
  - rewrite app_nil_r. reflexivity.
  - rewrite IH, <- app_assoc. reflexivity.
Qed.

Lemma copyCommands_nil pre post : forall acc,
  copyCommands ((Some <$> pre) ++ None :: post) acc
  = Panic "invalid memory address or nil pointer dereference".
Proof. induction pre as [|c pre IH]; intros acc; simpl; [reflexivity|apply IH]. Qed.

(** X12. [NewMsgUpdateReferences] copies the request's commands in
    their order, name and both hashes of each, and the URI, author,
    shallow hash and pack as given; it returns the message together
    with what [ValidateBasic] says of it, which is nil exactly when
    author and URI are not empty and the request has a command: the
    commands are not validated, so one with both hashes zero goes
    through.  A nil pointer among the request's commands makes it
    panic. *)
Theorem NewMsgUpdateReferences_copies_request
    (Empty : AccAddress -> bool) (AddressString : AccAddress -> string)
    (uri : string) (cmds : list Command) (shallow : option Hash)
    (packfile : bytes) (author : AccAddress) :
  (exists msg,
     NewMsgUpdateReferences Empty AddressString uri
       {| req_Commands := Some <$> cmds; req_Shallow := shallow |} packfile author
     = Ok (msg, ValidateBasic Empty AddressString msg) /\
     URI msg = uri /\ Author msg = author /\ Shallow msg = shallow /\ Packfile msg = packfile /\
     Commands msg
     = (fun c => Some {| Name := cmd_Name c; Old := cmd_Old c; New := cmd_New c |}) <$> cmds /\
     (ValidateBasic Empty AddressString msg = None <->
        Empty author = false /\ uri <> ""%string /\ cmds <> [])) /\
  (forall post,
     NewMsgUpdateReferences Empty AddressString uri
       {| req_Commands := (Some <$> cmds) ++ None :: post; req_Shallow := shallow |}
       packfile author
     = Panic "invalid memory address or nil pointer dereference").
Proof.
  split.
  - unfold NewMsgUpdateReferences. simpl. rewrite copyCommands_app. simpl.
    eexists. split; [reflexivity|]. simpl. repeat (split; [reflexivity|]).
    pose proof (ValidateBasic_nil_iff Empty AddressString
                  {| URI := uri; Author := author;
                     Commands := (fun c => Some {| Name := cmd_Name c; Old := cmd_Old c;
                                                   New := cmd_New c |}) <$> cmds;
                     Shallow := shallow; Packfile := packfile |}) as Hiff.
    simpl in Hiff. rewrite Hiff. split; intros (Ha & Hu & Hc); repeat split; try assumption.
    + intros ->. apply Hc. reflexivity.
    + intros Hn. apply Hc. destruct cmds; [reflexivity|discriminate].
  - intros post. unfold NewMsgUpdateReferences. simpl. rewrite copyCommands_nil. reflexivity.
Qed.

(** X13. [NewMsgRemoveRepository] returns the message with the URI
    and author given, together with what [ValidateBasic] says of it:
    nil exactly when neither is empty, an invalid address when the
    author is empty, whatever the URI. *)
Theorem NewMsgRemoveRepository_checks_presence
    (Empty : AccAddress -> bool) (AddressString : AccAddress -> string)
    (uri : string) (author : AccAddress) :
  fst (NewMsgRemoveRepository Empty AddressString uri author)
    = {| rm_URI := uri; rm_Author := author |} /\
  (snd (NewMsgRemoveRepository Empty AddressString uri author) = None <->
     Empty author = false /\ uri <> ""%string) /\
  (Empty author = true ->
     snd (NewMsgRemoveRepository Empty AddressString uri author)
     = Some (ErrInvalidAddress (AddressString author))) /\
  (Empty author = false -> uri = ""%string ->
     snd (NewMsgRemoveRepository Empty AddressString uri author)
     = Some (ErrUnknownRequest "URI cannot be empty")).
Proof.
  unfold NewMsgRemoveRepository, rm_ValidateBasic. simpl.
  split; [reflexivity|]. split; [|split].
  - destruct (Empty author); [split; [discriminate|intros [[=] _]]|].
    destruct (String.length uri =? 0)%nat eqn:Hu.
    + apply length_zero_empty in Hu. split; [discriminate|]. intros [_ Hne]. contradiction.
    + split; [|reflexivity]. intros _. split; [reflexivity|].
      intros Heq. apply length_zero_empty in Heq. congruence.
  - intros ->. reflexivity.
  - intros -> ->. reflexivity.
Qed.

Lemma ValidateBasic_checks_presence_only_witness :
  ValidateBasic Doubles.isEmpty Doubles.addressString Doubles.pushMalformed = None.
Proof.
  apply (proj2 (proj1 (ValidateBasic_checks_presence_only
                         Doubles.isEmpty Doubles.addressString Doubles.pushMalformed))).
  repeat split; discriminate.
Defined.

Lemma NewMsgRemoveRepository_checks_presence_witness :
  snd (NewMsgRemoveRepository Doubles.isEmpty Doubles.addressString "repo" [])
  = Some (ErrInvalidAddress (Doubles.addressString [])).
Proof.
  apply (proj1 (proj2 (proj2 (NewMsgRemoveRepository_checks_presence
                                Doubles.isEmpty Doubles.addressString "repo" [])))).
  reflexivity.
Defined.

End GitServiceProofs.

(* ===================================================================== *)
(** * Properties of storage/filesystem/object.go                          *)
(* ===================================================================== *)

Module FilesystemProofs.
Import Plumbing Filesystem FilesystemSpec.

(** ** SetEncodedObject *)

Lemma computeHash_toy t c : computeHash Doubles.toyHasher t c = Doubles.toyHash t c.
Proof.
  unfold computeHash, Doubles.toyHasher, Doubles.toyHash.
  rewrite <- nat_N_Z, N2Z.id. reflexivity.
Qed.



(** ** Lookups *)

Lemma requireIndex_loaded s s' :
  requireIndex s = (Ok tt, s') -> requireIndex s' = (Ok tt, s').
Proof.
  unfold requireIndex. destruct (index s) as [m|] eqn:Hix.
  - intros [= <-]. rewrite Hix. reflexivity.
  - assert (Hl : forall packs s0 s1, index s0 <> None ->
              loadIdxFiles packs s0 = (Ok tt, s1) -> index s1 <> None).
    { induction packs as [|h packs IH]; simpl; intros s0 s1 Hs0.
      - intros [= <-]. exact Hs0.
      - unfold loadIdxFile.
        destruct (ObjectPackIdx (dir s0) h) as [f| |]; try discriminate.
        destruct (idx_Decode f) as [idxf| |]; try discriminate.
        destruct (index s0) as [m|] eqn:Hm; [|congruence].
        destruct (idx_Close f); simpl; try discriminate.
        apply IH. simpl. discriminate. }
    destruct (ObjectPacks (dir (set_index s (Some [])))) as [packs| |]; try discriminate.
    intros Hload. apply Hl in Hload; [|simpl; discriminate].
    destruct (index s'); [reflexivity|congruence].
Qed.

Lemma loadIdxFiles_dir packs : forall s r s',
  loadIdxFiles packs s = (r, s') ->
  dir s' = dir s /\ deltaBaseCache s' = deltaBaseCache s.
Proof.
  induction packs as [|h packs IH]; simpl; intros s r s'.
  - intros [= _ <-]. auto.
  - unfold loadIdxFile.
    destruct (ObjectPackIdx (dir s) h) as [f| |]; try (intros [= _ <-]; auto).
    destruct (idx_Decode f) as [idxf| |]; try (intros [= _ <-]; auto).
    destruct (index s) as [m|]; try (intros [= _ <-]; auto).
    destruct (idx_Close f); simpl; try (intros [= _ <-]; auto).
    intros Hl. apply IH in Hl. simpl in Hl. exact Hl.
Qed.

Lemma requireIndex_dir s r s' :
  requireIndex s = (r, s') ->
  dir s' = dir s /\ deltaBaseCache s' = deltaBaseCache s.
Proof.
  unfold requireIndex. destruct (index s).
  - intros [= _ <-]. auto.
  - destruct (ObjectPacks (dir (set_index s (Some [])))) as [packs| |];
      try (intros [= _ <-]; auto).
    intros Hl. apply loadIdxFiles_dir in Hl. exact Hl.
Qed.

(** ** The order of a loop over the index *)

Lemma ranged_nil (order : RangeOrder) : order [] = [].
Proof. apply Permutation_nil_r, ranged_perm. Qed.

Lemma ranged_singleton (order : RangeOrder) x : order [x] = [x].
Proof. apply Permutation_singleton_r, ranged_perm. Qed.

(** [findIn] answers with the zero hashes and -1 when every index it
    visits fails to find the hash, in whatever order it visits them. *)
Lemma findIn_all_fail m h :
  Forall (fun e => exists err, FindOffset e.2 h = Err err) m ->
  findIn m h = Ok (ZeroHash, ZeroHash, -1).
Proof.
  induction 1 as [|[k idx] m [err He] _ IH]; simpl; [reflexivity|].
  simpl in He. rewrite He. exact IH.
Qed.

Lemma notPacked_all_fail s h m :
  index s = Some m ->
  Forall (fun e => exists err, FindOffset e.2 h = Err err) m ->
  notPacked s h.
Proof.
  intros Hm Hall order. unfold findObjectInPackfile. rewrite Hm.
  apply findIn_all_fail.
  rewrite (ranged_perm order m). exact Hall.
Qed.

Lemma notPacked_no_pack s h : index s = Some [] -> notPacked s h.
Proof. intros Hm. apply (notPacked_all_fail s h []); [exact Hm|constructor]. Qed.

(** [EncodedObject], unfolded once. *)
Lemma EncodedObject_eq orders s t h :
  EncodedObject orders s t h =
    let '(r, s1) :=
      match getFromUnpacked s h with
      | Err ErrObjectNotFound => getFromPackfile (orders []) s h
      | r => (r, s)
      end in
    let finish (r : result MemoryObject) :=
      match r with
      | Ok obj =>
          if negb (bool_decide (AnyObject = t)) && negb (bool_decide (mo_t obj = t))
          then Err ErrObjectNotFound else Ok obj
      | _ => r
      end in
    match r with
    | Err ErrObjectNotFound =>
        match Alternates (dir s) with
        | Ok dotgits =>
            match rangeAlternates (alternateOutcomes orders (deltaBaseCache s) t h dotgits) with
            | Ok (Some enobj) => (Ok enobj, s1)
            | Ok None => (finish r, s1)
            | Err e => (Err e, s1)
            | Panic w => (Panic w, s1)
            end
        | Err _ => (finish r, s1)
        | Panic w => (Panic w, s1)
        end
    | _ => (finish r, s1)
    end.
Proof.
  destruct s as [ops c d ix]. unfold EncodedObject. simpl.
  destruct d as [ob pk pi pf al]. simpl.
  assert (Heach : forall dgs i,
            (fix each (i : nat) (dgs : list DotGit) {struct dgs} : list (result MemoryObject) :=
               match dgs with
               | [] => []
               | dg :: rest =>
                   fst (EncodedObject_at dg (alternate i orders)
                          (options (NewObjectStorage dg c)) c None t h)
                   :: each (Datatypes.S i) rest
               end) i dgs
            = alternateOutcomesFrom i orders c t h dgs).
  { induction dgs as [|dg dgs IH]; intros i; simpl; [reflexivity|].
    rewrite IH. reflexivity. }
  destruct al as [dotgits| |]; try reflexivity.
  unfold alternateOutcomes. rewrite <- Heach. reflexivity.
Qed.

Lemma alternateOutcomesFrom_app orders c t h pre : forall i post,
  alternateOutcomesFrom i orders c t h (pre ++ post)
  = alternateOutcomesFrom i orders c t h pre
    ++ alternateOutcomesFrom (i + length pre) orders c t h post.
Proof.
  induction pre as [|dg pre IH]; intros i post; simpl.
  - rewrite Nat.add_0_r. reflexivity.
  - rewrite IH. replace (Datatypes.S i + length pre)%nat with (i + Datatypes.S (length pre))%nat by lia.
    reflexivity.
Qed.

Lemma rangeAlternates_skips outs rest :
  Forall (fun r : result MemoryObject => exists e, r = Err e) outs ->
  rangeAlternates (outs ++ rest) = rangeAlternates rest.
Proof. induction 1 as [|r outs [e ->] _ IH]; simpl; [reflexivity|exact IH]. Qed.

Lemma rangeAlternates_first orders c t h pre dg post obj :
  allFail orders c t h pre ->
  fst (EncodedObject (alternate (length pre) orders) (NewObjectStorage dg c) t h) = Ok obj ->
  rangeAlternates (alternateOutcomes orders c t h (pre ++ dg :: post)) = Ok (Some obj).
Proof.
  intros Hpre Hdg. unfold alternateOutcomes.
  rewrite alternateOutcomesFrom_app, (rangeAlternates_skips _ _ Hpre). simpl.
  rewrite Hdg. reflexivity.
Qed.

Lemma rangeAlternates_none orders c t h alts :
  allFail orders c t h alts ->
  rangeAlternates (alternateOutcomes orders c t h alts) = Ok None.
Proof.
  intros Hall. rewrite <- (app_nil_r (alternateOutcomes orders c t h alts)).
  rewrite (rangeAlternates_skips _ _ Hall). reflexivity.
Qed.

(** The loop over the alternates as it is written: an error of any
    kind from an alternate makes [EncodedObject(t, h)] try the next
    one; the caller gets the object of the first alternate that has
    one, and object-not-found when every alternate fails. *)
Theorem EncodedObject_skips_failing_alternates
    (orders : RangeOrders) (s s1 : ObjectStorage) (t : ObjectType) (h : Hash)
    (alts : list DotGit) :
  getFromUnpacked s h = Err ErrObjectNotFound ->
  getFromPackfile (orders []) s h = (Err ErrObjectNotFound, s1) ->
  Alternates (dir s) = Ok alts ->
  (forall pre dg post obj,
      alts = pre ++ dg :: post ->
      allFail orders (deltaBaseCache s) t h pre ->
      fst (EncodedObject (alternate (length pre) orders)
             (NewObjectStorage dg (deltaBaseCache s)) t h) = Ok obj ->
      EncodedObject orders s t h = (Ok obj, s1)) /\
  (allFail orders (deltaBaseCache s) t h alts ->
      EncodedObject orders s t h = (Err ErrObjectNotFound, s1)).
Proof.
  intros Hu Hp Ha. split.
  - intros pre dg post obj -> Hpre Hdg.
    rewrite EncodedObject_eq, Hu, Hp, Ha.
    rewrite (rangeAlternates_first _ _ _ _ _ _ _ _ Hpre Hdg). reflexivity.
  - intros Hall.
    rewrite EncodedObject_eq, Hu, Hp, Ha.
    rewrite (rangeAlternates_none _ _ _ _ _ Hall). reflexivity.
Qed.

(** C5. The code at an alternate that fails with another error than
    object-not-found: the first alternate answers with an I/O error;
    the lookup does not stop at it, goes on to the second alternate
    and returns its object; with the failing alternate alone the
    caller gets object-not-found and never sees the I/O error.  The
    comment above the test, "Skip when not found", and the tests
    [err == plumbing.ErrObjectNotFound] of the two steps before it say
    that only object-not-found was meant to be skipped; the test
    written is [enerr != nil]. *)
Lemma EncodedObject_alternate_error_not_returned :
  let orders := Doubles.always Doubles.asListed in
  let s := NewObjectStorage (Doubles.borrowing [Doubles.brokenDir; Doubles.helloDir]) Doubles.noCache in
  fst (EncodedObject orders (NewObjectStorage Doubles.brokenDir Doubles.noCache)
         AnyObject Doubles.helloHash)
    = Err (ErrOther "input/output error") /\
  fst (EncodedObject orders s AnyObject Doubles.helloHash) = Ok Doubles.helloObject /\
  fst (EncodedObject orders
         (NewObjectStorage (Doubles.borrowing [Doubles.brokenDir]) Doubles.noCache)
         AnyObject Doubles.helloHash)
    = Err ErrObjectNotFound.
Proof. vm_compute. repeat split. Qed.

Lemma EncodedObject_skips_failing_alternates_witness :
  EncodedObject (Doubles.always Doubles.asListed)
    (NewObjectStorage (Doubles.borrowing [Doubles.brokenDir; Doubles.helloDir]) Doubles.noCache)
    AnyObject Doubles.helloHash
  = (Ok Doubles.helloObject,
     set_index (NewObjectStorage (Doubles.borrowing [Doubles.brokenDir; Doubles.helloDir]) Doubles.noCache)
       (Some [])).
Proof.
  refine (proj1 (EncodedObject_skips_failing_alternates (Doubles.always Doubles.asListed)
            (NewObjectStorage (Doubles.borrowing [Doubles.brokenDir; Doubles.helloDir]) Doubles.noCache)
            _ AnyObject Doubles.helloHash [Doubles.brokenDir; Doubles.helloDir] _ _ _)
          [Doubles.brokenDir] Doubles.helloDir [] Doubles.helloObject _ _ _).
  - reflexivity.
  - reflexivity.
  - reflexivity.
  - reflexivity.
  - constructor; [|constructor]. eexists. vm_compute. reflexivity.
  - vm_compute. reflexivity.
Defined.

(** ** HasEncodedObject *)

Lemma loadIdxFiles_withAlternates alts packs : forall s,
  loadIdxFiles packs (withAlternates s alts)
  = (fst (loadIdxFiles packs s), withAlternates (snd (loadIdxFiles packs s)) alts).
Proof.
  induction packs as [|p packs IH]; simpl; intros s; [reflexivity|].
  unfold loadIdxFile. simpl.
  destruct (ObjectPackIdx (dir s) p) as [f| |]; try reflexivity.
  destruct (idx_Decode f) as [idxf| |]; try reflexivity.
  destruct (index s) as [m|]; try reflexivity.
  destruct (idx_Close f); simpl; try reflexivity.
  apply (IH (set_index s (Some (index_insert p idxf m)))).
Qed.

Lemma requireIndex_withAlternates alts s :
  requireIndex (withAlternates s alts)
  = (fst (requireIndex s), withAlternates (snd (requireIndex s)) alts).
Proof.
  unfold requireIndex. simpl.
  destruct (index s) as [m|]; [reflexivity|].
  destruct (ObjectPacks (dir s)) as [packs| |]; try reflexivity.
  apply (loadIdxFiles_withAlternates alts packs (set_index s (Some []))).
Qed.

(** C9. [HasEncodedObject(h)] never looks at the alternates: its answer
    is the same whatever the alternates are; and for a hash that only
    an alternate holds (no loose object, no entry in the index of a
    local pack, an object in the first alternate that answers), it
    returns object-not-found although [EncodedObject(Any, h)] on the
    same storage returns the object.  This holds in whatever order
    the two calls visit the indexes. *)
Theorem HasEncodedObject_never_probes_alternates
    (order : RangeOrder) (orders : RangeOrders) (s : ObjectStorage) (h : Hash) :
  (forall alts,
     fst (HasEncodedObject order (withAlternates s alts) h) = fst (HasEncodedObject order s h)) /\
  (forall s1 alts pre dg post obj,
      noLoose s h ->
      requireIndex s = (Ok tt, s1) ->
      notPacked s1 h ->
      Alternates (dir s) = Ok alts ->
      alts = pre ++ dg :: post ->
      allFail orders (deltaBaseCache s) AnyObject h pre ->
      fst (EncodedObject (alternate (length pre) orders)
             (NewObjectStorage dg (deltaBaseCache s)) AnyObject h) = Ok obj ->
      fst (HasEncodedObject order s h) = Err ErrObjectNotFound /\
      fst (EncodedObject orders s AnyObject h) = Ok obj).
Proof.
  split.
  - intros alts. unfold HasEncodedObject. simpl.
    destruct (Object (dir s) h) as [f|e|]; try reflexivity.
    destruct (negb (IsNotExist e)); [reflexivity|].
    rewrite requireIndex_withAlternates.
    destruct (requireIndex s) as [[[]|e'|w] s']; reflexivity.
  - intros s1 alts pre dg post obj (e & Hobj & He) Hri Hfind Ha -> Hpre Hdg.
    assert (Hu : getFromUnpacked s h = Err ErrObjectNotFound).
    { unfold getFromUnpacked. rewrite Hobj, He. reflexivity. }
    assert (Hp : getFromPackfile (orders []) s h = (Err ErrObjectNotFound, s1)).
    { unfold getFromPackfile. rewrite Hri, (Hfind (orders [])). reflexivity. }
    split.
    + unfold HasEncodedObject. rewrite Hobj, He. simpl. rewrite Hri, (Hfind order). reflexivity.
    + rewrite EncodedObject_eq, Hu, Hp, Ha.
      rewrite (rangeAlternates_first _ _ _ _ _ _ _ _ Hpre Hdg). reflexivity.
Qed.

Lemma HasEncodedObject_never_probes_alternates_witness :
  fst (HasEncodedObject Doubles.backwards
         (NewObjectStorage (Doubles.borrowing [Doubles.helloDir]) Doubles.noCache)
         Doubles.helloHash) = Err ErrObjectNotFound /\
  fst (EncodedObject (Doubles.always Doubles.asListed)
         (NewObjectStorage (Doubles.borrowing [Doubles.helloDir]) Doubles.noCache)
         AnyObject Doubles.helloHash) = Ok Doubles.helloObject.
Proof.
  refine (proj2 (HasEncodedObject_never_probes_alternates
            Doubles.backwards (Doubles.always Doubles.asListed)
            (NewObjectStorage (Doubles.borrowing [Doubles.helloDir]) Doubles.noCache)
            Doubles.helloHash)
          _ [Doubles.helloDir] [] Doubles.helloDir [] Doubles.helloObject _ _ _ _ _ _ _).
  - exists ErrNotExist. split; reflexivity.
  - reflexivity.
  - apply notPacked_no_pack. reflexivity.
  - reflexivity.
  - reflexivity.
  - constructor.
  - vm_compute. reflexivity.
Defined.

(** ** EncodedObjectSize *)

Lemma sizesAgree_same s s' :
  dir s' = dir s -> deltaBaseCache s' = deltaBaseCache s ->
  sizesAgree s -> sizesAgree s'.
Proof. unfold sizesAgree. intros -> ->. exact id. Qed.

Lemma size_of_loose s h obj :
  sizesAgree s ->
  getFromUnpacked s h = Ok obj ->
  encodedObjectSizeFromUnpacked s h = Ok (Z.of_nat (length (mo_cont obj))).
Proof.
  intros (Hloose & _) Hget.
  unfold getFromUnpacked, encodedObjectSizeFromUnpacked in *.
  destruct (Object (dir s) h) as [f|e|] eqn:Hobj; try discriminate.
  2:{ destruct (IsNotExist e); discriminate. }
  destruct (lf_NewReader f) as [r| |] eqn:Hr; simpl in *;
    try (destruct (lf_Close f); discriminate).
  destruct (r_Header r) as [[t sz]| |] eqn:Hh; simpl in *;
    try (destruct (lf_Close f); discriminate).
  destruct (r_Copy r) as [cont| |] eqn:Hc; simpl in *;
    try (destruct (lf_Close f); discriminate).
  destruct (r_Close r); simpl in *; try (destruct (lf_Close f); discriminate).
  destruct (lf_Close f); try discriminate.
  injection Hget as <-. simpl.
  rewrite (Hloose h f r t sz cont Hobj Hr Hh Hc). reflexivity.
Qed.

(** In one and the same order of the indexes, the size that
    [encodedObjectSizeFromPackfile] reports is the length of the
    payload that [getFromPackfile] delivers. *)
Lemma size_of_packed order s h obj :
  sizesAgree s ->
  fst (getFromPackfile order s h) = Ok obj ->
  fst (encodedObjectSizeFromPackfile order s h) = Ok (Z.of_nat (length (mo_cont obj))).
Proof.
  intros Hag. unfold getFromPackfile, encodedObjectSizeFromPackfile.
  destruct (requireIndex s) as [[[]|e|w] s'] eqn:Hri; simpl; try discriminate.
  destruct (requireIndex_dir _ _ _ Hri) as [Hd Hc].
  destruct (sizesAgree_same s s' Hd Hc Hag) as (_ & Hpack & Hclose & Hcache).
  destruct (findObjectInPackfile order s' h) as [[[pack hh] offset]| |]; simpl; try discriminate.
  destruct (offset =? -1); simpl; try discriminate.
  destruct (ObjectPack (dir s') pack) as [f| |] eqn:Hop; simpl; try discriminate.
  rewrite (Hclose _ _ Hop).
  destruct (index s' ≫= index_lookup pack) as [idx|]; simpl; try discriminate.
  unfold decodeObjectAt, cacheGet.
  destruct (FindHash idx offset) as [hash|e|]; simpl; try discriminate.
  - destruct (deltaBaseCache s') as [c|] eqn:Hcc; simpl; try discriminate.
    destruct (c hash) as [o|] eqn:Hhit; simpl.
    + intros [= <-]. rewrite (Hcache _ _ _ eq_refl Hhit). reflexivity.
    + intros Hg. rewrite (Hpack _ _ _ _ Hop Hg). reflexivity.
  - destruct e; simpl; try discriminate.
    intros Hg. rewrite (Hpack _ _ _ _ Hop Hg). reflexivity.
Qed.

Lemma getFromPackfile_again order s s' h :
  requireIndex s = (Ok tt, s') ->
  getFromPackfile order s' h = (fst (getFromPackfile order s h), s').
Proof.
  intros Hri. unfold getFromPackfile.
  rewrite Hri, (requireIndex_loaded _ _ Hri). reflexivity.
Qed.

(** C4 (amended). For every hash [h] for which [EncodedObject(Any, h)]
    returns an object found in the local loose objects or the local
    packs, [EncodedObjectSize(h)] succeeds and returns the byte length
    of that object's payload, before and after that lookup, provided
    the sizes that loose files, packs and the cache report agree with
    their payloads and, for a packed object, the local packs that
    hold [h] all deliver that object: the two calls may visit the
    indexes in different orders.  For an object that only an
    alternate holds, [EncodedObject(Any, h)] returns it and
    [EncodedObjectSize(h)] returns object-not-found, whatever the
    alternates are. *)
Theorem EncodedObjectSize_of_local_object
    (orders : RangeOrders) (order : RangeOrder) (s : ObjectStorage) (h : Hash) :
  (forall obj,
     sizesAgree s ->
     getFromUnpacked s h = Ok obj \/
     (noLoose s h /\ forall order', fst (getFromPackfile order' s h) = Ok obj) ->
     fst (EncodedObject orders s AnyObject h) = Ok obj /\
     fst (EncodedObjectSize order s h) = Ok (Z.of_nat (length (mo_cont obj))) /\
     fst (EncodedObjectSize order (snd (EncodedObject orders s AnyObject h)) h)
       = Ok (Z.of_nat (length (mo_cont obj)))) /\
  (forall s1,
     noLoose s h ->
     requireIndex s = (Ok tt, s1) ->
     notPacked s1 h ->
     (forall alts,
        fst (EncodedObjectSize order (withAlternates s alts) h) = Err ErrObjectNotFound) /\
     (forall alts pre dg post obj,
        Alternates (dir s) = Ok alts ->
        alts = pre ++ dg :: post ->
        allFail orders (deltaBaseCache s) AnyObject h pre ->
        fst (EncodedObject (alternate (length pre) orders)
               (NewObjectStorage dg (deltaBaseCache s)) AnyObject h) = Ok obj ->
        fst (EncodedObject orders s AnyObject h) = Ok obj /\
        fst (EncodedObjectSize order s h) = Err ErrObjectNotFound)).
Proof.
  split.
  - intros obj Hag [Hloose | [(e & Hobj & He) Hpack]].
    + assert (Hsz := size_of_loose _ _ _ Hag Hloose).
      rewrite EncodedObject_eq, Hloose. simpl.
      unfold EncodedObjectSize. rewrite Hsz. auto.
    + assert (Hu : getFromUnpacked s h = Err ErrObjectNotFound).
      { unfold getFromUnpacked. rewrite Hobj, He. reflexivity. }
      assert (Hsu : forall s', dir s' = dir s ->
                encodedObjectSizeFromUnpacked s' h = Err ErrObjectNotFound).
      { intros s' Hd. unfold encodedObjectSizeFromUnpacked. rewrite Hd, Hobj, He. reflexivity. }
      rewrite EncodedObject_eq, Hu.
      pose proof (Hpack (orders [])) as Hfirst.
      destruct (getFromPackfile (orders []) s h) as [r s1] eqn:Hg. simpl in Hfirst. subst r.
      simpl. split; [reflexivity|].
      unfold EncodedObjectSize. rewrite (Hsu s eq_refl).
      split.
      * apply size_of_packed; [exact Hag|apply Hpack].
      * assert (Hri : requireIndex s = (Ok tt, s1)).
        { unfold getFromPackfile in Hg.
          destruct (requireIndex s) as [[[]|e'|w] s'] eqn:Hri; try discriminate.
          injection Hg as _ <-; reflexivity. }
        destruct (requireIndex_dir _ _ _ Hri) as [Hd Hc].
        rewrite (Hsu s1 Hd).
        apply size_of_packed; [exact (sizesAgree_same _ _ Hd Hc Hag)|].
        rewrite (getFromPackfile_again _ _ _ _ Hri). simpl. apply Hpack.
  - intros s1 (e & Hobj & He) Hri Hfind.
    assert (Hsize : forall alts,
              fst (EncodedObjectSize order (withAlternates s alts) h) = Err ErrObjectNotFound).
    { intros alts. unfold EncodedObjectSize, encodedObjectSizeFromUnpacked. simpl.
      rewrite Hobj, He. simpl.
      unfold encodedObjectSizeFromPackfile.
      rewrite requireIndex_withAlternates, Hri. simpl.
      unfold findObjectInPackfile. simpl.
      pose proof (Hfind order) as Hf. unfold findObjectInPackfile in Hf.
      rewrite Hf. reflexivity. }
    split; [exact Hsize|].
    intros alts pre dg post obj Ha -> Hpre Hdg.
    assert (Hu : getFromUnpacked s h = Err ErrObjectNotFound).
    { unfold getFromUnpacked. rewrite Hobj, He. reflexivity. }
    assert (Hp : getFromPackfile (orders []) s h = (Err ErrObjectNotFound, s1)).
    { unfold getFromPackfile. rewrite Hri, (Hfind (orders [])). reflexivity. }
    split.
    + rewrite EncodedObject_eq, Hu, Hp, Ha.
      rewrite (rangeAlternates_first _ _ _ _ _ _ _ _ Hpre Hdg). reflexivity.
    + unfold EncodedObjectSize, encodedObjectSizeFromUnpacked.
      rewrite Hobj, He. simpl.
      unfold encodedObjectSizeFromPackfile. rewrite Hri, (Hfind order). reflexivity.
Qed.

(** C4, as stated, fails: for a hash that only an alternate holds,
    [EncodedObject(Any, h)] returns the object and
    [EncodedObjectSize(h)] returns object-not-found. *)
Lemma EncodedObjectSize_misses_alternates :
  let s := NewObjectStorage (Doubles.borrowing [Doubles.helloDir]) Doubles.noCache in
  fst (EncodedObject (Doubles.always Doubles.asListed) s AnyObject Doubles.helloHash)
    = Ok Doubles.helloObject /\
  fst (EncodedObjectSize Doubles.asListed s Doubles.helloHash) = Err ErrObjectNotFound.
Proof. vm_compute. split; reflexivity. Qed.

Lemma sizesAgree_twoPacksDir : sizesAgree (NewObjectStorage Doubles.twoPacksDir Doubles.noCache).
Proof.
  unfold sizesAgree. simpl. repeat split.
  - discriminate.
  - intros ph pf offset obj.
    destruct ((ph =? Doubles.packName)%N || (ph =? Doubles.otherPackName)%N); [|discriminate].
    intros [= <-]. simpl.
    destruct (offset =? 12); [intros [= <-]; reflexivity|].
    destruct (offset =? 27); [intros [= <-]; reflexivity|discriminate].
  - intros ph pf.
    destruct ((ph =? Doubles.packName)%N || (ph =? Doubles.otherPackName)%N); [|discriminate].
    intros [= <-]. reflexivity.
  - intros c h obj [= <-]. discriminate.
Qed.

(** Whichever of the two packs is visited first, the lookup delivers
    the same blob. *)
Lemma twoPacksDir_agree order :
  fst (getFromPackfile order (NewObjectStorage Doubles.twoPacksDir Doubles.noCache)
         Doubles.helloHash) = Ok Doubles.helloObject.
Proof.
  unfold getFromPackfile. simpl. unfold findObjectInPackfile. simpl.
  destruct (Permutation_length_2_inv
              (Permutation_sym
                 (ranged_perm order [(Doubles.packName, Doubles.twoBlobsIndex);
                                     (Doubles.otherPackName, Doubles.twoBlobsIndex)])))
    as [Hq | Hq]; rewrite Hq; reflexivity.
Qed.

Lemma EncodedObjectSize_of_local_object_witness :
  (fst (EncodedObject (Doubles.always Doubles.asListed)
          (NewObjectStorage Doubles.twoPacksDir Doubles.noCache) AnyObject Doubles.helloHash)
    = Ok Doubles.helloObject /\
   fst (EncodedObjectSize Doubles.backwards
          (NewObjectStorage Doubles.twoPacksDir Doubles.noCache) Doubles.helloHash)
    = Ok 6 /\
   fst (EncodedObjectSize Doubles.backwards
          (snd (EncodedObject (Doubles.always Doubles.asListed)
                  (NewObjectStorage Doubles.twoPacksDir Doubles.noCache) AnyObject
                  Doubles.helloHash)) Doubles.helloHash)
    = Ok 6) /\
  (fst (EncodedObject (Doubles.always Doubles.asListed)
          (NewObjectStorage (Doubles.borrowing [Doubles.helloDir]) Doubles.noCache)
          AnyObject Doubles.helloHash)
    = Ok Doubles.helloObject /\
   fst (EncodedObjectSize Doubles.backwards
          (NewObjectStorage (Doubles.borrowing [Doubles.helloDir]) Doubles.noCache)
          Doubles.helloHash)
    = Err ErrObjectNotFound).
Proof.
  split.
  - apply (proj1 (EncodedObjectSize_of_local_object
                    (Doubles.always Doubles.asListed) Doubles.backwards
                    (NewObjectStorage Doubles.twoPacksDir Doubles.noCache) Doubles.helloHash)
             Doubles.helloObject).
    + exact sizesAgree_twoPacksDir.
    + right. split.
      * exists ErrNotExist. split; reflexivity.
      * exact twoPacksDir_agree.
  - refine (proj2 (proj2 (EncodedObjectSize_of_local_object
                     (Doubles.always Doubles.asListed) Doubles.backwards
                     (NewObjectStorage (Doubles.borrowing [Doubles.helloDir]) Doubles.noCache)
                     Doubles.helloHash) _ _ _ _)
              [Doubles.helloDir] [] Doubles.helloDir [] Doubles.helloObject _ _ _ _).
    + exists ErrNotExist. split; reflexivity.
    + reflexivity.
    + apply notPacked_no_pack. reflexivity.
    + reflexivity.
    + reflexivity.
    + constructor.
    + vm_compute. reflexivity.
Defined.


(** ** The pack indexes *)

Lemma index_lookup_insert_eq h v m : index_lookup h (index_insert h v m) = Some v.
Proof.
  induction m as [|[k w] m IH]; simpl.
  - rewrite N.eqb_refl. reflexivity.
  - destruct (N.eqb_spec k h) as [->|Hne]; simpl.
    + rewrite N.eqb_refl. reflexivity.
    + apply N.eqb_neq in Hne. rewrite Hne. exact IH.
Qed.

Lemma index_lookup_insert_ne h h' v m :
  h <> h' -> index_lookup h' (index_insert h v m) = index_lookup h' m.
Proof.
  intros Hne. induction m as [|[k w] m IH]; simpl.
  - apply N.eqb_neq in Hne. rewrite Hne. reflexivity.
  - destruct (N.eqb_spec k h) as [->|Hkh]; simpl.
    + apply N.eqb_neq in Hne. rewrite Hne. reflexivity.
    + destruct (k =? h')%N; [reflexivity|exact IH].
Qed.

(** Loading the indexes changes the [index] field only. *)
Lemma loadIdxFiles_fields packs : forall s r s',
  loadIdxFiles packs s = (r, s') ->
  s' = set_index s (index s') /\ (index s <> None -> index s' <> None).
Proof.
  induction packs as [|h packs IH]; simpl; intros s r s'.
  - intros [= _ <-]. destruct s; auto.
  - unfold loadIdxFile.
    destruct (ObjectPackIdx (dir s) h) as [f| |]; try (intros [= _ <-]; destruct s; auto).
    destruct (idx_Decode f) as [idxf| |]; try (intros [= _ <-]; destruct s; auto).
    destruct (index s) as [m|] eqn:Hm; try (intros [= _ <-]; destruct s; simpl in *; auto).
    destruct (idx_Close f); simpl.
    + intros [= _ <-]. destruct s; simpl. split; [reflexivity|discriminate].
    + intros Hl. apply IH in Hl. simpl in Hl. destruct Hl as [Hs Hn].
      split; [destruct s; exact Hs|]. intros _. apply Hn. discriminate.
Qed.

Lemma requireIndex_fields s r s' :
  requireIndex s = (r, s') ->
  s' = set_index s (index s') /\ index s' <> None.
Proof.
  unfold requireIndex. destruct (index s) as [m|] eqn:Hm.
  - intros [= _ <-]. rewrite Hm. destruct s; simpl in *. subst. split; [reflexivity|discriminate].
  - destruct (ObjectPacks (dir (set_index s (Some [])))) as [packs| |];
      try (intros [= _ <-]; split; [reflexivity|discriminate]).
    intros Hl. apply loadIdxFiles_fields in Hl. destruct Hl as [Hs Hn].
    split; [destruct s; exact Hs|]. apply Hn. discriminate.
Qed.

(** X7. A load of the pack indexes that fails is not tried again: the
    index map stays allocated with what was loaded before the failure,
    so the next call of [requireIndex] returns nil at once; only
    [Reindex] brings the storage back to where it loads again.  When
    listing the packs is what failed, [HasEncodedObject] on a hash
    that has no loose file returns that error the first time and
    object-not-found from then on. *)
Theorem requireIndex_failure_is_not_retried (s s' : ObjectStorage) (e : error) :
  requireIndex s = (Err e, s') ->
  requireIndex s' = (Ok tt, s') /\
  Reindex s' = s /\
  (forall h order order', noLoose s h -> ObjectPacks (dir s) = Err e ->
     HasEncodedObject order s h = (Err e, s') /\
     HasEncodedObject order' s' h = (Err ErrObjectNotFound, s')).
Proof.
  intros Hri.
  assert (Hnil : index s = None).
  { unfold requireIndex in Hri. destruct (index s); [discriminate|reflexivity]. }
  destruct (requireIndex_fields _ _ _ Hri) as [Hs Hn].
  assert (Hagain : requireIndex s' = (Ok tt, s')).
  { unfold requireIndex. destruct (index s'); [reflexivity|congruence]. }
  split; [exact Hagain|]. split.
  - rewrite Hs. unfold Reindex. destruct s; simpl in *. subst. reflexivity.
  - intros h order order' (e' & Hobj & He') Hpacks.
    assert (Hs' : s' = set_index s (Some [])).
    { unfold requireIndex in Hri. rewrite Hnil in Hri. simpl in Hri.
      rewrite Hpacks in Hri. injection Hri as <-. reflexivity. }
    assert (Hobj' : Object (dir s') h = Err e') by (rewrite Hs'; exact Hobj).
    unfold HasEncodedObject. rewrite Hobj, Hobj', He'. simpl.
    rewrite Hri, Hagain. split; [reflexivity|].
    rewrite Hs'. unfold findObjectInPackfile. simpl. rewrite ranged_nil. reflexivity.
Qed.

Lemma loadIdxFiles_lookup packs : forall s s' m,
  index s = Some m ->
  loadIdxFiles packs s = (Ok tt, s') ->
  exists m', index s' = Some m' /\
    (forall h, h ∈ packs ->
       exists f idx, ObjectPackIdx (dir s) h = Ok f /\ idx_Decode f = Ok idx /\
                     idx_Close f = None /\ index_lookup h m' = Some idx) /\
    (forall h, h ∉ packs -> index_lookup h m' = index_lookup h m).
Proof.
  induction packs as [|x packs IH]; simpl; intros s s' m Hm.
  - intros [= <-]. exists m. split; [exact Hm|]. split; [|reflexivity].
    intros h Hh. inversion Hh.
  - unfold loadIdxFile. rewrite Hm.
    destruct (ObjectPackIdx (dir s) x) as [f| |] eqn:Hf; try discriminate.
    destruct (idx_Decode f) as [idxf| |] eqn:Hd; try discriminate.
    destruct (idx_Close f) eqn:Hc; simpl; try discriminate.
    intros Hl.
    destruct (IH (set_index s (Some (index_insert x idxf m))) s' _ eq_refl Hl)
      as (m' & Hm' & Hin & Hout).
    exists m'. split; [exact Hm'|]. split.
    + intros h Hh. destruct (decide (h ∈ packs)) as [Hp|Hp].
      * exact (Hin h Hp).
      * apply elem_of_cons in Hh. destruct Hh as [->|Hh]; [|contradiction].
        exists f, idxf. rewrite (Hout x Hp). simpl.
        repeat split; try assumption. apply index_lookup_insert_eq.
    + intros h Hh. apply not_elem_of_cons in Hh. destruct Hh as [Hne Hh].
      rewrite (Hout h Hh). simpl. apply index_lookup_insert_ne. congruence.
Qed.

(** X8. The first [requireIndex] that succeeds has read, decoded and
    closed the index file of every pack that the directory lists, and
    [s.index] holds, under each pack's hash, what its file decoded
    to, and nothing under any other hash; a second call reads nothing
    and leaves the storage as it is. *)
Theorem requireIndex_loads_every_pack (s s' : ObjectStorage) (packs : list Hash) :
  index s = None ->
  ObjectPacks (dir s) = Ok packs ->
  requireIndex s = (Ok tt, s') ->
  exists m, index s' = Some m /\
    (forall h, h ∈ packs ->
       exists f idx, ObjectPackIdx (dir s) h = Ok f /\ idx_Decode f = Ok idx /\
                     idx_Close f = None /\ index_lookup h m = Some idx) /\
    (forall h, h ∉ packs -> index_lookup h m = None) /\
    requireIndex s' = (Ok tt, s').
Proof.
  intros Hnil Hpacks Hri.
  pose proof (requireIndex_loaded _ _ Hri) as Hagain.
  unfold requireIndex in Hri. rewrite Hnil in Hri. simpl in Hri. rewrite Hpacks in Hri.
  destruct (loadIdxFiles_lookup packs (set_index s (Some [])) s' [] eq_refl Hri)
    as (m & Hm & Hin & Hout).
  exists m. split; [exact Hm|]. split; [exact Hin|]. split; [|exact Hagain].
  intros h Hh. rewrite (Hout h Hh). reflexivity.
Qed.

(** ** What a lookup returns *)

Lemma rangeAlternates_found outcomes enobj :
  rangeAlternates outcomes = Ok (Some enobj) -> In (Ok enobj) outcomes.
Proof.
  induction outcomes as [|[o|e|w] outcomes IH]; simpl; try discriminate.
  - intros [= ->]. left. reflexivity.
  - intros Hr. right. exact (IH Hr).
Qed.

Lemma alternateOutcomesFrom_In orders c t h r dgs : forall i,
  In r (alternateOutcomesFrom i orders c t h dgs) ->
  exists j dg, In dg dgs /\
    r = fst (EncodedObject (alternate j orders) (NewObjectStorage dg c) t h).
Proof.
  induction dgs as [|dg dgs IH]; intros i; simpl; [contradiction|].
  intros [<- | Hin].
  - exists i, dg. auto.
  - destruct (IH _ Hin) as (j & dg' & Hdg & ->). exists j, dg'. auto.
Qed.

Lemma EncodedObject_at_type : forall d orders ops c ix t h obj,
  fst (EncodedObject_at d orders ops c ix t h) = Ok obj -> t = AnyObject \/ mo_t obj = t.
Proof.
  fix IH 1. intros [ob pk pi pf al] orders ops c ix t h obj.
  assert (Hfin : forall o : MemoryObject,
             (if negb (bool_decide (AnyObject = t)) && negb (bool_decide (mo_t o = t))
              then Err ErrObjectNotFound else Ok o) = Ok obj ->
             t = AnyObject \/ mo_t obj = t).
  { intros o. destruct (bool_decide (AnyObject = t)) eqn:Ha; simpl.
    - intros _. left. apply bool_decide_eq_true_1 in Ha. congruence.
    - destruct (bool_decide (mo_t o = t)) eqn:Ht; simpl; [|discriminate].
      intros [= <-]. right. apply bool_decide_eq_true_1 in Ht. exact Ht. }
  change (EncodedObject_at (mkDotGit ob pk pi pf al) orders ops c ix t h)
    with (EncodedObject orders {| options := ops; deltaBaseCache := c;
                                  dir := mkDotGit ob pk pi pf al; index := ix |} t h).
  rewrite EncodedObject_eq.
  destruct (match getFromUnpacked _ h with
            | Err ErrObjectNotFound => getFromPackfile _ _ h
            | r => (r, _)
            end) as [r s1].
  cbn [dir deltaBaseCache Alternates].
  destruct r as [o|e|w].
  - simpl. apply Hfin.
  - destruct e; try (simpl; discriminate).
    destruct al as [dotgits| |]; try (simpl; discriminate).
    assert (Halts : Forall (fun dg => forall orders' o,
                      fst (EncodedObject orders' (NewObjectStorage dg c) t h) = Ok o ->
                      t = AnyObject \/ mo_t o = t) dotgits).
    { clear -IH. induction dotgits as [|dg dotgits IHl]; constructor; [|exact IHl].
      intros orders' o. apply (IH dg). }
    destruct (rangeAlternates (alternateOutcomes orders c t h dotgits)) as [[enobj|]| |] eqn:Hr;
      try (simpl; discriminate).
    simpl. intros [= <-].
    apply rangeAlternates_found in Hr. unfold alternateOutcomes in Hr.
    apply alternateOutcomesFrom_In in Hr. destruct Hr as (j & dg & Hin & Hdg).
    rewrite Forall_forall in Halts. apply (Halts dg) with (orders' := alternate j orders).
    + apply list_elem_of_In. exact Hin.
    + symmetry. exact Hdg.
  - simpl. discriminate.
Qed.

(** X9. An object that [EncodedObject(t, h)] returns has the type
    asked for, unless [t] is [AnyObject]: this holds for an object
    found in the loose files or the packs, and for one that an
    alternate, or an alternate of an alternate, supplied. *)
Theorem EncodedObject_returns_requested_type
    (orders : RangeOrders) (s : ObjectStorage) (t : ObjectType) (h : Hash) (obj : MemoryObject) :
  fst (EncodedObject orders s t h) = Ok obj -> t = AnyObject \/ mo_t obj = t.
Proof. unfold EncodedObject. apply EncodedObject_at_type. Qed.

Lemma EncodedObject_returns_requested_type_witness :
  BlobObject = AnyObject \/ mo_t Doubles.helloObject = BlobObject.
Proof.
  apply (EncodedObject_returns_requested_type (Doubles.always Doubles.backwards)
           (NewObjectStorage (Doubles.borrowing [Doubles.helloDir]) Doubles.noCache)
           BlobObject Doubles.helloHash Doubles.helloObject).
  vm_compute. reflexivity.
Defined.

(** X10. [HasEncodedObject] and [EncodedObject] agree on this
    repository's own objects: when [EncodedObject] finds [h] in the
    loose files, or (there being no loose file) in a pack,
    [HasEncodedObject(h)] returns nil; and when, there being no loose
    file, [HasEncodedObject(h)] returns object-not-found, neither the
    loose files nor the packs give [EncodedObject] an object, so that
    only an alternate can.  The two calls are taken in the same
    order of the indexes, whichever it is. *)
Theorem HasEncodedObject_agrees_on_local_objects
    (order : RangeOrder) (s : ObjectStorage) (h : Hash) :
  (forall obj, getFromUnpacked s h = Ok obj -> HasEncodedObject order s h = (Ok tt, s)) /\
  (forall obj, noLoose s h -> fst (getFromPackfile order s h) = Ok obj ->
     fst (HasEncodedObject order s h) = Ok tt) /\
  (noLoose s h -> fst (HasEncodedObject order s h) = Err ErrObjectNotFound ->
     getFromUnpacked s h = Err ErrObjectNotFound /\
     fst (getFromPackfile order s h) = Err ErrObjectNotFound).
Proof.
  split; [|split].
  - intros obj Hget. unfold getFromUnpacked in Hget. unfold HasEncodedObject.
    destruct (Object (dir s) h) as [f|e|]; try discriminate.
    2:{ destruct (IsNotExist e); discriminate. }
    destruct (lf_Close f); [|reflexivity].
    destruct (rbind _ _); discriminate.
  - intros obj (e & Hobj & He). unfold getFromPackfile, HasEncodedObject.
    rewrite Hobj, He. simpl.
    destruct (requireIndex s) as [[[]|e'|w] s']; simpl; try discriminate.
    destruct (findObjectInPackfile order s' h) as [[[pack hh] offset]| |]; simpl;
      try discriminate.
    destruct (offset =? -1); [discriminate|reflexivity].
  - intros (e & Hobj & He). unfold getFromPackfile, HasEncodedObject, getFromUnpacked.
    rewrite Hobj, He. simpl.
    destruct (requireIndex s) as [[[]|e'|w] s']; simpl; try discriminate.
    + destruct (findObjectInPackfile order s' h) as [[[pack hh] offset]|e0|]; simpl;
        try discriminate.
      * destruct (offset =? -1); simpl; [intros _; split; reflexivity|discriminate].
      * intros [= ->]. split; reflexivity.
    + intros [= ->]. split; reflexivity.
Qed.

Lemma HasEncodedObject_agrees_on_local_objects_witness :
  HasEncodedObject Doubles.asListed (NewObjectStorage Doubles.helloDir Doubles.noCache)
    Doubles.helloHash
  = (Ok tt, NewObjectStorage Doubles.helloDir Doubles.noCache).
Proof.
  apply (proj1 (HasEncodedObject_agrees_on_local_objects Doubles.asListed
                  (NewObjectStorage Doubles.helloDir Doubles.noCache) Doubles.helloHash)
           Doubles.helloObject).
  vm_compute. reflexivity.
Defined.

Lemma requireIndex_failure_is_not_retried_witness :
  requireIndex (set_index (NewObjectStorage Doubles.brokenDir Doubles.noCache) (Some []))
  = (Ok tt, set_index (NewObjectStorage Doubles.brokenDir Doubles.noCache) (Some [])).
Proof.
  apply (proj1 (requireIndex_failure_is_not_retried
                  (NewObjectStorage Doubles.brokenDir Doubles.noCache)
                  (set_index (NewObjectStorage Doubles.brokenDir Doubles.noCache) (Some []))
                  (ErrOther "input/output error") eq_refl)).
Defined.

(** ** The iterator over the loose objects *)

Lemma objectsIter_next_spec s t : forall h,
  exists skipped,
    Forall (passedOver s t) skipped /\
    ((h = skipped /\ objectsIter_next s t h = (Err EOF, [])) \/
     (exists x rest, h = skipped ++ x :: rest /\
        fst (objectsIter_next s t h) = getFromUnpacked s x /\
        ~ passedOver s t x /\
        snd (objectsIter_next s t h)
        = match getFromUnpacked s x with Panic _ => x :: rest | _ => rest end)).
Proof.
  induction h as [|x rest IH]; simpl.
  - exists []. split; [constructor|]. left. auto.
  - destruct (getFromUnpacked s x) as [obj|e|w] eqn:Hx.
    + destruct (bool_decide (t = AnyObject)) eqn:Ha; simpl.
      * exists []. split; [constructor|]. right. exists x, rest. simpl. rewrite Hx.
        split; [reflexivity|]. split; [reflexivity|]. split; [|reflexivity].
        intros (o & _ & Hne & _). apply bool_decide_eq_true_1 in Ha. contradiction.
      * destruct (bool_decide (t = mo_t obj)) eqn:Ht; simpl.
        -- exists []. split; [constructor|]. right. exists x, rest. simpl. rewrite Hx.
           split; [reflexivity|]. split; [reflexivity|]. split; [|reflexivity].
           intros (o & Ho & _ & Hne). rewrite Hx in Ho. injection Ho as <-.
           apply bool_decide_eq_true_1 in Ht. contradiction.
        -- destruct IH as (skipped & Hsk & Hcase).
           exists (x :: skipped). split.
           ++ constructor; [|exact Hsk]. exists obj. split; [exact Hx|].
              split; [exact (bool_decide_eq_false_1 _ Ha)|exact (bool_decide_eq_false_1 _ Ht)].
           ++ destruct Hcase as [[-> Hn] | (y & rest' & Hh & Hr & Hy & Hs)].
              ** left. auto.
              ** right. exists y, rest'. simpl. split; [f_equal; exact Hh|]. auto.
    + exists []. split; [constructor|]. right. exists x, rest. simpl. rewrite Hx.
      split; [reflexivity|]. split; [reflexivity|]. split; [|reflexivity].
      intros (o & Ho & _). rewrite Hx in Ho. discriminate.
    + exists []. split; [constructor|]. right. exists x, rest. simpl. rewrite Hx.
      split; [reflexivity|]. split; [reflexivity|]. split; [|reflexivity].
      intros (o & Ho & _). rewrite Hx in Ho. discriminate.
Qed.

(** X14. [objectsIter.Next] passes over the loose objects that are
    not of the type asked for and stops at the first hash that is not
    such an object: it returns what reading that hash gives, an
    object of the type asked for or the error of the read, and
    [iter.h] is left with the hashes after it, so that an error does
    not stop a later call from going on (a read that panics leaves
    the hash in place); when only objects of another type are left it
    returns [io.EOF] and [iter.h] is empty. *)
Theorem objectsIter_Next_stops_at_first_match (iter : objectsIter) :
  exists skipped,
    Forall (passedOver (oit_s iter) (oit_t iter)) skipped /\
    oit_s (snd (objectsIter_Next iter)) = oit_s iter /\
    oit_t (snd (objectsIter_Next iter)) = oit_t iter /\
    ((oit_h iter = skipped /\ fst (objectsIter_Next iter) = Err EOF /\
      oit_h (snd (objectsIter_Next iter)) = []) \/
     (exists x rest, oit_h iter = skipped ++ x :: rest /\
        fst (objectsIter_Next iter) = getFromUnpacked (oit_s iter) x /\
        ~ passedOver (oit_s iter) (oit_t iter) x /\
        oit_h (snd (objectsIter_Next iter))
        = match getFromUnpacked (oit_s iter) x with Panic _ => x :: rest | _ => rest end)).
Proof.
  destruct (objectsIter_next_spec (oit_s iter) (oit_t iter) (oit_h iter)) as (skipped & Hsk & Hcase).
  exists skipped. split; [exact Hsk|]. unfold objectsIter_Next.
  destruct (objectsIter_next (oit_s iter) (oit_t iter) (oit_h iter)) as [r h'] eqn:Hn. simpl.
  split; [reflexivity|]. split; [reflexivity|].
  destruct Hcase as [[Hh [= -> ->]] | (x & rest & Hh & Hr & Hx & Hs)].
  - left. auto.
  - right. exists x, rest. auto.
Qed.

Lemma objectsIter_next_shorter s t h obj h' :
  objectsIter_next s t h = (Ok obj, h') -> (length h' < length h)%nat.
Proof.
  intros Hn.
  destruct (objectsIter_next_spec s t h)
    as (skipped & _ & [[_ Hcase] | (x & rest & Hh & Hr & _ & Hs)]).
  - rewrite Hn in Hcase. discriminate.
  - rewrite Hn in Hr, Hs. simpl in Hr, Hs. rewrite <- Hr in Hs.
    rewrite Hh, Hs, length_app. simpl. lia.
Qed.

Lemma objectsIter_forEach_total {A} (cb : A -> MemoryObject -> option error * A) fuel :
  forall a iter,
    (length (oit_h iter) < fuel)%nat ->
    fst (objectsIter_forEach fuel cb a iter) <> None.
Proof.
  induction fuel as [|fuel IH]; intros a iter Hlen; [lia|]. simpl.
  unfold objectsIter_Next.
  destruct (objectsIter_next (oit_s iter) (oit_t iter) (oit_h iter)) as [[o|e|w] h'] eqn:Hn.
  - apply objectsIter_next_shorter in Hn.
    destruct (cb a o) as [[e|] a']; [discriminate|]. apply IH. simpl. lia.
  - destruct (bool_decide (e = EOF)); discriminate.
  - discriminate.
Qed.

Lemma objectsIter_next_all_read s t : forall h objs,
  Forall2 (fun x o => getFromUnpacked s x = Ok o) h objs ->
  match matching t objs with
  | [] => objectsIter_next s t h = (Err EOF, [])
  | o :: rest =>
      exists h' objs',
        objectsIter_next s t h = (Ok o, h') /\
        Forall2 (fun x o => getFromUnpacked s x = Ok o) h' objs' /\
        rest = matching t objs'
  end.
Proof.
  intros h objs Hall. induction Hall as [|x o h objs Hx Hall IH]; simpl; [reflexivity|].
  rewrite Hx.
  destruct (bool_decide (t = AnyObject) || bool_decide (t = mo_t o)) eqn:Hm.
  - assert (Hc : negb (bool_decide (t = AnyObject)) && negb (bool_decide (t = mo_t o)) = false).
    { destruct (bool_decide (t = AnyObject)), (bool_decide (t = mo_t o)); simpl in *; congruence. }
    rewrite Hc. exists h, objs. auto.
  - assert (Hc : negb (bool_decide (t = AnyObject)) && negb (bool_decide (t = mo_t o)) = true).
    { destruct (bool_decide (t = AnyObject)), (bool_decide (t = mo_t o)); simpl in *; congruence. }
    rewrite Hc. exact IH.
Qed.

Lemma objectsIter_forEach_all_read {A} (cb : A -> MemoryObject -> option error * A) s t fuel :
  (forall a o, fst (cb a o) = None) ->
  forall h objs a,
    (length h < fuel)%nat ->
    Forall2 (fun x o => getFromUnpacked s x = Ok o) h objs ->
    objectsIter_forEach fuel cb a {| oit_s := s; oit_t := t; oit_h := h |}
    = (Some (Ok tt), (visit cb a (matching t objs), {| oit_s := s; oit_t := t; oit_h := [] |})).
Proof.
  intros Hcb. induction fuel as [|fuel IH]; intros h objs a Hlen Hall; [lia|].
  simpl. unfold objectsIter_Next. simpl.
  pose proof (objectsIter_next_all_read s t h objs Hall) as Hn.
  destruct (matching t objs) as [|o rest].
  - rewrite Hn. simpl. reflexivity.
  - destruct Hn as (h' & objs' & Hn & Hall' & ->). rewrite Hn.
    pose proof (Hcb a o) as Ho. destruct (cb a o) as [[e|] a'] eqn:Hc; [discriminate|].
    apply objectsIter_next_shorter in Hn.
    rewrite (IH h' objs' a') by (assumption || lia).
    unfold visit. simpl. rewrite Hc. reflexivity.
Qed.

(** X15. [objectsIter.ForEach] always comes to an end; when every
    loose object that is left can be read and the callback accepts
    all it is given, it returns nil, the callback has been given the
    objects of the type asked for, and no other, each once, in the
    order of [iter.h], and [iter.h] is left empty. *)
Theorem objectsIter_ForEach_visits_matching {A} (cb : A -> MemoryObject -> option error * A)
    (a : A) (iter : objectsIter) :
  fst (objectsIter_ForEach cb a iter) <> None /\
  (forall objs,
     Forall2 (fun x o => getFromUnpacked (oit_s iter) x = Ok o) (oit_h iter) objs ->
     (forall a o, fst (cb a o) = None) ->
     objectsIter_ForEach cb a iter
     = (Some (Ok tt), (visit cb a (matching (oit_t iter) objs), objectsIter_Close iter))).
Proof.
  split.
  - apply objectsIter_forEach_total. lia.
  - intros objs Hall Hcb. unfold objectsIter_ForEach, objectsIter_Close.
    destruct iter as [s t h]. cbn [oit_s oit_t oit_h] in *.
    apply objectsIter_forEach_all_read; [exact Hcb|lia|exact Hall].
Qed.

(** ** Local objects come first *)

Lemma getFromPackfile_withAlternates order alts s h :
  fst (getFromPackfile order (withAlternates s alts) h) = fst (getFromPackfile order s h).
Proof.
  unfold getFromPackfile. rewrite requireIndex_withAlternates.
  destruct (requireIndex s) as [[[]|e|w] s1]; reflexivity.
Qed.

Lemma localLookup_withAlternates order alts s h :
  localLookup order (withAlternates s alts) h = localLookup order s h.
Proof.
  unfold localLookup. rewrite getFromPackfile_withAlternates. reflexivity.
Qed.

Lemma EncodedObject_of_local orders s t h :
  localLookup (orders []) s h <> Err ErrObjectNotFound ->
  fst (EncodedObject orders s t h)
  = match localLookup (orders []) s h with
    | Ok obj =>
        if negb (bool_decide (AnyObject = t)) && negb (bool_decide (mo_t obj = t))
        then Err ErrObjectNotFound else Ok obj
    | r => r
    end.
Proof.
  intros Hloc. rewrite EncodedObject_eq. unfold localLookup in *.
  destruct (getFromUnpacked s h) as [obj|e|w] eqn:Hu.
  - reflexivity.
  - destruct (decide (e = ErrObjectNotFound)) as [->|Hne].
    + destruct (getFromPackfile (orders []) s h) as [[obj|e|w] s1]; simpl in *;
        try reflexivity.
      destruct e; try reflexivity. contradiction.
    + destruct e; try reflexivity. contradiction.
  - reflexivity.
Qed.

(** X22. What the repository itself answers is final: when the loose
    lookup, or after its object-not-found the pack lookup, gives
    anything but object-not-found, [EncodedObject] never asks the
    alternates, whose content does not change its answer; an error
    is returned as it is, and an object of another type than the one
    asked for gives object-not-found, even if an alternate has an
    object of that type under the hash. *)
Theorem EncodedObject_local_outcome_is_final
    (orders : RangeOrders) (s : ObjectStorage) (t : ObjectType) (h : Hash) :
  localLookup (orders []) s h <> Err ErrObjectNotFound ->
  (forall alts,
     fst (EncodedObject orders (withAlternates s alts) t h) = fst (EncodedObject orders s t h)) /\
  (forall e, localLookup (orders []) s h = Err e -> fst (EncodedObject orders s t h) = Err e) /\
  (forall obj, localLookup (orders []) s h = Ok obj ->
     (t = AnyObject \/ mo_t obj = t -> fst (EncodedObject orders s t h) = Ok obj) /\
     (t <> AnyObject -> mo_t obj <> t ->
      forall alts,
        fst (EncodedObject orders (withAlternates s alts) t h) = Err ErrObjectNotFound)) /\
  (forall obj, getFromUnpacked s h = Ok obj -> snd (EncodedObject orders s t h) = s).
Proof.
  intros Hloc.
  assert (Halt : forall alts,
            fst (EncodedObject orders (withAlternates s alts) t h)
            = fst (EncodedObject orders s t h)).
  { intros alts.
    rewrite !EncodedObject_of_local by (rewrite ?localLookup_withAlternates; exact Hloc).
    rewrite localLookup_withAlternates. reflexivity. }
  split; [exact Halt|]. split; [|split].
  - intros e He. rewrite (EncodedObject_of_local _ _ _ _ Hloc), He. reflexivity.
  - intros obj Hobj. split.
    + intros Ht. rewrite (EncodedObject_of_local _ _ _ _ Hloc), Hobj.
      destruct Ht as [-> | <-].
      * rewrite bool_decide_eq_true_2 by reflexivity. reflexivity.
      * rewrite (bool_decide_eq_true_2 (mo_t obj = mo_t obj)) by reflexivity.
        rewrite andb_false_r. reflexivity.
    + intros Hany Hne alts. rewrite Halt, (EncodedObject_of_local _ _ _ _ Hloc), Hobj.
      rewrite !bool_decide_eq_false_2 by congruence. reflexivity.
  - intros obj Hobj. rewrite EncodedObject_eq, Hobj. reflexivity.
Qed.

(** ** The pack that holds an object *)

Lemma index_lookup_key h m idx :
  index_lookup h m = Some idx -> h ∈ (fst <$> m).
Proof.
  induction m as [|[k w] m IH]; simpl; [discriminate|].
  destruct (k =? h)%N eqn:Hk.
  - intros _. apply N.eqb_eq in Hk. subst. left.
  - intros Hl. right. exact (IH Hl).
Qed.

Lemma index_insert_keys h v m x :
  x ∈ (fst <$> index_insert h v m) -> x = h \/ x ∈ (fst <$> m).
Proof.
  induction m as [|[k w] m IH]; simpl.
  - intros Hx. apply list_elem_of_singleton in Hx. auto.
  - destruct (k =? h)%N eqn:Hk; simpl.
    + apply N.eqb_eq in Hk. subst. intros Hx. right. exact Hx.
    + intros Hx. apply elem_of_cons in Hx. destruct Hx as [-> | Hx].
      * right. left.
      * destruct (IH Hx) as [-> | Hin]; [auto|]. right. right. exact Hin.
Qed.

Lemma index_insert_unique h v m : uniqueKeys m -> uniqueKeys (index_insert h v m).
Proof.
  unfold uniqueKeys. induction m as [|[k w] m IH]; simpl; intros Hm.
  - constructor; [apply not_elem_of_nil|constructor].
  - apply NoDup_cons in Hm. destruct Hm as [Hk Hm].
    destruct (k =? h)%N eqn:Hkh; simpl.
    + apply N.eqb_eq in Hkh. subst. apply NoDup_cons. auto.
    + apply NoDup_cons. split; [|exact (IH Hm)].
      intros Hin. apply index_insert_keys in Hin. destruct Hin as [-> | Hin].
      * rewrite N.eqb_refl in Hkh. discriminate.
      * contradiction.
Qed.

Lemma loadIdxFiles_unique packs : forall s r s' m m',
  index s = Some m -> uniqueKeys m ->
  loadIdxFiles packs s = (r, s') -> index s' = Some m' -> uniqueKeys m'.
Proof.
  induction packs as [|x packs IH]; simpl; intros s r s' m m' Hm Hu.
  - intros [= _ <-] Hm'. congruence.
  - unfold loadIdxFile. rewrite Hm.
    destruct (ObjectPackIdx (dir s) x) as [f| |]; try (intros [= _ <-] Hm'; congruence).
    destruct (idx_Decode f) as [idxf| |]; try (intros [= _ <-] Hm'; congruence).
    destruct (idx_Close f); simpl.
    + intros [= _ <-] [= <-]. apply index_insert_unique, Hu.
    + apply (IH _ _ _ (index_insert x idxf m)); [reflexivity|apply index_insert_unique, Hu].
Qed.

Lemma findIn_found m h : uniqueKeys m ->
  forall pack hh offset,
  findIn m h = Ok (pack, hh, offset) ->
  ((pack, hh, offset) = (ZeroHash, ZeroHash, -1) /\
   forall k idx, index_lookup k m = Some idx -> exists e, FindOffset idx h = Err e) \/
  (hh = h /\ exists idx, index_lookup pack m = Some idx /\ FindOffset idx h = Ok offset).
Proof.
  unfold uniqueKeys. induction m as [|[k idx] m IH]; simpl; intros Hu pack hh offset.
  - intros [= <- <- <-]. left. split; [reflexivity|]. intros k idx; discriminate.
  - apply NoDup_cons in Hu. destruct Hu as [Hk Hu].
    destruct (FindOffset idx h) as [off|e|w] eqn:Hf; try discriminate.
    + intros [= <- <- <-]. right. split; [reflexivity|]. exists idx.
      rewrite N.eqb_refl. auto.
    + intros Hrest. destruct (IH Hu _ _ _ Hrest) as [[Heq Hall] | (-> & idx' & Hl & Ho)].
      * left. split; [exact Heq|]. intros k' idx'.
        destruct (k =? k')%N; [intros [= <-]; eauto|apply Hall].
      * right. split; [reflexivity|]. exists idx'.
        destruct (k =? pack)%N eqn:Hkp; [|auto].
        apply N.eqb_eq in Hkp. subst. apply index_lookup_key in Hl. contradiction.
Qed.

Lemma index_lookup_elem k idx m :
  uniqueKeys m -> index_lookup k m = Some idx <-> (k, idx) ∈ m.
Proof.
  unfold uniqueKeys. induction m as [|[k' w] m IH]; simpl; intros Hu.
  - split; [discriminate|]. intros Hin. inversion Hin.
  - apply NoDup_cons in Hu. destruct Hu as [Hk Hu].
    destruct (k' =? k)%N eqn:Hkk.
    + apply N.eqb_eq in Hkk. subst k'. split.
      * intros [= ->]. left.
      * intros Hin. apply elem_of_cons in Hin. destruct Hin as [[= ->] | Hin]; [reflexivity|].
        exfalso. apply Hk. apply list_elem_of_fmap. exists (k, idx). auto.
    + apply N.eqb_neq in Hkk. rewrite (IH Hu). split.
      * intros Hin. right. exact Hin.
      * intros Hin. apply elem_of_cons in Hin. destruct Hin as [[= -> ->] | Hin]; [|exact Hin].
        contradiction.
Qed.

(** A map has no order: what a key finds does not depend on the
    order of the list. *)
Lemma index_lookup_perm k m m' :
  uniqueKeys m -> m' ≡ₚ m -> index_lookup k m' = index_lookup k m.
Proof.
  intros Hu Hp.
  assert (Hu' : uniqueKeys m').
  { unfold uniqueKeys in *. rewrite Hp. exact Hu. }
  destruct (index_lookup k m') as [idx|] eqn:H1.
  - apply (index_lookup_elem _ _ _ Hu') in H1. rewrite Hp in H1.
    apply (index_lookup_elem _ _ _ Hu) in H1. symmetry. exact H1.
  - destruct (index_lookup k m) as [idx|] eqn:H2; [|reflexivity].
    apply (index_lookup_elem _ _ _ Hu) in H2. rewrite <- Hp in H2.
    apply (index_lookup_elem _ _ _ Hu') in H2. congruence.
Qed.

(** X23. Once the indexes are loaded, [findObjectInPackfile(h)]
    names a pack of the directory whose index is in [s.index] and
    finds [h] at the offset returned, with [h] itself as the hash;
    it answers with the zero hashes and the offset -1 only when the
    index of every pack fails to find [h].  So [getFromPackfile]
    always has an index for the pack it opens.  This holds in
    whatever order the indexes are visited. *)
Theorem findObjectInPackfile_names_loaded_pack
    (order : RangeOrder) (s s' : ObjectStorage) (packs : list Hash) (h pack hh : Hash)
    (offset : Z) :
  index s = None ->
  ObjectPacks (dir s) = Ok packs ->
  requireIndex s = (Ok tt, s') ->
  findObjectInPackfile order s' h = Ok (pack, hh, offset) ->
  ((pack, hh, offset) = (ZeroHash, ZeroHash, -1) /\
   forall k idx, index s' ≫= index_lookup k = Some idx -> exists e, FindOffset idx h = Err e) \/
  (hh = h /\ pack ∈ packs /\
   exists idx, index s' ≫= index_lookup pack = Some idx /\ FindOffset idx h = Ok offset).
Proof.
  intros Hnil Hpacks Hri Hfind.
  assert (Hload : loadIdxFiles packs (set_index s (Some [])) = (Ok tt, s')).
  { unfold requireIndex in Hri. rewrite Hnil in Hri. simpl in Hri.
    rewrite Hpacks in Hri. exact Hri. }
  destruct (loadIdxFiles_lookup packs (set_index s (Some [])) s' [] eq_refl Hload)
    as (m & Hm & _ & Hout).
  assert (Hu : uniqueKeys m).
  { apply (loadIdxFiles_unique packs (set_index s (Some [])) (Ok tt) s' [] m eq_refl);
      [constructor|exact Hload|exact Hm]. }
  unfold findObjectInPackfile in Hfind. rewrite Hm in Hfind. rewrite Hm. simpl.
  assert (Hu' : uniqueKeys (order m)).
  { unfold uniqueKeys in *. rewrite (ranged_perm order m). exact Hu. }
  destruct (findIn_found (order m) h Hu' _ _ _ Hfind) as [[Heq Hall] | (-> & idx & Hl & Ho)].
  - left. split; [exact Heq|]. intros k idx Hk. apply (Hall k).
    rewrite (index_lookup_perm k m (order m) Hu (ranged_perm order m)). exact Hk.
  - rewrite (index_lookup_perm pack m (order m) Hu (ranged_perm order m)) in Hl.
    right. split; [reflexivity|]. split; [|eauto].
    destruct (decide (pack ∈ packs)) as [Hin|Hnin]; [exact Hin|].
    rewrite (Hout _ Hnin) in Hl. discriminate.
Qed.

(** ** A read that fails in the middle of the loose objects *)

Lemma objectsIter_next_until_error s t x e rest : forall pre objs,
  Forall2 (fun x o => getFromUnpacked s x = Ok o) pre objs ->
  getFromUnpacked s x = Err e ->
  match matching t objs with
  | [] => objectsIter_next s t (pre ++ x :: rest) = (Err e, rest)
  | o :: more =>
      exists pre' objs',
        objectsIter_next s t (pre ++ x :: rest) = (Ok o, pre' ++ x :: rest) /\
        Forall2 (fun x o => getFromUnpacked s x = Ok o) pre' objs' /\
        more = matching t objs'
  end.
Proof.
  intros pre objs Hall Hx. induction Hall as [|y o pre objs Hy Hall IH]; simpl.
  - rewrite Hx. reflexivity.
  - rewrite Hy.
    destruct (bool_decide (t = AnyObject) || bool_decide (t = mo_t o)) eqn:Hm.
    + assert (Hc : negb (bool_decide (t = AnyObject)) && negb (bool_decide (t = mo_t o)) = false).
      { destruct (bool_decide (t = AnyObject)), (bool_decide (t = mo_t o)); simpl in *; congruence. }
      rewrite Hc. exists pre, objs. auto.
    + assert (Hc : negb (bool_decide (t = AnyObject)) && negb (bool_decide (t = mo_t o)) = true).
      { destruct (bool_decide (t = AnyObject)), (bool_decide (t = mo_t o)); simpl in *; congruence. }
      rewrite Hc. exact IH.
Qed.

Lemma objectsIter_forEach_until_error {A} (cb : A -> MemoryObject -> option error * A)
    s t x e rest fuel :
  (forall a o, fst (cb a o) = None) ->
  getFromUnpacked s x = Err e ->
  forall pre objs a,
    (length pre < fuel)%nat ->
    Forall2 (fun x o => getFromUnpacked s x = Ok o) pre objs ->
    objectsIter_forEach fuel cb a {| oit_s := s; oit_t := t; oit_h := pre ++ x :: rest |}
    = (Some (if bool_decide (e = EOF) then Ok tt else Err e),
       (visit cb a (matching t objs), {| oit_s := s; oit_t := t; oit_h := rest |})).
Proof.
  intros Hcb Hx. induction fuel as [|fuel IH]; intros pre objs a Hlen Hall; [lia|].
  simpl. unfold objectsIter_Next. simpl.
  pose proof (objectsIter_next_until_error s t x e rest pre objs Hall Hx) as Hn.
  destruct (matching t objs) as [|o more].
  - rewrite Hn. simpl. destruct (bool_decide (e = EOF)); reflexivity.
  - destruct Hn as (pre' & objs' & Hn & Hall' & ->). rewrite Hn.
    pose proof (Hcb a o) as Ho. destruct (cb a o) as [[e'|] a'] eqn:Hc; [discriminate|].
    apply objectsIter_next_shorter in Hn. rewrite !length_app in Hn. simpl in Hn.
    rewrite (IH pre' objs' a') by (assumption || lia).
    unfold visit. simpl. rewrite Hc. reflexivity.
Qed.

(** X24. [objectsIter.ForEach] stops at the first loose object that
    cannot be read: the callback has been given the objects of the
    type asked for that come before it, the hashes after it are left
    in [iter.h], not visited, and the error of the read is returned;
    but when that error is [io.EOF], [ForEach] takes it for the end
    of the iteration and returns nil. *)
Theorem objectsIter_ForEach_stops_at_failed_read {A}
    (cb : A -> MemoryObject -> option error * A) (a : A) (s : ObjectStorage) (t : ObjectType)
    (pre : list Hash) (objs : list MemoryObject) (x : Hash) (e : error) (rest : list Hash) :
  Forall2 (fun x o => getFromUnpacked s x = Ok o) pre objs ->
  getFromUnpacked s x = Err e ->
  (forall a o, fst (cb a o) = None) ->
  objectsIter_ForEach cb a {| oit_s := s; oit_t := t; oit_h := pre ++ x :: rest |}
  = (Some (if bool_decide (e = EOF) then Ok tt else Err e),
     (visit cb a (matching t objs), {| oit_s := s; oit_t := t; oit_h := rest |})).
Proof.
  intros Hall Hx Hcb. unfold objectsIter_ForEach. cbn [oit_h].
  apply objectsIter_forEach_until_error; try assumption.
  rewrite length_app. simpl. lia.
Qed.

(** ** The iterator over a pack *)

Section PackIterators.
Variable ComputeHash : ObjectType -> bytes -> Hash.
Variable GetByType :
  PackFile -> option Index -> option ObjectCache -> ObjectType -> result (list (result MemoryObject)).

Local Abbreviation hashOf := (Hash_of ComputeHash).
Local Abbreviation pNext := (packfileIter_Next ComputeHash).
Local Abbreviation lNext := (lazyPackfilesIter_Next ComputeHash).

Lemma packfileIter_next_spec seen : forall outs,
  exists skipped : list MemoryObject,
    Forall (fun o => hashOf o ∈ seen) skipped /\
    ((outs = Ok <$> skipped /\ packfileIter_next ComputeHash seen outs = (Err EOF, [])) \/
     (exists r, outs = (Ok <$> skipped) ++ r :: snd (packfileIter_next ComputeHash seen outs) /\
        fst (packfileIter_next ComputeHash seen outs) = r /\
        forall o, r = Ok o -> hashOf o ∉ seen)).
Proof.
  induction outs as [|[obj|e|w] rest IH]; simpl.
  - exists []. split; [constructor|]. left. auto.
  - destruct (bool_decide (hashOf obj ∈ seen)) eqn:Hs.
    + destruct IH as (skipped & Hsk & Hcase). exists (obj :: skipped). split.
      * constructor; [exact (bool_decide_eq_true_1 _ Hs)|exact Hsk].
      * destruct Hcase as [[-> Hn] | (r & Hh & Hr & Ho)].
        -- left. auto.
        -- right. exists r. simpl. split; [f_equal; exact Hh|]. auto.
    + exists []. split; [constructor|]. right. exists (Ok obj). simpl.
      split; [reflexivity|]. split; [reflexivity|].
      intros o [= <-]. exact (bool_decide_eq_false_1 _ Hs).
  - exists []. split; [constructor|]. right. exists (Err e). simpl.
    split; [reflexivity|]. split; [reflexivity|]. discriminate.
  - exists []. split; [constructor|]. right. exists (Panic w). simpl.
    split; [reflexivity|]. split; [reflexivity|]. discriminate.
Qed.

(** X16. [packfileIter.Next] passes over the objects whose hash is in
    [iter.seen] and returns the first outcome of the inner iterator
    that is not such an object: an object whose hash is not in
    [iter.seen], or an error; it returns [io.EOF] when only objects
    already seen are left.  It never returns an object whose hash is
    in [iter.seen], and it adds nothing to [iter.seen]. *)
Theorem packfileIter_Next_skips_seen (iter : packfileIter) :
  exists skipped : list MemoryObject,
    Forall (fun o => hashOf o ∈ pit_seen iter) skipped /\
    pit_seen (snd (pNext iter)) = pit_seen iter /\
    ((pit_iter iter = Ok <$> skipped /\ fst (pNext iter) = Err EOF /\
      pit_iter (snd (pNext iter)) = []) \/
     (exists r, pit_iter iter = (Ok <$> skipped) ++ r :: pit_iter (snd (pNext iter)) /\
        fst (pNext iter) = r /\
        forall o, r = Ok o -> hashOf o ∉ pit_seen iter)).
Proof.
  destruct (packfileIter_next_spec (pit_seen iter) (pit_iter iter)) as (skipped & Hsk & Hcase).
  exists skipped. split; [exact Hsk|]. unfold packfileIter_Next.
  destruct (packfileIter_next ComputeHash (pit_seen iter) (pit_iter iter)) as [r outs] eqn:Hn.
  simpl. split; [reflexivity|].
  destruct Hcase as [[Hh [= -> ->]] | (r' & Hh & Hr & Ho)].
  - left. auto.
  - right. exists r'. auto.
Qed.

Lemma packfileIter_next_shorter seen outs obj outs' :
  packfileIter_next ComputeHash seen outs = (Ok obj, outs') -> (length outs' < length outs)%nat.
Proof.
  intros Hn.
  destruct (packfileIter_next_spec seen outs) as (skipped & _ & [[_ Hcase] | (r & Hh & _ & _)]).
  - rewrite Hn in Hcase. discriminate.
  - rewrite Hn in Hh. simpl in Hh. rewrite Hh, length_app. simpl. lia.
Qed.

Lemma packfileIter_next_objects seen : forall objs,
  match unseen ComputeHash seen objs with
  | [] => packfileIter_next ComputeHash seen (Ok <$> objs) = (Err EOF, [])
  | o :: rest =>
      exists objs',
        packfileIter_next ComputeHash seen (Ok <$> objs) = (Ok o, Ok <$> objs') /\
        rest = unseen ComputeHash seen objs'
  end.
Proof.
  induction objs as [|o objs IH]; simpl; [reflexivity|].
  destruct (bool_decide (hashOf o ∈ seen)); simpl.
  - exact IH.
  - exists objs. auto.
Qed.

(** The flags of an iterator over a pack. *)
Lemma packfileIter_forEach_flags {A} (cb : A -> MemoryObject -> option error * A) fuel :
  forall a iter,
    (length (pit_iter iter) < fuel)%nat ->
    let run := packfileIter_forEach ComputeHash fuel cb a iter in
    fst run <> None /\
    (fst run = Some (Ok tt) ->
       pit_iterClosed (snd (snd run)) = true /\
       pit_packClosed (snd (snd run)) = pit_packClosed iter || negb (pit_keepPack iter)) /\
    (fst run <> Some (Ok tt) ->
       pit_iterClosed (snd (snd run)) = pit_iterClosed iter /\
       pit_packClosed (snd (snd run)) = pit_packClosed iter).
Proof.
  induction fuel as [|fuel IH]; intros a iter Hlen; [lia|]. simpl.
  unfold packfileIter_Next.
  destruct (packfileIter_next ComputeHash (pit_seen iter) (pit_iter iter)) as [[o|e|w] outs] eqn:Hn.
  - apply packfileIter_next_shorter in Hn.
    destruct (cb a o) as [[e|] a']; simpl.
    + split; [discriminate|]. split; [discriminate|]. auto.
    + apply (IH a' (set_pit_iter outs iter)). simpl. lia.
  - destruct (bool_decide (e = EOF)); simpl.
    + split; [discriminate|]. split; [auto|]. intros Hne. contradiction.
    + split; [discriminate|]. split; [discriminate|]. auto.
  - simpl. split; [discriminate|]. split; [discriminate|]. auto.
Qed.

Lemma packfileIter_forEach_objects {A} (cb : A -> MemoryObject -> option error * A) fuel :
  (forall a o, fst (cb a o) = None) ->
  forall objs a iter,
    (length objs < fuel)%nat ->
    pit_iter iter = Ok <$> objs ->
    fst (packfileIter_forEach ComputeHash fuel cb a iter) = Some (Ok tt) /\
    fst (snd (packfileIter_forEach ComputeHash fuel cb a iter))
    = visit cb a (unseen ComputeHash (pit_seen iter) objs).
Proof.
  intros Hcb. induction fuel as [|fuel IH]; intros objs a iter Hlen Hobjs; [lia|].
  simpl. unfold packfileIter_Next. rewrite Hobjs.
  pose proof (packfileIter_next_objects (pit_seen iter) objs) as Hn.
  destruct (unseen ComputeHash (pit_seen iter) objs) as [|o rest].
  - rewrite Hn. simpl. auto.
  - destruct Hn as (objs' & Hn & ->). rewrite Hn.
    pose proof (Hcb a o) as Ho. destruct (cb a o) as [[e|] a'] eqn:Hc; [discriminate|].
    apply packfileIter_next_shorter in Hn. rewrite !length_fmap in Hn.
    destruct (IH objs' a' (set_pit_iter (Ok <$> objs') iter)) as [H1 H2];
      [lia|reflexivity|].
    split; [exact H1|]. rewrite H2. unfold visit. simpl. rewrite Hc. reflexivity.
Qed.

(** X17. [packfileIter.ForEach] always comes to an end, and it closes
    the iterator only when the inner iterator answers [io.EOF]: then
    it returns nil, the inner iterator is closed, and the pack file
    too unless [keepPack] is set; when it returns the error of the
    inner iterator or of the callback, nothing has been closed.  When
    the inner iterator has objects only and the callback accepts all
    it is given, the callback has been given the objects whose hash
    is not in [iter.seen], each in its turn. *)
Theorem packfileIter_ForEach_closes_at_EOF {A} (cb : A -> MemoryObject -> option error * A)
    (a : A) (iter : packfileIter) :
  fst (packfileIter_ForEach ComputeHash cb a iter) <> None /\
  (fst (packfileIter_ForEach ComputeHash cb a iter) = Some (Ok tt) ->
     pit_iterClosed (snd (snd (packfileIter_ForEach ComputeHash cb a iter))) = true /\
     pit_packClosed (snd (snd (packfileIter_ForEach ComputeHash cb a iter)))
     = pit_packClosed iter || negb (pit_keepPack iter)) /\
  (fst (packfileIter_ForEach ComputeHash cb a iter) <> Some (Ok tt) ->
     pit_iterClosed (snd (snd (packfileIter_ForEach ComputeHash cb a iter)))
     = pit_iterClosed iter /\
     pit_packClosed (snd (snd (packfileIter_ForEach ComputeHash cb a iter)))
     = pit_packClosed iter) /\
  (forall objs,
     pit_iter iter = Ok <$> objs ->
     (forall a o, fst (cb a o) = None) ->
     fst (packfileIter_ForEach ComputeHash cb a iter) = Some (Ok tt) /\
     fst (snd (packfileIter_ForEach ComputeHash cb a iter))
     = visit cb a (unseen ComputeHash (pit_seen iter) objs)).
Proof.
  unfold packfileIter_ForEach.
  destruct (packfileIter_forEach_flags cb (Datatypes.S (length (pit_iter iter))) a iter)
    as (H1 & H2 & H3); [lia|].
  split; [exact H1|]. split; [exact H2|]. split; [exact H3|].
  intros objs Hobjs Hcb.
  apply packfileIter_forEach_objects; [exact Hcb| |exact Hobjs].
  rewrite Hobjs, length_fmap. lia.
Qed.

(** ** The iterator over the packs *)

Lemma lazy_next_left open seen : forall hashes packs closed,
  Forall2 (fun h objs => opensWith open h objs seen) hashes packs ->
  match concat (unseen ComputeHash seen <$> packs) with
  | [] =>
      exists closed',
        lazyPackfilesIter_next ComputeHash open hashes closed
        = (Err EOF, {| lz_hashes := []; lz_open := open; lz_cur := None;
                       lz_closed := closed ++ closed' |}) /\
        Forall (fun c => pit_iterClosed c = true) closed' /\
        length closed' = length hashes
  | o :: rest =>
      exists hashes' packs' sub cur' closed',
        lazyPackfilesIter_next ComputeHash open hashes closed
        = (Ok o, {| lz_hashes := hashes'; lz_open := open; lz_cur := Some sub;
                    lz_closed := closed ++ closed' |}) /\
        pit_iter sub = Ok <$> cur' /\ pit_seen sub = seen /\
        Forall2 (fun h objs => opensWith open h objs seen) hashes' packs' /\
        rest = unseen ComputeHash seen cur' ++ concat (unseen ComputeHash seen <$> packs') /\
        Forall (fun c => pit_iterClosed c = true) closed' /\
        (length closed' + length hashes' + 1 = length hashes)%nat
  end.
Proof.
  intros hashes packs closed Hall. revert closed.
  induction Hall as [|h objs hashes packs (sub & Hopen & Hiter & Hseen) Hall IH]; intros closed.
  - simpl. exists []. rewrite app_nil_r. auto.
  - cbn [fmap list_fmap concat lazyPackfilesIter_next]. rewrite Hopen.
    unfold packfileIter_Next. rewrite Hiter, Hseen.
    pose proof (packfileIter_next_objects seen objs) as Hn.
    destruct (unseen ComputeHash seen objs) as [|o rest].
    + rewrite Hn. cbn [app]. rewrite bool_decide_eq_true_2 by reflexivity.
      specialize (IH (closed ++ [packfileIter_Close (set_pit_iter [] sub)])).
      destruct (concat (unseen ComputeHash seen <$> packs)) as [|o rest].
      * destruct IH as (closed' & Hrun & Hcl & Hlen).
        exists (packfileIter_Close (set_pit_iter [] sub) :: closed').
        rewrite Hrun, <- app_assoc. simpl.
        repeat split; [constructor; [reflexivity|exact Hcl]|lia].
      * destruct IH as (hashes' & packs' & sub' & cur' & closed' & Hrun & Hi & Hs & Hall' & Hrest
                        & Hcl & Hlen).
        exists hashes', packs', sub', cur', (packfileIter_Close (set_pit_iter [] sub) :: closed').
        rewrite Hrun, <- app_assoc. simpl.
        repeat split; try assumption; [constructor; [reflexivity|exact Hcl]|lia].
    + destruct Hn as (objs' & Hn & ->). rewrite Hn. cbn [app].
      exists hashes, packs, (set_pit_iter (Ok <$> objs') sub), objs', [].
      rewrite app_nil_r. simpl. repeat split; try assumption; [constructor|lia].
Qed.

Lemma lazy_Next_left seen (it : lazyPackfilesIter) cur packs :
  leftOf seen it cur packs ->
  match unseen ComputeHash seen cur ++ concat (unseen ComputeHash seen <$> packs) with
  | [] =>
      exists closed',
        lNext it
        = (Err EOF, {| lz_hashes := []; lz_open := lz_open it; lz_cur := None;
                       lz_closed := lz_closed it ++ closed' |}) /\
        Forall (fun c => pit_iterClosed c = true) closed' /\
        length closed' = pending it
  | o :: rest =>
      exists it' cur' packs' closed',
        lNext it = (Ok o, it') /\
        leftOf seen it' cur' packs' /\
        rest = unseen ComputeHash seen cur' ++ concat (unseen ComputeHash seen <$> packs') /\
        lz_closed it' = lz_closed it ++ closed' /\
        Forall (fun c => pit_iterClosed c = true) closed' /\
        (length closed' + pending it' = pending it)%nat
  end.
Proof.
  intros [Hcur Hall]. unfold lazyPackfilesIter_Next, pending.
  destruct (lz_cur it) as [sub|].
  - destruct Hcur as [Hiter Hseen]. unfold packfileIter_Next. rewrite Hiter, Hseen.
    pose proof (packfileIter_next_objects seen cur) as Hn.
    destruct (unseen ComputeHash seen cur) as [|o rest].
    + rewrite Hn. cbn [app]. rewrite bool_decide_eq_true_2 by reflexivity.
      pose proof (lazy_next_left (lz_open it) seen _ _
                    (lz_closed it ++ [packfileIter_Close (set_pit_iter [] sub)]) Hall) as Hl.
      destruct (concat (unseen ComputeHash seen <$> packs)) as [|o rest].
      * destruct Hl as (closed' & Hrun & Hcl & Hlen).
        exists (packfileIter_Close (set_pit_iter [] sub) :: closed').
        rewrite Hrun, <- app_assoc. simpl.
        repeat split; [constructor; [reflexivity|exact Hcl]|lia].
      * destruct Hl as (hashes' & packs' & sub' & cur' & closed' & Hrun & Hi & Hs & Hall' & Hrest
                        & Hcl & Hlen).
        eexists _, cur', packs', (packfileIter_Close (set_pit_iter [] sub) :: closed').
        rewrite Hrun, <- app_assoc. split; [reflexivity|]. simpl.
        repeat split; try assumption; [constructor; [reflexivity|exact Hcl]|lia].
    + destruct Hn as (objs' & Hn & ->). rewrite Hn. cbn [app].
      eexists _, objs', packs, []. split; [reflexivity|]. simpl. rewrite app_nil_r.
      repeat split; try assumption. constructor.
  - subst cur. cbn [unseen List.filter app].
    pose proof (lazy_next_left (lz_open it) seen _ _ (lz_closed it) Hall) as Hl.
    destruct (concat (unseen ComputeHash seen <$> packs)) as [|o rest].
    + destruct Hl as (closed' & Hrun & Hcl & Hlen).
      exists closed'. rewrite Hrun. repeat split; [exact Hcl|lia].
    + destruct Hl as (hashes' & packs' & sub' & cur' & closed' & Hrun & Hi & Hs & Hall' & Hrest
                      & Hcl & Hlen).
      eexists _, cur', packs', closed'. rewrite Hrun. split; [reflexivity|]. simpl.
      repeat split; try assumption. lia.
Qed.

Lemma nextN_left seen : forall all (it : lazyPackfilesIter) cur packs,
  leftOf seen it cur packs ->
  all = unseen ComputeHash seen cur ++ concat (unseen ComputeHash seen <$> packs) ->
  exists closed',
    nextN ComputeHash (Datatypes.S (length all)) it
    = ((Ok <$> all) ++ [Err EOF],
       {| lz_hashes := []; lz_open := lz_open it; lz_cur := None;
          lz_closed := lz_closed it ++ closed' |}) /\
    Forall (fun c => pit_iterClosed c = true) closed' /\
    length closed' = pending it.
Proof.
  induction all as [|o all IH]; intros it cur packs Hleft Hall.
  - pose proof (lazy_Next_left seen it cur packs Hleft) as Hstep. rewrite <- Hall in Hstep.
    destruct Hstep as (closed' & Hrun & Hcl & Hlen).
    exists closed'. simpl. rewrite Hrun. auto.
  - pose proof (lazy_Next_left seen it cur packs Hleft) as Hstep. rewrite <- Hall in Hstep.
    destruct Hstep as (it' & cur' & packs' & closed1 & Hrun & Hleft' & Hrest & Hc1 & Hcl1 & Hlen1).
    destruct (IH it' cur' packs' Hleft' Hrest) as (closed2 & Hrun2 & Hcl2 & Hlen2).
    assert (Hopen : lz_open it' = lz_open it).
    { revert Hrun. unfold lazyPackfilesIter_Next.
      assert (Hn : forall hashes closed r it0,
                 lazyPackfilesIter_next ComputeHash (lz_open it) hashes closed = (r, it0) ->
                 lz_open it0 = lz_open it).
      { induction hashes as [|h hashes IHh]; simpl; intros closed r it0.
        - intros [= _ <-]. reflexivity.
        - destruct (lz_open it h) as [sub| |].
          + destruct (packfileIter_Next ComputeHash sub) as [[ob|e|w] sub'].
            * intros [= _ <-]. reflexivity.
            * destruct (bool_decide (e = EOF)); [apply IHh|intros [= _ <-]; reflexivity].
            * intros [= _ <-]. reflexivity.
          + destruct (bool_decide (e = EOF)); [apply IHh|intros [= _ <-]; reflexivity].
          + intros [= _ <-]. reflexivity. }
      destruct (lz_cur it) as [sub|]; [|apply Hn].
      destruct (packfileIter_Next ComputeHash sub) as [[ob|e|w] sub'].
      - intros [= _ <-]; reflexivity.
      - destruct (bool_decide (e = EOF)); [apply Hn|intros [= _ <-]; reflexivity].
      - intros [= _ <-]; reflexivity. }
    exists (closed1 ++ closed2).
    change (nextN ComputeHash (Datatypes.S (length (o :: all))) it)
      with (let '(r, it1) := lNext it in
            let '(rs, it2) := nextN ComputeHash (Datatypes.S (length all)) it1 in
            (r :: rs, it2)).
    rewrite Hrun, Hrun2, Hopen, Hc1, <- app_assoc. simpl.
    repeat split; [apply Forall_app; auto|rewrite length_app; lia].
Qed.

(** X18. A lazy iterator over packs that all open, with iterators
    that hold objects and no error: one call of [Next] after the
    other returns the objects that the open iterator still holds,
    then those of each pack in the order of [it.hashes], leaving out
    the objects whose hash has been seen; the call after the last
    object returns [io.EOF], and then every iterator that was open or
    was opened has been closed, no hash is left and no iterator is
    open, so that [Next] keeps returning [io.EOF]. *)
Theorem lazyPackfilesIter_yields_packs_in_order
    (seen : gset N) (it : lazyPackfilesIter)
    (cur : list MemoryObject) (packs : list (list MemoryObject)) :
  leftOf seen it cur packs ->
  exists closed',
    nextN ComputeHash
      (Datatypes.S (length (unseen ComputeHash seen cur
                            ++ concat (unseen ComputeHash seen <$> packs)))) it
    = ((Ok <$> (unseen ComputeHash seen cur ++ concat (unseen ComputeHash seen <$> packs)))
         ++ [Err EOF],
       {| lz_hashes := []; lz_open := lz_open it; lz_cur := None;
          lz_closed := lz_closed it ++ closed' |}) /\
    Forall (fun c => pit_iterClosed c = true) closed' /\
    length closed' = pending it /\
    fst (lNext {| lz_hashes := []; lz_open := lz_open it; lz_cur := None;
                  lz_closed := lz_closed it ++ closed' |}) = Err EOF.
Proof.
  intros Hleft.
  destruct (nextN_left seen _ it cur packs Hleft eq_refl) as (closed' & Hrun & Hcl & Hlen).
  exists closed'. repeat split; assumption.
Qed.

(** X19. A pack that cannot be opened is lost to the iteration: when
    no iterator is open and opening the next pack fails, [Next]
    returns the error, unless it is [io.EOF], and the pack's hash is
    off [it.hashes] all the same, so that the next call goes on with
    the pack after it; when opening answers [io.EOF] the pack is
    passed over and [Next] goes on at once.  With no hash left and no
    iterator open, [Next] returns [io.EOF] and changes nothing. *)
Theorem lazyPackfilesIter_drops_pack_that_fails_to_open
    (open : Hash -> result packfileIter) (h : Hash) (rest : list Hash)
    (closed : list packfileIter) (e : error) :
  open h = Err e ->
  (e <> EOF ->
     lNext {| lz_hashes := h :: rest; lz_open := open; lz_cur := None; lz_closed := closed |}
     = (Err e, {| lz_hashes := rest; lz_open := open; lz_cur := None; lz_closed := closed |})) /\
  (e = EOF ->
     lNext {| lz_hashes := h :: rest; lz_open := open; lz_cur := None; lz_closed := closed |}
     = lNext {| lz_hashes := rest; lz_open := open; lz_cur := None; lz_closed := closed |}) /\
  lNext {| lz_hashes := []; lz_open := open; lz_cur := None; lz_closed := closed |}
  = (Err EOF, {| lz_hashes := []; lz_open := open; lz_cur := None; lz_closed := closed |}).
Proof.
  intros Hopen. unfold lazyPackfilesIter_Next. simpl. rewrite Hopen.
  split; [|split].
  - intros Hne. rewrite bool_decide_eq_false_2 by exact Hne. reflexivity.
  - intros ->. rewrite bool_decide_eq_true_2 by reflexivity. reflexivity.
  - reflexivity.
Qed.

(** ** All the objects *)

(** X20. [IterEncodedObjects] fails with the error of listing the
    loose objects without loading any index.  When it succeeds, the
    pack indexes are loaded; the iterator over the loose objects is
    there exactly when there are loose objects, and holds their
    hashes; the iterator over the packs holds the hashes of the packs
    of the directory, none open yet; and every iterator that it opens
    on a pack has the loose hashes as its [seen]: it never returns an
    object that has a loose copy. *)
Theorem IterEncodedObjects_hides_loose_objects_in_packs
    (objects : list Hash) (s s' : ObjectStorage) (t : ObjectType)
    (loose : option objectsIter) (packi : lazyPackfilesIter) :
  (forall e, IterEncodedObjects GetByType (Err e) s t = (Err e, s)) /\
  (IterEncodedObjects GetByType (Ok objects) s t = (Ok (loose, packi), s') ->
   requireIndex s = (Ok tt, s') /\
   ObjectPacks (dir s') = Ok (lz_hashes packi) /\
   lz_cur packi = None /\
   (loose = None <-> objects = []) /\
   (forall l, loose = Some l -> oit_h l = objects /\ oit_t l = t /\ oit_s l = s') /\
   (forall h sub, lz_open packi h = Ok sub ->
      pit_seen sub = list_to_set objects /\
      pit_keepPack sub = KeepDescriptors (options s') /\
      forall o, fst (pNext sub) = Ok o -> hashOf o ∉ objects)).
Proof.
  split; [reflexivity|].
  unfold IterEncodedObjects, buildPackfileIters.
  destruct (requireIndex s) as [[[]|e|w] s1] eqn:Hri; try discriminate.
  destruct (ObjectPacks (dir s1)) as [packs| |] eqn:Hpacks; try discriminate.
  simpl. intros [= <- <- <-].
  assert (Hseen : (if (length objects =? 0)%nat then ∅ else hashListAsMap objects)
                  = (list_to_set objects : gset N)).
  { destruct objects; reflexivity. }
  split; [reflexivity|]. split; [exact Hpacks|]. split; [reflexivity|]. split; [|split].
  - destruct objects; simpl; split; intros; congruence.
  - intros l. destruct objects; simpl; [discriminate|]. intros [= <-]. auto.
  - intros h sub. simpl. unfold openPack, newPackfileIter.
    destruct (ObjectPack (dir s1) h) as [pack| |]; try discriminate. simpl.
    destruct (GetByType pack _ _ t) as [iter| |]; try discriminate. simpl.
    intros [= <-]. simpl. rewrite Hseen. split; [reflexivity|]. split; [reflexivity|].
    intros o. unfold packfileIter_Next. simpl.
    destruct (packfileIter_next_spec (list_to_set objects) iter)
      as (skipped & _ & [[_ Hn] | (r & _ & Hr & Ho)]).
    + rewrite Hn. discriminate.
    + destruct (packfileIter_next ComputeHash (list_to_set objects) iter) as [r' outs].
      simpl in *. subst r'. intros ->.
      intros Hin. apply (Ho o eq_refl). apply elem_of_list_to_set. exact Hin.
Qed.

(** ** An iterator over one pack, made from its two files *)

Lemma unseen_empty objs : unseen ComputeHash ∅ objs = objs.
Proof.
  unfold unseen. induction objs as [|o objs IH]; simpl; [reflexivity|].
  rewrite bool_decide_eq_false_2 by apply not_elem_of_empty. simpl. rewrite IH. reflexivity.
Qed.

(** X25. [NewPackfileIter] returns the error of decoding the index
    file, or else the error of closing it, without asking the pack
    for its objects.  The iterator it returns is over the pack with
    the decoded index and no cache, keeps [keepPack], and has seen
    nothing: [Next] returns the outcomes of the inner iterator one by
    one, and [ForEach] gives the callback every object of the pack. *)
Theorem NewPackfileIter_skips_nothing
    (f : PackFile) (idxFile : IdxFile) (t : ObjectType) (keepPack : bool) :
  (forall e, idx_Decode idxFile = Err e ->
     NewPackfileIter GetByType f idxFile t keepPack = Err e) /\
  (forall idx e, idx_Decode idxFile = Ok idx -> idx_Close idxFile = Some e ->
     NewPackfileIter GetByType f idxFile t keepPack = Err e) /\
  (forall iter, NewPackfileIter GetByType f idxFile t keepPack = Ok iter ->
     (exists idx, idx_Decode idxFile = Ok idx /\ idx_Close idxFile = None /\
        GetByType f (Some idx) None t = Ok (pit_iter iter)) /\
     pit_keepPack iter = keepPack /\
     (forall r outs, pit_iter iter = r :: outs -> pNext iter = (r, set_pit_iter outs iter)) /\
     (pit_iter iter = [] -> fst (pNext iter) = Err EOF) /\
     (forall A (cb : A -> MemoryObject -> option error * A) a objs,
        pit_iter iter = Ok <$> objs ->
        (forall a o, fst (cb a o) = None) ->
        fst (packfileIter_ForEach ComputeHash cb a iter) = Some (Ok tt) /\
        fst (snd (packfileIter_ForEach ComputeHash cb a iter)) = visit cb a objs)).
Proof.
  unfold NewPackfileIter, newPackfileIter. split; [|split].
  - intros e ->. reflexivity.
  - intros idx e -> ->. reflexivity.
  - intros iter. destruct (idx_Decode idxFile) as [idx| |]; simpl; try discriminate.
    destruct (idx_Close idxFile); try discriminate.
    destruct (GetByType f (Some idx) None t) as [outs0| |] eqn:Hget; simpl; try discriminate.
    intros [= <-]. simpl. split; [eauto|]. split; [reflexivity|]. split; [|split].
    + intros r outs ->. unfold packfileIter_Next. simpl.
      destruct r as [o| |]; reflexivity.
    + intros ->. reflexivity.
    + intros A cb a objs Hobjs Hcb. unfold packfileIter_ForEach.
      destruct (packfileIter_forEach_objects cb (Datatypes.S (length outs0)) Hcb objs a
                  {| pit_pack := f; pit_iter := outs0; pit_seen := ∅; pit_keepPack := keepPack;
                     pit_iterClosed := false; pit_packClosed := false |}) as [H1 H2].
      * rewrite Hobjs, length_fmap. lia.
      * exact Hobjs.
      * simpl in *. rewrite unseen_empty in H2. auto.
Qed.

(** X27. [lazyPackfilesIter.Close] ends the iteration: it closes the
    pack iterator that is open, if there is one (and with it the pack
    file, unless [keepPack] is set), and forgets the packs not opened
    yet, so that [Next] answers [io.EOF] from then on and opens no
    pack; a second [Close] changes nothing. *)
Theorem lazyPackfilesIter_Close_ends_iteration (it : lazyPackfilesIter) :
  lNext (lazyPackfilesIter_Close it) = (Err EOF, lazyPackfilesIter_Close it) /\
  lazyPackfilesIter_Close (lazyPackfilesIter_Close it) = lazyPackfilesIter_Close it /\
  pending (lazyPackfilesIter_Close it) = 0%nat /\
  lz_closed (lazyPackfilesIter_Close it)
  = lz_closed it ++ match lz_cur it with
                    | Some cur => [packfileIter_Close cur]
                    | None => []
                    end /\
  Forall (fun c => pit_iterClosed c = true /\
                   (pit_keepPack c = false -> pit_packClosed c = true))
    (match lz_cur it with Some cur => [packfileIter_Close cur] | None => [] end).
Proof.
  unfold lazyPackfilesIter_Close, lazyPackfilesIter_Next, pending. simpl.
  repeat split.
  - destruct (lz_cur it); [reflexivity|]. rewrite app_nil_r. reflexivity.
  - destruct (lz_cur it) as [cur|]; constructor; [|constructor].
    simpl. split; [reflexivity|]. intros ->. apply orb_true_r.
Qed.

End PackIterators.

(** ** The theorems at work on the directories of the scenarios *)

Lemma requireIndex_loads_every_pack_witness :
  exists m,
    index (set_index (NewObjectStorage Doubles.packedDir Doubles.noCache)
             (Some [(Doubles.packName, Doubles.twoBlobsIndex)])) = Some m /\
    (forall h, h ∈ [Doubles.packName] ->
       exists f idx, ObjectPackIdx Doubles.packedDir h = Ok f /\ idx_Decode f = Ok idx /\
                     idx_Close f = None /\ index_lookup h m = Some idx) /\
    (forall h, h ∉ [Doubles.packName] -> index_lookup h m = None) /\
    requireIndex (set_index (NewObjectStorage Doubles.packedDir Doubles.noCache)
                    (Some [(Doubles.packName, Doubles.twoBlobsIndex)]))
    = (Ok tt, set_index (NewObjectStorage Doubles.packedDir Doubles.noCache)
                (Some [(Doubles.packName, Doubles.twoBlobsIndex)])).
Proof.
  apply (requireIndex_loads_every_pack
           (NewObjectStorage Doubles.packedDir Doubles.noCache)
           (set_index (NewObjectStorage Doubles.packedDir Doubles.noCache)
              (Some [(Doubles.packName, Doubles.twoBlobsIndex)]))
           [Doubles.packName]); reflexivity.
Defined.

Lemma objectsIter_ForEach_visits_matching_witness :
  objectsIter_ForEach Doubles.collect []
    {| oit_s := NewObjectStorage Doubles.helloDir Doubles.noCache; oit_t := BlobObject;
       oit_h := [Doubles.helloHash] |}
  = (Some (Ok tt),
     (visit Doubles.collect [] (matching BlobObject [Doubles.helloObject]),
      objectsIter_Close
        {| oit_s := NewObjectStorage Doubles.helloDir Doubles.noCache; oit_t := BlobObject;
           oit_h := [Doubles.helloHash] |})).
Proof.
  apply (proj2 (objectsIter_ForEach_visits_matching Doubles.collect []
                  {| oit_s := NewObjectStorage Doubles.helloDir Doubles.noCache;
                     oit_t := BlobObject; oit_h := [Doubles.helloHash] |})
           [Doubles.helloObject]).
  - constructor; [vm_compute; reflexivity|constructor].
  - reflexivity.
Defined.

Lemma packfileIter_ForEach_closes_at_EOF_witness :
  fst (packfileIter_ForEach Doubles.toyHash Doubles.collect []
         (Doubles.twoBlobsIter {[Doubles.helloHash]})) = Some (Ok tt) /\
  fst (snd (packfileIter_ForEach Doubles.toyHash Doubles.collect []
              (Doubles.twoBlobsIter {[Doubles.helloHash]})))
  = visit Doubles.collect []
      (unseen Doubles.toyHash {[Doubles.helloHash]} [Doubles.helloObject; Doubles.worldObject]).
Proof.
  refine (proj2 (proj2 (proj2 (packfileIter_ForEach_closes_at_EOF Doubles.toyHash Doubles.collect []
                                 (Doubles.twoBlobsIter {[Doubles.helloHash]}))))
            [Doubles.helloObject; Doubles.worldObject] _ _).
  - reflexivity.
  - reflexivity.
Defined.

Lemma lazyPackfilesIter_yields_packs_in_order_witness :
  exists closed',
    nextN Doubles.toyHash
      (Datatypes.S (length (unseen Doubles.toyHash {[Doubles.helloHash]} []
                            ++ concat (unseen Doubles.toyHash {[Doubles.helloHash]}
                                         <$> [[Doubles.helloObject; Doubles.worldObject]]))))
      {| lz_hashes := [Doubles.packName];
         lz_open := fun _ => Ok (Doubles.twoBlobsIter {[Doubles.helloHash]});
         lz_cur := None; lz_closed := [] |}
    = ((Ok <$> (unseen Doubles.toyHash {[Doubles.helloHash]} []
                ++ concat (unseen Doubles.toyHash {[Doubles.helloHash]}
                             <$> [[Doubles.helloObject; Doubles.worldObject]])))
         ++ [Err EOF],
       {| lz_hashes := [];
          lz_open := fun _ => Ok (Doubles.twoBlobsIter {[Doubles.helloHash]});
          lz_cur := None; lz_closed := [] ++ closed' |}) /\
    Forall (fun c => pit_iterClosed c = true) closed' /\
    length closed' = 1%nat /\
    fst (lazyPackfilesIter_Next Doubles.toyHash
           {| lz_hashes := [];
              lz_open := fun _ => Ok (Doubles.twoBlobsIter {[Doubles.helloHash]});
              lz_cur := None; lz_closed := [] ++ closed' |}) = Err EOF.
Proof.
  apply (lazyPackfilesIter_yields_packs_in_order Doubles.toyHash {[Doubles.helloHash]}
           {| lz_hashes := [Doubles.packName];
              lz_open := fun _ => Ok (Doubles.twoBlobsIter {[Doubles.helloHash]});
              lz_cur := None; lz_closed := [] |}
           [] [[Doubles.helloObject; Doubles.worldObject]]).
  split; [reflexivity|]. constructor; [|constructor].
  eexists. split; [reflexivity|]. split; reflexivity.
Defined.

Lemma lazyPackfilesIter_drops_pack_that_fails_to_open_witness :
  lazyPackfilesIter_Next Doubles.toyHash
    {| lz_hashes := [Doubles.packName; 7%N];
       lz_open := openPack Doubles.twoBlobsByType
                    (NewObjectStorage Doubles.brokenDir Doubles.noCache) AnyObject ∅;
       lz_cur := None; lz_closed := [] |}
  = (Err (ErrOther "input/output error"),
     {| lz_hashes := [7%N];
        lz_open := openPack Doubles.twoBlobsByType
                     (NewObjectStorage Doubles.brokenDir Doubles.noCache) AnyObject ∅;
        lz_cur := None; lz_closed := [] |}).
Proof.
  apply (proj1 (lazyPackfilesIter_drops_pack_that_fails_to_open Doubles.toyHash
                  (openPack Doubles.twoBlobsByType
                     (NewObjectStorage Doubles.brokenDir Doubles.noCache) AnyObject ∅)
                  Doubles.packName [7%N] [] (ErrOther "input/output error") eq_refl)).
  discriminate.
Defined.

Lemma IterEncodedObjects_hides_loose_objects_in_packs_witness :
  requireIndex (NewObjectStorage Doubles.packedDir Doubles.noCache)
  = (Ok tt, set_index (NewObjectStorage Doubles.packedDir Doubles.noCache)
              (Some [(Doubles.packName, Doubles.twoBlobsIndex)])) /\
  ObjectPacks Doubles.packedDir = Ok [Doubles.packName].
Proof.
  destruct (proj2 (IterEncodedObjects_hides_loose_objects_in_packs Doubles.toyHash
                     Doubles.twoBlobsByType [Doubles.helloHash]
                     (NewObjectStorage Doubles.packedDir Doubles.noCache)
                     (set_index (NewObjectStorage Doubles.packedDir Doubles.noCache)
                        (Some [(Doubles.packName, Doubles.twoBlobsIndex)]))
                     AnyObject
                     (Some {| oit_s := set_index (NewObjectStorage Doubles.packedDir Doubles.noCache)
                                         (Some [(Doubles.packName, Doubles.twoBlobsIndex)]);
                              oit_t := AnyObject; oit_h := [Doubles.helloHash] |})
                     {| lz_hashes := [Doubles.packName];
                        lz_open := openPack Doubles.twoBlobsByType
                                     (set_index (NewObjectStorage Doubles.packedDir Doubles.noCache)
                                        (Some [(Doubles.packName, Doubles.twoBlobsIndex)]))
                                     AnyObject (hashListAsMap [Doubles.helloHash]);
                        lz_cur := None; lz_closed := [] |})
            eq_refl) as (Hri & Hpacks & _).
  split; [exact Hri|exact Hpacks].
Defined.


Lemma EncodedObject_local_outcome_is_final_witness :
  fst (EncodedObject (Doubles.always Doubles.asListed)
         (withAlternates (NewObjectStorage Doubles.helloDir Doubles.noCache)
            (Ok [Doubles.brokenDir]))
         BlobObject Doubles.helloHash)
  = fst (EncodedObject (Doubles.always Doubles.asListed)
           (NewObjectStorage Doubles.helloDir Doubles.noCache)
           BlobObject Doubles.helloHash).
Proof.
  apply (proj1 (EncodedObject_local_outcome_is_final (Doubles.always Doubles.asListed)
                  (NewObjectStorage Doubles.helloDir Doubles.noCache)
                  BlobObject Doubles.helloHash ltac:(vm_compute; discriminate))).
Defined.

Lemma findObjectInPackfile_names_loaded_pack_witness :
  ((Doubles.packName, Doubles.worldHash, 27) = (ZeroHash, ZeroHash, -1) /\
   forall k idx,
     index (set_index (NewObjectStorage Doubles.packedDir Doubles.noCache)
              (Some [(Doubles.packName, Doubles.twoBlobsIndex)])) ≫= index_lookup k = Some idx ->
     exists e, FindOffset idx Doubles.worldHash = Err e) \/
  (Doubles.worldHash = Doubles.worldHash /\ Doubles.packName ∈ [Doubles.packName] /\
   exists idx,
     index (set_index (NewObjectStorage Doubles.packedDir Doubles.noCache)
              (Some [(Doubles.packName, Doubles.twoBlobsIndex)]))
       ≫= index_lookup Doubles.packName = Some idx /\
     FindOffset idx Doubles.worldHash = Ok 27).
Proof.
  apply (findObjectInPackfile_names_loaded_pack Doubles.backwards
           (NewObjectStorage Doubles.packedDir Doubles.noCache)
           (set_index (NewObjectStorage Doubles.packedDir Doubles.noCache)
              (Some [(Doubles.packName, Doubles.twoBlobsIndex)]))
           [Doubles.packName] Doubles.worldHash Doubles.packName Doubles.worldHash 27);
    reflexivity.
Defined.

Lemma objectsIter_ForEach_stops_at_failed_read_witness :
  objectsIter_ForEach Doubles.collect []
    {| oit_s := NewObjectStorage Doubles.truncatedDir Doubles.noCache; oit_t := AnyObject;
       oit_h := [Doubles.helloHash] ++ Doubles.truncatedHash :: [Doubles.helloHash] |}
  = (Some (if bool_decide (EOF = EOF) then Ok tt else Err EOF),
     (visit Doubles.collect [] (matching AnyObject [Doubles.helloObject]),
      {| oit_s := NewObjectStorage Doubles.truncatedDir Doubles.noCache; oit_t := AnyObject;
         oit_h := [Doubles.helloHash] |})).
Proof.
  apply (objectsIter_ForEach_stops_at_failed_read Doubles.collect []
           (NewObjectStorage Doubles.truncatedDir Doubles.noCache) AnyObject
           [Doubles.helloHash] [Doubles.helloObject] Doubles.truncatedHash EOF
           [Doubles.helloHash]).
  - constructor; [vm_compute; reflexivity|constructor].
  - vm_compute. reflexivity.
  - reflexivity.
Defined.

End FilesystemProofs.

